(** * OIDN core: execution graph, memory planner, weight repacker, tile
    planner and two SYCL kernels, embedded from

      src/core/graph.h, src/core/graph.cpp, src/core/unet_filter.cpp,
      src/core/sycl/sycl_upsample.cpp, src/core/sycl/sycl_conv_dpas.cpp

    C++ [int] values are embedded in [Z]: signed overflow is undefined
    behaviour, so the embedding describes the executions without it.
    [size_t] values are embedded in [Z] with the 64-bit wrap-around written
    out ([size_add], [size_sub]).  Pointers to [TensorAlloc] records are
    indices into [tensorAllocs] (the vector owns the records, so an index
    is a stable address); pointers to ops are the [opPtr] of the op. *)

From Stdlib Require Import ZArith Lia.
From stdpp Require Import base tactics option list sorting functions gmap strings.

Local Open Scope Z_scope.

(** ** Machine arithmetic *)

Definition SIZE_MAX : Z := 2 ^ 64 - 1.

Definition size_wrap (a : Z) : Z := a mod 2 ^ 64.
Definition size_add (a b : Z) : Z := size_wrap (a + b).
Definition size_sub (a b : Z) : Z := size_wrap (a - b).

(** Modelled from the spec: [ceil_div] and [round_up] are the helpers the
    spec calls [ceilDiv] and [roundUp]; their definitions are not under
    src/.  C++ integer division truncates, hence [Z.quot]. *)
Definition ceil_div (a b : Z) : Z := Z.quot (a + b - 1) b.
Definition round_up (a b : Z) : Z := ceil_div a b * b.

(** [0, 1, ..., n-1]: the values a loop variable takes in
    [for (int i = 0; i < n; ++i)]. *)
Definition range (n : Z) : list Z := Z.of_nat <$> seq 0 (Z.to_nat n).

(** ** Exceptions and results *)

Inductive ErrorCode := InvalidArgument | InvalidOperation.

Inductive Exception :=
| logic_error (what : string)
| invalid_argument (what : string)
| runtime_error (what : string)
| OidnException (code : ErrorCode) (what : string).

(** [Undefined] stands for undefined behaviour (a null or dangling
    pointer is dereferenced). *)
Inductive Result (A : Type) :=
| Ok (a : A)
| Throw (e : Exception)
| Undefined.
Arguments Ok {A} a.
Arguments Throw {A} e.
Arguments Undefined {A}.

Definition rbind {A B} (m : Result A) (k : A → Result B) : Result B :=
  match m with
  | Ok a => k a
  | Throw e => Throw e
  | Undefined => Undefined
  end.

#[global] Instance Result_bind : MBind Result := λ A B k m, rbind m k.
#[global] Instance Result_ret : MRet Result := λ A a, Ok a.

(** ** The graph (graph.h) *)

Module Activation.
Inductive t := None | ReLU.
End Activation.

Module PostOp.
Inductive t := None | Pool | Upsample.
End PostOp.

(** Modelled from the spec: the descriptor is declared outside src/; the
    graph reads its padded channel count, its logical channel count and
    its aligned byte size only. *)
Record TensorDesc := {
  C : Z;
  paddedC : Z;
  alignedSize : Z
}.

(** The kinds of op the builder creates, with the part of the descriptor
    each constructor call passes on. *)
Inductive OpKind :=
| InputProcess
| OutputProcess
| Conv (activation : Activation.t) (postOp : PostOp.t)
| ConcatConvCHW (activation : Activation.t)
| ConcatConvHWC (activation : Activation.t)
| Pool
| Upsample.

Record Op := {
  opPtr : nat;
  name : string;
  kind : OpKind;
  scratchAlignedSize : Z;
  supported : bool
}.

Record TensorAlloc := {
  desc : TensorDesc;
  byteSize : Z;
  firstOpID : Z;
  lastOpID : Z;
  next : option nat;
  prev : option nat;
  byteOffset : Z;
  tensor : option Z
}.

(** [TensorAlloc(desc, firstOpID)] *)
Definition newTensorAlloc (d : TensorDesc) (opID : Z) : TensorAlloc :=
  {| desc := d; byteSize := alignedSize d; firstOpID := opID; lastOpID := opID;
     next := None; prev := None; byteOffset := 0; tensor := None |}.

Definition set_lastOpID (v : Z) (a : TensorAlloc) : TensorAlloc :=
  {| desc := desc a; byteSize := byteSize a; firstOpID := firstOpID a; lastOpID := v;
     next := next a; prev := prev a; byteOffset := byteOffset a; tensor := tensor a |}.
Definition set_next (v : option nat) (a : TensorAlloc) : TensorAlloc :=
  {| desc := desc a; byteSize := byteSize a; firstOpID := firstOpID a; lastOpID := lastOpID a;
     next := v; prev := prev a; byteOffset := byteOffset a; tensor := tensor a |}.
Definition set_prev (v : option nat) (a : TensorAlloc) : TensorAlloc :=
  {| desc := desc a; byteSize := byteSize a; firstOpID := firstOpID a; lastOpID := lastOpID a;
     next := next a; prev := v; byteOffset := byteOffset a; tensor := tensor a |}.
Definition set_byteOffset (v : Z) (a : TensorAlloc) : TensorAlloc :=
  {| desc := desc a; byteSize := byteSize a; firstOpID := firstOpID a; lastOpID := lastOpID a;
     next := next a; prev := prev a; byteOffset := v; tensor := tensor a |}.
Definition set_tensor (v : option Z) (a : TensorAlloc) : TensorAlloc :=
  {| desc := desc a; byteSize := byteSize a; firstOpID := firstOpID a; lastOpID := lastOpID a;
     next := next a; prev := prev a; byteOffset := byteOffset a; tensor := v |}.

(** A queued lazy initializer, by the op whose closure it is. *)
Record LazyInit := { initOp : nat }.

(** A tensor of the weight map: its rank and its dimensions. *)
Record WeightTensor := { rank : Z; dims : list Z; weightByteSize : Z }.

Record Graph := {
  ops : list Op;
  scratch : option Z;
  opScratchByteSize : Z;
  tensorScratchByteSize : Z;
  constByteSize : Z;
  dirty : bool;
  finalized : bool;
  tensorAllocs : list TensorAlloc;
  tensorAllocsByOp : gmap nat nat;
  lazyInits : list LazyInit;
  weights : gmap string WeightTensor
}.

(** [Graph::Graph]: the member initializers of graph.h and the parsed
    weight map. *)
Definition newGraph (w : gmap string WeightTensor) : Graph :=
  {| ops := []; scratch := None; opScratchByteSize := 0; tensorScratchByteSize := 0;
     constByteSize := 0; dirty := false; finalized := false; tensorAllocs := [];
     tensorAllocsByOp := ∅; lazyInits := []; weights := w |}.

Definition with_allocs (A : list TensorAlloc) (g : Graph) : Graph :=
  {| ops := ops g; scratch := scratch g; opScratchByteSize := opScratchByteSize g;
     tensorScratchByteSize := tensorScratchByteSize g; constByteSize := constByteSize g;
     dirty := dirty g; finalized := finalized g; tensorAllocs := A;
     tensorAllocsByOp := tensorAllocsByOp g; lazyInits := lazyInits g; weights := weights g |}.

(** *** [Graph::addOp] *)

(** The body of the loop over [srcOps] of the three-argument [addOp]:
    the state is the allocation records and the local [prev]. *)
Definition addOp_src (opID : Z) (concatSrcs : bool) (byOp : gmap nat nat)
    (st : list TensorAlloc * option nat) (srcOp : Op)
    : Result (list TensorAlloc * option nat) :=
  let '(A, prv) := st in
  match byOp !! opPtr srcOp with
  | None => Undefined
  | Some cur =>
    match A !! cur with
    | None => Undefined
    | Some _ =>
      let A1 := alter (set_lastOpID opID) cur A in
      match prv with
      | Some p =>
        if concatSrcs then
          match A1 !! cur, A1 !! p with
          | Some c, Some q =>
            if bool_decide (is_Some (prev c) ∨ is_Some (next q)) then
              Throw (logic_error "invalid tensor allocation constraints")
            else
              let A2 := alter (set_prev (Some p)) cur A1 in
              let A3 := alter (set_next (Some cur)) p A2 in
              Ok (A3, Some cur)
          | _, _ => Undefined
          end
        else Ok (A1, Some cur)
      | None => Ok (A1, Some cur)
      end
    end
  end.

Fixpoint addOp_srcs (opID : Z) (concatSrcs : bool) (byOp : gmap nat nat)
    (st : list TensorAlloc * option nat) (srcOps : list Op)
    : Result (list TensorAlloc * option nat) :=
  match srcOps with
  | [] => Ok st
  | s :: rest =>
    st' ← addOp_src opID concatSrcs byOp st s;
    addOp_srcs opID concatSrcs byOp st' rest
  end.

(** [void Graph::addOp(op, srcOps, concatSrcs)] *)
Definition addOp (op : Op) (srcOps : list Op) (concatSrcs : bool) (g : Graph)
    : Result Graph :=
  if finalized g then Throw (logic_error "graph cannot be changed after finalization")
  else
    let opID := Z.of_nat (length (ops g)) in
    st ← addOp_srcs opID concatSrcs (tensorAllocsByOp g) (tensorAllocs g, None) srcOps;
    Ok {| ops := ops g ++ [op]; scratch := scratch g;
          opScratchByteSize := opScratchByteSize g;
          tensorScratchByteSize := tensorScratchByteSize g;
          constByteSize := constByteSize g;
          dirty := true; finalized := finalized g;
          tensorAllocs := st.1; tensorAllocsByOp := tensorAllocsByOp g;
          lazyInits := lazyInits g; weights := weights g |}.

(** [TensorAlloc* Graph::addOp(op, srcOps, dstDesc, concatSrcs)]: the
    record is appended and registered before the check of [finalized]. *)
Definition addOpDst (op : Op) (srcOps : list Op) (dstDesc : TensorDesc)
    (concatSrcs : bool) (g : Graph) : Result (nat * Graph) :=
  let opID := Z.of_nat (length (ops g)) in
  let dstAlloc := length (tensorAllocs g) in
  let g1 :=
    {| ops := ops g; scratch := scratch g;
       opScratchByteSize := opScratchByteSize g;
       tensorScratchByteSize := tensorScratchByteSize g;
       constByteSize := constByteSize g;
       dirty := dirty g; finalized := finalized g;
       tensorAllocs := tensorAllocs g ++ [newTensorAlloc dstDesc opID];
       tensorAllocsByOp := <[opPtr op := dstAlloc]> (tensorAllocsByOp g);
       lazyInits := lazyInits g; weights := weights g |} in
  g2 ← addOp op srcOps concatSrcs g1;
  Ok (dstAlloc, g2).

(** *** [Graph::planAllocations] *)

Record Chunk := {
  firstAlloc : nat;
  chunkFirstOpID : Z;
  chunkLastOpID : Z;
  chunkByteSize : Z
}.

(** The allocations visited by
    [for (a = first; a; a = a->next)], in order.  [None]: the walk does
    not end within [fuel] steps, or it leaves the vector. *)
Fixpoint chainFrom (A : list TensorAlloc) (fuel : nat) (cur : option nat)
    : option (list nat) :=
  match cur with
  | None => Some []
  | Some p =>
    match fuel with
    | O => None
    | S fuel' =>
      match A !! p with
      | None => None
      | Some a => (p ::.) <$> chainFrom A fuel' (next a)
      end
    end
  end.

(** The body of the inner loop of the chunk formation. *)
Definition chunk_add (A : list TensorAlloc) (c : Chunk) (p : nat) : Chunk :=
  match A !! p with
  | None => c
  | Some a =>
    {| firstAlloc := firstAlloc c;
       chunkFirstOpID := Z.min (chunkFirstOpID c) (firstOpID a);
       chunkLastOpID := Z.max (chunkLastOpID c) (lastOpID a);
       chunkByteSize := size_add (chunkByteSize c) (byteSize a) |}
  end.

Definition makeChunk (A : list TensorAlloc) (p : nat) (a : TensorAlloc) : option Chunk :=
  members ← chainFrom A (length A) (Some p);
  Some (foldl (chunk_add A)
          {| firstAlloc := p; chunkFirstOpID := firstOpID a;
             chunkLastOpID := lastOpID a; chunkByteSize := 0 |} members).

(** The first loop of [planAllocations], over the allocations [ps]. *)
Fixpoint formChunks (A : list TensorAlloc) (ps : list nat) : option (list Chunk) :=
  match ps with
  | [] => Some []
  | p :: rest =>
    match A !! p with
    | None => formChunks A rest
    | Some a =>
      match prev a with
      | Some _ => formChunks A rest
      | None =>
        c ← makeChunk A p a;
        cs ← formChunks A rest;
        Some (c :: cs)
      end
    end
  end.

(** The comparator handed to [std::sort]: [a.byteSize > b.byteSize]. *)
Definition chunk_before (a b : Chunk) : Prop := chunkByteSize b < chunkByteSize a.

(** [std::sort] is not stable: the order of chunks of equal size is
    unspecified.  [sortChunks] is any function that returns its argument
    permuted and sorted by the comparator. *)
Definition sorted_by_size (l : list Chunk) : Prop :=
  StronglySorted (λ a b, chunkByteSize b ≤ chunkByteSize a) l.

Definition is_chunk_sort (sortChunks : list Chunk → list Chunk) : Prop :=
  ∀ l, sortChunks l ≡ₚ l ∧ sorted_by_size (sortChunks l).

(** One such function: the stable insertion sort. *)
Fixpoint insertChunk (c : Chunk) (l : list Chunk) : list Chunk :=
  match l with
  | [] => [c]
  | d :: rest =>
    if chunkByteSize c <? chunkByteSize d then d :: insertChunk c rest
    else c :: d :: rest
  end.

Definition stableSortChunks (l : list Chunk) : list Chunk :=
  foldr insertChunk [] l.

(** The state of the search for the best gap. *)
Record Fit := {
  curByteOffset : Z;
  bestByteOffset : Z;
  bestGapByteSize : Z
}.

(** The body of the loop over [activeAllocs]. *)
Definition fit_step (A : list TensorAlloc) (c : Chunk) (s : Fit) (p : nat) : Fit :=
  match A !! p with
  | None => s
  | Some a =>
    if (lastOpID a <? chunkFirstOpID c) || (chunkLastOpID c <? firstOpID a) then s
    else
      let s1 :=
        if (size_add (curByteOffset s) (chunkByteSize c) <=? byteOffset a)
           && (size_sub (byteOffset a) (curByteOffset s) <? bestGapByteSize s)
        then {| curByteOffset := curByteOffset s;
                bestByteOffset := curByteOffset s;
                bestGapByteSize := size_sub (byteOffset a) (curByteOffset s) |}
        else s in
      {| curByteOffset := Z.max (curByteOffset s1) (size_add (byteOffset a) (byteSize a));
         bestByteOffset := bestByteOffset s1;
         bestGapByteSize := bestGapByteSize s1 |}
  end.

Definition findOffset (A : list TensorAlloc) (active : list nat) (c : Chunk) : Z :=
  let s := foldl (fit_step A c)
             {| curByteOffset := 0; bestByteOffset := SIZE_MAX;
                bestGapByteSize := SIZE_MAX |} active in
  if bestByteOffset s =? SIZE_MAX then curByteOffset s else bestByteOffset s.

Definition offsetOf (A : list TensorAlloc) (p : nat) : Z :=
  from_option byteOffset 0 (A !! p).

(** [std::upper_bound] with the comparator [a->byteOffset < b->byteOffset]
    on a list sorted by offset, followed by [insert]: [p] goes before the
    first allocation whose offset is greater than its own. *)
Fixpoint insertActive (A : list TensorAlloc) (p : nat) (active : list nat) : list nat :=
  match active with
  | [] => [p]
  | q :: rest =>
    if offsetOf A p <? offsetOf A q then p :: q :: rest
    else q :: insertActive A p rest
  end.

(** The planner's state inside the loop over the chunks. *)
Record Plan := {
  allocs : list TensorAlloc;
  activeAllocs : list nat;
  offset : Z
}.

(** The body of the loop over the members of a chunk. *)
Definition expand_step (s : Plan) (p : nat) : Plan :=
  let A := alter (set_byteOffset (offset s)) p (allocs s) in
  {| allocs := A;
     activeAllocs := insertActive A p (activeAllocs s);
     offset := size_add (offset s) (from_option byteSize 0 (A !! p)) |}.

(** The body of the loop over the sorted chunks; the state is the
    allocation records, [activeAllocs] and [tensorScratchByteSize]. *)
Definition placeChunk (st : list TensorAlloc * list nat * Z) (c : Chunk)
    : option (list TensorAlloc * list nat * Z) :=
  let '(A, active, hw) := st in
  let best := findOffset A active c in
  members ← chainFrom A (length A) (Some (firstAlloc c));
  let s := foldl expand_step {| allocs := A; activeAllocs := active; offset := best |} members in
  Some (allocs s, activeAllocs s, Z.max hw (offset s)).

Fixpoint placeChunks (st : list TensorAlloc * list nat * Z) (cs : list Chunk)
    : option (list TensorAlloc * list nat * Z) :=
  match cs with
  | [] => Some st
  | c :: rest => st' ← placeChunk st c; placeChunks st' rest
  end.

(** The last loop of [planAllocations]: the maximum of
    [op->getScratchAlignedSize()] over the ops. *)
Definition maxOpScratch (l : list Op) : Z :=
  foldl (λ m op, Z.max m (scratchAlignedSize op)) 0 l.

(** [planAllocations].  The maximum of the op scratch sizes is computed
    into a local variable of the same name as the member
    [opScratchByteSize]; the member is not assigned. *)
Definition planAllocationsWith (sortChunks : list Chunk → list Chunk) (g : Graph)
    : option Graph :=
  let A := tensorAllocs g in
  chunks ← formChunks A (seq 0 (length A));
  st ← placeChunks (A, [], 0) (sortChunks chunks);
  let opScratchByteSize_local := maxOpScratch (ops g) in
  Some {| ops := ops g; scratch := scratch g;
          opScratchByteSize := opScratchByteSize g;
          tensorScratchByteSize := st.2;
          constByteSize := constByteSize g;
          dirty := false; finalized := finalized g;
          tensorAllocs := st.1.1; tensorAllocsByOp := tensorAllocsByOp g;
          lazyInits := lazyInits g; weights := weights g |}.

Definition planAllocations : Graph → option Graph :=
  planAllocationsWith stableSortChunks.

(** [getWorkAmount], [isSupported] *)
Definition getWorkAmount (g : Graph) : Z := Z.of_nat (length (ops g)).

Definition isSupported (g : Graph) : bool := forallb supported (ops g).

(** [getScratchAlignedSize]: the value returned and the graph after the
    call. *)
Definition getScratchAlignedSizeWith (sortChunks : list Chunk → list Chunk) (g : Graph)
    : option (Z * Graph) :=
  g' ← (if dirty g then planAllocationsWith sortChunks g else Some g);
  Some (size_add (opScratchByteSize g') (tensorScratchByteSize g'), g').

Definition getScratchAlignedSize : Graph → option (Z * Graph) :=
  getScratchAlignedSizeWith stableSortChunks.

Definition setScratch (buf : Z) (g : Graph) : Graph :=
  {| ops := ops g; scratch := Some buf;
     opScratchByteSize := opScratchByteSize g;
     tensorScratchByteSize := tensorScratchByteSize g;
     constByteSize := constByteSize g;
     dirty := dirty g; finalized := finalized g;
     tensorAllocs := tensorAllocs g; tensorAllocsByOp := tensorAllocsByOp g;
     lazyInits := lazyInits g; weights := weights g |}.

(** [cleanup] *)
Definition cleanup (g : Graph) : Graph :=
  {| ops := ops g; scratch := scratch g;
     opScratchByteSize := opScratchByteSize g;
     tensorScratchByteSize := tensorScratchByteSize g;
     constByteSize := constByteSize g;
     dirty := dirty g; finalized := finalized g;
     tensorAllocs := []; tensorAllocsByOp := ∅;
     lazyInits := []; weights := weights g |}.

(** [clear]: [finalized] and [weights] are not among the members it
    resets. *)
Definition clear (g : Graph) : Graph :=
  let g1 := cleanup g in
  {| ops := []; scratch := None;
     opScratchByteSize := 0;
     tensorScratchByteSize := 0;
     constByteSize := 0;
     dirty := false; finalized := finalized g1;
     tensorAllocs := tensorAllocs g1; tensorAllocsByOp := tensorAllocsByOp g1;
     lazyInits := lazyInits g1; weights := weights g1 |}.

(** [finalize].  The tensors are views of the scratch buffer at
    [opScratchByteSize + byteOffset]; without a scratch buffer the call
    dereferences a null reference.  The lazy initializers and the ops'
    [finalize] hooks act on the ops, outside the graph's own members. *)
Definition finalizeWith (sortChunks : list Chunk → list Chunk) (g : Graph)
    : option (Result Graph) :=
  g1 ← (if dirty g then planAllocationsWith sortChunks g else Some g);
  match scratch g1 with
  | None =>
    Some (if bool_decide (tensorAllocs g1 = []) then
            Ok {| ops := ops g1; scratch := scratch g1;
                  opScratchByteSize := opScratchByteSize g1;
                  tensorScratchByteSize := tensorScratchByteSize g1;
                  constByteSize := constByteSize g1;
                  dirty := dirty g1; finalized := true;
                  tensorAllocs := []; tensorAllocsByOp := ∅;
                  lazyInits := []; weights := ∅ |}
          else Undefined)
  | Some _ =>
    let A := (λ a, set_tensor (Some (size_add (opScratchByteSize g1) (byteOffset a))) a)
               <$> tensorAllocs g1 in
    let g2 := cleanup (with_allocs A g1) in
    Some (Ok {| ops := ops g2; scratch := scratch g2;
                opScratchByteSize := opScratchByteSize g2;
                tensorScratchByteSize := tensorScratchByteSize g2;
                constByteSize := constByteSize g2;
                dirty := dirty g2; finalized := true;
                tensorAllocs := tensorAllocs g2; tensorAllocsByOp := tensorAllocsByOp g2;
                lazyInits := lazyInits g2; weights := ∅ |})
  end.

Definition finalize : Graph → option (Result Graph) := finalizeWith stableSortChunks.

(** *** Well-formed allocation records *)

Definition nextOf (A : list TensorAlloc) (p : nat) : option nat := A !! p ≫= next.
Definition prevOf (A : list TensorAlloc) (p : nat) : option nat := A !! p ≫= prev.
Definition sizeOf (A : list TensorAlloc) (p : nat) : Z := from_option byteSize 0 (A !! p).
Definition firstOf (A : list TensorAlloc) (p : nat) : Z := from_option firstOpID 0 (A !! p).
Definition lastOf (A : list TensorAlloc) (p : nat) : Z := from_option lastOpID 0 (A !! p).

(** The allocation reached from [p] by [k] steps along [next]. *)
Fixpoint iter_next (A : list TensorAlloc) (k : nat) (p : nat) : option nat :=
  match k with
  | O => Some p
  | S k' => nextOf A p ≫= iter_next A k'
  end.

Definition totalByteSize (A : list TensorAlloc) : Z :=
  foldr (λ a acc, byteSize a + acc) 0 A.

(** The records a sequence of op additions leaves when no chain
    constraint is violated: lifetimes are intervals, [prev] and [next]
    mirror each other (so a record has at most one predecessor and one
    successor), no record reaches itself along [next], and the sizes are
    [size_t] values whose sum is one (below the planner's sentinel). *)
Record well_formed (A : list TensorAlloc) : Prop := {
  wf_lifetime : ∀ p a, A !! p = Some a → firstOpID a ≤ lastOpID a;
  wf_next_prev : ∀ p q, nextOf A p = Some q → prevOf A q = Some p;
  wf_prev_next : ∀ p q, prevOf A q = Some p → nextOf A p = Some q;
  wf_acyclic : ∀ p k, (0 < k)%nat → iter_next A k p ≠ Some p;
  wf_size : ∀ p a, A !! p = Some a → 0 ≤ byteSize a;
  wf_total : totalByteSize A < SIZE_MAX
}.

(** The lifetimes of [p] and [q] overlap. *)
Definition lifetimes_overlap (A : list TensorAlloc) (p q : nat) : Prop :=
  firstOf A p ≤ lastOf A q ∧ firstOf A q ≤ lastOf A p.

(** The byte extents [[byteOffset, byteOffset + byteSize)] of [p] and [q]
    have no byte in common. *)
Definition extents_disjoint (A : list TensorAlloc) (p q : nat) : Prop :=
  ∀ b, ¬ (offsetOf A p ≤ b < offsetOf A p + sizeOf A p ∧
          offsetOf A q ≤ b < offsetOf A q + sizeOf A q).

(** The walk [for (a = first; a; a = a->next)] as a relation. *)
Inductive is_chain (A : list TensorAlloc) : option nat → list nat → Prop :=
| is_chain_nil : is_chain A None []
| is_chain_cons p a ms :
    A !! p = Some a → is_chain A (next a) ms → is_chain A (Some p) (p :: ms).

(** A decision procedure for [well_formed]: the checks of one record,
    and the whole vector. *)
Definition well_formed_at (A : list TensorAlloc) (p : nat) (a : TensorAlloc) : bool :=
  (firstOpID a <=? lastOpID a) && (0 <=? byteSize a)
  && match next a with
     | Some q => bool_decide (prevOf A q = Some p)
     | None => true
     end
  && match prev a with
     | Some q => bool_decide (nextOf A q = Some p)
     | None => true
     end
  && bool_decide (iter_next A (length A) p = None).

Definition well_formedb (A : list TensorAlloc) : bool :=
  forallb (λ p, from_option (well_formed_at A p) true (A !! p)) (seq 0 (length A))
  && (totalByteSize A <? SIZE_MAX).

(** The planner changes [byteOffset] only: what two records share
    otherwise. *)
Definition same_links (a0 a : TensorAlloc) : Prop :=
  byteSize a = byteSize a0 ∧ firstOpID a = firstOpID a0 ∧ lastOpID a = lastOpID a0 ∧
  next a = next a0 ∧ prev a = prev a0.

Definition sumSizes (A : list TensorAlloc) (l : list nat) : Z :=
  foldr (λ p acc, sizeOf A p + acc) 0 l.
Arguments sumSizes : simpl never.

(** One extent ends where the other begins, or before. *)
Definition separated (A : list TensorAlloc) (p q : nat) : Prop :=
  offsetOf A p + sizeOf A p ≤ offsetOf A q ∨ offsetOf A q + sizeOf A q ≤ offsetOf A p.

Definition sorted_by_offset (A : list TensorAlloc) (l : list nat) : Prop :=
  StronglySorted Z.le (offsetOf A <$> l).

(** The negation of the planner's test
    [alloc->lastOpID < chunk.firstOpID || alloc->firstOpID > chunk.lastOpID]. *)
Definition chunk_overlaps (A : list TensorAlloc) (c : Chunk) (q : nat) : Prop :=
  ¬ (lastOf A q < chunkFirstOpID c ∨ chunkLastOpID c < firstOf A q).

Definition placed_below (A : list TensorAlloc) (S : Z) (q : nat) : Prop :=
  is_Some (A !! q) ∧ 0 ≤ offsetOf A q ∧ 0 ≤ sizeOf A q ∧ offsetOf A q + sizeOf A q ≤ S.

(** What the chunk formation records about the chain of a head. *)
Definition chunk_of (A : list TensorAlloc) (c : Chunk) : Prop :=
  ∃ ms, prevOf A (firstAlloc c) = None ∧
    is_chain A (Some (firstAlloc c)) ms ∧
    chunkByteSize c = sumSizes A ms ∧
    ∀ p, p ∈ ms → chunkFirstOpID c ≤ firstOf A p ∧ lastOf A p ≤ chunkLastOpID c.

(** The invariant of the loop over the sorted chunks: [heads] are the
    first allocations of the chunks placed so far. *)
Definition plan_inv (A0 : list TensorAlloc) (heads : list nat)
    (st : list TensorAlloc * list nat * Z) : Prop :=
  let '(A, act, hw) := st in
  Forall2 same_links A0 A ∧
  NoDup act ∧
  (∀ p, p ∈ act ↔
     ∃ h ms, h ∈ heads ∧ prevOf A0 h = None ∧ is_chain A0 (Some h) ms ∧ p ∈ ms) ∧
  sorted_by_offset A act ∧
  (∀ q, q ∈ act → 0 ≤ offsetOf A q ∧ offsetOf A q + sizeOf A0 q ≤ sumSizes A0 act) ∧
  (∀ p q, p ∈ act → q ∈ act → p ≠ q → lifetimes_overlap A0 p q → separated A p q) ∧
  (∀ p q, p ∈ act → nextOf A0 p = Some q →
     offsetOf A q = offsetOf A p + sizeOf A0 p) ∧
  (∀ q, q ∈ act → offsetOf A q + sizeOf A0 q ≤ hw).

(** *** The op-adding operations *)

(** What the graph reads from an op the engine has created: the
    descriptor of its destination, its scratch size and whether it is
    supported.  The op classes are declared outside src/. *)
Record OpInfo := {
  infoDstDesc : TensorDesc;
  infoScratch : Z;
  infoSupported : bool
}.

Record ConvDesc := {
  convSrcDesc : TensorDesc;
  convWeightDims : list Z; convWeightPaddedDims : list Z;
  convBiasDims : list Z; convBiasPaddedDims : list Z;
  convActivation : Activation.t;
  convPostOp : PostOp.t
}.

Record ConcatConvDesc := {
  concatSrc1Desc : TensorDesc; concatSrc2Desc : TensorDesc;
  concatWeightDims : list Z; concatWeightPaddedDims : list Z;
  concatBiasDims : list Z; concatBiasPaddedDims : list Z;
  concatActivation : Activation.t
}.

(** The engine and its device, as the builder uses them. *)
Record Engine := {
  isConvSupported : PostOp.t → bool;
  getTensorBlockC : Z;
  tensorLayoutIsHWC : bool;
  (** [TensorDesc::getByteSize] of a weight or bias descriptor with the
      given padded dimensions, in the device's data type *)
  getByteSize : list Z → Z;
  newInputProcess : Z * Z * Z → Z → OpInfo;
  newOutputProcess : TensorDesc → OpInfo;
  newConv : ConvDesc → OpInfo;
  newConcatConvCHW : ConcatConvDesc → OpInfo;
  newConcatConvHWC : ConcatConvDesc → OpInfo;
  (** the byte sizes of [getWeight1Desc()] and [getWeight2Desc()] *)
  concatConvHWCWeightBytes : ConcatConvDesc → Z * Z;
  newPool : TensorDesc → OpInfo;
  newUpsample : TensorDesc → OpInfo
}.

(** The op the engine returns, named: its address is modelled by the
    number of ops the graph holds when it is created, which no other op
    of the graph shares. *)
Definition mkOp (g : Graph) (n : string) (k : OpKind) (info : OpInfo) : Op :=
  {| opPtr := length (ops g); name := n; kind := k;
     scratchAlignedSize := infoScratch info; supported := infoSupported info |}.

(** [lazyInits.push_back(...)] *)
Definition pushLazyInit (op : Op) (g : Graph) : Graph :=
  {| ops := ops g; scratch := scratch g;
     opScratchByteSize := opScratchByteSize g;
     tensorScratchByteSize := tensorScratchByteSize g;
     constByteSize := constByteSize g;
     dirty := dirty g; finalized := finalized g;
     tensorAllocs := tensorAllocs g; tensorAllocsByOp := tensorAllocsByOp g;
     lazyInits := lazyInits g ++ [{| initOp := opPtr op |}]; weights := weights g |}.

(** [constByteSize += n] *)
Definition addConstByteSize (n : Z) (g : Graph) : Graph :=
  {| ops := ops g; scratch := scratch g;
     opScratchByteSize := opScratchByteSize g;
     tensorScratchByteSize := tensorScratchByteSize g;
     constByteSize := size_add (constByteSize g) n;
     dirty := dirty g; finalized := finalized g;
     tensorAllocs := tensorAllocs g; tensorAllocsByOp := tensorAllocsByOp g;
     lazyInits := lazyInits g; weights := weights g |}.

(** [tensorAllocsByOp[srcOp.get()]->desc]: the map's [operator[]] yields
    a null pointer for an op that has no record. *)
Definition srcAllocDesc (g : Graph) (srcOp : Op) : Result TensorDesc :=
  match tensorAllocsByOp g !! opPtr srcOp with
  | None => Undefined
  | Some p =>
    match tensorAllocs g !! p with
    | None => Undefined
    | Some a => Ok (desc a)
    end
  end.

(** [weights[key]]: a null pointer for a missing key, dereferenced by
    the rank check. *)
Definition lookupWeight (g : Graph) (key : string) : Result WeightTensor :=
  match weights g !! key with
  | None => Undefined
  | Some t => Ok t
  end.

Definition dim (t : WeightTensor) (k : nat) : Z := default 0 (dims t !! k).

Definition addInputProcess (e : Engine) (n : string) (srcDims : Z * Z * Z) (alignment : Z)
    (g : Graph) : Result (Op * Graph) :=
  let info := newInputProcess e srcDims alignment in
  let op := mkOp g n InputProcess info in
  r ← addOpDst op [] (infoDstDesc info) false g;
  Ok (op, pushLazyInit op r.2).

Definition addOutputProcess (e : Engine) (n : string) (srcOp : Op) (g : Graph)
    : Result (Op * Graph) :=
  srcDesc ← srcAllocDesc g srcOp;
  let info := newOutputProcess e srcDesc in
  let op := mkOp g n OutputProcess info in
  g1 ← addOp op [srcOp] false g;
  Ok (op, pushLazyInit op g1).

Definition addPool (e : Engine) (n : string) (srcOp : Op) (g : Graph)
    : Result (Op * Graph) :=
  srcDesc ← srcAllocDesc g srcOp;
  let info := newPool e srcDesc in
  let op := mkOp g n Pool info in
  r ← addOpDst op [srcOp] (infoDstDesc info) false g;
  Ok (op, pushLazyInit op r.2).

Definition addUpsample (e : Engine) (n : string) (srcOp : Op) (g : Graph)
    : Result (Op * Graph) :=
  srcDesc ← srcAllocDesc g srcOp;
  let info := newUpsample e srcDesc in
  let op := mkOp g n Upsample info in
  r ← addOpDst op [srcOp] (infoDstDesc info) false g;
  Ok (op, pushLazyInit op r.2).

(** [addConv] from the weight lookup on: the engine supports the
    convolution as requested.  The [||] of the rank check does not
    evaluate its second operand when the first holds: the bias pointer
    is dereferenced only for a weight of rank 4. *)
Definition addConvOp (e : Engine) (n : string) (srcOp : Op)
    (activation : Activation.t) (postOp : PostOp.t) (g : Graph) : Result (Op * Graph) :=
  weight ← lookupWeight g (n +:+ ".weight");
  if negb (rank weight =? 4) then
    Throw (invalid_argument "invalid convolution weight/bias")
  else
  bias ← lookupWeight g (n +:+ ".bias");
  if negb (rank bias =? 1) then
    Throw (invalid_argument "invalid convolution weight/bias")
  else
    let blockC := getTensorBlockC e in
    let paddedWeightDims :=
      [round_up (dim weight 0) blockC; round_up (dim weight 1) blockC;
       dim weight 2; dim weight 3] in
    let paddedBiasDims := [round_up (dim bias 0) blockC] in
    srcDesc ← srcAllocDesc g srcOp;
    let info := newConv e
      {| convSrcDesc := srcDesc;
         convWeightDims := dims weight; convWeightPaddedDims := paddedWeightDims;
         convBiasDims := dims bias; convBiasPaddedDims := paddedBiasDims;
         convActivation := activation; convPostOp := postOp |} in
    let conv := mkOp g n (Conv activation postOp) info in
    r ← addOpDst conv [srcOp] (infoDstDesc info) false g;
    Ok (conv, addConstByteSize
                (size_add (getByteSize e paddedWeightDims) (getByteSize e paddedBiasDims))
                (pushLazyInit conv r.2)).

(** [addConv]: a fused convolution the engine does not support is split
    into two ops. *)
Definition addConv (e : Engine) (n : string) (srcOp : Op)
    (activation : Activation.t) (postOp : PostOp.t) (g : Graph) : Result (Op * Graph) :=
  match postOp with
  | PostOp.None => addConvOp e n srcOp activation postOp g
  | _ =>
    if negb (isConvSupported e postOp) then
      r ← addConvOp e n srcOp activation PostOp.None g;
      match postOp with
      | PostOp.Pool => addPool e (n +:+ "_pool") r.1 r.2
      | PostOp.Upsample => addUpsample e (n +:+ "_upsample") r.1 r.2
      | PostOp.None => Throw (invalid_argument "cannot split fused convolution")
      end
    else addConvOp e n srcOp activation postOp g
  end.

Definition addConcatConv (e : Engine) (n : string) (src1Op src2Op : Op)
    (activation : Activation.t) (g : Graph) : Result (Op * Graph) :=
  weight ← lookupWeight g (n +:+ ".weight");
  if negb (rank weight =? 4) then
    Throw (invalid_argument "invalid convolution weight/bias")
  else
  bias ← lookupWeight g (n +:+ ".bias");
  if negb (rank bias =? 1) then
    Throw (invalid_argument "invalid convolution weight/bias")
  else
    let blockC := getTensorBlockC e in
    src1Desc ← srcAllocDesc g src1Op;
    src2Desc ← srcAllocDesc g src2Op;
    let paddedWeightDims :=
      [round_up (dim weight 0) blockC; paddedC src1Desc + paddedC src2Desc;
       dim weight 2; dim weight 3] in
    let paddedBiasDims := [round_up (dim bias 0) blockC] in
    let concatConvDesc :=
      {| concatSrc1Desc := src1Desc; concatSrc2Desc := src2Desc;
         concatWeightDims := dims weight; concatWeightPaddedDims := paddedWeightDims;
         concatBiasDims := dims bias; concatBiasPaddedDims := paddedBiasDims;
         concatActivation := activation |} in
    if tensorLayoutIsHWC e then
      let info := newConcatConvHWC e concatConvDesc in
      let concatConv := mkOp g n (ConcatConvHWC activation) info in
      r ← addOpDst concatConv [src1Op; src2Op] (infoDstDesc info) false g;
      let wb := concatConvHWCWeightBytes e concatConvDesc in
      Ok (concatConv,
          addConstByteSize (size_add (size_add wb.1 wb.2) (getByteSize e paddedBiasDims))
            (pushLazyInit concatConv r.2))
    else
      let info := newConcatConvCHW e concatConvDesc in
      let concatConv := mkOp g n (ConcatConvCHW activation) info in
      r ← addOpDst concatConv [src1Op; src2Op] (infoDstDesc info) true g;
      Ok (concatConv,
          addConstByteSize
            (size_add (getByteSize e paddedWeightDims) (getByteSize e paddedBiasDims))
            (pushLazyInit concatConv r.2)).

(** ** The weight and bias repacker (graph.cpp) *)

Module TensorLayout.
Inductive t :=
| x | chw | hwc | oihw | ohwi | Chw8c | Chw16c
| OIhw8i8o | OIhw16i16o | OIhw2o8i8o2i | OIhw8i16o2i.

#[global] Instance eq_dec : EqDecision t.
Proof. solve_decision. Defined.
End TensorLayout.

Module DataType.
Inductive t := Float32 | Float16.

#[global] Instance eq_dec : EqDecision t.
Proof. solve_decision. Defined.
End DataType.

Module Reorder.

(** Modelled from the spec: the tensor and its accessors are declared
    outside src/.  A tensor has a layout, logical and padded dimensions
    and its elements; the extents of its accessors are its padded
    channel counts and its height and width (the spec: the destination
    has padded O and I, and the padded ranges are filled with zero). *)
Record Shape := {
  layout : TensorLayout.t;
  getO : Z; getI : Z; getH : Z; getW : Z;
  getPaddedO : Z; getPaddedI : Z;
  getX : Z; getPaddedX : Z
}.

(** The elements of a tensor of element type [T], by byte offset. *)
Record Tensor (T : Type) := {
  shape : Shape;
  data : Z → T
}.
Arguments shape {T} t.
Arguments data {T} t a.

Section reorder.
(** The two element types, the zero of [half] and the conversion
    [float(half)], which is exact. *)
Variables (half float : Type) (half_zero : half) (half_to_float : half → float).

(** A tensor with its data type: [getDataType()] is the constructor. *)
Inductive AnyTensor :=
| TensorF16 (t : Tensor half)
| TensorF32 (t : Tensor float).

Definition getDataType (t : AnyTensor) : DataType.t :=
  match t with TensorF16 _ => DataType.Float16 | TensorF32 _ => DataType.Float32 end.

Definition getShape (t : AnyTensor) : Shape :=
  match t with TensorF16 t => shape t | TensorF32 t => shape t end.

Definition getLayout (t : AnyTensor) : TensorLayout.t := layout (getShape t).

(** The byte offsets [TensorAccessor4D<T, layout>] and
    [TensorAccessor1D<T>] compute: they depend on the layout, the element
    type and the dimensions. *)
Variable address4D : DataType.t → Shape → Z → Z → Z → Z → Z.
Variable address1D : DataType.t → Shape → Z → Z.

(** The indices of the four nested loops of [tryReorderWeight], in the
    order the loops visit them. *)
Definition weightIndices (dst : Shape) (dstI : Z) : list (Z * Z * Z * Z) :=
  o ← range (getPaddedO dst);
  i ← range dstI;
  h ← range (getH dst);
  w ← range (getW dst);
  [(o, i, h, w)].

(** The loops of [tryReorderWeight<SrcT, DstT, srcLayout, dstLayout>],
    after its checks: [cast] is the conversion [DstT(value)]. *)
Definition reorderWeightLoops {SrcT DstT : Type} (srcT dstT : DataType.t)
    (zero : SrcT) (cast : SrcT → DstT)
    (src : Tensor SrcT) (srcBeginI srcI : Z)
    (dst : Tensor DstT) (dstBeginI dstI : Z) : Tensor DstT :=
  {| shape := shape dst;
     data :=
       foldl (λ m '(o, i, h, w),
                let value :=
                  if (o <? getPaddedO (shape src)) && (i <? srcI)
                  then data src (address4D srcT (shape src) o (srcBeginI + i) h w)
                  else zero in
                <[address4D dstT (shape dst) o (dstBeginI + i) h w := cast value]> m)
             (data dst) (weightIndices (shape dst) dstI) |}.

(** [tryReorderWeight<SrcT, DstT, srcLayout, dstLayout>]: [None] stands
    for the result [false]. *)
Definition tryReorderWeight (srcT dstT : DataType.t) (srcLayout dstLayout : TensorLayout.t)
    (src : AnyTensor) (srcBeginI srcI : Z) (dst : AnyTensor) (dstBeginI dstI : Z)
    : option AnyTensor :=
  if bool_decide (getDataType src ≠ srcT) || bool_decide (getLayout src ≠ srcLayout)
     || bool_decide (getDataType dst ≠ dstT) || bool_decide (getLayout dst ≠ dstLayout)
  then None
  else
    match src, dst with
    | TensorF16 s, TensorF16 d =>
      Some (TensorF16 (reorderWeightLoops DataType.Float16 DataType.Float16
                         half_zero id s srcBeginI srcI d dstBeginI dstI))
    | TensorF16 s, TensorF32 d =>
      Some (TensorF32 (reorderWeightLoops DataType.Float16 DataType.Float32
                         half_zero half_to_float s srcBeginI srcI d dstBeginI dstI))
    | _, _ => None
    end.

(** The instantiations [reorderWeight] tries, in its order. *)
Definition weightInstances : list (DataType.t * DataType.t * TensorLayout.t * TensorLayout.t) :=
  [ (DataType.Float16, DataType.Float16, TensorLayout.oihw, TensorLayout.oihw);
    (DataType.Float16, DataType.Float32, TensorLayout.oihw, TensorLayout.oihw);
    (DataType.Float16, DataType.Float16, TensorLayout.oihw, TensorLayout.OIhw8i8o);
    (DataType.Float16, DataType.Float32, TensorLayout.oihw, TensorLayout.OIhw8i8o);
    (DataType.Float16, DataType.Float16, TensorLayout.oihw, TensorLayout.OIhw16i16o);
    (DataType.Float16, DataType.Float32, TensorLayout.oihw, TensorLayout.OIhw16i16o);
    (DataType.Float16, DataType.Float16, TensorLayout.oihw, TensorLayout.OIhw2o8i8o2i);
    (DataType.Float16, DataType.Float16, TensorLayout.oihw, TensorLayout.OIhw8i16o2i);
    (DataType.Float16, DataType.Float16, TensorLayout.oihw, TensorLayout.ohwi);
    (DataType.Float16, DataType.Float32, TensorLayout.oihw, TensorLayout.ohwi) ].

(** The chain of [||]: the first instantiation that returns [true]. *)
Fixpoint firstReorder
    (l : list (DataType.t * DataType.t * TensorLayout.t * TensorLayout.t))
    (src : AnyTensor) (srcBeginI srcI : Z) (dst : AnyTensor) (dstBeginI dstI : Z)
    : option AnyTensor :=
  match l with
  | [] => None
  | (srcT, dstT, srcLayout, dstLayout) :: rest =>
    match tryReorderWeight srcT dstT srcLayout dstLayout src srcBeginI srcI dst dstBeginI dstI with
    | Some d => Some d
    | None => firstReorder rest src srcBeginI srcI dst dstBeginI dstI
    end
  end.

(** [reorderWeight]: the destination after the call. *)
Definition reorderWeight (src : AnyTensor) (srcBeginI srcI : Z)
    (dst : AnyTensor) (dstBeginI dstI : Z) : Result AnyTensor :=
  match firstReorder weightInstances src srcBeginI srcI dst dstBeginI dstI with
  | Some d => Ok d
  | None => Throw (logic_error "unsupported weight layout or data type")
  end.

(** The two loops of [tryReorderBias<SrcT, DstT>]. *)
Definition reorderBiasLoops {SrcT DstT : Type} (srcT dstT : DataType.t)
    (zero : SrcT) (cast : SrcT → DstT) (src : Tensor SrcT) (dst : Tensor DstT)
    : Tensor DstT :=
  let srcX := getX (shape src) in
  let m1 :=
    foldl (λ m x0, <[address1D dstT (shape dst) x0
                      := cast (data src (address1D srcT (shape src) x0))]> m)
          (data dst) (range srcX) in
  let m2 :=
    foldl (λ m x0, <[address1D dstT (shape dst) x0 := cast zero]> m)
          m1 ((λ k, srcX + k) <$> range (getPaddedX (shape dst) - srcX)) in
  {| shape := shape dst; data := m2 |}.

Definition tryReorderBias (srcT dstT : DataType.t) (src dst : AnyTensor) : option AnyTensor :=
  if bool_decide (getDataType src ≠ srcT) || bool_decide (getDataType dst ≠ dstT) then None
  else
    match src, dst with
    | TensorF16 s, TensorF16 d =>
      Some (TensorF16 (reorderBiasLoops DataType.Float16 DataType.Float16 half_zero id s d))
    | TensorF16 s, TensorF32 d =>
      Some (TensorF32 (reorderBiasLoops DataType.Float16 DataType.Float32
                         half_zero half_to_float s d))
    | _, _ => None
    end.

(** [reorderBias] *)
Definition reorderBias (src dst : AnyTensor) : Result AnyTensor :=
  let r :=
    if bool_decide (getLayout src = TensorLayout.x) && bool_decide (getLayout dst = TensorLayout.x)
    then
      match tryReorderBias DataType.Float16 DataType.Float16 src dst with
      | Some d => Some d
      | None => tryReorderBias DataType.Float16 DataType.Float32 src dst
      end
    else None in
  match r with
  | Some d => Ok d
  | None => Throw (logic_error "unsupported bias layout or data type")
  end.

(** The value of element [(o, i, h, w)] of a tensor, as a [float]. *)
Definition value4D (t : AnyTensor) (o i h w : Z) : float :=
  match t with
  | TensorF16 t => half_to_float (data t (address4D DataType.Float16 (shape t) o i h w))
  | TensorF32 t => data t (address4D DataType.Float32 (shape t) o i h w)
  end.

Definition value1D (t : AnyTensor) (x0 : Z) : float :=
  match t with
  | TensorF16 t => half_to_float (data t (address1D DataType.Float16 (shape t) x0))
  | TensorF32 t => data t (address1D DataType.Float32 (shape t) x0)
  end.

(** The supported combinations of the spec (section 4.1). *)
Definition weightSupported (src dst : AnyTensor) : Prop :=
  getDataType src = DataType.Float16 ∧ getLayout src = TensorLayout.oihw ∧
  ((getLayout dst ∈ [TensorLayout.oihw; TensorLayout.OIhw8i8o; TensorLayout.OIhw16i16o;
                     TensorLayout.ohwi])
   ∨ (getLayout dst ∈ [TensorLayout.OIhw2o8i8o2i; TensorLayout.OIhw8i16o2i]
      ∧ getDataType dst = DataType.Float16)).

Definition biasSupported (src dst : AnyTensor) : Prop :=
  getDataType src = DataType.Float16 ∧
  getLayout src = TensorLayout.x ∧ getLayout dst = TensorLayout.x.

(** The accessor of [t] gives different elements different offsets. *)
Definition distinct4D (t : AnyTensor) : Prop :=
  ∀ o i h w o' i' h' w',
    0 ≤ o < getPaddedO (getShape t) → 0 ≤ i < getPaddedI (getShape t) →
    0 ≤ h < getH (getShape t) → 0 ≤ w < getW (getShape t) →
    0 ≤ o' < getPaddedO (getShape t) → 0 ≤ i' < getPaddedI (getShape t) →
    0 ≤ h' < getH (getShape t) → 0 ≤ w' < getW (getShape t) →
    address4D (getDataType t) (getShape t) o i h w
    = address4D (getDataType t) (getShape t) o' i' h' w' →
    (o, i, h, w) = (o', i', h', w').

Definition distinct1D (t : AnyTensor) : Prop :=
  ∀ x0 x1,
    0 ≤ x0 → 0 ≤ x1 →
    address1D (getDataType t) (getShape t) x0 = address1D (getDataType t) (getShape t) x1 →
    x0 = x1.

End reorder.
End Reorder.

(** ** The filter (unet_filter.cpp) *)

Module UNetFilter.

(** Modelled from the spec: image formats and the image descriptor are
    declared outside src/; the spec names the formats Float3 and Half3
    and the dimensions. *)
Inductive Format := Float | Float2 | Float3 | Float4 | Half | Half2 | Half3 | Half4.

#[global] Instance Format_eq_dec : EqDecision Format.
Proof. solve_decision. Defined.

Record Image := { format : Format; imageW : Z; imageH : Z }.

(** A data blob: null when its pointer is. *)
Record Data := { ptr : Z; size : Z }.

Definition Data_valid (d : Data) : bool := negb (ptr d =? 0).

Definition nullData : Data := {| ptr := 0; size := 0 |}.

(** The built-in weight blobs, [weightsBlobs]. *)
Record WeightsBlobs := {
  ldr : Data; hdr_blob : Data; dir : Data;
  ldr_alb : Data; hdr_alb : Data;
  ldr_alb_nrm : Data; hdr_alb_nrm : Data;
  ldr_calb_cnrm : Data; hdr_calb_cnrm : Data;
  alb : Data; nrm : Data
}.

(** The members of the filter that [checkParams] and [getWeights] read. *)
Record Params := {
  color : option Image;
  albedo : option Image;
  normal : option Image;
  output : option Image;
  hdr : bool;
  srgb : bool;
  directional : bool;
  cleanAux : bool;
  userWeightsBlob : Data;
  weightsBlobs : WeightsBlobs
}.

Definition present (i : option Image) : bool := bool_decide (is_Some i).

(** [img && img->getFormat() != fmt] *)
Definition format_differs (i : option Image) (fmt : Format) : bool :=
  match i with
  | Some im => negb (bool_decide (format im = fmt))
  | None => false
  end.

(** [img && (img->getW() != output->getW() || img->getH() != output->getH())] *)
Definition size_differs (i : option Image) (out : Image) : bool :=
  match i with
  | Some im => negb (imageW im =? imageW out) || negb (imageH im =? imageH out)
  | None => false
  end.

Definition checkParams (f : Params) : Result unit :=
  if negb (present (color f)) && negb (present (albedo f)) && negb (present (normal f)) then
    Throw (OidnException InvalidOperation "input image not specified")
  else
  match output f with
  | None => Throw (OidnException InvalidOperation "output image not specified")
  | Some out =>
    if (format_differs (color f) Float3 || format_differs (albedo f) Float3
        || format_differs (normal f) Float3)
       && (format_differs (color f) Half3 || format_differs (albedo f) Half3
           || format_differs (normal f) Half3) then
      Throw (OidnException InvalidOperation "unsupported input image format")
    else if negb (bool_decide (format out = Float3)) && negb (bool_decide (format out = Half3)) then
      Throw (OidnException InvalidOperation "unsupported output image format")
    else if size_differs (color f) out || size_differs (albedo f) out
            || size_differs (normal f) out then
      Throw (OidnException InvalidOperation "image size mismatch")
    else if directional f && (hdr f || srgb f) then
      Throw (OidnException InvalidOperation
               "directional and hdr/srgb modes cannot be enabled at the same time")
    else if hdr f && srgb f then
      Throw (OidnException InvalidOperation
               "hdr and srgb modes cannot be enabled at the same time")
    else Ok ()
  end.

(** The selection of the built-in blob in [getWeights]; a branch that
    assigns nothing leaves the null blob. *)
Definition selectWeights (f : Params) : Result Data :=
  let w := weightsBlobs f in
  if present (color f) then
    if negb (present (albedo f)) && negb (present (normal f)) then
      Ok (if directional f then dir w else if hdr f then hdr_blob w else ldr w)
    else if present (albedo f) && negb (present (normal f)) then
      Ok (if hdr f then hdr_alb w else ldr_alb w)
    else if present (albedo f) && present (normal f) then
      if cleanAux f then Ok (if hdr f then hdr_calb_cnrm w else ldr_calb_cnrm w)
      else Ok (if hdr f then hdr_alb_nrm w else ldr_alb_nrm w)
    else Ok nullData
  else
    if present (albedo f) && negb (present (normal f)) then
      if hdr f then
        Throw (OidnException InvalidOperation "hdr mode is not supported for albedo filtering")
      else Ok (alb w)
    else if negb (present (albedo f)) && present (normal f) then
      if hdr f || srgb f then
        Throw (OidnException InvalidOperation
                 "hdr and srgb modes are not supported for normal filtering")
      else Ok (nrm w)
    else
      Throw (OidnException InvalidOperation "invalid combination of input features").

Definition getWeights (f : Params) : Result Data :=
  weightsBlob ← selectWeights f;
  let weightsBlob := if Data_valid (userWeightsBlob f) then userWeightsBlob f else weightsBlob in
  if negb (Data_valid weightsBlob) then
    Throw (OidnException InvalidOperation "unsupported combination of input features")
  else Ok weightsBlob.

(** The head of [init]: [checkParams] and then [getWeights]. *)
Definition initWeights (f : Params) : Result Data :=
  _ ← checkParams f; getWeights f.

(** The selection table of the spec (section 6.3): the key of a row is
    (color, albedo, normal, hdr, directional, cleanAux). *)
Definition Row : Type := bool * bool * bool * bool * bool * bool.

Definition selectionTable (w : WeightsBlobs) : list (Row * Data) :=
  [ ((true, false, false, false, false, false), ldr w);
    ((true, false, false, true, false, false), hdr_blob w);
    ((true, false, false, false, true, false), dir w);
    ((true, true, false, false, false, false), ldr_alb w);
    ((true, true, false, true, false, false), hdr_alb w);
    ((true, true, true, false, false, false), ldr_alb_nrm w);
    ((true, true, true, true, false, false), hdr_alb_nrm w);
    ((true, true, true, false, false, true), ldr_calb_cnrm w);
    ((true, true, true, true, false, true), hdr_calb_cnrm w);
    ((false, true, false, false, false, false), alb w);
    ((false, false, true, false, false, false), nrm w) ].

(** The configuration of a filter, as the table keys it. *)
Definition configOf (f : Params) : Row :=
  (present (color f), present (albedo f), present (normal f),
   hdr f, directional f, cleanAux f).

(** The configuration with the flags the selection does not read
    dropped: [directional] is read when color is the only input,
    [cleanAux] when color, albedo and normal are all present. *)
Definition effectiveConfigOf (f : Params) : Row :=
  (present (color f), present (albedo f), present (normal f),
   hdr f,
   directional f && present (color f) && negb (present (albedo f)) && negb (present (normal f)),
   cleanAux f && present (color f) && present (albedo f) && present (normal f)).

(** *** Tile planning ([init]) and the tile loop ([execute]) *)

Record Tiling := {
  tileH : Z; tileW : Z;
  tileCountH : Z; tileCountW : Z
}.

(** How the loop of [init] is left: its condition is false, or the
    fallback branch builds the model without a memory limit. *)
Inductive LoopExit :=
| Fits (t : Tiling)
| Fallback (t : Tiling).

Definition exitTiling (e : LoopExit) : Tiling :=
  match e with Fits t => t | Fallback t => t end.

Section tiles.
(** The image size, the members [overlap] and [alignment] (set by the
    concrete filter class, outside src/), the number of engines, the
    memory limit, and the outcome of [buildModel] for a tiling and a
    limit ([None]: the default argument, no limit); the outcome depends
    on the engine's ops and buffers. *)
Variables (H W overlap alignment numEngines maxMemoryByteSize : Z).
Variable buildModelResult : Tiling → option Z → bool.

(** [buildModel] returns [true] at once for an empty image. *)
Definition buildModel (t : Tiling) (maxMemory : option Z) : bool :=
  if (H <=? 0) || (W <=? 0) then true else buildModelResult t maxMemory.

Definition minTileSize : Z := 3 * overlap.

Definition initialTiling : Tiling :=
  {| tileH := round_up H alignment; tileW := round_up W alignment;
     tileCountH := 1; tileCountW := 1 |}.

(** One pass through the body of the [while] loop of [init];
    [inl]: the loop goes on with the tiling, [inr]: it is left. *)
Definition subdivide (t : Tiling) : Tiling + Result LoopExit :=
  if (minTileSize <? tileH t) && (tileW t <? tileH t) then
    let n := tileCountH t + 1 in
    inl {| tileH := Z.max (round_up (ceil_div (H - 2 * overlap) n) alignment + 2 * overlap)
                          minTileSize;
           tileW := tileW t; tileCountH := n; tileCountW := tileCountW t |}
  else if minTileSize <? tileW t then
    let n := tileCountW t + 1 in
    inl {| tileH := tileH t;
           tileW := Z.max (round_up (ceil_div (W - 2 * overlap) n) alignment + 2 * overlap)
                          minTileSize;
           tileCountH := tileCountH t; tileCountW := n |}
  else if buildModel t None then inr (Ok (Fallback t))
  else inr (Throw (runtime_error "could not build filter model")).

(** The [while] loop of [init]; [None]: it is still running after
    [fuel] passes. *)
Fixpoint initLoop (fuel : nat) (t : Tiling) : option (Result LoopExit) :=
  match fuel with
  | O => None
  | S fuel' =>
    if negb (Z.rem (tileCountH t * tileCountW t) numEngines =? 0)
       || negb (buildModel t (Some maxMemoryByteSize)) then
      match subdivide t with
      | inl t' => initLoop fuel' t'
      | inr r => Some r
      end
    else Some (Ok (Fits t))
  end.

(** The final number of tiles. *)
Definition finalTiling (t : Tiling) : Tiling :=
  {| tileH := tileH t; tileW := tileW t;
     tileCountH := if tileH t <? H then ceil_div (H - 2 * overlap) (tileH t - 2 * overlap) else 1;
     tileCountW := if tileW t <? W then ceil_div (W - 2 * overlap) (tileW t - 2 * overlap) else 1 |}.

(** The tile planning of [init]: the exit of the loop, with the final
    tile counts in its tiling. *)
Definition initTiles (fuel : nat) : option (Result LoopExit) :=
  match initLoop fuel initialTiling with
  | Some (Ok (Fits t)) => Some (Ok (Fits (finalTiling t)))
  | Some (Ok (Fallback t)) => Some (Ok (Fallback (finalTiling t)))
  | r => r
  end.

(** The arguments of the two [setTile] calls for a tile, with the
    loop variables [i], [j] and the instance the tile runs on. *)
Record TileCall := {
  tile_i : Z; tile_j : Z;
  instance : Z;
  in_h : Z; in_w : Z; in_alignOffsetH : Z; in_alignOffsetW : Z; in_H : Z; in_W : Z;
  out_srcH : Z; out_srcW : Z; out_dstH : Z; out_dstW : Z; out_H : Z; out_W : Z
}.

Definition tileCall (t : Tiling) (i j : Z) : TileCall :=
  let h := i * (tileH t - 2 * overlap) in
  let overlapBeginH := if 0 <? i then overlap else 0 in
  let overlapEndH := if i <? tileCountH t - 1 then overlap else 0 in
  let tileH1 := Z.min (H - h) (tileH t) in
  let tileH2 := tileH1 - overlapBeginH - overlapEndH in
  let alignOffsetH := tileH t - round_up tileH1 alignment in
  let w := j * (tileW t - 2 * overlap) in
  let overlapBeginW := if 0 <? j then overlap else 0 in
  let overlapEndW := if j <? tileCountW t - 1 then overlap else 0 in
  let tileW1 := Z.min (W - w) (tileW t) in
  let tileW2 := tileW1 - overlapBeginW - overlapEndW in
  let alignOffsetW := tileW t - round_up tileW1 alignment in
  let tileIndex := i * tileCountW t + j in
  {| tile_i := i; tile_j := j;
     instance := Z.rem tileIndex numEngines;
     in_h := h; in_w := w;
     in_alignOffsetH := alignOffsetH; in_alignOffsetW := alignOffsetW;
     in_H := tileH1; in_W := tileW1;
     out_srcH := alignOffsetH + overlapBeginH; out_srcW := alignOffsetW + overlapBeginW;
     out_dstH := h + overlapBeginH; out_dstW := w + overlapBeginW;
     out_H := tileH2; out_W := tileW2 |}.

(** The tile loop of [execute], in row-major order. *)
Definition executeTiles (t : Tiling) : list TileCall :=
  if (H <=? 0) || (W <=? 0) then []
  else i ← range (tileCountH t); j ← range (tileCountW t); [tileCall t i j].

(** The pixel (y, x) lies in the output rectangle of a tile. *)
Definition in_output (c : TileCall) (y x : Z) : Prop :=
  out_dstH c ≤ y < out_dstH c + out_H c ∧ out_dstW c ≤ x < out_dstW c + out_W c.

End tiles.

(** *** Float parameters and the guard of [execute] *)

Section params.
(** [float] *)
Context {float : Type}.

(** The members [setFloat], [getFloat] and [execute] touch, and the
    warnings handed to the device. *)
Record FilterState := {
  inputScale : float;
  filterDirty : bool;
  warnings : list string
}.

(** [name == "inputScale" || name == "hdrScale"] *)
Definition isInputScale (n : string) : bool :=
  String.eqb n "inputScale" || String.eqb n "hdrScale".

Definition setFloat (n : string) (value : float) (st : FilterState) : FilterState :=
  if isInputScale n then
    {| inputScale := value; filterDirty := true; warnings := warnings st |}
  else
    {| inputScale := inputScale st; filterDirty := true;
       warnings := warnings st ++ ["unknown filter parameter or type mismatch"] |}.

Definition getFloat (n : string) (st : FilterState) : Result float :=
  if isInputScale n then Ok (inputScale st)
  else Throw (OidnException InvalidArgument "unknown filter parameter or type mismatch").

(** [execute]: the check of [dirty], and then the tile loop. *)
Definition execute (H W overlap alignment numEngines : Z) (t : Tiling) (st : FilterState)
    : Result (list TileCall) :=
  if filterDirty st then
    Throw (OidnException InvalidOperation "changes to the filter are not committed")
  else Ok (executeTiles H W overlap alignment numEngines t).

End params.

(** *** The model graph ([buildModel]) *)

(** The op additions of [buildModel] on the graph of one instance: the
    input and output ops and the graph. *)
Definition buildGraph (e : Engine) (inputDims : Z * Z * Z) (alignment : Z) (g : Graph)
    : Result (Op * Op * Graph) :=
  inputProcess ← addInputProcess e "input" inputDims alignment g;
  encConv0 ← addConv e "enc_conv0" inputProcess.1 Activation.ReLU PostOp.None inputProcess.2;
  pool1 ← addConv e "enc_conv1" encConv0.1 Activation.ReLU PostOp.Pool encConv0.2;
  pool2 ← addConv e "enc_conv2" pool1.1 Activation.ReLU PostOp.Pool pool1.2;
  pool3 ← addConv e "enc_conv3" pool2.1 Activation.ReLU PostOp.Pool pool2.2;
  pool4 ← addConv e "enc_conv4" pool3.1 Activation.ReLU PostOp.Pool pool3.2;
  encConv5a ← addConv e "enc_conv5a" pool4.1 Activation.ReLU PostOp.None pool4.2;
  upsample4 ← addConv e "enc_conv5b" encConv5a.1 Activation.ReLU PostOp.Upsample encConv5a.2;
  decConv4a ← addConcatConv e "dec_conv4a" upsample4.1 pool3.1 Activation.ReLU upsample4.2;
  upsample3 ← addConv e "dec_conv4b" decConv4a.1 Activation.ReLU PostOp.Upsample decConv4a.2;
  decConv3a ← addConcatConv e "dec_conv3a" upsample3.1 pool2.1 Activation.ReLU upsample3.2;
  upsample2 ← addConv e "dec_conv3b" decConv3a.1 Activation.ReLU PostOp.Upsample decConv3a.2;
  decConv2a ← addConcatConv e "dec_conv2a" upsample2.1 pool1.1 Activation.ReLU upsample2.2;
  upsample1 ← addConv e "dec_conv2b" decConv2a.1 Activation.ReLU PostOp.Upsample decConv2a.2;
  decConv1a ← addConcatConv e "dec_conv1a" upsample1.1 inputProcess.1 Activation.ReLU upsample1.2;
  decConv1b ← addConv e "dec_conv1b" decConv1a.1 Activation.ReLU PostOp.None decConv1a.2;
  decConv0 ← addConv e "dec_conv0" decConv1b.1 Activation.None PostOp.None decConv1b.2;
  outputProcess ← addOutputProcess e "output" decConv0.1 decConv0.2;
  Ok (inputProcess.1, outputProcess.1, outputProcess.2).

End UNetFilter.

(** ** Tensors in memory *)

Module TensorMemory.

(** Memory holds one element of type [T] at each byte address at which
    an element starts. *)
Section memory.
Context {T : Type}.
(** [sizeof(T)] *)
Variable sizeofT : Z.

(** [storeBlock]: the elements of [v] go to [p], [p + sizeof(T)], ... *)
Fixpoint storeBlock (m : Z → T) (p : Z) (v : list T) : Z → T :=
  match v with
  | [] => m
  | x :: v' => storeBlock (<[p := x]> m) (p + sizeofT) v'
  end.

(** [loadBlock<T, N>] *)
Definition loadBlock (m : Z → T) (p : Z) (n : nat) : list T :=
  (λ k : nat, m (p + Z.of_nat k * sizeofT)) <$> seq 0 n.

(** Modelled from the spec: [TensorAccessor3D<T, Chw16c>] is declared
    outside src/.  The layout is the blocked one of the spec's data model
    ([Chw16c]: channel blocks of [B] channels, then rows, then pixels,
    then the channels of the block); strides are in bytes, [C] is the
    padded channel count. *)
Record TensorAccessor3D := {
  ptr : Z;
  C : Z; H : Z; W : Z;
  hStride : Z; wStride : Z
}.

(** [B]: the channels of a block. *)
Variable B : Z.

Definition denseAccessor (p c h w : Z) : TensorAccessor3D :=
  {| ptr := p; C := c; H := h; W := w;
     hStride := w * (B * sizeofT); wStride := B * sizeofT |}.

(** The address of [acc(c, h, w)]. *)
Definition address (acc : TensorAccessor3D) (c h w : Z) : Z :=
  ptr acc + ((c / B) * H acc + h) * hStride acc + w * wStride acc + (c mod B) * sizeofT.

(** The bytes of the tensor: [[ptr, ptr + byteSize)]. *)
Definition byteSize (acc : TensorAccessor3D) : Z :=
  (C acc / B) * H acc * hStride acc.

End memory.
End TensorMemory.

(** ** The upsampling kernel (sycl_upsample.cpp) *)

Module SYCLUpsample.
Import TensorMemory.

Section kernel.
Context {T : Type}.
Variables (sizeofT B : Z).

(** [size_t] multiplication. *)
Definition size_mul (a b : Z) : Z := size_wrap (a * b).

(** [SYCLUpsampleKernel::operator()(hSrc, wSrc)] *)
Definition kernel (src dst : TensorAccessor3D) (m : Z → T) (hSrc wSrc : Z) : Z → T :=
  let hSrcOffset := size_mul hSrc (hStride src) in
  let wSrcOffset := size_mul wSrc (wStride src) in
  let srcOffset := size_add hSrcOffset wSrcOffset in
  let dstOffset := size_add (size_mul hSrcOffset 4) (size_mul wSrcOffset 2) in
  let srcPtr := ptr src + srcOffset in
  let dstPtr0 := ptr dst + dstOffset in
  let dstPtr2 := dstPtr0 + hStride dst in
  let v := loadBlock sizeofT m srcPtr (Z.to_nat B) in
  let v2 := v ++ v in
  let m1 := storeBlock sizeofT m dstPtr0 v2 in
  storeBlock sizeofT m1 dstPtr2 v2.

(** The work items of [runESIMDKernel(n0, n1, kernel)], in row-major
    order.  The items write different addresses and read none that an
    item writes when the tensors do not overlap, so the order does not
    matter. *)
Definition workItems (n0 n1 : Z) : list (Z * Z) :=
  i ← range n0; j ← range n1; [(i, j)].

(** [SYCLUpsample::run] *)
Definition run (src dst : TensorAccessor3D) (m : Z → T) : Z → T :=
  foldl (λ m' '(hSrc, wSrc), kernel src dst m' hSrc wSrc) m
    (workItems (H src * (C src / B)) (W src)).

(** The destination of an upsampling of [src], at [p]: twice the height
    and twice the width (the descriptor is derived by the [Upsample]
    base class, outside src/). *)
Definition upsampleDst (src : TensorAccessor3D) (p : Z) : TensorAccessor3D :=
  denseAccessor sizeofT B p (C src) (2 * H src) (2 * W src).

End kernel.
End SYCLUpsample.

(** ** The DPAS convolution (sycl_conv_dpas.cpp) *)

Module SYCLConvDPAS.
Import TensorMemory.

Section kernel.
(** [T] is the tensor element type, [AT] the accumulator type. *)
Context {T AT : Type}.
Variable sizeofT : Z.
(** The arithmetic the kernel uses: the zero of each type, [+] and [max]
    on [T], and the conversion of an accumulator to [T]. *)
Variables (zero : T) (zeroAT : AT) (add max : T → T → T) (convert : AT → T).
(** The [dpas] intrinsic: accumulators, weights and sources in, the
    accumulators out. *)
Variable dpas : list AT → list T → list T → list AT.

Definition execWidth : Z := 8.
Definition dpasDepth : Z := 8.
Definition dpasRepeat : Z := 8.

Definition blockOH : Z := 5.
Definition blockOW : Z := dpasRepeat.
Definition blockIW : Z := blockOW + 3 - 1.

Definition blockC : Z := 16.
Definition blockAC : Z := execWidth.
Definition numBlockAC : Z := blockC / blockAC.

(** [blk.select<n, 1>(i)] *)
Definition select (n i : Z) (blk : list T) : list T :=
  take (Z.to_nat n) (drop (Z.to_nat i) blk).

(** [loadLargeBlock]: [n] elements in chunks of 256 bytes. *)
Definition loadLargeBlock (m : Z → T) (p : Z) (n : Z) : list T :=
  let chunkSize := 256 / sizeofT in
  let numChunks := n / chunkSize in
  let remSize := n mod chunkSize in
  mjoin ((λ i, loadBlock sizeofT m (p + i * chunkSize * sizeofT) (Z.to_nat chunkSize))
           <$> range numChunks)
  ++ (if remSize =? 0 then []
      else loadBlock sizeofT m (p + numChunks * chunkSize * sizeofT) (Z.to_nat remSize)).

(** [storeLargeBlock] *)
Definition storeLargeBlock (m : Z → T) (p : Z) (blk : list T) : Z → T :=
  let chunkSize := 256 / sizeofT in
  let n := Z.of_nat (length blk) in
  let numChunks := n / chunkSize in
  let remSize := n mod chunkSize in
  let m1 :=
    foldl (λ m' i, storeBlock sizeofT m' (p + i * chunkSize * sizeofT)
                     (select chunkSize (i * chunkSize) blk))
          m (range numChunks) in
  if remSize =? 0 then m1
  else storeBlock sizeofT m1 (p + numChunks * chunkSize * sizeofT)
         (select remSize (numChunks * chunkSize) blk).

(** The kernel's tensors.  [TensorAccessor4D] and [TensorAccessor1D] are
    declared outside src/: the weight accessor is the address of each
    of its elements, the bias accessor the address of its first. *)
Record SYCLConvDPASKernel := {
  src : TensorAccessor3D;
  weight : Z → Z → Z → Z → Z;
  bias : Z;
  dst : TensorAccessor3D
}.

Section item.
Variable k : SYCLConvDPASKernel.
Variable m : Z → T.

(** [loadRow] *)
Definition loadRow (ic ih iw : Z) : list T :=
  if (ih <? 0) || (H (src k) <=? ih) then replicate (Z.to_nat (blockIW * blockC)) zero
  else
    let srcPtr := address sizeofT blockC (src k) ic ih iw in
    if (0 <=? iw) && (iw + blockIW <=? W (src k)) then
      loadLargeBlock m srcPtr (blockIW * blockC)
    else
      mjoin ((λ biw,
                if (0 <=? iw + biw) && (iw + biw <? W (src k)) then
                  loadBlock sizeofT m (srcPtr + biw * blockC * sizeofT) (Z.to_nat blockC)
                else replicate (Z.to_nat blockC) zero)
             <$> range blockIW).

(** [accumVec[boh][i]] *)
Definition AccumVec : Type := Z * Z → list AT.

(** The multiply and accumulate of one kernel column [kw]. *)
Definition accumulateColumn (srcVec : list (list T)) (weightPtr : Z) (kh kw : Z)
    (accumVec : AccumVec) : AccumVec :=
  let weightVec (i : Z) :=
    loadBlock sizeofT m (weightPtr + (kw * numBlockAC + i) * (blockAC * blockC) * sizeofT)
      (Z.to_nat (blockAC * blockC)) in
  foldl (λ acc '(boh, i),
           <[(boh, i) :=
               dpas (acc (boh, i)) (weightVec i)
                 (select (blockOW * blockC) (kw * blockC)
                    (default [] (srcVec !! Z.to_nat ((kh + boh) mod blockOH))))]> acc)
        accumVec (boh ← range blockOH; i ← range numBlockAC; [(boh, i)]).

(** One input channel block: the rows in the ring buffer, then the
    kernel rows. *)
Definition accumulateBlock (oc oh ow ic : Z) (accumVec : AccumVec) : AccumVec :=
  let ih := oh - 1 in
  let iw := ow - 1 in
  let srcVec0 := ((λ boh, loadRow ic (ih + boh) iw) <$> range (blockOH - 1)) ++ [[]] in
  (foldl (λ '(srcVec, acc) kh,
            let srcVec' :=
              <[Z.to_nat ((kh + blockOH - 1) mod blockOH) :=
                  loadRow ic (ih + (kh + blockOH - 1)) iw]> srcVec in
            let weightPtr := weight k oc ic kh 0 in
            (srcVec', foldl (λ acc' kw, accumulateColumn srcVec' weightPtr kh kw acc')
                        acc (range 3)))
         (srcVec0, accumVec) (range 3)).2.

(** The accumulators after the loop over the input channel blocks. *)
Definition accumulate (oc oh ow : Z) : AccumVec :=
  foldl (λ acc ic, accumulateBlock oc oh ow ic acc)
        (λ _, replicate (Z.to_nat (blockOW * blockAC)) zeroAT)
        ((λ b, b * blockC) <$> range (ceil_div (C (src k)) blockC)).

(** [dstMat.select<blockOW, 1, blockAC, 1>(0, i * blockAC) = accumVec[boh][i]],
    for each [i]: the shuffle and the conversion of the accumulators of
    a row. *)
Definition shuffle (accumVec : AccumVec) (boh : Z) : list T :=
  foldl (λ dstVec '(i, bow, ac),
           <[Z.to_nat (bow * blockC + i * blockAC + ac) :=
               from_option convert zero
                 (accumVec (boh, i) !! Z.to_nat (bow * blockAC + ac))]> dstVec)
        (replicate (Z.to_nat (blockOW * blockC)) zero)
        (i ← range numBlockAC; bow ← range blockOW; ac ← range blockAC; [(i, bow, ac)]).

(** The output row [boh] as it is stored: shuffled, the bias added,
    then [max] with 0. *)
Definition outputRow (accumVec : AccumVec) (biasVec : list T) (boh : Z) : list T :=
  let dstVec := shuffle accumVec boh in
  let dstVec := zip_with add dstVec (mjoin (replicate (Z.to_nat blockOW) biasVec)) in
  (λ x, max x zero) <$> dstVec.

(** The store of an output row. *)
Definition storeRow (m' : Z → T) (oc oh ow boh : Z) (dstVec : list T) : Z → T :=
  let dstPtr := address sizeofT blockC (dst k) oc (oh + boh) ow in
  if ow + blockOW <=? W (dst k) then storeLargeBlock m' dstPtr dstVec
  else
    foldl (λ m'' bow,
             if ow + bow <? W (dst k) then
               storeBlock sizeofT m'' (dstPtr + bow * blockC * sizeofT)
                 (select blockC (bow * blockC) dstVec)
             else m'')
          m' (range blockOW).

(** The loop over the output rows, left at the first row below the
    tensor. *)
Fixpoint storeRows (accumVec : AccumVec) (biasVec : list T) (oc oh ow : Z)
    (bohs : list Z) (m' : Z → T) : Z → T :=
  match bohs with
  | [] => m'
  | boh :: rest =>
    if H (dst k) <=? oh + boh then m'
    else storeRows accumVec biasVec oc oh ow rest
           (storeRow m' oc oh ow boh (outputRow accumVec biasVec boh))
  end.

(** [SYCLConvDPASKernel::operator()], for the work item with local id
    [l0] and global ids [g1], [g2]. *)
Definition kernel (l0 g1 g2 : Z) : Z → T :=
  let oc := l0 * blockC in
  let oh := g1 * blockOH in
  let ow := g2 * blockOW in
  let accumVec := accumulate oc oh ow in
  let biasVec := loadBlock sizeofT m (bias k + oc * sizeofT) (Z.to_nat blockC) in
  storeRows accumVec biasVec oc oh ow (range blockOH) m.

End item.

(** The op: the descriptor the base class [Conv] keeps, and the tensors
    set before it runs.  The constructor's checks are on the layouts and
    data types of the descriptor, which [TensorAccessor3D] fixes here. *)
Record SYCLConvDPAS := {
  desc : ConvDesc;
  convSrc : option TensorAccessor3D;
  convWeight : option (Z → Z → Z → Z → Z);
  convBias : option Z;
  convDst : option TensorAccessor3D
}.

(** [globalSize] of [run], with the third dimension incremented when
    all three are odd. *)
Definition globalSize (d : TensorAccessor3D) : Z * Z * Z :=
  let g0 := C d / blockC in
  let g1 := ceil_div (H d) blockOH in
  let g2 := ceil_div (W d) blockOW in
  if negb (g0 mod 2 =? 0) && negb (g1 mod 2 =? 0) && negb (g2 mod 2 =? 0)
  then (g0, g1, g2 + 1) else (g0, g1, g2).

(** The work items.  The local size of the first dimension is the
    global one, so the local id of that dimension is the global id; the
    grouping of the other two does not change the items.  An item reads
    the source, the weights and the bias only, and the items write
    different addresses of the destination, so the order does not
    matter when the tensors do not overlap. *)
Definition workItems (g : Z * Z * Z) : list (Z * Z * Z) :=
  i0 ← range g.1.1; i1 ← range g.1.2; i2 ← range g.2; [(i0, i1, i2)].

(** [SYCLConvDPAS::run] *)
Definition run (conv : SYCLConvDPAS) (m : Z → T) : Result (Z → T) :=
  match convSrc conv, convWeight conv, convBias conv, convDst conv with
  | Some s, Some w, Some b, Some d =>
    let k := {| src := s; weight := w; bias := b; dst := d |} in
    Ok (foldl (λ m' '(i0, i1, i2), kernel k m' i0 i1 i2) m (workItems (globalSize d)))
  | _, _, _, _ => Throw (logic_error "convolution argument not set")
  end.

End kernel.
End SYCLConvDPAS.

(** * Proofs: loops *)

Lemma elem_of_range n i : i ∈ range n ↔ 0 ≤ i < n.
Proof.
  unfold range. rewrite list_elem_of_fmap. split.
  - intros (k & -> & Hk%elem_of_seq). lia.
  - intros Hi. exists (Z.to_nat i). split; [lia|]. apply elem_of_seq. lia.
Qed.

Lemma NoDup_range n : NoDup (range n).
Proof. unfold range. apply NoDup_fmap; [apply _ | apply NoDup_seq]. Qed.


(** * Proofs: the memory planner *)

(** ** Chains *)

Section chain_facts.
Variable A : list TensorAlloc.

Lemma nextOf_Some p q :
  nextOf A p = Some q ↔ ∃ a, A !! p = Some a ∧ next a = Some q.
Proof.
  unfold nextOf. destruct (A !! p) as [a|]; simpl.
  - split; [intros; eauto | intros (a' & [= <-] & ?); done].
  - split; [done | intros (a' & ? & ?); done].
Qed.

Lemma prevOf_Some p q :
  prevOf A q = Some p ↔ ∃ a, A !! q = Some a ∧ prev a = Some p.
Proof.
  unfold prevOf. destruct (A !! q) as [a|]; simpl.
  - split; [intros; eauto | intros (a' & [= <-] & ?); done].
  - split; [done | intros (a' & ? & ?); done].
Qed.

Lemma iter_next_add a b p :
  iter_next A (a + b) p = iter_next A a p ≫= iter_next A b.
Proof.
  revert p. induction a as [|a IH]; intros p; simpl; [done|].
  destruct (nextOf A p) as [q|]; simpl; [apply IH | done].
Qed.

Lemma iter_next_S_r k p :
  iter_next A (S k) p = iter_next A k p ≫= nextOf A.
Proof.
  replace (S k) with (k + 1)%nat by lia. rewrite iter_next_add.
  destruct (iter_next A k p) as [q|]; simpl; [|done].
  destruct (nextOf A q); done.
Qed.

Lemma is_chain_det cur ms1 ms2 :
  is_chain A cur ms1 → is_chain A cur ms2 → ms1 = ms2.
Proof.
  intros H1. revert ms2. induction H1 as [|p a ms Ha _ IH]; intros ms2 H2.
  - by inversion H2.
  - inversion H2 as [|p' a' ms' Ha' Hc']; subst.
    rewrite Ha in Ha'. injection Ha' as <-. f_equal. by apply IH.
Qed.

Lemma chainFrom_is_chain fuel cur ms :
  chainFrom A fuel cur = Some ms → is_chain A cur ms.
Proof.
  revert cur ms. induction fuel as [|fuel IH]; intros [p|] ms; simpl.
  - done.
  - intros [= <-]. constructor.
  - destruct (A !! p) as [a|] eqn:Ha; [|done].
    destruct (chainFrom A fuel (next a)) as [ms'|] eqn:Hc; simpl; [|done].
    intros [= <-]. econstructor; eauto.
  - intros [= <-]. constructor.
Qed.

Lemma is_chain_chainFrom fuel cur ms :
  is_chain A cur ms → (length ms ≤ fuel)%nat → chainFrom A fuel cur = Some ms.
Proof.
  intros Hc. revert fuel. induction Hc as [|p a ms Ha _ IH]; intros fuel Hlen.
  - by destruct fuel.
  - destruct fuel as [|fuel]; simpl in *; [lia|].
    rewrite Ha. rewrite IH by lia. done.
Qed.

Lemma is_chain_lookup cur ms :
  is_chain A cur ms → ∀ p, p ∈ ms → is_Some (A !! p).
Proof.
  induction 1 as [|p a ms Ha _ IH]; intros q Hq.
  - by apply elem_of_nil in Hq.
  - apply elem_of_cons in Hq as [->|Hq]; eauto.
Qed.

(** The suffix of a chain at one of its members is the chain of that member. *)
Lemma is_chain_suffix cur ms p :
  is_chain A cur ms → p ∈ ms → ∃ ms1 ms2, ms = ms1 ++ p :: ms2 ∧ is_chain A (Some p) (p :: ms2).
Proof.
  induction 1 as [|q a ms Ha Hc IH]; intros Hp.
  - by apply elem_of_nil in Hp.
  - apply elem_of_cons in Hp as [->|Hp].
    + exists [], ms. split; [done|]. econstructor; eauto.
    + destruct (IH Hp) as (ms1 & ms2 & -> & Hc').
      exists (q :: ms1), ms2. done.
Qed.

Lemma is_chain_NoDup cur ms : is_chain A cur ms → NoDup ms.
Proof.
  induction 1 as [|p a ms Ha Hc IH]; [constructor|].
  constructor; [|done]. intros Hp.
  destruct (is_chain_suffix _ _ _ Hc Hp) as (ms1 & ms2 & -> & Hc').
  assert (Hc2 : is_chain A (Some p) (p :: ms1 ++ p :: ms2)) by (econstructor; eauto).
  pose proof (is_chain_det _ _ _ Hc' Hc2) as Heq.
  apply (f_equal length) in Heq. simpl in Heq. rewrite length_app in Heq. simpl in Heq. lia.
Qed.

Lemma NoDup_bounded_length (l : list nat) (n : nat) :
  NoDup l → (∀ p, p ∈ l → (p < n)%nat) → (length l ≤ n)%nat.
Proof.
  intros Hnd Hb.
  assert (l ⊆+ seq 0 n) as Hsub.
  { apply NoDup_submseteq; [done|]. intros p Hp. apply elem_of_seq. specialize (Hb p Hp). lia. }
  apply submseteq_length in Hsub. by rewrite length_seq in Hsub.
Qed.

Lemma is_chain_length cur ms : is_chain A cur ms → (length ms ≤ length A)%nat.
Proof.
  intros Hc. apply NoDup_bounded_length; [by eapply is_chain_NoDup|].
  intros p Hp. destruct (is_chain_lookup _ _ Hc p Hp) as [a Ha].
  by apply lookup_lt_Some in Ha.
Qed.

Lemma chainFrom_complete cur ms :
  is_chain A cur ms → chainFrom A (length A) cur = Some ms.
Proof. intros Hc. apply is_chain_chainFrom; [done|]. by eapply is_chain_length. Qed.

(** Consecutive members are linked by [next]. *)
Lemma is_chain_next cur ms1 p q ms2 :
  is_chain A cur (ms1 ++ p :: q :: ms2) → nextOf A p = Some q.
Proof.
  revert cur. induction ms1 as [|m ms1 IH]; intros cur Hc; simpl in *.
  - inversion Hc as [|p' a ms' Ha Hc']; subst.
    inversion Hc' as [|q' b ms'' Hb Hc'' Hn]; subst.
    apply nextOf_Some. eauto.
  - inversion Hc; subst. eauto.
Qed.

Lemma is_chain_last cur ms1 p :
  is_chain A cur (ms1 ++ [p]) → nextOf A p = None.
Proof.
  revert cur. induction ms1 as [|m ms1 IH]; intros cur Hc; simpl in *.
  - inversion Hc as [|p' a ms' Ha Hc']; subst.
    inversion Hc'. unfold nextOf. rewrite Ha. simpl. done.
  - inversion Hc; subst. eauto.
Qed.

Lemma is_chain_head p ms : is_chain A (Some p) ms → ∃ ms', ms = p :: ms'.
Proof. inversion 1; eauto. Qed.

End chain_facts.

(** ** Consequences of well-formedness *)

Section wf_facts.
Variable A : list TensorAlloc.
Hypothesis WF : well_formed A.

Lemma nextOf_in_range p q : nextOf A p = Some q → is_Some (A !! q).
Proof.
  intros Hn. apply (wf_next_prev A WF) in Hn.
  apply prevOf_Some in Hn as (a & Ha & _). eauto.
Qed.

Lemma iter_next_in_range k p q :
  is_Some (A !! p) → iter_next A k p = Some q → is_Some (A !! q).
Proof.
  revert p. induction k as [|k IH]; intros p Hp; simpl.
  - by intros [= <-].
  - destruct (nextOf A p) as [p'|] eqn:Hn; simpl; [|done].
    apply IH. by eapply nextOf_in_range.
Qed.

Lemma iter_next_prefix k t p z :
  (t ≤ k)%nat → iter_next A k p = Some z → is_Some (iter_next A t p).
Proof.
  intros Ht. replace k with (t + (k - t))%nat by lia. rewrite iter_next_add.
  destruct (iter_next A t p); [eauto | done].
Qed.

Lemma iter_next_falls_off p :
  is_Some (A !! p) → iter_next A (length A) p = None.
Proof.
  intros [a Hp].
  destruct (iter_next A (length A) p) as [z|] eqn:Hz; [exfalso | done].
  set (f := λ t : nat, default 0%nat (iter_next A t p)).
  set (xs := f <$> seq 0 (S (length A))).
  assert (NoDup xs) as Hnd.
  { apply NoDup_fmap_2_strong; [|apply NoDup_seq].
    assert (∀ t1 t2, (t1 < t2 ≤ length A)%nat → f t1 ≠ f t2) as Hlt.
    { intros t1 t2 Ht Heq. unfold f in Heq.
      destruct (iter_next_prefix (length A) t1 p z ltac:(lia) Hz) as [x1 Hx1].
      destruct (iter_next_prefix (length A) t2 p z ltac:(lia) Hz) as [x2 Hx2].
      rewrite Hx1, Hx2 in Heq. simpl in Heq. subst x2.
      replace t2 with (t1 + (t2 - t1))%nat in Hx2 by lia.
      rewrite iter_next_add, Hx1 in Hx2. simpl in Hx2.
      by apply (wf_acyclic A WF x1 (t2 - t1)%nat ltac:(lia)). }
    intros t1 t2 H1%elem_of_seq H2%elem_of_seq Heq.
    destruct (decide (t1 = t2)) as [|Hne]; [done|]. exfalso.
    destruct (decide (t1 < t2)%nat).
    - apply (Hlt t1 t2); [lia | done].
    - apply (Hlt t2 t1); [lia | done]. }
  assert (length xs ≤ length A)%nat as Hlen.
  { apply NoDup_bounded_length; [done|].
    intros x Hx. unfold xs in Hx. apply list_elem_of_fmap in Hx as (t & -> & Ht%elem_of_seq).
    unfold f. destruct (iter_next_prefix (length A) t p z ltac:(lia) Hz) as [x Hx].
    rewrite Hx. simpl.
    destruct (iter_next_in_range t p x ltac:(eauto) Hx) as [b Hb].
    by apply lookup_lt_Some in Hb. }
  unfold xs in Hlen. rewrite length_fmap, length_seq in Hlen. lia.
Qed.

Lemma chain_exists_aux k p :
  is_Some (A !! p) → iter_next A k p = None → ∃ ms, is_chain A (Some p) ms.
Proof.
  revert p. induction k as [|k IH]; intros p [a Ha]; simpl; [done|].
  intros Hn. unfold nextOf in Hn. rewrite Ha in Hn. simpl in Hn.
  destruct (next a) as [q|] eqn:Hq; simpl in Hn.
  - destruct (IH q) as [ms Hms]; [|done|].
    + apply (nextOf_in_range p). apply nextOf_Some. eauto.
    + exists (p :: ms). econstructor; [done|]. by rewrite Hq.
  - exists [p]. econstructor; [done|]. rewrite Hq. constructor.
Qed.

Lemma chain_exists p : is_Some (A !! p) → ∃ ms, is_chain A (Some p) ms.
Proof. intros Hp. eapply chain_exists_aux; [done | by apply iter_next_falls_off]. Qed.

Lemma is_chain_iter h ms p :
  is_chain A (Some h) ms → p ∈ ms → ∃ k, iter_next A k h = Some p.
Proof.
  revert h. induction ms as [|m ms IH]; intros h Hc Hp.
  - by apply elem_of_nil in Hp.
  - inversion Hc as [|h' a ms' Ha Hc']; subst.
    apply elem_of_cons in Hp as [->|Hp]; [by exists 0%nat|].
    destruct (next a) as [q|] eqn:Hq.
    + destruct (IH q Hc' Hp) as [k Hk]. exists (S k). simpl.
      unfold nextOf. rewrite Ha. simpl. by rewrite Hq.
    + inversion Hc'; subst. by apply elem_of_nil in Hp.
Qed.

Lemma iter_is_chain k h ms p :
  is_chain A (Some h) ms → iter_next A k h = Some p → p ∈ ms.
Proof.
  revert h ms. induction k as [|k IH]; intros h ms Hc; simpl.
  - intros [= <-]. inversion Hc. apply elem_of_cons. by left.
  - inversion Hc as [|h' a ms' Ha Hc']; subst.
    unfold nextOf. rewrite Ha. simpl.
    destruct (next a) as [q|]; simpl; [|done].
    intros Hk. apply elem_of_cons. right. by eapply IH.
Qed.

Lemma iter_next_head_unique k1 k2 h1 h2 p :
  prevOf A h1 = None → prevOf A h2 = None →
  iter_next A k1 h1 = Some p → iter_next A k2 h2 = Some p → h1 = h2.
Proof.
  intros Hh1 Hh2. revert k2 p. induction k1 as [|k1 IH]; intros k2 p H1 H2.
  - simpl in H1. injection H1 as ->. destruct k2 as [|k2].
    + simpl in H2. by injection H2.
    + rewrite iter_next_S_r in H2.
      destruct (iter_next A k2 h2) as [q|]; simpl in H2; [|done].
      apply (wf_next_prev A WF) in H2. congruence.
  - rewrite iter_next_S_r in H1.
    destruct (iter_next A k1 h1) as [q1|] eqn:Hq1; simpl in H1; [|done].
    apply (wf_next_prev A WF) in H1.
    destruct k2 as [|k2].
    + simpl in H2. injection H2 as ->. congruence.
    + rewrite iter_next_S_r in H2.
      destruct (iter_next A k2 h2) as [q2|] eqn:Hq2; simpl in H2; [|done].
      apply (wf_next_prev A WF) in H2.
      assert (q1 = q2) as -> by congruence.
      by eapply IH.
Qed.

(** Chains of distinct heads share no allocation. *)
Lemma chains_disjoint h1 h2 ms1 ms2 p :
  prevOf A h1 = None → prevOf A h2 = None →
  is_chain A (Some h1) ms1 → is_chain A (Some h2) ms2 →
  p ∈ ms1 → p ∈ ms2 → h1 = h2.
Proof.
  intros Hh1 Hh2 Hc1 Hc2 Hp1 Hp2.
  destruct (is_chain_iter _ _ _ Hc1 Hp1) as [k1 Hk1].
  destruct (is_chain_iter _ _ _ Hc2 Hp2) as [k2 Hk2].
  by eapply iter_next_head_unique.
Qed.

(** The predecessor of a member of a head's chain is a member too. *)
Lemma chain_prev_mem h ms p q :
  prevOf A h = None → is_chain A (Some h) ms →
  q ∈ ms → prevOf A q = Some p → p ∈ ms.
Proof.
  intros Hh Hc Hq Hprev.
  destruct (is_chain_iter _ _ _ Hc Hq) as [k Hk].
  destruct k as [|k].
  - simpl in Hk. injection Hk as ->. congruence.
  - rewrite iter_next_S_r in Hk.
    destruct (iter_next A k h) as [q'|] eqn:Hq'; simpl in Hk; [|done].
    apply (wf_next_prev A WF) in Hk.
    assert (p = q') as -> by congruence.
    by eapply iter_is_chain.
Qed.

(** Every allocation is a member of the chain of a head. *)
Lemma chain_of_head_aux m p ms :
  is_chain A (Some p) ms → (length A - length ms ≤ m)%nat →
  ∃ h hs, prevOf A h = None ∧ is_Some (A !! h) ∧ is_chain A (Some h) hs ∧ p ∈ hs.
Proof.
  revert p ms. induction m as [|m IH]; intros p ms Hc Hlen.
  - inversion Hc as [|p' a ms' Ha Hc']; subst.
    destruct (prev a) as [y|] eqn:Hy.
    + assert (nextOf A y = Some p) as Hn.
      { apply (wf_prev_next A WF). apply prevOf_Some. eauto. }
      apply nextOf_Some in Hn as (b & Hb & Hnb).
      assert (is_chain A (Some y) (y :: p :: ms')) as Hcy.
      { econstructor; [done|]. rewrite Hnb. done. }
      apply is_chain_length in Hcy. simpl in *. lia.
    + exists p, (p :: ms'). repeat split; eauto.
      * unfold prevOf. rewrite Ha. done.
      * apply elem_of_cons. by left.
  - inversion Hc as [|p' a ms' Ha Hc']; subst.
    destruct (prev a) as [y|] eqn:Hy.
    + assert (nextOf A y = Some p) as Hn.
      { apply (wf_prev_next A WF). apply prevOf_Some. eauto. }
      apply nextOf_Some in Hn as (b & Hb & Hnb).
      assert (is_chain A (Some y) (y :: p :: ms')) as Hcy.
      { econstructor; [done|]. rewrite Hnb. done. }
      destruct (IH y _ Hcy) as (h & hs & Hh & Hin & Hch & Hyh).
      { simpl in *. lia. }
      exists h, hs. repeat split; try done.
      destruct (is_chain_suffix _ _ _ _ Hch Hyh) as (hs1 & hs2 & -> & Hsuf).
      pose proof (is_chain_det _ _ _ _ Hsuf Hcy) as Heq. injection Heq as ->.
      apply elem_of_app. right. apply elem_of_cons. right. apply elem_of_cons. by left.
    + exists p, (p :: ms'). repeat split; eauto.
      * unfold prevOf. rewrite Ha. done.
      * apply elem_of_cons. by left.
Qed.

Lemma chain_of_head p :
  is_Some (A !! p) →
  ∃ h hs, prevOf A h = None ∧ is_Some (A !! h) ∧ is_chain A (Some h) hs ∧ p ∈ hs.
Proof.
  intros Hp. destruct (chain_exists p Hp) as [ms Hms].
  by eapply (chain_of_head_aux (length A)); [|lia].
Qed.

End wf_facts.

(** ** Sizes, offsets and sorted insertion *)

Lemma size_add_small a b : 0 ≤ a → 0 ≤ b → a + b < 2 ^ 64 → size_add a b = a + b.
Proof. intros. unfold size_add, size_wrap. apply Z.mod_small. lia. Qed.

Lemma separated_disjoint A p q : separated A p q → extents_disjoint A p q.
Proof. unfold separated, extents_disjoint. intros Hs b. lia. Qed.

Lemma sumSizes_app A l1 l2 : sumSizes A (l1 ++ l2) = sumSizes A l1 + sumSizes A l2.
Proof. induction l1 as [|p l1 IH]; [done|]. unfold sumSizes in *. simpl. lia. Qed.

Lemma sumSizes_cons A p l : sumSizes A (p :: l) = sizeOf A p + sumSizes A l.
Proof. done. Qed.

Section sizes.
Variable A : list TensorAlloc.
Hypothesis Hnonneg : ∀ p a, A !! p = Some a → 0 ≤ byteSize a.

Lemma sizeOf_nonneg p : 0 ≤ sizeOf A p.
Proof. unfold sizeOf. destruct (A !! p) as [a|] eqn:Ha; simpl; [eauto | done]. Qed.

Lemma sumSizes_nonneg l : 0 ≤ sumSizes A l.
Proof.
  induction l as [|p l IH]; [done|]. rewrite sumSizes_cons.
  pose proof (sizeOf_nonneg p). lia.
Qed.

Lemma sumSizes_submseteq l1 l2 : l1 ⊆+ l2 → sumSizes A l1 ≤ sumSizes A l2.
Proof.
  induction 1 as [|x l1 l2 _ IH|x y l|x l1 l2 _ IH|l1 l2 l3 _ IH1 _ IH2];
    rewrite ?sumSizes_cons; try lia.
  pose proof (sizeOf_nonneg x). lia.
Qed.

Lemma sumSizes_seq : sumSizes A (seq 0 (length A)) = totalByteSize A.
Proof.
  assert (∀ k B, sumSizes (B ++ A) (seq k (length A)) = totalByteSize A ∨ k ≠ length B) as Hgen.
  { clear Hnonneg. induction A as [|a A' IH]; intros k B; [by left|].
    destruct (decide (k = length B)) as [->|]; [left | by right].
    change (seq (length B) (length (a :: A'))) with (length B :: seq (S (length B)) (length A')).
    change (totalByteSize (a :: A')) with (byteSize a + totalByteSize A').
    rewrite sumSizes_cons. unfold sizeOf at 1.
    rewrite lookup_app_r by lia. rewrite Nat.sub_diag. simpl.
    destruct (IH (S (length B)) (B ++ [a])) as [Heq|Hne].
    - rewrite <- app_assoc in Heq. simpl in Heq. rewrite Heq. done.
    - rewrite length_app in Hne. simpl in Hne. lia. }
  destruct (Hgen 0%nat []) as [Heq|Hne]; done.
Qed.

Lemma sumSizes_bound l :
  NoDup l → (∀ p, p ∈ l → is_Some (A !! p)) → sumSizes A l ≤ totalByteSize A.
Proof.
  intros Hnd Hin. rewrite <- sumSizes_seq. apply sumSizes_submseteq.
  apply NoDup_submseteq; [done|]. intros p Hp. apply elem_of_seq.
  destruct (Hin p Hp) as [a Ha]. apply lookup_lt_Some in Ha. lia.
Qed.

End sizes.

Section links.
Variables A0 A : list TensorAlloc.
Hypothesis Hlinks : Forall2 same_links A0 A.

Lemma links_lookup p a : A !! p = Some a → ∃ a0, A0 !! p = Some a0 ∧ same_links a0 a.
Proof. intros Ha. by eapply Forall2_lookup_r. Qed.

Lemma links_lookup0 p a0 : A0 !! p = Some a0 → ∃ a, A !! p = Some a ∧ same_links a0 a.
Proof. intros Ha. by eapply Forall2_lookup_l. Qed.

Lemma links_length : length A = length A0.
Proof. symmetry. by eapply Forall2_length. Qed.

Lemma links_sizeOf p : sizeOf A p = sizeOf A0 p.
Proof.
  unfold sizeOf. destruct (A0 !! p) as [a0|] eqn:H0.
  - destruct (links_lookup0 _ _ H0) as (a & -> & Hl). simpl. apply Hl.
  - destruct (A !! p) as [a|] eqn:Ha; [|done].
    destruct (links_lookup _ _ Ha) as (a0 & ? & _). congruence.
Qed.

Lemma links_firstOf p : firstOf A p = firstOf A0 p.
Proof.
  unfold firstOf. destruct (A0 !! p) as [a0|] eqn:H0.
  - destruct (links_lookup0 _ _ H0) as (a & -> & Hl). simpl. apply Hl.
  - destruct (A !! p) as [a|] eqn:Ha; [|done].
    destruct (links_lookup _ _ Ha) as (a0 & ? & _). congruence.
Qed.

Lemma links_lastOf p : lastOf A p = lastOf A0 p.
Proof.
  unfold lastOf. destruct (A0 !! p) as [a0|] eqn:H0.
  - destruct (links_lookup0 _ _ H0) as (a & -> & Hl). simpl. apply Hl.
  - destruct (A !! p) as [a|] eqn:Ha; [|done].
    destruct (links_lookup _ _ Ha) as (a0 & ? & _). congruence.
Qed.

Lemma links_is_chain cur ms : is_chain A0 cur ms → is_chain A cur ms.
Proof.
  induction 1 as [|p a0 ms Ha0 _ IH]; [constructor|].
  destruct (links_lookup0 _ _ Ha0) as (a & Ha & Hl).
  destruct Hl as (_ & _ & _ & Hn & _).
  econstructor; [done|]. by rewrite Hn.
Qed.

Lemma links_alter v p : Forall2 same_links A0 (alter (set_byteOffset v) p A).
Proof.
  apply Forall2_alter_r; [done|]. intros a0 a _ _ Hl. apply Hl.
Qed.

End links.

Lemma offsetOf_alter A v p q :
  offsetOf (alter (set_byteOffset v) p A) q =
  if decide (p = q) then (if decide (q < length A)%nat then v else 0) else offsetOf A q.
Proof.
  unfold offsetOf. destruct (decide (p = q)) as [->|Hne].
  - rewrite list_lookup_alter_eq. destruct (decide (q < length A)%nat) as [Hlt|Hge].
    + destruct (lookup_lt_is_Some_2 A q Hlt) as [a ->]. reflexivity.
    + rewrite lookup_ge_None_2 by lia. done.
  - by rewrite list_lookup_alter_ne.
Qed.

Lemma sorted_by_offset_ext A A' l :
  (∀ q, q ∈ l → offsetOf A' q = offsetOf A q) →
  sorted_by_offset A l → sorted_by_offset A' l.
Proof.
  unfold sorted_by_offset. intros Heq Hs.
  replace (offsetOf A' <$> l) with (offsetOf A <$> l); [done|].
  apply list_fmap_ext. intros i q Hq. symmetry. apply Heq.
  by eapply list_elem_of_lookup_2.
Qed.

Lemma insertActive_perm A p l : insertActive A p l ≡ₚ p :: l.
Proof.
  induction l as [|q l IH]; simpl; [done|].
  destruct (offsetOf A p <? offsetOf A q); [done|].
  rewrite IH. apply Permutation_swap.
Qed.

Lemma insertActive_sorted A p l :
  sorted_by_offset A l → sorted_by_offset A (insertActive A p l).
Proof.
  unfold sorted_by_offset. induction l as [|q l IH]; simpl; intros Hs.
  - repeat constructor.
  - apply StronglySorted_inv in Hs as [Hs Hall].
    destruct (offsetOf A p <? offsetOf A q) eqn:Hlt.
    + apply Z.ltb_lt in Hlt. simpl. constructor.
      * by constructor.
      * constructor; [lia|]. eapply Forall_impl; [done|]. simpl. intros; lia.
    + apply Z.ltb_ge in Hlt. simpl. constructor; [by apply IH|].
      apply Forall_fmap.
      assert (Forall (λ r, offsetOf A q ≤ offsetOf A r) (insertActive A p l)) as HF.
      { rewrite insertActive_perm. constructor; [done|].
        rewrite Forall_fmap in Hall. exact Hall. }
      exact HF.
Qed.

(** ** The search for the offset *)

Lemma sorted_by_offset_cons A a l :
  sorted_by_offset A (a :: l) →
  sorted_by_offset A l ∧ ∀ q, q ∈ l → offsetOf A a ≤ offsetOf A q.
Proof.
  unfold sorted_by_offset. simpl. intros [Hs Hall]%StronglySorted_inv.
  split; [done|]. rewrite Forall_fmap in Hall. rewrite Forall_forall in Hall.
  intros q Hq. by apply Hall.
Qed.

Section fit.
Variables (A : list TensorAlloc) (c : Chunk) (S : Z).
Hypothesis HS : 0 ≤ S.
Hypothesis Hc : 0 ≤ chunkByteSize c.
Hypothesis Hfit : S + chunkByteSize c < 2 ^ 64.

Lemma fit_step_spec s q :
  placed_below A S q →
  0 ≤ curByteOffset s ≤ S →
  let s' := fit_step A c s q in
  curByteOffset s ≤ curByteOffset s' ≤ S ∧
  (chunk_overlaps A c q → offsetOf A q + sizeOf A q ≤ curByteOffset s') ∧
  (bestByteOffset s' = bestByteOffset s ∨
   (bestByteOffset s' = curByteOffset s ∧ chunk_overlaps A c q ∧
    curByteOffset s + chunkByteSize c ≤ offsetOf A q)) ∧
  (¬ chunk_overlaps A c q → s' = s).
Proof.
  intros ([a Ha] & Hoff & Hsz & Hend) Hcur. unfold fit_step. rewrite Ha.
  assert (offsetOf A q = byteOffset a) as Eo by (unfold offsetOf; by rewrite Ha).
  assert (sizeOf A q = byteSize a) as Es by (unfold sizeOf; by rewrite Ha).
  assert (firstOf A q = firstOpID a) as Ef by (unfold firstOf; by rewrite Ha).
  assert (lastOf A q = lastOpID a) as El by (unfold lastOf; by rewrite Ha).
  unfold chunk_overlaps. rewrite Eo, Es, Ef, El in *.
  destruct (lastOpID a <? chunkFirstOpID c) eqn:H1; simpl.
  { apply Z.ltb_lt in H1. repeat split; try lia; try (by left); done. }
  destruct (chunkLastOpID c <? firstOpID a) eqn:H2; simpl.
  { apply Z.ltb_lt in H2. repeat split; try lia; try (by left); done. }
  apply Z.ltb_ge in H1, H2.
  rewrite (size_add_small (byteOffset a) (byteSize a)) by lia.
  rewrite (size_add_small (curByteOffset s) (chunkByteSize c)) by lia.
  destruct ((curByteOffset s + chunkByteSize c <=? byteOffset a) &&
            (size_sub (byteOffset a) (curByteOffset s) <? bestGapByteSize s)) eqn:Hcond; simpl.
  - apply andb_true_iff in Hcond as [Hle%Z.leb_le _].
    repeat split; try lia; try (intros; exfalso; lia).
  - repeat split; try lia; try (intros; exfalso; lia).
Qed.

Lemma fit_fold active : ∀ s,
  sorted_by_offset A active →
  (∀ q, q ∈ active → placed_below A S q) →
  0 ≤ curByteOffset s ≤ S →
  (bestByteOffset s = SIZE_MAX ∨
   (0 ≤ bestByteOffset s ≤ S ∧
    ∀ q, q ∈ active → bestByteOffset s + chunkByteSize c ≤ offsetOf A q)) →
  let s' := foldl (fit_step A c) s active in
  curByteOffset s ≤ curByteOffset s' ≤ S ∧
  (∀ q, q ∈ active → chunk_overlaps A c q →
     offsetOf A q + sizeOf A q ≤ curByteOffset s') ∧
  (bestByteOffset s' = SIZE_MAX ∨
   (0 ≤ bestByteOffset s' ≤ S ∧
    (∀ q, q ∈ active → chunk_overlaps A c q →
       offsetOf A q + sizeOf A q ≤ bestByteOffset s' ∨
       bestByteOffset s' + chunkByteSize c ≤ offsetOf A q) ∧
    (bestByteOffset s' = bestByteOffset s ∨ curByteOffset s ≤ bestByteOffset s'))).
Proof.
  induction active as [|a rest IH]; intros s Hsorted Hplaced Hcur Hbest; simpl.
  - split; [lia|]. split; [intros q Hq; by apply elem_of_nil in Hq|].
    destruct Hbest as [?|[? _]]; [by left | right].
    split; [done|]. split; [intros q Hq; by apply elem_of_nil in Hq | by left].
  - apply sorted_by_offset_cons in Hsorted as [Hsorted Hle].
    assert (placed_below A S a) as Ha by (apply Hplaced; left).
    destruct (fit_step_spec s a Ha Hcur) as (Hc1 & Hend1 & Hb1 & Hskip).
    set (s1 := fit_step A c s a) in *.
    assert (bestByteOffset s1 = SIZE_MAX ∨
            (0 ≤ bestByteOffset s1 ≤ S ∧
             ∀ q, q ∈ rest → bestByteOffset s1 + chunkByteSize c ≤ offsetOf A q)) as Hbest1.
    { destruct Hb1 as [->|(-> & _ & Hgap)].
      - destruct Hbest as [?|[? Hall]]; [by left | right].
        split; [done|]. intros q Hq. apply Hall. by right.
      - right. split; [lia|]. intros q Hq. specialize (Hle q Hq). lia. }
    destruct (IH s1 Hsorted) as (Hc2 & Hend2 & Hb2); [| lia | done |].
    { intros q Hq. apply Hplaced. by right. }
    split; [lia|]. split.
    { intros q [->|Hq]%elem_of_cons Hov; [|by apply Hend2].
      specialize (Hend1 Hov). lia. }
    destruct Hb2 as [?|(Hrange & Hgood & Hrel)]; [by left |].
    destruct (decide (bestByteOffset (foldl (fit_step A c) s1 rest) = SIZE_MAX)) as [?|Hnm];
      [by left | right].
    split; [done|]. split.
    + intros q [->|Hq]%elem_of_cons Hov; [|by apply Hgood].
      specialize (Hend1 Hov).
      destruct Hrel as [Heq|Hge]; [|left; lia].
      rewrite Heq.
      destruct Hb1 as [Hb1|(Hb1 & _ & Hgap)].
      * destruct Hbest as [Hmax|[_ Hall]].
        -- exfalso. apply Hnm. congruence.
        -- right. rewrite Hb1. apply Hall. by left.
      * right. rewrite Hb1. lia.
    + destruct Hrel as [Heq|Hge]; [|right; lia].
      destruct Hb1 as [Hb1|(Hb1 & _ & _)]; [left; congruence | right; lia].
Qed.

Lemma findOffset_spec active :
  sorted_by_offset A active →
  (∀ q, q ∈ active → placed_below A S q) →
  let best := findOffset A active c in
  0 ≤ best ≤ S ∧
  ∀ q, q ∈ active → chunk_overlaps A c q →
    offsetOf A q + sizeOf A q ≤ best ∨ best + chunkByteSize c ≤ offsetOf A q.
Proof.
  intros Hsorted Hplaced. unfold findOffset.
  set (s0 := {| curByteOffset := 0; bestByteOffset := SIZE_MAX; bestGapByteSize := SIZE_MAX |}).
  destruct (fit_fold active s0 Hsorted Hplaced) as (Hcur & Hend & Hbest).
  { simpl. lia. }
  { by left. }
  simpl in Hcur.
  destruct (bestByteOffset (foldl (fit_step A c) s0 active) =? SIZE_MAX) eqn:Hm.
  - split; [lia|]. intros q Hq Hov. left. by apply Hend.
  - apply Z.eqb_neq in Hm. destruct Hbest as [?|(Hrange & Hgood & _)]; [done|].
    split; [done|]. exact Hgood.
Qed.

End fit.

(** ** Chunk formation and expansion *)

Lemma chunk_fold A ms : ∀ c0,
  (∀ p, p ∈ ms → is_Some (A !! p)) →
  (∀ p a, A !! p = Some a → 0 ≤ byteSize a) →
  0 ≤ chunkByteSize c0 →
  chunkByteSize c0 + sumSizes A ms < 2 ^ 64 →
  let c := foldl (chunk_add A) c0 ms in
  firstAlloc c = firstAlloc c0 ∧
  chunkByteSize c = chunkByteSize c0 + sumSizes A ms ∧
  chunkFirstOpID c ≤ chunkFirstOpID c0 ∧ chunkLastOpID c0 ≤ chunkLastOpID c ∧
  ∀ p, p ∈ ms → chunkFirstOpID c ≤ firstOf A p ∧ lastOf A p ≤ chunkLastOpID c.
Proof.
  induction ms as [|m ms IH]; intros c0 Hin Hnn H0 Hsum; simpl.
  - unfold sumSizes. simpl. split_and!; try lia. intros p Hp. by apply elem_of_nil in Hp.
  - rewrite sumSizes_cons in Hsum.
    destruct (Hin m) as [a Ha]; [by left|].
    pose proof (sumSizes_nonneg A Hnn ms) as Hms.
    pose proof (Hnn m a Ha) as Hsz.
    assert (sizeOf A m = byteSize a) as Es by (unfold sizeOf; by rewrite Ha).
    assert (firstOf A m = firstOpID a) as Ef by (unfold firstOf; by rewrite Ha).
    assert (lastOf A m = lastOpID a) as El by (unfold lastOf; by rewrite Ha).
    rewrite Es in Hsum.
    assert (firstAlloc (chunk_add A c0 m) = firstAlloc c0) as E1.
    { unfold chunk_add. by rewrite Ha. }
    assert (chunkByteSize (chunk_add A c0 m) = chunkByteSize c0 + byteSize a) as E2.
    { unfold chunk_add. rewrite Ha. simpl. by rewrite size_add_small by lia. }
    assert (chunkFirstOpID (chunk_add A c0 m) = Z.min (chunkFirstOpID c0) (firstOpID a)) as E3.
    { unfold chunk_add. by rewrite Ha. }
    assert (chunkLastOpID (chunk_add A c0 m) = Z.max (chunkLastOpID c0) (lastOpID a)) as E4.
    { unfold chunk_add. by rewrite Ha. }
    destruct (IH (chunk_add A c0 m)) as (I1 & I2 & I3 & I4 & I5).
    { intros p Hp. apply Hin. by right. }
    { done. }
    { lia. }
    { lia. }
    rewrite sumSizes_cons, Es.
    split_and!; try lia.
    intros p [->|Hp]%elem_of_cons; [lia | by apply I5].
Qed.

Section chunks.
Variable A : list TensorAlloc.
Hypothesis WF : well_formed A.

Lemma SIZE_MAX_lt : SIZE_MAX < 2 ^ 64.
Proof. unfold SIZE_MAX. lia. Qed.

Lemma chain_sum_bound cur ms : is_chain A cur ms → sumSizes A ms ≤ totalByteSize A.
Proof.
  intros Hc. apply sumSizes_bound.
  - apply (wf_size A WF).
  - by eapply is_chain_NoDup.
  - by eapply is_chain_lookup.
Qed.

Lemma makeChunk_spec h a :
  A !! h = Some a → prev a = None →
  ∃ c, makeChunk A h a = Some c ∧ firstAlloc c = h ∧ chunk_of A c.
Proof.
  intros Ha Hprev. destruct (chain_exists A WF h ltac:(eauto)) as [ms Hms].
  unfold makeChunk. rewrite (chainFrom_complete _ _ _ Hms). simpl.
  pose proof (chain_sum_bound _ _ Hms) as Hb.
  pose proof (wf_total A WF) as Ht. pose proof SIZE_MAX_lt.
  edestruct (chunk_fold A ms) as (I1 & I2 & I3 & I4 & I5); cycle -1.
  { eexists. split; [done|]. split; [exact I1|].
    exists ms. rewrite I1. simpl. split; [|split; [done|split]].
    - unfold prevOf. rewrite Ha. done.
    - rewrite I2. simpl. lia.
    - exact I5. }
  - by eapply is_chain_lookup.
  - apply (wf_size A WF).
  - simpl. lia.
  - simpl. lia.
Qed.

Lemma formChunks_spec ps :
  ∃ cs, formChunks A ps = Some cs ∧
    Forall (chunk_of A) cs ∧
    (firstAlloc <$> cs) `sublist_of` ps ∧
    ∀ h, h ∈ ps → is_Some (A !! h) → prevOf A h = None → h ∈ firstAlloc <$> cs.
Proof.
  induction ps as [|p ps (cs & Hcs & HF & Hsub & Hall)]; simpl.
  - exists []. split_and!; [done | constructor | constructor |].
    intros h Hh. by apply elem_of_nil in Hh.
  - destruct (A !! p) as [a|] eqn:Ha.
    + destruct (prev a) as [y|] eqn:Hy.
      * exists cs. split_and!; [done | done | by apply sublist_cons |].
        intros h [->|Hh]%elem_of_cons Hin Hprev; [|by apply Hall].
        unfold prevOf in Hprev. rewrite Ha in Hprev. simpl in Hprev. congruence.
      * destruct (makeChunk_spec p a Ha Hy) as (c & -> & Hfc & Hc). simpl.
        rewrite Hcs. simpl. exists (c :: cs). split_and!.
        -- done.
        -- by constructor.
        -- simpl. rewrite Hfc. by apply sublist_skip.
        -- intros h [->|Hh]%elem_of_cons Hin Hprev; simpl.
           ++ rewrite Hfc. by left.
           ++ right. by apply Hall.
    + exists cs. split_and!; [done | done | by apply sublist_cons |].
      intros h [->|Hh]%elem_of_cons Hin Hprev; [|by apply Hall].
      destruct Hin as [? Hin]. congruence.
Qed.

End chunks.

Lemma expand_fold A0 ms : ∀ s,
  Forall2 same_links A0 (allocs s) →
  (∀ p a, A0 !! p = Some a → 0 ≤ byteSize a) →
  NoDup ms → (∀ p, p ∈ ms → is_Some (A0 !! p)) →
  (∀ p, p ∈ ms → p ∉ activeAllocs s) →
  sorted_by_offset (allocs s) (activeAllocs s) →
  0 ≤ offset s → offset s + sumSizes A0 ms < 2 ^ 64 →
  let s' := foldl expand_step s ms in
  Forall2 same_links A0 (allocs s') ∧
  offset s' = offset s + sumSizes A0 ms ∧
  (∀ q, q ∉ ms → offsetOf (allocs s') q = offsetOf (allocs s) q) ∧
  (∀ (i : nat) m, ms !! i = Some m →
     offsetOf (allocs s') m = offset s + sumSizes A0 (take i ms)) ∧
  activeAllocs s' ≡ₚ ms ++ activeAllocs s ∧
  sorted_by_offset (allocs s') (activeAllocs s').
Proof.
  induction ms as [|m ms IH]; intros s Hlinks Hnn Hnd Hin Hfresh Hsorted Ho Hsum; simpl.
  - unfold sumSizes. simpl. split_and!; try done; try lia.
  - apply NoDup_cons in Hnd as [Hm Hnd].
    rewrite sumSizes_cons in Hsum.
    pose proof (sumSizes_nonneg A0 Hnn ms) as Hms.
    pose proof (sizeOf_nonneg A0 Hnn m) as Hsz.
    set (A1 := alter (set_byteOffset (offset s)) m (allocs s)).
    assert (Forall2 same_links A0 A1) as Hlinks1 by (by apply links_alter).
    assert (from_option byteSize 0 (A1 !! m) = sizeOf A0 m) as Esz.
    { rewrite <- (links_sizeOf A0 A1 Hlinks1). done. }
    assert (m < length (allocs s))%nat as Hmlt.
    { rewrite (links_length A0 (allocs s) Hlinks).
      destruct (Hin m) as [a Ha]; [by left|]. by apply lookup_lt_Some in Ha. }
    assert (∀ q, q ≠ m → offsetOf A1 q = offsetOf (allocs s) q) as Hother.
    { intros q Hq. unfold A1. rewrite offsetOf_alter. by destruct (decide (m = q)). }
    assert (offsetOf A1 m = offset s) as Hself.
    { unfold A1. rewrite offsetOf_alter. rewrite decide_True by done.
      by rewrite decide_True by done. }
    assert (allocs (expand_step s m) = A1) as Ea by done.
    assert (activeAllocs (expand_step s m) = insertActive A1 m (activeAllocs s)) as Eact by done.
    assert (offset (expand_step s m) = offset s + sizeOf A0 m) as Eoff.
    { unfold expand_step. simpl. fold A1. rewrite Esz. by rewrite size_add_small by lia. }
    destruct (IH (expand_step s m)) as (I1 & I2 & I3 & I4 & I5 & I6).
    + by rewrite Ea.
    + done.
    + done.
    + intros p Hp. apply Hin. by right.
    + intros p Hp. rewrite Eact.
      rewrite insertActive_perm. intros [->|Hq]%elem_of_cons; [done|].
      by apply (Hfresh p); [right|].
    + rewrite Ea, Eact. apply insertActive_sorted.
      eapply sorted_by_offset_ext; [|done].
      intros q Hq. apply Hother. intros ->. by apply (Hfresh m); [left|].
    + lia.
    + lia.
    + rewrite Ea in I3. rewrite Eoff in I2, I4. rewrite Eact in I5.
      split; [done|]. split; [rewrite sumSizes_cons; lia|].
      split; [|split; [|split]].
      * intros q Hq. rewrite I3.
        -- apply Hother. intros ->. apply Hq. by left.
        -- intros Hq'. apply Hq. by right.
      * intros [|i] m' Hm'; simpl in Hm'.
        -- injection Hm' as <-. rewrite I3 by done. rewrite Hself.
           unfold sumSizes. simpl. lia.
        -- rewrite (I4 i m' Hm'). simpl. rewrite sumSizes_cons. lia.
      * rewrite I5, insertActive_perm. simpl.
        by rewrite Permutation_middle.
      * done.
Qed.

(** ** The loop over the chunks *)

Lemma sumSizes_perm A l1 l2 : l1 ≡ₚ l2 → sumSizes A l1 = sumSizes A l2.
Proof.
  induction 1 as [|x l1 l2 _ IH|x y l|l1 l2 l3 _ IH1 _ IH2];
    rewrite ?sumSizes_cons; lia.
Qed.

Lemma sumSizes_take_le A l (i j : nat) :
  (∀ p, 0 ≤ sizeOf A p) → (i ≤ j)%nat → sumSizes A (take i l) ≤ sumSizes A (take j l).
Proof.
  intros Hnn. revert i j. induction l as [|x l IH]; intros i j Hij.
  - by rewrite !take_nil.
  - destruct i as [|i]; destruct j as [|j]; simpl; try lia.
    + change (sumSizes A []) with 0. rewrite sumSizes_cons.
      specialize (IH 0%nat j ltac:(lia)). rewrite take_0 in IH.
      change (sumSizes A []) with 0 in IH. specialize (Hnn x). lia.
    + rewrite !sumSizes_cons. specialize (IH i j ltac:(lia)). lia.
Qed.

Lemma sumSizes_take_S A l (i : nat) p :
  l !! i = Some p → sumSizes A (take (S i) l) = sumSizes A (take i l) + sizeOf A p.
Proof.
  intros Hp. rewrite (take_S_r _ _ _ Hp), sumSizes_app, sumSizes_cons.
  change (sumSizes A []) with 0. lia.
Qed.

Lemma sumSizes_take_all A l (i : nat) :
  (∀ p, 0 ≤ sizeOf A p) → sumSizes A (take i l) ≤ sumSizes A l.
Proof.
  intros Hnn. rewrite <- (firstn_all l) at 2.
  destruct (decide (i ≤ length l)%nat).
  - by apply sumSizes_take_le.
  - rewrite take_ge by lia. rewrite firstn_all. done.
Qed.

Lemma is_chain_next_lookup A cur ms (i : nat) p :
  is_chain A cur ms → ms !! i = Some p → nextOf A p = ms !! S i.
Proof.
  intros Hc. revert i. induction Hc as [|h a ms Ha Hc IH]; intros i Hi; [done|].
  destruct i as [|i]; simpl in *.
  - injection Hi as <-. unfold nextOf. rewrite Ha. simpl.
    inversion Hc; simpl; done.
  - by apply IH.
Qed.

Lemma Forall2_same_links_refl A : Forall2 same_links A A.
Proof. induction A; constructor; [done | done]. Qed.

Section planner.
Variable A0 : list TensorAlloc.
Hypothesis WF : well_formed A0.

Lemma separated_sym A p q : separated A p q → separated A q p.
Proof. unfold separated. lia. Qed.

Lemma lifetimes_overlap_sym A p q : lifetimes_overlap A p q → lifetimes_overlap A q p.
Proof. unfold lifetimes_overlap. lia. Qed.

Lemma placeChunk_spec heads st c :
  plan_inv A0 heads st → chunk_of A0 c → firstAlloc c ∉ heads →
  ∃ st', placeChunk st c = Some st' ∧ plan_inv A0 (firstAlloc c :: heads) st'.
Proof.
  destruct st as [[A act] hw].
  intros (Hlinks & Hnd & Hmem & Hsorted & Hbound & Hsep & Hadj & Hhw)
         (ms & Hhead & Hchain & Hcsize & Hlife) Hfresh.
  set (h := firstAlloc c) in *.
  pose proof (wf_size A0 WF) as Hnn.
  pose proof (sizeOf_nonneg A0 Hnn) as Hsz.
  pose proof (is_chain_NoDup _ _ _ Hchain) as Hndms.
  pose proof (is_chain_lookup _ _ _ Hchain) as Hinms.
  assert (∀ p, p ∈ ms → p ∉ act) as Hdisj.
  { intros p Hp Hact. apply Hmem in Hact as (h' & ms' & Hh' & Hprev' & Hc' & Hp').
    assert (h' = h) as -> by (by eapply (chains_disjoint A0 WF h' h ms' ms p)).
    done. }
  assert (∀ p, p ∈ act → is_Some (A0 !! p)) as Hinact.
  { intros p Hact. apply Hmem in Hact as (h' & ms' & _ & _ & Hc' & Hp').
    by eapply is_chain_lookup. }
  assert (NoDup (ms ++ act)) as Hndall.
  { apply NoDup_app. split; [done|]. split; [|done]. exact Hdisj. }
  set (S := sumSizes A0 act).
  assert (S + chunkByteSize c < 2 ^ 64) as Hroom.
  { rewrite Hcsize. unfold S. rewrite Z.add_comm, <- sumSizes_app.
    pose proof (sumSizes_bound A0 Hnn (ms ++ act) Hndall) as Hb.
    pose proof (wf_total A0 WF). pose proof SIZE_MAX_lt.
    enough (sumSizes A0 (ms ++ act) ≤ totalByteSize A0) by lia.
    apply Hb. intros p [Hp|Hp]%elem_of_app; eauto. }
  assert (0 ≤ S) as HS by (by apply sumSizes_nonneg).
  assert (0 ≤ chunkByteSize c) as Hc0 by (rewrite Hcsize; by apply sumSizes_nonneg).
  assert (∀ q, sizeOf A q = sizeOf A0 q) as HszA by (by apply links_sizeOf).
  assert (∀ q, firstOf A q = firstOf A0 q) as HfA by (by apply links_firstOf).
  assert (∀ q, lastOf A q = lastOf A0 q) as HlA by (by apply links_lastOf).
  destruct (findOffset_spec A c S HS Hc0 Hroom act Hsorted) as (Hbest & Hgap).
  { intros q Hq. destruct (Hbound q Hq) as [??].
    destruct (Hinact q Hq) as [a0 Ha0].
    destruct (links_lookup0 A0 A Hlinks q a0 Ha0) as (a & Ha & _).
    unfold placed_below. rewrite HszA. eauto 10. }
  set (best := findOffset A act c) in *.
  unfold placeChunk. fold best. fold h.
  rewrite (chainFrom_complete A (Some h) ms) by (by apply (links_is_chain A0 A)).
  simpl.
  set (s0 := {| allocs := A; activeAllocs := act; offset := best |}).
  destruct (expand_fold A0 ms s0) as (E1 & E2 & E3 & E4 & E5 & E6); try done.
  { simpl. lia. }
  { simpl. rewrite <- Hcsize. lia. }
  simpl in E2, E3, E4, E5.
  set (s' := foldl expand_step s0 ms) in *.
  assert (∀ q, sizeOf (allocs s') q = sizeOf A0 q) as HszA' by (by apply links_sizeOf).
  assert (∀ (i : nat) m, ms !! i = Some m →
            best ≤ offsetOf (allocs s') m ∧
            offsetOf (allocs s') m + sizeOf A0 m ≤ best + chunkByteSize c) as Hin_chunk.
  { intros i m Hm. rewrite (E4 i m Hm).
    pose proof (sumSizes_nonneg A0 Hnn (take i ms)).
    pose proof (sumSizes_take_S A0 ms i m Hm).
    pose proof (sumSizes_take_all A0 ms (Datatypes.S i) Hsz).
    lia. }
  assert (∀ p, p ∈ activeAllocs s' ↔ p ∈ ms ∨ p ∈ act) as Hact'.
  { intros p. rewrite E5. apply elem_of_app. }
  assert (sumSizes A0 (activeAllocs s') = S + chunkByteSize c) as Hsum'.
  { rewrite (sumSizes_perm _ _ _ E5), sumSizes_app, <- Hcsize. unfold S. lia. }
  eexists. split; [done|].
  unfold plan_inv. split_and!.
  - done.
  - by rewrite E5.
  - intros p. rewrite Hact'. split.
    + intros [Hp|Hp].
      * exists h, ms. split_and!; try done. by left.
      * apply Hmem in Hp as (h' & ms' & ? & ? & ? & ?).
        exists h', ms'. split_and!; try done. by right.
    + intros (h' & ms' & [->|Hh']%elem_of_cons & Hprev' & Hc' & Hp').
      * left. by rewrite (is_chain_det _ _ _ _ Hchain Hc').
      * right. apply Hmem. eauto 10.
  - done.
  - intros q. rewrite Hact', Hsum'.
    intros [Hq|Hq].
    + apply list_elem_of_lookup in Hq as [i Hi].
      destruct (Hin_chunk i q Hi). lia.
    + rewrite E3 by (intros Hq'; by apply (Hdisj q)).
      destruct (Hbound q Hq). fold S in H0. lia.
  - assert (∀ p q, p ∈ ms → q ∈ act → lifetimes_overlap A0 p q → separated (allocs s') p q) as Hnew.
    { intros p q Hp Hq Hov.
      unfold separated. rewrite !HszA'.
      rewrite (E3 q) by (intros Hq'; by apply (Hdisj q)).
      apply list_elem_of_lookup in Hp as [i Hi].
      destruct (Hin_chunk i p Hi) as [Hlo Hhi].
      destruct (Hlife p) as [Hf Hl]; [by eapply list_elem_of_lookup_2|].
      destruct (Hgap q Hq) as [Hleft|Hright].
      - unfold chunk_overlaps. rewrite HfA, HlA. unfold lifetimes_overlap in Hov. lia.
      - rewrite HszA in Hleft. right. lia.
      - left. lia. }
    intros p q. rewrite !Hact'. intros [Hp|Hp] [Hq|Hq] Hne Hov.
    + apply list_elem_of_lookup in Hp as [i Hi]. apply list_elem_of_lookup in Hq as [j Hj].
      unfold separated. rewrite !HszA'. rewrite (E4 i p Hi), (E4 j q Hj).
      assert (i ≠ j) as Hij by (intros ->; congruence).
      destruct (decide (i < j)%nat).
      * left. pose proof (sumSizes_take_S A0 ms i p Hi).
        pose proof (sumSizes_take_le A0 ms (Datatypes.S i) j Hsz ltac:(lia)). lia.
      * right. pose proof (sumSizes_take_S A0 ms j q Hj).
        pose proof (sumSizes_take_le A0 ms (Datatypes.S j) i Hsz ltac:(lia)). lia.
    + by apply Hnew.
    + apply separated_sym. apply Hnew; [done | done |]. by apply lifetimes_overlap_sym.
    + unfold separated. rewrite !HszA'.
      rewrite (E3 p) by (intros Hp'; by apply (Hdisj p)).
      rewrite (E3 q) by (intros Hq'; by apply (Hdisj q)).
      specialize (Hsep p q Hp Hq Hne Hov). unfold separated in Hsep.
      rewrite !HszA in Hsep. done.
  - intros p q. rewrite Hact'. intros [Hp|Hp] Hnext.
    + apply list_elem_of_lookup in Hp as [i Hi].
      rewrite (is_chain_next_lookup _ _ _ _ _ Hchain Hi) in Hnext.
      rewrite (E4 _ _ Hnext), (E4 _ _ Hi).
      rewrite (sumSizes_take_S A0 ms i p Hi). lia.
    + assert (q ∉ ms) as Hq.
      { intros Hq. apply (Hdisj p); [|done].
        eapply (chain_prev_mem A0 WF h ms p q); try done.
        by apply (wf_next_prev A0 WF). }
      rewrite (E3 q Hq). rewrite (E3 p) by (intros Hp'; by apply (Hdisj p)).
      by apply Hadj.
  - intros q. rewrite Hact'. rewrite E2, <- Hcsize.
    intros [Hq|Hq].
    + apply list_elem_of_lookup in Hq as [i Hi].
      destruct (Hin_chunk i q Hi). lia.
    + rewrite E3 by (intros Hq'; by apply (Hdisj q)).
      specialize (Hhw q Hq). lia.
Qed.

Lemma placeChunks_spec cs : ∀ heads st,
  plan_inv A0 heads st → Forall (chunk_of A0) cs →
  NoDup (firstAlloc <$> cs) → (∀ h, h ∈ firstAlloc <$> cs → h ∉ heads) →
  ∃ st' heads', placeChunks st cs = Some st' ∧ plan_inv A0 heads' st' ∧
    ∀ h, h ∈ heads' ↔ h ∈ heads ∨ h ∈ firstAlloc <$> cs.
Proof.
  induction cs as [|c cs IH]; intros heads st Hinv Hcs Hnd Hfresh; simpl.
  - exists st, heads. split_and!; [done | done |].
    intros h. split; [by left | intros [?|Hh]; [done | by apply elem_of_nil in Hh]].
  - apply Forall_cons in Hcs as [Hc Hcs]. simpl in Hnd. apply NoDup_cons in Hnd as [Hc' Hnd].
    destruct (placeChunk_spec heads st c Hinv Hc) as (st1 & -> & Hinv1).
    { apply Hfresh. simpl. by left. }
    simpl.
    destruct (IH (firstAlloc c :: heads) st1 Hinv1 Hcs Hnd) as (st' & heads' & Hp & Hinv' & Hh').
    { intros h Hh [->|Hin]%elem_of_cons; [done|].
      apply (Hfresh h); [|done]. simpl. by right. }
    exists st', heads'. split_and!; [done | done |].
    intros h. rewrite Hh'. simpl. rewrite !elem_of_cons. tauto.
Qed.

End planner.

(** ** The planner as a whole *)

(** The insertion sort is a chunk sort. *)
Lemma insertChunk_perm c l : insertChunk c l ≡ₚ c :: l.
Proof.
  induction l as [|d l IH]; simpl; [done|].
  destruct (chunkByteSize c <? chunkByteSize d); [|done].
  rewrite IH. apply Permutation_swap.
Qed.

Lemma insertChunk_sorted c l : sorted_by_size l → sorted_by_size (insertChunk c l).
Proof.
  unfold sorted_by_size. induction l as [|d l IH]; simpl; intros Hs.
  - repeat constructor.
  - apply StronglySorted_inv in Hs as [Hs Hall].
    destruct (chunkByteSize c <? chunkByteSize d) eqn:Hlt.
    + apply Z.ltb_lt in Hlt. constructor; [by apply IH|].
      rewrite insertChunk_perm. constructor; [lia | done].
    + apply Z.ltb_ge in Hlt. constructor.
      * by constructor.
      * constructor; [lia|]. eapply Forall_impl; [done|]. simpl. intros; lia.
Qed.

Lemma stableSortChunks_sorts : is_chunk_sort stableSortChunks.
Proof.
  intros l. unfold stableSortChunks. induction l as [|c l [IHp IHs]]; simpl.
  - split; [done | constructor].
  - split; [by rewrite insertChunk_perm, IHp | by apply insertChunk_sorted].
Qed.

(** Soundness of the decision procedure. *)
Lemma iter_next_None_add A a b p :
  iter_next A a p = None → iter_next A (a + b) p = None.
Proof. intros H. by rewrite iter_next_add, H. Qed.

Lemma iter_next_cycle A k p (m : nat) :
  iter_next A k p = Some p → iter_next A (m * k) p = Some p.
Proof.
  intros Hk. induction m as [|m IH]; [done|].
  replace (S m * k)%nat with (k + m * k)%nat by lia.
  by rewrite iter_next_add, Hk.
Qed.

Lemma well_formedb_sound A : well_formedb A = true → well_formed A.
Proof.
  unfold well_formedb. intros [Hall Htot%Z.ltb_lt]%andb_true_iff.
  assert (∀ p a, A !! p = Some a → well_formed_at A p a = true) as Hat.
  { intros p a Ha. rewrite forallb_forall in Hall.
    specialize (Hall p). rewrite Ha in Hall. apply Hall.
    apply list_elem_of_In, elem_of_seq. apply lookup_lt_Some in Ha. lia. }
  clear Hall.
  assert (∀ p a, A !! p = Some a →
    firstOpID a ≤ lastOpID a ∧ 0 ≤ byteSize a ∧
    (∀ q, next a = Some q → prevOf A q = Some p) ∧
    (∀ q, prev a = Some q → nextOf A q = Some p) ∧
    iter_next A (length A) p = None) as Hat'.
  { intros p a Ha. specialize (Hat p a Ha). unfold well_formed_at in Hat.
    apply andb_true_iff in Hat as [Hat H5]. apply andb_true_iff in Hat as [Hat H4].
    apply andb_true_iff in Hat as [Hat H3]. apply andb_true_iff in Hat as [H1 H2].
    apply Z.leb_le in H1, H2. apply bool_decide_eq_true in H5.
    split_and!; try done.
    - intros q Hq. rewrite Hq in H3. by apply bool_decide_eq_true in H3.
    - intros q Hq. rewrite Hq in H4. by apply bool_decide_eq_true in H4. }
  split; try done.
  - intros p a Ha. by apply (Hat' p a Ha).
  - intros p q (a & Ha & Hn)%nextOf_Some. by apply (Hat' p a Ha).
  - intros p q (a & Ha & Hn)%prevOf_Some. by apply (Hat' q a Ha).
  - intros p k Hk Hcyc.
    destruct (A !! p) as [a|] eqn:Ha.
    + destruct (Hat' p a Ha) as (_ & _ & _ & _ & Hoff).
      pose proof (iter_next_cycle A k p (length A) Hcyc) as Hc.
      replace (length A * k)%nat with (length A + length A * (k - 1))%nat in Hc by nia.
      by rewrite (iter_next_None_add _ _ _ _ Hoff) in Hc.
    + destruct k as [|k]; [lia|]. simpl in Hcyc. unfold nextOf in Hcyc.
      by rewrite Ha in Hcyc.
  - intros p a Ha. by apply (Hat' p a Ha).
Qed.

Section planAllocations.
Variable sortChunks : list Chunk → list Chunk.
Hypothesis Hsort : is_chunk_sort sortChunks.

Lemma chunk_heads_perm (l1 l2 : list Chunk) :
  l1 ≡ₚ l2 → firstAlloc <$> l1 ≡ₚ firstAlloc <$> l2.
Proof. intros H. by apply fmap_Permutation. Qed.

Lemma planAllocations_inv g :
  well_formed (tensorAllocs g) →
  ∃ g' act heads,
    planAllocationsWith sortChunks g = Some g' ∧
    plan_inv (tensorAllocs g) heads (tensorAllocs g', act, tensorScratchByteSize g') ∧
    (∀ p, is_Some (tensorAllocs g !! p) → p ∈ act) ∧
    ops g' = ops g ∧ opScratchByteSize g' = opScratchByteSize g ∧ dirty g' = false.
Proof.
  intros WF. set (A0 := tensorAllocs g).
  destruct (formChunks_spec A0 WF (seq 0 (length A0))) as (cs & Hcs & Hof & Hsub & Hall).
  destruct (Hsort cs) as [Hperm _].
  destruct (placeChunks_spec A0 WF (sortChunks cs) [] (A0, [], 0))
    as ([[A' act] hw] & heads & Hplace & Hinv & Hheads).
  { unfold plan_inv. split_and!.
    - apply Forall2_same_links_refl.
    - constructor.
    - intros p. split; [by intros ?%elem_of_nil|].
      by intros (h & ms & ?%elem_of_nil & _).
    - constructor.
    - by intros q ?%elem_of_nil.
    - by intros p q ?%elem_of_nil.
    - by intros p q ?%elem_of_nil.
    - by intros q ?%elem_of_nil. }
  { rewrite Hperm. exact Hof. }
  { rewrite (chunk_heads_perm _ _ Hperm). eapply sublist_NoDup; [|exact Hsub]. apply NoDup_seq. }
  { by intros h _ ?%elem_of_nil. }
  unfold planAllocationsWith. fold A0. rewrite Hcs. simpl. rewrite Hplace. simpl.
  eexists _, act, heads. split; [reflexivity|]. simpl.
  split; [exact Hinv|]. split; [|done].
  intros p Hp.
  destruct (chain_of_head A0 WF p Hp) as (h & hs & Hprev & [ah Hah] & Hch & Hph).
  destruct Hinv as (_ & _ & Hmem & _). apply Hmem.
  exists h, hs. split_and!; try done.
  apply Hheads. right. rewrite (chunk_heads_perm _ _ Hperm).
  apply Hall; [|eauto|done].
  apply elem_of_seq. apply lookup_lt_Some in Hah. lia.
Qed.

End planAllocations.

(** * The graph: scratch size, planner invariants, lifecycle *)

(** A graph built by op additions: an input, two convolutions with a
    pooling between them, an upsampling, a CHW concatenation of the
    upsampled tensor with the first convolution's, and the output. *)
Definition exampleOp (p : nat) (n : string) (k : OpKind) : Op :=
  {| opPtr := p; name := n; kind := k; scratchAlignedSize := 0; supported := true |}.

Definition exampleDesc (c size : Z) : TensorDesc :=
  {| C := c; paddedC := c; alignedSize := size |}.

Definition exampleBuild : Result Graph :=
  let input := exampleOp 0 "input" InputProcess in
  let conv1 := exampleOp 1 "conv1" (Conv Activation.ReLU PostOp.None) in
  let pool1 := exampleOp 2 "conv1_pool" Pool in
  let conv2 := exampleOp 3 "conv2" (Conv Activation.ReLU PostOp.None) in
  let up2 := exampleOp 4 "conv2_upsample" Upsample in
  let cat := exampleOp 5 "dec_conv" (ConcatConvCHW Activation.ReLU) in
  let output := exampleOp 6 "output" OutputProcess in
  r ← addOpDst input [] (exampleDesc 3 300) false (newGraph ∅);
  r ← addOpDst conv1 [input] (exampleDesc 16 1600) false r.2;
  r ← addOpDst pool1 [conv1] (exampleDesc 16 400) false r.2;
  r ← addOpDst conv2 [pool1] (exampleDesc 16 400) false r.2;
  r ← addOpDst up2 [conv2] (exampleDesc 16 1600) false r.2;
  r ← addOpDst cat [up2; conv1] (exampleDesc 16 1600) true r.2;
  addOp output [cat] false r.2.

Definition exampleGraph : Graph :=
  Eval vm_compute in match exampleBuild with Ok g => g | _ => newGraph ∅ end.

Lemma exampleBuild_Ok : exampleBuild = Ok exampleGraph.
Proof. vm_compute. reflexivity. Qed.

Lemma exampleGraph_well_formed : well_formed (tensorAllocs exampleGraph).
Proof. apply well_formedb_sound. vm_compute. reflexivity. Qed.

(** A graph whose only op asks for 64 bytes of scratch and produces a
    tensor of 128 bytes. *)
Definition scratchOp : Op :=
  {| opPtr := 0; name := "input"; kind := InputProcess;
     scratchAlignedSize := 64; supported := true |}.

(** C1 (the code departs from the claim).  On the graph with the single
    op [scratchOp], whose scratch size is 64 and whose tensor has 128
    bytes, the planner finds the tensor high-water mark 128 and the
    maximum op scratch is 64, yet [getScratchAlignedSize] returns 128 and
    not 192: the maximum computed by [planAllocations] stays in a local
    variable, and the member [opScratchByteSize] keeps its value 0. *)
Theorem getScratchAlignedSize_omits_op_scratch :
  (λ r : Z * Graph,
     (r.1, tensorScratchByteSize r.2, maxOpScratch (ops r.2), opScratchByteSize r.2)) <$>
    (match addOpDst scratchOp [] (exampleDesc 3 128) false (newGraph ∅) with
     | Ok (_, g) => getScratchAlignedSize g
     | _ => None
     end)
  = Some (128, 128, 64, 0).
Proof. vm_compute. reflexivity. Qed.

Section planner_claims.
Variable sortChunks : list Chunk → list Chunk.
Hypothesis Hsort : is_chunk_sort sortChunks.

(** [planAllocations] leaves the member [opScratchByteSize] as it finds
    it, whatever the ops ask for. *)
Lemma planAllocations_keeps_opScratchByteSize g g' :
  planAllocationsWith sortChunks g = Some g' →
  opScratchByteSize g' = opScratchByteSize g ∧ ops g' = ops g.
Proof.
  unfold planAllocationsWith. intros Hp.
  destruct (formChunks _ _); simpl in Hp; [|done].
  destruct (placeChunks _ _); simpl in Hp; [|done].
  by injection Hp as <-.
Qed.

(** C2.  On well-formed allocation records [planAllocations] returns,
    changes nothing but the offsets, and gives any two distinct records
    whose lifetimes overlap byte extents with no byte in common. *)
Theorem planAllocations_disjoint_extents g :
  well_formed (tensorAllocs g) →
  ∃ g', planAllocationsWith sortChunks g = Some g' ∧
    Forall2 same_links (tensorAllocs g) (tensorAllocs g') ∧
    ∀ p q, p ≠ q →
      lifetimes_overlap (tensorAllocs g') p q →
      extents_disjoint (tensorAllocs g') p q.
Proof.
  intros WF.
  destruct (planAllocations_inv sortChunks Hsort g WF)
    as (g' & act & heads & Hplan & Hinv & Hall & _).
  exists g'. destruct Hinv as (Hlinks & _ & _ & _ & _ & Hsep & _).
  split_and!; [done | done |].
  intros p q Hne Hov.
  destruct (tensorAllocs g !! p) as [a|] eqn:Hp; cycle 1.
  { intros b. rewrite (links_sizeOf _ _ Hlinks p). unfold sizeOf at 1. rewrite Hp. simpl. lia. }
  destruct (tensorAllocs g !! q) as [a'|] eqn:Hq; cycle 1.
  { intros b. rewrite (links_sizeOf _ _ Hlinks q). unfold sizeOf at 2. rewrite Hq. simpl. lia. }
  apply separated_disjoint. apply Hsep; [by apply Hall | by apply Hall | done |].
  unfold lifetimes_overlap in *.
  by rewrite <- !(links_firstOf _ _ Hlinks), <- !(links_lastOf _ _ Hlinks).
Qed.

(** C3.  On well-formed allocation records [planAllocations] returns,
    changes nothing but the offsets (the links of the result are those
    the additions made), and places every record [b] that the additions
    linked to a record [a] by [a.next = b] at
    [a.byteOffset + a.byteSize]: stated for the links of the records
    given to the planner, and again for the links found in its
    result. *)
Theorem planAllocations_chain_adjacency g :
  well_formed (tensorAllocs g) →
  ∃ g', planAllocationsWith sortChunks g = Some g' ∧
    Forall2 same_links (tensorAllocs g) (tensorAllocs g') ∧
    (∀ p q a,
       tensorAllocs g !! p = Some a → next a = Some q →
       ∃ a' b',
         tensorAllocs g' !! p = Some a' ∧ tensorAllocs g' !! q = Some b' ∧
         next a' = Some q ∧ prev b' = Some p ∧
         byteOffset b' = byteOffset a' + byteSize a) ∧
    (∀ p q a b,
       tensorAllocs g' !! p = Some a → next a = Some q →
       tensorAllocs g' !! q = Some b →
       byteOffset b = byteOffset a + byteSize a).
Proof.
  intros WF.
  destruct (planAllocations_inv sortChunks Hsort g WF)
    as (g' & act & heads & Hplan & Hinv & Hall & _).
  exists g'. destruct Hinv as (Hlinks & _ & _ & _ & _ & _ & Hadj & _).
  assert (∀ p q a b,
            tensorAllocs g' !! p = Some a → next a = Some q →
            tensorAllocs g' !! q = Some b →
            byteOffset b = byteOffset a + byteSize a) as Hres.
  { intros p q a b Ha Hn Hb.
    destruct (links_lookup _ _ Hlinks p a Ha) as (a0 & Ha0 & Hl).
    specialize (Hadj p q (Hall p ltac:(eauto))).
    unfold offsetOf in Hadj. rewrite Ha, Hb in Hadj. simpl in Hadj.
    rewrite Hadj.
    - unfold sizeOf. rewrite Ha0. simpl. destruct Hl as (-> & _). done.
    - unfold nextOf. rewrite Ha0. simpl. destruct Hl as (_ & _ & _ & <- & _). done. }
  split_and!; [done | done | | done].
  intros p q a Ha Hn.
  destruct (links_lookup0 _ _ Hlinks p a Ha) as (a' & Ha' & Hs & _ & _ & Hn' & _).
  assert (prevOf (tensorAllocs g) q = Some p) as Hprev.
  { apply (wf_next_prev _ WF). unfold nextOf. by rewrite Ha. }
  unfold prevOf in Hprev.
  destruct (tensorAllocs g !! q) as [b|] eqn:Hb; [|done]. simpl in Hprev.
  destruct (links_lookup0 _ _ Hlinks q b Hb) as (b' & Hb' & _ & _ & _ & _ & Hp').
  exists a', b'. split_and!; try done; try congruence.
  rewrite <- Hs. apply (Hres p q a' b'); [done | congruence | done].
Qed.

End planner_claims.

Lemma planAllocations_disjoint_extents_witness :
  well_formed (tensorAllocs exampleGraph) ∧
  ∃ g', planAllocationsWith stableSortChunks exampleGraph = Some g' ∧
    Forall2 same_links (tensorAllocs exampleGraph) (tensorAllocs g') ∧
    ∀ p q, p ≠ q →
      lifetimes_overlap (tensorAllocs g') p q →
      extents_disjoint (tensorAllocs g') p q.
Proof.
  split; [exact exampleGraph_well_formed|].
  exact (planAllocations_disjoint_extents stableSortChunks stableSortChunks_sorts
           exampleGraph exampleGraph_well_formed).
Defined.

Lemma planAllocations_chain_adjacency_witness :
  well_formed (tensorAllocs exampleGraph) ∧
  ∃ g', planAllocationsWith stableSortChunks exampleGraph = Some g' ∧
    Forall2 same_links (tensorAllocs exampleGraph) (tensorAllocs g') ∧
    (∀ p q a,
       tensorAllocs exampleGraph !! p = Some a → next a = Some q →
       ∃ a' b',
         tensorAllocs g' !! p = Some a' ∧ tensorAllocs g' !! q = Some b' ∧
         next a' = Some q ∧ prev b' = Some p ∧
         byteOffset b' = byteOffset a' + byteSize a) ∧
    (∀ p q a b,
       tensorAllocs g' !! p = Some a → next a = Some q →
       tensorAllocs g' !! q = Some b →
       byteOffset b = byteOffset a + byteSize a).
Proof.
  split; [exact exampleGraph_well_formed|].
  exact (planAllocations_chain_adjacency stableSortChunks stableSortChunks_sorts
           exampleGraph exampleGraph_well_formed).
Defined.

(** The offsets the planner gives the records of [exampleBuild]: the
    chain of the upsampled tensor and the first convolution's tensor is
    placed first, at 0 and 1600; the other tensors reuse bytes of records
    that are not live at the same time. *)
Example exampleBuild_plan :
  (λ g, (byteOffset <$> tensorAllocs g, tensorScratchByteSize g)) <$>
    planAllocations exampleGraph
  = Some ([0; 1600; 0; 3200; 0; 3200], 4800).
Proof. vm_compute. reflexivity. Qed.








(** * The filter: weight selection, tile sizes, tile coverage *)

Module UNetFilterFacts.
Import UNetFilter.

Definition exampleImage : Image := {| format := Float3; imageW := 8; imageH := 8 |}.

Definition exampleBlobs : WeightsBlobs :=
  {| ldr := {| ptr := 1; size := 16 |}; hdr_blob := {| ptr := 2; size := 16 |};
     dir := {| ptr := 3; size := 16 |};
     ldr_alb := {| ptr := 4; size := 16 |}; hdr_alb := {| ptr := 5; size := 16 |};
     ldr_alb_nrm := {| ptr := 6; size := 16 |}; hdr_alb_nrm := {| ptr := 7; size := 16 |};
     ldr_calb_cnrm := {| ptr := 8; size := 16 |}; hdr_calb_cnrm := {| ptr := 9; size := 16 |};
     alb := {| ptr := 10; size := 16 |}; nrm := {| ptr := 11; size := 16 |} |}.

(** Color is the only input and [cleanAux] is set. *)
Definition colorCleanAux : Params :=
  {| color := Some exampleImage; albedo := None; normal := None;
     output := Some exampleImage;
     hdr := false; srgb := false; directional := false; cleanAux := true;
     userWeightsBlob := nullData; weightsBlobs := exampleBlobs |}.

(** C7, as stated, fails: with color as the only input and [cleanAux]
    set, the configuration is none of the eleven rows, and [init] selects
    the [ldr] blob. *)
Lemma cleanAux_without_aux_is_accepted :
  (configOf colorCleanAux ∉ (selectionTable exampleBlobs).*1) ∧
  Data_valid (userWeightsBlob colorCleanAux) = false ∧
  initWeights colorCleanAux = Ok (ldr exampleBlobs).
Proof.
  split; [|split; reflexivity].
  intros Hin. vm_compute in Hin. repeat (apply elem_of_cons in Hin as [Hin|Hin]; [done|]).
  by apply elem_of_nil in Hin.
Qed.

(** C7, amended.  With no user-supplied weights, a configuration that
    [init] accepts is, once the flags that the selection ignores are
    dropped ([directional] unless color is the only input, [cleanAux]
    unless color, albedo and normal are all present), a row of the
    selection table, and the blob selected is that row's: every other
    configuration is rejected with an error. *)
Theorem initWeights_selects_table_row f d :
  Data_valid (userWeightsBlob f) = false →
  initWeights f = Ok d →
  (effectiveConfigOf f, d) ∈ selectionTable (weightsBlobs f).
Proof.
  intros Huser. unfold initWeights, effectiveConfigOf.
  destruct (checkParams f) as [[]| |] eqn:Hcheck; simpl; try done.
  assert (directional f && (hdr f || srgb f) = false) as Hdir.
  { unfold checkParams in Hcheck.
    repeat (match type of Hcheck with
            | (if ?b then _ else _) = _ => destruct b eqn:?; try done
            | match ?o with _ => _ end = _ => destruct o eqn:?; try done
            end). }
  clear Hcheck. unfold getWeights, selectWeights. rewrite Huser.
  unfold selectionTable.
  destruct (present (color f)), (present (albedo f)), (present (normal f)),
    (hdr f), (directional f), (cleanAux f), (srgb f); simpl in *; try done;
    (match goal with
     | |- context [Data_valid ?b] => destruct (Data_valid b) eqn:?; simpl; try done
     end);
    intros [= <-]; set_solver.
Qed.

Lemma initWeights_selects_table_row_witness :
  (effectiveConfigOf colorCleanAux, ldr exampleBlobs) ∈ selectionTable (weightsBlobs colorCleanAux).
Proof.
  apply (initWeights_selects_table_row colorCleanAux (ldr exampleBlobs)); reflexivity.
Defined.

(** Facts about [ceil_div] and [round_up]. *)
Lemma ceil_div_pos a b : 1 ≤ a → 1 ≤ b → 1 ≤ ceil_div a b ∧ a ≤ ceil_div a b * b.
Proof.
  intros Ha Hb. unfold ceil_div. rewrite Z.quot_div_nonneg by lia.
  pose proof (Z.div_mod (a + b - 1) b ltac:(lia)) as Hdm.
  pose proof (Z.mod_pos_bound (a + b - 1) b ltac:(lia)) as Hmod.
  split; nia.
Qed.

Lemma round_up_ge a b : 1 ≤ a → 1 ≤ b → a ≤ round_up a b.
Proof. intros Ha Hb. unfold round_up. by apply ceil_div_pos. Qed.

Lemma ceil_div_bounds a b :
  1 ≤ a → 1 ≤ b → b * (ceil_div a b - 1) < a ≤ b * ceil_div a b.
Proof.
  intros Ha Hb. unfold ceil_div. rewrite Z.quot_div_nonneg by lia.
  pose proof (Z.div_mod (a + b - 1) b ltac:(lia)) as Hdm.
  pose proof (Z.mod_pos_bound (a + b - 1) b ltac:(lia)) as Hmod.
  split; nia.
Qed.

Section tile_sizes.
Variables (H W overlap alignment numEngines maxMemoryByteSize : Z).
Variable buildModelResult : Tiling → option Z → bool.

#[local] Abbreviation initLoop := (initLoop H W overlap alignment numEngines maxMemoryByteSize buildModelResult).
#[local] Abbreviation initTiles := (initTiles H W overlap alignment numEngines maxMemoryByteSize buildModelResult).
#[local] Abbreviation subdivide := (subdivide H W overlap alignment buildModelResult).

(** A tile size is the initial one, or at least the minimum. *)
Definition sizes_ok (t : Tiling) : Prop :=
  (tileH t = round_up H alignment ∨ 3 * overlap ≤ tileH t) ∧
  (tileW t = round_up W alignment ∨ 3 * overlap ≤ tileW t).

Lemma subdivide_sizes_ok t :
  sizes_ok t →
  match subdivide t with
  | inl t' => sizes_ok t'
  | inr (Ok e) => sizes_ok (exitTiling e)
  | inr _ => True
  end.
Proof.
  intros [Hh Hw]. unfold subdivide, minTileSize.
  destruct ((3 * overlap <? tileH t) && (tileW t <? tileH t)).
  { split; simpl; [right; lia | done]. }
  destruct (3 * overlap <? tileW t).
  { split; simpl; [done | right; lia]. }
  destruct (buildModel H W buildModelResult t None); done.
Qed.

Lemma initLoop_sizes_ok fuel : ∀ t e,
  sizes_ok t → initLoop fuel t = Some (Ok e) → sizes_ok (exitTiling e).
Proof.
  induction fuel as [|fuel IH]; intros t e Hok; simpl; [done|].
  destruct (negb _ || negb _).
  - pose proof (subdivide_sizes_ok t Hok) as Hsub.
    destruct (subdivide t) as [t'|[e'| |]]; try done.
    + by apply IH.
    + by intros [= <-].
  - by intros [= <-].
Qed.

Lemma initTiles_sizes_ok fuel e :
  initTiles fuel = Some (Ok e) → sizes_ok (exitTiling e).
Proof.
  unfold UNetFilter.initTiles.
  assert (sizes_ok (initialTiling H W alignment)) as H0 by (split; by left).
  destruct (initLoop fuel _) as [[[t|t]| |]|] eqn:Hloop; try done;
    intros [= <-]; exact (initLoop_sizes_ok fuel _ _ H0 Hloop).
Qed.

(** C6, amended.  When the loop of [init] is left through its condition
    (not through the fallback branch), each of [tileH] and [tileW] is at
    least [3 * overlap], or it is still the initial [round_up] of the
    image size: the size of a dimension that no pass has subdivided. *)
Theorem init_tile_sizes fuel t :
  initTiles fuel = Some (Ok (Fits t)) →
  (tileH t = round_up H alignment ∨ 3 * overlap ≤ tileH t) ∧
  (tileW t = round_up W alignment ∨ 3 * overlap ≤ tileW t).
Proof. intros Hinit. exact (initTiles_sizes_ok fuel (Fits t) Hinit). Qed.

End tile_sizes.

(** C6, as stated, fails: for a 1x1 image, overlap 1, alignment 1, one
    engine and a model that fits at once, the loop is left through its
    condition with 1x1 tiles, below [3 * overlap]. *)
Lemma small_image_tile_below_minimum :
  ∃ t, initTiles 1 1 1 1 1 (600 * 1024 * 1024) (λ _ _, true) 1 = Some (Ok (Fits t)) ∧
    ¬ (3 * 1 ≤ tileH t ∧ 3 * 1 ≤ tileW t).
Proof. eexists. split; [vm_compute; reflexivity|]. simpl. lia. Qed.

(** A 1024x1024 image, overlap 16, alignment 32, two engines, and a
    model that fits once a tile has at most 600x600 pixels. *)
Definition fitsBelow (t : Tiling) (maxMemory : option Z) : bool :=
  tileH t * tileW t <=? 600 * 600.

Definition tiling544 : Tiling :=
  {| tileH := 544; tileW := 544; tileCountH := 2; tileCountW := 2 |}.

Lemma init_tile_sizes_witness :
  initTiles 1024 1024 16 32 2 (600 * 1024 * 1024) fitsBelow 5 = Some (Ok (Fits tiling544)) ∧
  (tileH tiling544 = round_up 1024 32 ∨ 3 * 16 ≤ tileH tiling544) ∧
  (tileW tiling544 = round_up 1024 32 ∨ 3 * 16 ≤ tileW tiling544).
Proof.
  split; [vm_compute; reflexivity|].
  apply (init_tile_sizes 1024 1024 16 32 2 (600 * 1024 * 1024) fitsBelow 5 tiling544).
  vm_compute. reflexivity.
Defined.

(** ** One axis of the tile grid *)

Section one_axis.
(** [L]: the image extent on the axis, [T]: the tile size, [cnt]: the
    final tile count. *)
Variables (L overlap T cnt : Z).

(** Where the output of tile [i] starts and how long it is, as
    [tileCall] computes them. *)
Definition axisStart (i : Z) : Z :=
  i * (T - 2 * overlap) + (if 0 <? i then overlap else 0).

Definition axisLen (i : Z) : Z :=
  Z.min (L - i * (T - 2 * overlap)) T
  - (if 0 <? i then overlap else 0) - (if i <? cnt - 1 then overlap else 0).

Hypothesis HL : 1 ≤ L.
Hypothesis Hov : 0 ≤ overlap.
Hypothesis HT : L ≤ T ∨ 1 ≤ T - 2 * overlap.
Hypothesis Hcnt :
  cnt = if T <? L then ceil_div (L - 2 * overlap) (T - 2 * overlap) else 1.

Lemma axis_count_bounds :
  (L ≤ T ∧ cnt = 1) ∨
  (T < L ∧ 1 ≤ T - 2 * overlap ∧ 2 ≤ cnt ∧
   (T - 2 * overlap) * (cnt - 1) < L - 2 * overlap ≤ (T - 2 * overlap) * cnt).
Proof.
  destruct (T <? L) eqn:Hlt.
  - apply Z.ltb_lt in Hlt. right.
    assert (1 ≤ T - 2 * overlap) as Hs by lia.
    pose proof (ceil_div_bounds (L - 2 * overlap) (T - 2 * overlap) ltac:(lia) Hs) as Hb.
    rewrite <- Hcnt in Hb. split_and!; try lia. nia.
  - apply Z.ltb_ge in Hlt. left. lia.
Qed.

(** The output of tile [i] ends where that of tile [i + 1] starts, and
    the last one ends at [L]. *)
Lemma axis_span i :
  0 ≤ i < cnt →
  axisStart i < axisStart i + axisLen i ∧
  axisStart i + axisLen i = (if i <? cnt - 1 then axisStart (i + 1) else L) ∧
  0 ≤ axisStart i.
Proof.
  intros Hi. unfold axisStart, axisLen.
  destruct axis_count_bounds as [[Hle ->]|(Hlt & Hs & Hc & Hlo & Hhi)].
  - assert (i = 0) as -> by lia. simpl. lia.
  - set (s := T - 2 * overlap) in *.
    replace (0 <? i + 1) with true by (symmetry; apply Z.ltb_lt; lia).
    destruct (i <? cnt - 1) eqn:Hlast.
    + apply Z.ltb_lt in Hlast.
      assert ((i + 1) * s ≤ (cnt - 1) * s) as Hmono by nia.
      assert (0 ≤ i * s) by nia.
      rewrite Z.min_r by nia.
      destruct (0 <? i) eqn:H0; [apply Z.ltb_lt in H0 | apply Z.ltb_ge in H0]; nia.
    + apply Z.ltb_ge in Hlast. assert (i = cnt - 1) as -> by lia.
      replace (0 <? cnt - 1) with true by (symmetry; apply Z.ltb_lt; lia).
      assert (0 ≤ (cnt - 1) * s) by nia.
      rewrite Z.min_l by nia. nia.
Qed.

Lemma axis_start_mono i j :
  0 ≤ i → i < j → j < cnt → axisStart i + axisLen i ≤ axisStart j.
Proof.
  intros Hi Hij Hj.
  destruct (axis_span i ltac:(lia)) as (_ & Hend & _).
  rewrite Hend. replace (i <? cnt - 1) with true by (symmetry; apply Z.ltb_lt; lia).
  unfold axisStart.
  replace (0 <? i + 1) with true by (symmetry; apply Z.ltb_lt; lia).
  replace (0 <? j) with true by (symmetry; apply Z.ltb_lt; lia).
  destruct axis_count_bounds as [[Hle Hc]|(Hlt & Hs & Hc & Hlo & Hhi)]; [lia|].
  nia.
Qed.

Lemma axis_inside i y :
  0 ≤ i < cnt → axisStart i ≤ y < axisStart i + axisLen i → 0 ≤ y < L.
Proof.
  intros Hi Hy. destruct (axis_span i Hi) as (_ & Hend & H0).
  split; [lia|].
  destruct (i <? cnt - 1) eqn:Hlast; [|lia].
  apply Z.ltb_lt in Hlast.
  pose proof (axis_start_mono i (cnt - 1) ltac:(lia) ltac:(lia) ltac:(lia)) as Hm.
  destruct (axis_span (cnt - 1) ltac:(lia)) as (Hne & Hend' & _).
  rewrite Z.ltb_irrefl in Hend'. lia.
Qed.

Lemma axis_unique i j y :
  0 ≤ i < cnt → 0 ≤ j < cnt →
  axisStart i ≤ y < axisStart i + axisLen i →
  axisStart j ≤ y < axisStart j + axisLen j → i = j.
Proof.
  intros Hi Hj Hyi Hyj.
  destruct (Z.lt_trichotomy i j) as [Hlt|[->|Hgt]]; [|done|].
  - pose proof (axis_start_mono i j ltac:(lia) Hlt ltac:(lia)). lia.
  - pose proof (axis_start_mono j i ltac:(lia) Hgt ltac:(lia)). lia.
Qed.

Lemma axis_cover_aux (n : nat) y :
  Z.of_nat n < cnt → axisStart (Z.of_nat n) ≤ y → y < L →
  ∃ i, 0 ≤ i < cnt ∧ axisStart i ≤ y < axisStart i + axisLen i.
Proof.
  remember (Z.to_nat (cnt - 1 - Z.of_nat n)) as d eqn:Hd.
  revert n Hd. induction d as [|d IH]; intros n Hd Hn Hstart Hy.
  - assert (Z.of_nat n = cnt - 1) as Hlast by lia.
    exists (Z.of_nat n). split; [lia|].
    destruct (axis_span (Z.of_nat n) ltac:(lia)) as (_ & Hend & _).
    destruct (Z.of_nat n <? cnt - 1) eqn:E; [apply Z.ltb_lt in E; lia | lia].
  - destruct (axis_span (Z.of_nat n) ltac:(lia)) as (_ & Hend & _).
    replace (Z.of_nat n <? cnt - 1) with true in Hend by (symmetry; apply Z.ltb_lt; lia).
    destruct (decide (y < axisStart (Z.of_nat n + 1))) as [Hlt|Hge].
    + exists (Z.of_nat n). split; [lia|]. lia.
    + apply (IH (S n)); try lia.
      replace (Z.of_nat (S n)) with (Z.of_nat n + 1) by lia. lia.
Qed.

Lemma axis_cover y :
  0 ≤ y < L → ∃ i, 0 ≤ i < cnt ∧ axisStart i ≤ y < axisStart i + axisLen i.
Proof.
  intros Hy. apply (axis_cover_aux 0%nat); [|unfold axisStart; simpl; lia | lia].
  destruct axis_count_bounds as [[_ ->]|(_ & _ & Hc & _)]; simpl; lia.
Qed.

End one_axis.

Section tile_coverage.
Variables (H W overlap alignment numEngines maxMemoryByteSize : Z).
Variable buildModelResult : Tiling → option Z → bool.
Hypothesis HH : 1 ≤ H.
Hypothesis HW : 1 ≤ W.
Hypothesis Hov : 0 ≤ overlap.
Hypothesis Hal : 1 ≤ alignment.

#[local] Abbreviation initLoop :=
  (initLoop H W overlap alignment numEngines maxMemoryByteSize buildModelResult).
#[local] Abbreviation initTiles :=
  (initTiles H W overlap alignment numEngines maxMemoryByteSize buildModelResult).
#[local] Abbreviation subdivide := (subdivide H W overlap alignment buildModelResult).
#[local] Abbreviation executeTiles := (executeTiles H W overlap alignment numEngines).
#[local] Abbreviation tileCall := (tileCall H W overlap alignment numEngines).
#[local] Abbreviation finalTiling := (finalTiling H W overlap).

(** A tile is as large as the image, or its stride is positive. *)
Definition strides_ok (t : Tiling) : Prop :=
  1 ≤ tileCountH t ∧ 1 ≤ tileCountW t ∧
  (H ≤ tileH t ∨ 1 ≤ tileH t - 2 * overlap) ∧
  (W ≤ tileW t ∨ 1 ≤ tileW t - 2 * overlap).

Lemma subdivided_stride L n :
  1 ≤ L → 2 ≤ n →
  1 ≤ Z.max (round_up (ceil_div (L - 2 * overlap) n) alignment + 2 * overlap) (3 * overlap)
      - 2 * overlap.
Proof.
  intros HL Hn. destruct (decide (overlap = 0)) as [->|Hne]; [|lia].
  rewrite Z.sub_0_r, Z.add_0_r. replace (2 * 0) with 0 by lia. rewrite Z.sub_0_r.
  pose proof (ceil_div_pos L n HL ltac:(lia)) as [Hc _].
  pose proof (round_up_ge (ceil_div L n) alignment Hc Hal). lia.
Qed.

Lemma subdivide_strides_ok t :
  strides_ok t →
  match subdivide t with
  | inl t' => strides_ok t'
  | inr (Ok e) => strides_ok (exitTiling e)
  | inr _ => True
  end.
Proof.
  intros (Hch & Hcw & Hh & Hw). unfold UNetFilter.subdivide, minTileSize.
  destruct ((3 * overlap <? tileH t) && (tileW t <? tileH t)).
  { split_and!; simpl; try lia; try done. right. apply subdivided_stride; lia. }
  destruct (3 * overlap <? tileW t).
  { split_and!; simpl; try lia; try done. right. apply subdivided_stride; lia. }
  destruct (buildModel H W buildModelResult t None); done.
Qed.

Lemma initLoop_strides_ok fuel : ∀ t e,
  strides_ok t → initLoop fuel t = Some (Ok e) → strides_ok (exitTiling e).
Proof.
  induction fuel as [|fuel IH]; intros t e Hok; simpl; [done|].
  destruct (negb _ || negb _).
  - pose proof (subdivide_strides_ok t Hok) as Hsub.
    destruct (subdivide t) as [t'|[e'| |]]; try done.
    + by apply IH.
    + by intros [= <-].
  - by intros [= <-].
Qed.

Lemma initialTiling_strides_ok : strides_ok (initialTiling H W alignment).
Proof.
  unfold strides_ok. simpl. split_and!; try lia.
  - left. by apply round_up_ge.
  - left. by apply round_up_ge.
Qed.

(** The tiles of a tiling with the final tile counts. *)
Lemma elem_of_executeTiles t c :
  c ∈ executeTiles t ↔
  ∃ i j, 0 ≤ i < tileCountH t ∧ 0 ≤ j < tileCountW t ∧ c = tileCall t i j.
Proof.
  unfold UNetFilter.executeTiles.
  replace ((H <=? 0) || (W <=? 0)) with false
    by (symmetry; apply orb_false_iff; split; apply Z.leb_gt; lia).
  rewrite list_elem_of_bind. split.
  - intros (i & (j & Hc%list_elem_of_singleton & Hj%elem_of_range)%list_elem_of_bind
              & Hi%elem_of_range). eauto.
  - intros (i & j & Hi & Hj & ->). exists i. split; [|by apply elem_of_range].
    apply list_elem_of_bind. exists j. split; [by apply list_elem_of_singleton|].
    by apply elem_of_range.
Qed.

Lemma NoDup_executeTiles t : NoDup (executeTiles t).
Proof.
  unfold UNetFilter.executeTiles. destruct ((H <=? 0) || (W <=? 0)); [constructor|].
  apply NoDup_bind; [| |apply NoDup_range].
  - intros i1 i2 c _ _ (j1 & ->%list_elem_of_singleton & _)%list_elem_of_bind
                       (j2 & Hc%list_elem_of_singleton & _)%list_elem_of_bind.
    by apply (f_equal tile_i) in Hc.
  - intros i _. apply NoDup_bind; [| |apply NoDup_range].
    + intros j1 j2 c _ _ ->%list_elem_of_singleton Hc%list_elem_of_singleton.
      by apply (f_equal tile_j) in Hc.
    + intros j _. apply NoDup_singleton.
Qed.

Lemma in_output_tileCall t i j y x :
  in_output (tileCall t i j) y x ↔
  (axisStart overlap (tileH t) i ≤ y
     < axisStart overlap (tileH t) i + axisLen H overlap (tileH t) (tileCountH t) i) ∧
  (axisStart overlap (tileW t) j ≤ x
     < axisStart overlap (tileW t) j + axisLen W overlap (tileW t) (tileCountW t) j).
Proof. unfold in_output, axisStart, axisLen. simpl. done. Qed.

Lemma finalTiling_partition t :
  strides_ok t →
  let tiles := executeTiles (finalTiling t) in
  NoDup tiles ∧
  (∀ y x, 0 ≤ y < H → 0 ≤ x < W → ∃ c, c ∈ tiles ∧ in_output c y x) ∧
  (∀ c y x, c ∈ tiles → in_output c y x → 0 ≤ y < H ∧ 0 ≤ x < W) ∧
  (∀ c c' y x, c ∈ tiles → c' ∈ tiles →
     in_output c y x → in_output c' y x → c = c').
Proof.
  intros (_ & _ & Hh & Hw). simpl.
  set (t' := finalTiling t).
  assert (tileCountH t' = if tileH t' <? H
            then ceil_div (H - 2 * overlap) (tileH t' - 2 * overlap) else 1) as HcH by done.
  assert (tileCountW t' = if tileW t' <? W
            then ceil_div (W - 2 * overlap) (tileW t' - 2 * overlap) else 1) as HcW by done.
  change (tileH t) with (tileH t') in Hh. change (tileW t) with (tileW t') in Hw.
  split; [apply NoDup_executeTiles|]. split; [|split].
  - intros y x Hy Hx.
    destruct (axis_cover H overlap (tileH t') (tileCountH t') HH Hov Hh HcH y Hy) as (i & Hi & Hyi).
    destruct (axis_cover W overlap (tileW t') (tileCountW t') HW Hov Hw HcW x Hx) as (j & Hj & Hxj).
    exists (tileCall t' i j). split.
    + apply elem_of_executeTiles. eauto.
    + by apply in_output_tileCall.
  - intros c y x (i & j & Hi & Hj & ->)%elem_of_executeTiles [Hy Hx]%in_output_tileCall.
    split.
    + by eapply (axis_inside H overlap (tileH t') (tileCountH t')).
    + by eapply (axis_inside W overlap (tileW t') (tileCountW t')).
  - intros c c' y x (i & j & Hi & Hj & ->)%elem_of_executeTiles
                    (i' & j' & Hi' & Hj' & ->)%elem_of_executeTiles
                    [Hy Hx]%in_output_tileCall [Hy' Hx']%in_output_tileCall.
    assert (i = i') as ->
      by (by eapply (axis_unique H overlap (tileH t') (tileCountH t'))).
    assert (j = j') as ->
      by (by eapply (axis_unique W overlap (tileW t') (tileCountW t'))).
    done.
Qed.

(** C5.  For an image of at least one pixel, a non-negative overlap and
    a positive alignment, however [buildModel] answers: when the tile
    planning of [init] ends without an error, the output rectangles of
    the tile loop of [execute] are those of distinct tiles, every pixel of
    the image lies in one of them, they lie inside the image, and a pixel
    lies in one rectangle only. *)
Theorem execute_tiles_partition fuel e :
  initTiles fuel = Some (Ok e) →
  let tiles := executeTiles (exitTiling e) in
  NoDup tiles ∧
  (∀ y x, 0 ≤ y < H → 0 ≤ x < W → ∃ c, c ∈ tiles ∧ in_output c y x) ∧
  (∀ c y x, c ∈ tiles → in_output c y x → 0 ≤ y < H ∧ 0 ≤ x < W) ∧
  (∀ c c' y x, c ∈ tiles → c' ∈ tiles →
     in_output c y x → in_output c' y x → c = c').
Proof.
  unfold UNetFilter.initTiles.
  destruct (initLoop fuel _) as [[[t|t]| |]|] eqn:Hloop; try done;
    intros [= <-]; apply finalTiling_partition;
    exact (initLoop_strides_ok fuel _ _ initialTiling_strides_ok Hloop).
Qed.

End tile_coverage.

Lemma execute_tiles_partition_witness :
  1 ≤ 1024 ∧ 0 ≤ 16 ∧ 1 ≤ 32 ∧
  initTiles 1024 1024 16 32 2 (600 * 1024 * 1024) fitsBelow 5 = Some (Ok (Fits tiling544)) ∧
  let tiles := executeTiles 1024 1024 16 32 2 tiling544 in
  NoDup tiles ∧
  (∀ y x, 0 ≤ y < 1024 → 0 ≤ x < 1024 → ∃ c, c ∈ tiles ∧ in_output c y x) ∧
  (∀ c y x, c ∈ tiles → in_output c y x → 0 ≤ y < 1024 ∧ 0 ≤ x < 1024) ∧
  (∀ c c' y x, c ∈ tiles → c' ∈ tiles →
     in_output c y x → in_output c' y x → c = c').
Proof.
  split; [lia|]. split; [lia|]. split; [lia|]. split; [vm_compute; reflexivity|].
  apply (execute_tiles_partition 1024 1024 16 32 2 (600 * 1024 * 1024) fitsBelow
           ltac:(lia) ltac:(lia) ltac:(lia) ltac:(lia) 5 (Fits tiling544)).
  vm_compute. reflexivity.
Defined.

(** The four output rectangles of that tiling. *)
Example executeTiles_1024 :
  (λ c, (out_dstH c, out_dstW c, out_H c, out_W c, instance c)) <$>
    executeTiles 1024 1024 16 32 2 tiling544
  = [(0, 0, 528, 528, 0); (0, 528, 528, 496, 1);
     (528, 0, 496, 528, 0); (528, 528, 496, 496, 1)].
Proof. vm_compute. reflexivity. Qed.

End UNetFilterFacts.

(** * The repacker *)

Module ReorderFacts.
Import Reorder.

(** A loop of element writes to distinct addresses leaves at each of
    them the value written there, and the other addresses as they were. *)
Lemma foldl_write {K V : Type} (addr : K → Z) (val : K → V) (m : Z → V) (l : list K) :
  (∀ k k', k ∈ l → k' ∈ l → addr k = addr k' → k = k') →
  (∀ k, k ∈ l → foldl (λ m k, <[addr k := val k]> m) m l (addr k) = val k) ∧
  (∀ a, (∀ k, k ∈ l → addr k ≠ a) → foldl (λ m k, <[addr k := val k]> m) m l a = m a).
Proof.
  induction l as [|k0 l IH] using rev_ind; intros Hinj.
  - split; [by intros k ?%elem_of_nil | done].
  - destruct IH as [IHhit IHmiss].
    { intros k k' Hk Hk'. apply Hinj; apply elem_of_app; by left. }
    rewrite foldl_app. simpl. split.
    + intros k Hk.
      destruct (decide (addr k0 = addr k)) as [Heq|Hne].
      * assert (k0 = k) as ->.
        { apply Hinj; [|done|done]. apply elem_of_app. right. by left. }
        apply fn_lookup_insert.
      * rewrite fn_lookup_insert_ne by done. apply IHhit.
        apply elem_of_app in Hk as [Hk|Hk]; [done|].
        apply list_elem_of_singleton in Hk. by subst.
    + intros a Hmiss. rewrite fn_lookup_insert_ne.
      * apply IHmiss. intros k Hk. apply Hmiss. apply elem_of_app. by left.
      * apply Hmiss. apply elem_of_app. right. by left.
Qed.

Lemma layouts_supported (l : TensorLayout.t) :
  l ∈ [TensorLayout.oihw; TensorLayout.OIhw8i8o; TensorLayout.OIhw16i16o; TensorLayout.ohwi]
  ∨ l ∈ [TensorLayout.OIhw2o8i8o2i; TensorLayout.OIhw8i16o2i] →
  l ∈ [TensorLayout.oihw; TensorLayout.OIhw8i8o; TensorLayout.OIhw16i16o;
       TensorLayout.ohwi; TensorLayout.OIhw2o8i8o2i; TensorLayout.OIhw8i16o2i].
Proof.
  rewrite !elem_of_cons, !elem_of_nil. intros H. repeat destruct H as [H|H]; subst; tauto.
Qed.

Section reorder_facts.
Variables (half float : Type) (half_zero : half) (half_to_float : half → float).
Variable address4D : DataType.t → Shape → Z → Z → Z → Z → Z.
Variable address1D : DataType.t → Shape → Z → Z.

#[local] Abbreviation AnyTensor := (AnyTensor half float).
#[local] Abbreviation reorderWeight := (reorderWeight half float half_zero half_to_float address4D).
#[local] Abbreviation reorderBias := (reorderBias half float half_zero half_to_float address1D).
#[local] Abbreviation value4D := (value4D half float half_to_float address4D).
#[local] Abbreviation value1D := (value1D half float half_to_float address1D).
#[local] Abbreviation distinct4D := (distinct4D half float address4D).
#[local] Abbreviation distinct1D := (distinct1D half float address1D).

Lemma elem_of_weightIndices s dstI o i h w :
  (o, i, h, w) ∈ weightIndices s dstI ↔
  0 ≤ o < getPaddedO s ∧ 0 ≤ i < dstI ∧ 0 ≤ h < getH s ∧ 0 ≤ w < getW s.
Proof.
  unfold weightIndices. rewrite list_elem_of_bind.
  setoid_rewrite list_elem_of_bind. setoid_rewrite list_elem_of_bind.
  setoid_rewrite list_elem_of_bind. setoid_rewrite list_elem_of_singleton.
  setoid_rewrite elem_of_range. split.
  - intros (o' & (i' & (h' & (w' & [= -> -> -> ->] & ?) & ?) & ?) & ?). done.
  - intros (? & ? & ? & ?). exists o. split; [|done]. exists i. split; [|done].
    exists h. split; [|done]. exists w. done.
Qed.

(** The loops of [tryReorderWeight], for any two element types. *)
Lemma reorderWeightLoops_spec {SrcT DstT : Type} (srcT dstT : DataType.t)
    (zero : SrcT) (cast : SrcT → DstT)
    (src : Tensor SrcT) (srcBeginI srcI : Z) (dst : Tensor DstT) (dstBeginI dstI : Z) :
  (∀ o i h w o' i' h' w',
     0 ≤ o < getPaddedO (shape dst) → 0 ≤ i < getPaddedI (shape dst) →
     0 ≤ h < getH (shape dst) → 0 ≤ w < getW (shape dst) →
     0 ≤ o' < getPaddedO (shape dst) → 0 ≤ i' < getPaddedI (shape dst) →
     0 ≤ h' < getH (shape dst) → 0 ≤ w' < getW (shape dst) →
     address4D dstT (shape dst) o i h w = address4D dstT (shape dst) o' i' h' w' →
     (o, i, h, w) = (o', i', h', w')) →
  0 ≤ dstBeginI → dstBeginI + dstI ≤ getPaddedI (shape dst) →
  let dst' := reorderWeightLoops address4D srcT dstT zero cast src srcBeginI srcI
                dst dstBeginI dstI in
  shape dst' = shape dst ∧
  (∀ o i h w,
     0 ≤ o < getPaddedO (shape dst) → 0 ≤ i < dstI →
     0 ≤ h < getH (shape dst) → 0 ≤ w < getW (shape dst) →
     data dst' (address4D dstT (shape dst) o (dstBeginI + i) h w)
     = cast (if (o <? getPaddedO (shape src)) && (i <? srcI)
             then data src (address4D srcT (shape src) o (srcBeginI + i) h w)
             else zero)) ∧
  (∀ a, (∀ o i h w,
           0 ≤ o < getPaddedO (shape dst) → 0 ≤ i < dstI →
           0 ≤ h < getH (shape dst) → 0 ≤ w < getW (shape dst) →
           address4D dstT (shape dst) o (dstBeginI + i) h w ≠ a) →
        data dst' a = data dst a).
Proof.
  intros Hinj HdB HdI. simpl. split; [done|].
  set (addr := λ k : Z * Z * Z * Z,
         let '(o, i, h, w) := k in address4D dstT (shape dst) o (dstBeginI + i) h w).
  set (val := λ k : Z * Z * Z * Z,
         let '(o, i, h, w) := k in
         cast (if (o <? getPaddedO (shape src)) && (i <? srcI)
               then data src (address4D srcT (shape src) o (srcBeginI + i) h w)
               else zero)).
  assert (∀ m l,
    foldl (λ (m : Z → DstT) '(o, i, h, w),
             let value :=
               if (o <? getPaddedO (shape src)) && (i <? srcI)
               then data src (address4D srcT (shape src) o (srcBeginI + i) h w)
               else zero in
             <[address4D dstT (shape dst) o (dstBeginI + i) h w := cast value]> m) m l
    = foldl (λ m k, <[addr k := val k]> m) m l) as Hfold.
  { intros m l. revert m. induction l as [|[[[o i] h] w] l IH]; intros m; [done|].
    simpl. apply IH. }
  rewrite Hfold.
  destruct (foldl_write addr val (data dst) (weightIndices (shape dst) dstI)) as [Hhit Hmiss].
  { intros [[[o i] h] w] [[[o' i'] h'] w']
      (Ho & Hi & Hh & Hw)%elem_of_weightIndices
      (Ho' & Hi' & Hh' & Hw')%elem_of_weightIndices Heq.
    simpl in Heq. apply Hinj in Heq; try done; try lia.
    injection Heq as -> Hii -> ->. f_equal. f_equal. f_equal. lia. }
  split.
  - intros o i h w Ho Hi Hh Hw.
    apply (Hhit (o, i, h, w)). by apply elem_of_weightIndices.
  - intros a Ha. apply Hmiss.
    intros [[[o i] h] w] (Ho & Hi & Hh & Hw)%elem_of_weightIndices. simpl. by apply Ha.
Qed.

(** The dispatch of [reorderWeight]. *)
Lemma reorderWeight_half_half (s d : Tensor half) srcBeginI srcI dstBeginI dstI :
  layout (shape s) = TensorLayout.oihw →
  layout (shape d) ∈ [TensorLayout.oihw; TensorLayout.OIhw8i8o; TensorLayout.OIhw16i16o;
                      TensorLayout.ohwi; TensorLayout.OIhw2o8i8o2i; TensorLayout.OIhw8i16o2i] →
  reorderWeight (TensorF16 _ _ s) srcBeginI srcI (TensorF16 _ _ d) dstBeginI dstI
  = Ok (TensorF16 _ _
          (reorderWeightLoops address4D DataType.Float16 DataType.Float16
             half_zero id s srcBeginI srcI d dstBeginI dstI)).
Proof.
  intros Hs Hd. unfold Reorder.reorderWeight, weightInstances, firstReorder, tryReorderWeight,
    getLayout, getDataType, getShape. rewrite Hs.
  repeat (apply elem_of_cons in Hd as [->|Hd]; [reflexivity|]).
  by apply elem_of_nil in Hd.
Qed.

Lemma reorderWeight_half_float (s : Tensor half) (d : Tensor float)
    srcBeginI srcI dstBeginI dstI :
  layout (shape s) = TensorLayout.oihw →
  layout (shape d) ∈ [TensorLayout.oihw; TensorLayout.OIhw8i8o; TensorLayout.OIhw16i16o;
                      TensorLayout.ohwi] →
  reorderWeight (TensorF16 _ _ s) srcBeginI srcI (TensorF32 _ _ d) dstBeginI dstI
  = Ok (TensorF32 _ _
          (reorderWeightLoops address4D DataType.Float16 DataType.Float32
             half_zero half_to_float s srcBeginI srcI d dstBeginI dstI)).
Proof.
  intros Hs Hd. unfold Reorder.reorderWeight, weightInstances, firstReorder, tryReorderWeight,
    getLayout, getDataType, getShape. rewrite Hs.
  repeat (apply elem_of_cons in Hd as [->|Hd]; [reflexivity|]).
  by apply elem_of_nil in Hd.
Qed.

(** The loops of [tryReorderBias], for any two element types. *)
Lemma reorderBiasLoops_spec {SrcT DstT : Type} (srcT dstT : DataType.t)
    (zero : SrcT) (cast : SrcT → DstT) (src : Tensor SrcT) (dst : Tensor DstT) :
  (∀ x0 x1, 0 ≤ x0 → 0 ≤ x1 →
     address1D dstT (shape dst) x0 = address1D dstT (shape dst) x1 → x0 = x1) →
  0 ≤ getX (shape src) →
  let dst' := reorderBiasLoops address1D srcT dstT zero cast src dst in
  shape dst' = shape dst ∧
  (∀ x0, 0 ≤ x0 < getX (shape src) →
     data dst' (address1D dstT (shape dst) x0)
     = cast (data src (address1D srcT (shape src) x0))) ∧
  (∀ x0, getX (shape src) ≤ x0 < getPaddedX (shape dst) →
     data dst' (address1D dstT (shape dst) x0) = cast zero).
Proof.
  intros Hinj HX. simpl. split; [done|].
  set (srcX := getX (shape src)) in *.
  set (l2 := (λ k, srcX + k) <$> range (getPaddedX (shape dst) - srcX)).
  assert (∀ x0, x0 ∈ l2 ↔ srcX ≤ x0 < getPaddedX (shape dst)) as Hl2.
  { intros x0. unfold l2. rewrite list_elem_of_fmap.
    setoid_rewrite elem_of_range. split.
    - intros (k & -> & Hk). lia.
    - intros Hx. exists (x0 - srcX). lia. }
  destruct (foldl_write (address1D dstT (shape dst))
              (λ x0, cast (data src (address1D srcT (shape src) x0)))
              (data dst) (range srcX)) as [Hhit1 _].
  { intros k k' Hk%elem_of_range Hk'%elem_of_range.
    apply Hinj; lia. }
  set (m1 := foldl _ (data dst) (range srcX)) in *.
  destruct (foldl_write (address1D dstT (shape dst)) (λ _ : Z, cast zero) m1 l2)
    as [Hhit2 Hmiss2].
  { intros k k' Hk%Hl2 Hk'%Hl2. apply Hinj; lia. }
  split.
  - intros x0 Hx. rewrite Hmiss2.
    + apply Hhit1. by apply elem_of_range.
    + intros k Hk%Hl2 Heq. apply Hinj in Heq; lia.
  - intros x0 Hx. apply Hhit2. by apply Hl2.
Qed.

Lemma reorderBias_half_half (s d : Tensor half) :
  layout (shape s) = TensorLayout.x → layout (shape d) = TensorLayout.x →
  reorderBias (TensorF16 _ _ s) (TensorF16 _ _ d)
  = Ok (TensorF16 _ _
          (reorderBiasLoops address1D DataType.Float16 DataType.Float16 half_zero id s d)).
Proof.
  intros Hs Hd. unfold Reorder.reorderBias, tryReorderBias, getLayout, getDataType, getShape.
  by rewrite Hs, Hd.
Qed.

Lemma reorderBias_half_float (s : Tensor half) (d : Tensor float) :
  layout (shape s) = TensorLayout.x → layout (shape d) = TensorLayout.x →
  reorderBias (TensorF16 _ _ s) (TensorF32 _ _ d)
  = Ok (TensorF32 _ _
          (reorderBiasLoops address1D DataType.Float16 DataType.Float32
             half_zero half_to_float s d)).
Proof.
  intros Hs Hd. unfold Reorder.reorderBias, tryReorderBias, getLayout, getDataType, getShape.
  by rewrite Hs, Hd.
Qed.

(** C4, amended.  For every supported combination of element types
    and layouts, with the input-channel slices inside the padded input
    channels: [reorderWeight] returns, and the destination read back
    through its accessor holds the value of the source element
    [(o, srcBeginI + i, h, w)] where [o] is below the output-channel
    extent of the source's accessor (the padded [O] of the source, which
    is its logical [O] for a source without output-channel padding) and
    [i < srcI], and zero at every other index the loops write.
    [reorderBias] returns, copies the values at [x < srcX] and leaves
    zero from [srcX] up to the padded length. *)
Theorem reorder_contract :
  (∀ (src dst : AnyTensor) srcBeginI srcI dstBeginI dstI,
     weightSupported half float src dst → distinct4D dst →
     srcBeginI + srcI ≤ getPaddedI (getShape _ _ src) →
     0 ≤ dstBeginI → dstBeginI + dstI ≤ getPaddedI (getShape _ _ dst) →
     ∃ dst', reorderWeight src srcBeginI srcI dst dstBeginI dstI = Ok dst' ∧
       getShape _ _ dst' = getShape _ _ dst ∧
       getDataType _ _ dst' = getDataType _ _ dst ∧
       ∀ o i h w,
         0 ≤ o < getPaddedO (getShape _ _ dst) → 0 ≤ i < dstI →
         0 ≤ h < getH (getShape _ _ dst) → 0 ≤ w < getW (getShape _ _ dst) →
         value4D dst' o (dstBeginI + i) h w
         = if (o <? getPaddedO (getShape _ _ src)) && (i <? srcI)
           then value4D src o (srcBeginI + i) h w
           else half_to_float half_zero) ∧
  (∀ (src dst : AnyTensor),
     biasSupported half float src dst → distinct1D dst →
     0 ≤ getX (getShape _ _ src) →
     ∃ dst', reorderBias src dst = Ok dst' ∧
       getShape _ _ dst' = getShape _ _ dst ∧
       getDataType _ _ dst' = getDataType _ _ dst ∧
       (∀ x0, 0 ≤ x0 < getX (getShape _ _ src) → value1D dst' x0 = value1D src x0) ∧
       (∀ x0, getX (getShape _ _ src) ≤ x0 < getPaddedX (getShape _ _ dst) →
          value1D dst' x0 = half_to_float half_zero)).
Proof.
  split.
  - intros src dst srcBeginI srcI dstBeginI dstI (Hdt & Hls & Hld) Hinj HsI HdB HdI.
    destruct src as [s|s]; [|done]. unfold getLayout in Hls, Hld. simpl in Hls, HsI.
    destruct dst as [d|d]; simpl in Hld, HdI.
    + eexists. split.
      { apply reorderWeight_half_half; [done|].
        apply layouts_supported. destruct Hld as [Hld|[Hld _]]; [by left | by right]. }
      destruct (reorderWeightLoops_spec DataType.Float16 DataType.Float16 half_zero id
                  s srcBeginI srcI d dstBeginI dstI Hinj HdB HdI) as (Hshape & Hval & _).
      split; [done|]. split; [done|].
      intros o i h w Ho Hi Hh Hw. unfold Reorder.value4D. cbv beta iota. rewrite Hshape, (Hval o i h w) by done.
      unfold getShape. by destruct ((o <? getPaddedO (shape s)) && (i <? srcI)).
    + eexists. split.
      { apply reorderWeight_half_float; [done|].
        destruct Hld as [Hld|[_ Hld]]; [done | done]. }
      destruct (reorderWeightLoops_spec DataType.Float16 DataType.Float32 half_zero
                  half_to_float s srcBeginI srcI d dstBeginI dstI Hinj HdB HdI)
        as (Hshape & Hval & _).
      split; [done|]. split; [done|].
      intros o i h w Ho Hi Hh Hw. unfold Reorder.value4D. cbv beta iota. rewrite Hshape, (Hval o i h w) by done.
      unfold getShape. by destruct ((o <? getPaddedO (shape s)) && (i <? srcI)).
  - intros src dst (Hdt & Hls & Hld) Hinj HX.
    destruct src as [s|s]; [|done]. unfold getLayout in Hls, Hld. simpl in Hls, HX.
    destruct dst as [d|d]; simpl in Hld.
    + eexists. split; [by apply reorderBias_half_half|].
      destruct (reorderBiasLoops_spec DataType.Float16 DataType.Float16 half_zero id s d
                  Hinj HX) as (Hshape & Hcopy & Hpad).
      split; [done|]. split; [done|]. split.
      * intros x0 Hx. unfold Reorder.value1D. cbv beta iota. by rewrite Hshape, Hcopy.
      * intros x0 Hx. unfold Reorder.value1D. cbv beta iota. by rewrite Hshape, Hpad.
    + eexists. split; [by apply reorderBias_half_float|].
      destruct (reorderBiasLoops_spec DataType.Float16 DataType.Float32 half_zero
                  half_to_float s d Hinj HX) as (Hshape & Hcopy & Hpad).
      split; [done|]. split; [done|]. split.
      * intros x0 Hx. unfold Reorder.value1D. cbv beta iota. by rewrite Hshape, Hcopy.
      * intros x0 Hx. unfold Reorder.value1D. cbv beta iota. by rewrite Hshape, Hpad.
Qed.

End reorder_facts.

(** An instance: integers stand for the values of both element types,
    and the accessors address the elements in row-major order. *)
Definition sizeOfType (dt : DataType.t) : Z :=
  match dt with DataType.Float16 => 2 | DataType.Float32 => 4 end.

Definition rowMajor4D (dt : DataType.t) (s : Shape) (o i h w : Z) : Z :=
  (((o * getPaddedI s + i) * getH s + h) * getW s + w) * sizeOfType dt.

Definition rowMajor1D (dt : DataType.t) (s : Shape) (x0 : Z) : Z := x0 * sizeOfType dt.

(** A source with one output and two input channels, whose elements
    are 11 and 12, and a [float] destination padded to two output
    channels and filled with 7. *)
Definition exampleSrc : AnyTensor Z Z :=
  TensorF16 Z Z
    {| shape := {| layout := TensorLayout.oihw; getO := 1; getI := 2; getH := 1; getW := 1;
                   getPaddedO := 1; getPaddedI := 2; getX := 0; getPaddedX := 0 |};
       data := λ a, 11 + a / 2 |}.

Definition exampleDst : AnyTensor Z Z :=
  TensorF32 Z Z
    {| shape := {| layout := TensorLayout.OIhw8i8o; getO := 1; getI := 2; getH := 1; getW := 1;
                   getPaddedO := 2; getPaddedI := 2; getX := 0; getPaddedX := 0 |};
       data := λ a, 7 |}.

Lemma exampleDst_distinct : distinct4D Z Z rowMajor4D exampleDst.
Proof.
  intros o i h w o' i' h' w' Ho Hi Hh Hw Ho' Hi' Hh' Hw' Heq.
  unfold rowMajor4D in Heq. simpl in *.
  assert (o = o' ∧ i = i' ∧ h = h' ∧ w = w') as (-> & -> & -> & ->) by lia. done.
Qed.

Lemma reorder_contract_witness :
  ∃ dst', reorderWeight Z Z 0 id rowMajor4D exampleSrc 0 2 exampleDst 0 2 = Ok dst' ∧
    getShape _ _ dst' = getShape _ _ exampleDst ∧
    getDataType _ _ dst' = getDataType _ _ exampleDst ∧
    ∀ o i h w,
      0 ≤ o < getPaddedO (getShape _ _ exampleDst) → 0 ≤ i < 2 →
      0 ≤ h < getH (getShape _ _ exampleDst) → 0 ≤ w < getW (getShape _ _ exampleDst) →
      value4D Z Z id rowMajor4D dst' o (0 + i) h w
      = if (o <? getPaddedO (getShape _ _ exampleSrc)) && (i <? 2)
        then value4D Z Z id rowMajor4D exampleSrc o (0 + i) h w
        else id 0.
Proof.
  apply (proj1 (reorder_contract Z Z 0 id rowMajor4D rowMajor1D) exampleSrc exampleDst 0 2 0 2).
  - split; [reflexivity|]. split; [reflexivity|]. left.
    apply elem_of_cons. right. apply elem_of_cons. by left.
  - exact exampleDst_distinct.
  - simpl. lia.
  - lia.
  - simpl. lia.
Defined.

(** The destination of that call, read back in row-major order: the
    source row, then the zero padding of the second output channel. *)
Example reorderWeight_example :
  (λ r, match r with
        | Ok d => (λ oi : Z * Z, value4D Z Z id rowMajor4D d oi.1 oi.2 0 0)
                    <$> [(0, 0); (0, 1); (1, 0); (1, 1)]
        | _ => []
        end) (reorderWeight Z Z 0 id rowMajor4D exampleSrc 0 2 exampleDst 0 2)
  = [11; 12; 0; 0].
Proof. vm_compute. reflexivity. Qed.

(** A source with one output channel padded to two, whose four elements
    are 11, 12 (the channel) and 13, 14 (its padding). *)
Definition paddedSrc : AnyTensor Z Z :=
  TensorF16 Z Z
    {| shape := {| layout := TensorLayout.oihw; getO := 1; getI := 2; getH := 1; getW := 1;
                   getPaddedO := 2; getPaddedI := 2; getX := 0; getPaddedX := 0 |};
       data := λ a, 11 + a / 2 |}.

(** C4, as stated, fails for a source with output-channel padding: the
    call is one of a supported combination with both slices inside the
    padded input channels, and at the output channel 1, beyond the one
    logical output channel of the source, the destination holds the
    source's padding 13 and 14, not zero. *)
Lemma padded_source_is_copied :
  weightSupported Z Z paddedSrc exampleDst ∧
  distinct4D Z Z rowMajor4D exampleDst ∧
  0 + 2 ≤ getPaddedI (getShape _ _ paddedSrc) ∧
  0 + 2 ≤ getPaddedI (getShape _ _ exampleDst) ∧
  ∃ dst', reorderWeight Z Z 0 id rowMajor4D paddedSrc 0 2 exampleDst 0 2 = Ok dst' ∧
    (λ oi : Z * Z, value4D Z Z id rowMajor4D dst' oi.1 oi.2 0 0)
      <$> [(0, 0); (0, 1); (1, 0); (1, 1)] = [11; 12; 13; 14] ∧
    ¬ (∀ o i h w,
         0 ≤ o < getPaddedO (getShape _ _ exampleDst) → 0 ≤ i < 2 →
         0 ≤ h < getH (getShape _ _ exampleDst) → 0 ≤ w < getW (getShape _ _ exampleDst) →
         value4D Z Z id rowMajor4D dst' o (0 + i) h w
         = if (o <? getO (getShape _ _ paddedSrc)) && (i <? 2)
           then value4D Z Z id rowMajor4D paddedSrc o (0 + i) h w
           else id 0).
Proof.
  split_and!.
  - split; [reflexivity|]. split; [reflexivity|]. left.
    apply elem_of_cons. right. apply elem_of_cons. by left.
  - exact exampleDst_distinct.
  - simpl. lia.
  - simpl. lia.
  - eexists. split; [reflexivity|]. split; [vm_compute; reflexivity|].
    intros H. specialize (H 1 0 0 0).
    vm_compute in H. specialize (H ltac:(done) ltac:(done) ltac:(done) ltac:(done)).
    discriminate H.
Qed.

End ReorderFacts.

(** * The upsampling kernel *)

Module SYCLUpsampleFacts.
Import TensorMemory SYCLUpsample.

Section stores.
Context {T : Type}.
Variable sizeofT : Z.
Hypothesis Hsz : 0 < sizeofT.

Lemma storeBlock_miss (v : list T) : ∀ m p a,
  (∀ k, 0 ≤ k < Z.of_nat (length v) → a ≠ p + k * sizeofT) →
  storeBlock sizeofT m p v a = m a.
Proof.
  induction v as [|x v IH]; intros m p a Hmiss; simpl; [done|].
  rewrite IH.
  - apply fn_lookup_insert_ne. specialize (Hmiss 0). simpl in Hmiss. lia.
  - intros k Hk. specialize (Hmiss (k + 1)). simpl in Hmiss. lia.
Qed.

Lemma storeBlock_hit (v : list T) : ∀ m p (k : nat) x,
  v !! k = Some x → storeBlock sizeofT m p v (p + Z.of_nat k * sizeofT) = x.
Proof.
  induction v as [|y v IH]; intros m p k x Hk; [done|].
  destruct k as [|k]; simpl in Hk.
  - injection Hk as ->. replace (p + Z.of_nat 0 * sizeofT) with p by lia.
    simpl. rewrite storeBlock_miss.
    + apply fn_lookup_insert.
    + intros j Hj. lia.
  - replace (p + Z.of_nat (S k) * sizeofT)
      with (p + sizeofT + Z.of_nat k * sizeofT) by lia.
    simpl. by apply IH.
Qed.

Lemma loadBlock_lookup (m : Z → T) p (n k : nat) :
  (k < n)%nat → loadBlock sizeofT m p n !! k = Some (m (p + Z.of_nat k * sizeofT)).
Proof.
  intros Hk. unfold loadBlock. rewrite list_lookup_fmap, lookup_seq_lt by done. done.
Qed.

Lemma length_loadBlock (m : Z → T) p n : length (loadBlock sizeofT m p n) = n.
Proof. unfold loadBlock. by rewrite length_fmap, length_seq. Qed.

End stores.

Lemma mixed_radix_unique n a b a' b' :
  0 ≤ b < n → 0 ≤ b' < n → a * n + b = a' * n + b' → a = a' ∧ b = b'.
Proof. intros Hb Hb' Heq. assert (a = a') by nia. subst. lia. Qed.

Section kernel_facts.
Context {T : Type}.
Variables (sizeofT B : Z).
Hypothesis Hsz : 0 < sizeofT.
Hypothesis HB : 0 < B.
(** The source: [CB] channel blocks, [H] rows, [W] pixels, at [sp]; the
    destination at [dp]. *)
Variables (sp dp CB H W : Z).
Hypothesis HCB : 0 ≤ CB.
Hypothesis HH : 0 ≤ H.
Hypothesis HW : 0 ≤ W.

Let n := B * sizeofT.
Let rs := W * n.
Let src := denseAccessor sizeofT B sp (CB * B) H W.
Let dst := upsampleDst sizeofT B src dp.

(** The destination fits [size_t], and the tensors do not overlap. *)
Hypothesis Hfit : byteSize B dst < 2 ^ 64.
Hypothesis Hapart :
  sp + byteSize B src ≤ dp ∨ dp + byteSize B dst ≤ sp.

(** The address the item [(hs, ws)] writes element [k] of row [r] to. *)
Definition target (hs ws r k : Z) : Z :=
  dp + 4 * hs * rs + 2 * ws * n + r * (2 * rs) + k * sizeofT.

Definition source (hs ws k : Z) : Z :=
  sp + hs * rs + ws * n + k * sizeofT.

Definition valid_item (hs ws : Z) : Prop := 0 ≤ hs < CB * H ∧ 0 ≤ ws < W.
Definition valid_slot (r k : Z) : Prop := 0 ≤ r < 2 ∧ 0 ≤ k < 2 * B.

Lemma byteSize_src : byteSize B src = CB * H * rs.
Proof. unfold byteSize, src, denseAccessor. simpl. rewrite Z.div_mul by lia. done. Qed.

Lemma byteSize_dst : byteSize B dst = 4 * (CB * H * rs).
Proof.
  unfold byteSize, dst, upsampleDst, denseAccessor, src. simpl.
  rewrite Z.div_mul by lia. unfold rs, n. lia.
Qed.

Lemma n_pos : 0 < n.
Proof. unfold n. nia. Qed.

Lemma target_in_dst hs ws r k :
  valid_item hs ws → valid_slot r k →
  dp ≤ target hs ws r k < dp + byteSize B dst.
Proof.
  intros [Hhs Hws] [Hr Hk]. rewrite byteSize_dst. unfold target, rs.
  pose proof n_pos.
  assert (0 ≤ k * sizeofT < 2 * n) by (unfold n; nia).
  assert (target hs ws r k - dp = ((2 * hs + r) * W + ws) * (2 * n) + k * sizeofT) as E
    by (unfold target, rs; lia).
  assert (0 ≤ (2 * hs + r) * W + ws < 2 * (CB * H) * W) by nia.
  unfold target, rs in E. nia.
Qed.

Lemma source_in_src hs ws k :
  valid_item hs ws → 0 ≤ k < B →
  sp ≤ source hs ws k < sp + byteSize B src.
Proof.
  intros [Hhs Hws] Hk. rewrite byteSize_src. unfold source, rs.
  pose proof n_pos.
  assert (0 ≤ k * sizeofT < n) by (unfold n; nia).
  assert (0 ≤ hs * W + ws < CB * H * W) by nia.
  nia.
Qed.

Lemma target_inj hs ws r k hs' ws' r' k' :
  valid_item hs ws → valid_slot r k → valid_item hs' ws' → valid_slot r' k' →
  target hs ws r k = target hs' ws' r' k' → hs = hs' ∧ ws = ws' ∧ r = r' ∧ k = k'.
Proof.
  intros [Hhs Hws] [Hr Hk] [Hhs' Hws'] [Hr' Hk'] Heq. unfold target, rs, n in Heq.
  assert ((((2 * hs + r) * W + ws) * (2 * B) + k) * sizeofT
          = (((2 * hs' + r') * W + ws') * (2 * B) + k') * sizeofT) as E1 by lia.
  apply Z.mul_cancel_r in E1; [|lia].
  apply mixed_radix_unique in E1 as [E2 ->]; [|lia|lia].
  apply mixed_radix_unique in E2 as [E3 ->]; [|lia|lia].
  assert (hs = hs') by lia. subst. split_and!; try done. lia.
Qed.

Lemma item_offsets hs ws :
  valid_item hs ws →
  size_mul hs (hStride src) = hs * rs ∧
  size_mul ws (wStride src) = ws * n ∧
  size_add (hs * rs) (ws * n) = hs * rs + ws * n ∧
  size_add (size_mul (hs * rs) 4) (size_mul (ws * n) 2) = 4 * hs * rs + 2 * ws * n.
Proof.
  intros [Hhs Hws]. pose proof n_pos. pose proof byteSize_dst as Hd.
  rewrite Hd in Hfit.
  assert (0 ≤ hs * W + ws < CB * H * W) by nia.
  assert (0 ≤ hs * rs) by (unfold rs; nia).
  assert (0 ≤ ws * n) by nia.
  assert (4 * (hs * rs) + 2 * (ws * n) < 2 ^ 64) by (unfold rs in *; nia).
  unfold size_mul, size_add, size_wrap. simpl. fold n. fold rs.
  rewrite !Z.mod_small; try lia.
  rewrite !Z.mod_small; lia.
Qed.

Lemma kernel_hit (m : Z → T) hs ws r k :
  0 < W → valid_item hs ws → valid_slot r k →
  kernel sizeofT B src dst m hs ws (target hs ws r k) = m (source hs ws (k mod B)).
Proof.
  intros HWpos Hit [Hr Hk]. unfold kernel.
  destruct (item_offsets hs ws Hit) as (-> & -> & -> & ->).
  set (v := loadBlock sizeofT m (ptr src + (hs * rs + ws * n)) (Z.to_nat B)).
  assert (length v = Z.to_nat B) as Hlen by apply length_loadBlock.
  assert ((v ++ v) !! Z.to_nat k = Some (m (source hs ws (k mod B)))) as Hv2.
  { destruct (decide (k < B)) as [Hlt|Hge].
    - rewrite lookup_app_l by lia. unfold v.
      rewrite loadBlock_lookup by lia. f_equal. f_equal.
      rewrite Z.mod_small by lia. unfold source. simpl. lia.
    - rewrite lookup_app_r by lia. rewrite Hlen. unfold v.
      rewrite loadBlock_lookup by lia. f_equal. f_equal.
      replace (k mod B) with (k - B).
      + replace (Z.of_nat (Z.to_nat k - Z.to_nat B)) with (k - B) by lia.
        unfold source. simpl. lia.
      + apply (Z.mod_unique k B 1 (k - B)); lia. }
  pose proof n_pos.
  assert (hStride dst = 2 * rs) as Hhd by (simpl; unfold rs, n; lia).
  assert (ptr dst = dp) as Hpd by done.
  rewrite Hhd, Hpd.
  assert (r = 0 ∨ r = 1) as [->| ->] by lia.
  - rewrite storeBlock_miss.
    + replace (target hs ws 0 k)
        with (dp + (4 * hs * rs + 2 * ws * n) + Z.of_nat (Z.to_nat k) * sizeofT)
        by (unfold target; lia).
      apply storeBlock_hit; [exact Hsz | exact Hv2].
    + intros j Hj. rewrite length_app, Hlen in Hj. unfold target, rs. unfold rs in *.
      assert (0 ≤ k * sizeofT < 2 * n) by (unfold n; nia).
      assert (0 ≤ j * sizeofT) by nia.
      assert (2 * n ≤ 2 * (W * n)) by nia.
      lia.
  - replace (target hs ws 1 k)
      with (dp + (4 * hs * rs + 2 * ws * n) + 2 * rs + Z.of_nat (Z.to_nat k) * sizeofT)
      by (unfold target; lia).
    apply storeBlock_hit; [exact Hsz | exact Hv2].
Qed.

Lemma kernel_miss (m : Z → T) hs ws a :
  valid_item hs ws →
  (∀ r k, valid_slot r k → a ≠ target hs ws r k) →
  kernel sizeofT B src dst m hs ws a = m a.
Proof.
  intros Hit Hmiss. unfold kernel.
  destruct (item_offsets hs ws Hit) as (-> & -> & -> & ->).
  set (v := loadBlock sizeofT m (ptr src + (hs * rs + ws * n)) (Z.to_nat B)).
  assert (length v = Z.to_nat B) as Hlen by apply length_loadBlock.
  assert (hStride dst = 2 * rs) as Hhd by (simpl; unfold rs, n; lia).
  assert (ptr dst = dp) as Hpd by done.
  rewrite Hhd, Hpd.
  rewrite storeBlock_miss.
  - rewrite storeBlock_miss; [done|].
    intros k Hk. rewrite length_app, Hlen in Hk.
    specialize (Hmiss 0 k ltac:(unfold valid_slot; lia)). unfold target in Hmiss. lia.
  - intros k Hk. rewrite length_app, Hlen in Hk.
    specialize (Hmiss 1 k ltac:(unfold valid_slot; lia)). unfold target in Hmiss. lia.
Qed.

#[local] Abbreviation step :=
  (λ (m' : Z → T) '(hSrc, wSrc), kernel sizeofT B src dst m' hSrc wSrc).

Lemma run_fold (m0 : Z → T) (l : list (Z * Z)) : ∀ m,
  0 < W →
  (∀ hs ws, (hs, ws) ∈ l → valid_item hs ws) →
  (∀ a, sp ≤ a < sp + byteSize B src → m a = m0 a) →
  (∀ hs ws r k, valid_item hs ws → valid_slot r k → (hs, ws) ∈ l →
     foldl step m l (target hs ws r k) = m0 (source hs ws (k mod B))) ∧
  (∀ a, (∀ hs ws r k, (hs, ws) ∈ l → valid_slot r k → a ≠ target hs ws r k) →
     foldl step m l a = m a).
Proof.
  induction l as [|[hs0 ws0] l IH]; intros m HWpos Hvalid Hagree.
  - split; [by intros ?????? ?%elem_of_nil | done].
  - assert (valid_item hs0 ws0) as Hit0 by (apply Hvalid; left).
    set (m1 := kernel sizeofT B src dst m hs0 ws0).
    assert (∀ a, sp ≤ a < sp + byteSize B src → m1 a = m0 a) as Hagree1.
    { intros a Ha. unfold m1. rewrite kernel_miss; [by apply Hagree | done |].
      intros r k Hslot ->. pose proof (target_in_dst hs0 ws0 r k Hit0 Hslot). lia. }
    destruct (IH m1 HWpos) as [IHhit IHmiss]; [|done|].
    { intros hs ws Hin. apply Hvalid. by right. }
    split.
    + intros hs ws r k Hit Hslot Hin. simpl. fold m1.
      destruct (decide ((hs, ws) ∈ l)) as [Hl|Hl]; [by apply IHhit|].
      apply elem_of_cons in Hin as [[= -> ->]|Hin]; [|done].
      rewrite IHmiss.
      * unfold m1. rewrite kernel_hit by done. apply Hagree.
        apply source_in_src; [done|]. apply Z.mod_pos_bound. lia.
      * intros hs' ws' r' k' Hin' Hslot' Heq.
        apply target_inj in Heq as (-> & -> & _); try done.
        apply Hvalid. by right.
    + intros a Hmiss. simpl. fold m1. rewrite IHmiss.
      * unfold m1. apply kernel_miss; [done|].
        intros r k Hslot. apply (Hmiss hs0 ws0 r k); [by left | done].
      * intros hs ws r k Hin Hslot. apply Hmiss; [by right | done].
Qed.

Lemma elem_of_workItems n0 n1 i j :
  (i, j) ∈ workItems n0 n1 ↔ 0 ≤ i < n0 ∧ 0 ≤ j < n1.
Proof.
  unfold workItems. rewrite list_elem_of_bind. split.
  - intros (i' & (j' & [= -> ->]%list_elem_of_singleton & Hj)%list_elem_of_bind & Hi).
    by rewrite <- !elem_of_range.
  - intros [Hi Hj]. exists i. split; [|by apply elem_of_range].
    apply list_elem_of_bind. exists j. split; [by apply list_elem_of_singleton|].
    by apply elem_of_range.
Qed.

(** C10.  The destination of the upsampling has twice the height and
    twice the width of the source, and after [run] its element at
    [(c, 2h + dh, 2w + dw)] is the source's element at [(c, h, w)], for
    every channel, source position and [dh], [dw] in {0, 1}. *)
Theorem upsample_nearest (m : Z → T) :
  TensorMemory.H dst = 2 * H ∧ TensorMemory.W dst = 2 * W ∧
  ∀ c h w dh dw,
    0 ≤ c < CB * B → 0 ≤ h < H → 0 ≤ w < W → 0 ≤ dh < 2 → 0 ≤ dw < 2 →
    run sizeofT B src dst m (address sizeofT B dst c (2 * h + dh) (2 * w + dw))
    = m (address sizeofT B src c h w).
Proof.
  split; [done|]. split; [done|].
  intros c h w dh dw Hc Hh Hw Hdh Hdw. unfold run.
  assert (TensorMemory.C src / B = CB) as HCBeq by (simpl; by rewrite Z.div_mul by lia).
  rewrite HCBeq. change (TensorMemory.H src) with H. change (TensorMemory.W src) with W.
  pose proof (Z.div_mod c B ltac:(lia)) as Hdm.
  pose proof (Z.mod_pos_bound c B HB) as Hmod.
  assert (0 ≤ c / B < CB) as Hcb by (split; [apply Z.div_pos; lia | apply Z.div_lt_upper_bound; lia]).
  set (hs := c / B * H + h).
  assert (valid_item hs w) as Hit by (unfold valid_item, hs; nia).
  assert (valid_slot dh (dw * B + c mod B)) as Hslot by (unfold valid_slot; nia).
  assert (address sizeofT B dst c (2 * h + dh) (2 * w + dw)
          = target hs w dh (dw * B + c mod B)) as ->.
  { unfold address, target, hs, rs, n. simpl. lia. }
  assert (address sizeofT B src c h w = source hs w ((dw * B + c mod B) mod B)) as ->.
  { assert ((dw * B + c mod B) mod B = c mod B) as ->.
    { rewrite Z.add_comm, Z.mod_add by lia. apply Z.mod_mod. lia. }
    unfold address, source, hs, rs, n. simpl. lia. }
  destruct (run_fold m (workItems (H * CB) W) m ltac:(lia)) as [Hhit _].
  - intros hs' ws' [Hi Hj]%elem_of_workItems. unfold valid_item. lia.
  - done.
  - apply Hhit; [done | done |]. apply elem_of_workItems. unfold valid_item in Hit. lia.
Qed.

End kernel_facts.

(** A source of one channel block of 16 half-precision channels and 2x2
    pixels at address 0, the destination behind it at address 128, and a
    memory that holds at each address the address itself. *)
Definition exampleSrc : TensorAccessor3D := denseAccessor 2 16 0 (1 * 16) 2 2.

Lemma upsample_nearest_witness :
  (0 < 2 ∧ 0 < 16 ∧ 0 ≤ 1 ∧ 0 ≤ 2) ∧
  byteSize 16 (upsampleDst 2 16 exampleSrc 128) < 2 ^ 64 ∧
  (0 + byteSize 16 exampleSrc ≤ 128 ∨
   128 + byteSize 16 (upsampleDst 2 16 exampleSrc 128) ≤ 0) ∧
  TensorMemory.H (upsampleDst 2 16 exampleSrc 128) = 2 * 2 ∧
  TensorMemory.W (upsampleDst 2 16 exampleSrc 128) = 2 * 2 ∧
  ∀ c h w dh dw,
    0 ≤ c < 1 * 16 → 0 ≤ h < 2 → 0 ≤ w < 2 → 0 ≤ dh < 2 → 0 ≤ dw < 2 →
    run 2 16 exampleSrc (upsampleDst 2 16 exampleSrc 128) (λ a, a)
      (address 2 16 (upsampleDst 2 16 exampleSrc 128) c (2 * h + dh) (2 * w + dw))
    = address 2 16 exampleSrc c h w.
Proof.
  split; [lia|]. split; [vm_compute; reflexivity|].
  split; [left; vm_compute; discriminate|].
  apply (upsample_nearest (T:=Z) 2 16 ltac:(lia) ltac:(lia) 0 128 1 2 2
           ltac:(lia) ltac:(lia) ltac:(lia)).
  - vm_compute. reflexivity.
  - left. vm_compute. discriminate.
Defined.

(** The kernel run on that source: the element at channel 3 of source
    pixel (1, 0) arrives at the four destination pixels (2, 0), (2, 1),
    (3, 0), (3, 1). *)
Example upsample_run_example :
  (λ hw : Z * Z,
     run 2 16 exampleSrc (upsampleDst 2 16 exampleSrc 128) (λ a, a)
       (address 2 16 (upsampleDst 2 16 exampleSrc 128) 3 hw.1 hw.2))
    <$> [(2, 0); (2, 1); (3, 0); (3, 1)]
  = [address 2 16 exampleSrc 3 1 0; address 2 16 exampleSrc 3 1 0;
     address 2 16 exampleSrc 3 1 0; address 2 16 exampleSrc 3 1 0].
Proof. vm_compute. reflexivity. Qed.

End SYCLUpsampleFacts.

(** ** The activation of the convolutions *)

Module SYCLConvDPASFacts.

(** *** The graph of the U-Net *)

Definition exampleOpInfo (c : Z) : OpInfo :=
  {| infoDstDesc := {| C := c; paddedC := round_up c 16; alignedSize := 4096 |};
     infoScratch := 0; infoSupported := true |}.

(** An engine with blocks of 16 channels; [fused] says whether it
    supports convolutions fused with pooling or upsampling, [hwc]
    whether its tensor layout is [hwc]. *)
Definition exampleEngine (fused hwc : bool) : Engine :=
  {| isConvSupported := λ _, fused;
     getTensorBlockC := 16;
     tensorLayoutIsHWC := hwc;
     getByteSize := λ ds, 2 * foldr Z.mul 1 ds;
     newInputProcess := λ ds _, exampleOpInfo ds.1.1;
     newOutputProcess := λ d, exampleOpInfo 3;
     newConv := λ d, exampleOpInfo (default 0 (convWeightDims d !! 0%nat));
     newConcatConvCHW := λ d, exampleOpInfo (default 0 (concatWeightDims d !! 0%nat));
     newConcatConvHWC := λ d, exampleOpInfo (default 0 (concatWeightDims d !! 0%nat));
     concatConvHWCWeightBytes := λ d, (0, 0);
     newPool := λ d, exampleOpInfo (C d);
     newUpsample := λ d, exampleOpInfo (C d) |}.

Definition convWeights (n : string) (o i : Z) : list (string * WeightTensor) :=
  [(n +:+ ".weight", {| rank := 4; dims := [o; i; 3; 3]; weightByteSize := 2 * o * i * 9 |});
   (n +:+ ".bias", {| rank := 1; dims := [o]; weightByteSize := 2 * o |})].

Definition exampleWeights : gmap string WeightTensor :=
  list_to_map
    (convWeights "enc_conv0" 32 9 ++ convWeights "enc_conv1" 32 32
     ++ convWeights "enc_conv2" 48 32 ++ convWeights "enc_conv3" 64 48
     ++ convWeights "enc_conv4" 80 64 ++ convWeights "enc_conv5a" 96 80
     ++ convWeights "enc_conv5b" 96 96 ++ convWeights "dec_conv4a" 112 160
     ++ convWeights "dec_conv4b" 112 112 ++ convWeights "dec_conv3a" 96 160
     ++ convWeights "dec_conv3b" 96 96 ++ convWeights "dec_conv2a" 64 128
     ++ convWeights "dec_conv2b" 64 64 ++ convWeights "dec_conv1a" 64 73
     ++ convWeights "dec_conv1b" 32 64 ++ convWeights "dec_conv0" 3 32).

(** The activation of an op that is a convolution. *)
Definition activationOf (op : Op) : option Activation.t :=
  match kind op with
  | Conv a _ | ConcatConvCHW a | ConcatConvHWC a => Some a
  | _ => None
  end.

(** The convolutions of a graph, by name, with their activations. *)
Definition convActivations (g : Graph) : list (string * Activation.t) :=
  omap (λ op, a ← activationOf op; Some (name op, a)) (ops g).

Definition builtActivations (fused hwc : bool) : option (list (string * Activation.t)) :=
  match UNetFilter.buildGraph (exampleEngine fused hwc) (9, 64, 64) 16 (newGraph exampleWeights) with
  | Ok r => Some (convActivations r.2)
  | _ => None
  end.

Definition builtNames (fused hwc : bool) : option (list string) :=
  match UNetFilter.buildGraph (exampleEngine fused hwc) (9, 64, 64) 16 (newGraph exampleWeights) with
  | Ok r => Some (name <$> ops r.2)
  | _ => None
  end.


(** The activations [buildModel] asks for. *)
Definition unetActivations : list (string * Activation.t) :=
  [("enc_conv0", Activation.ReLU); ("enc_conv1", Activation.ReLU);
   ("enc_conv2", Activation.ReLU); ("enc_conv3", Activation.ReLU);
   ("enc_conv4", Activation.ReLU); ("enc_conv5a", Activation.ReLU);
   ("enc_conv5b", Activation.ReLU); ("dec_conv4a", Activation.ReLU);
   ("dec_conv4b", Activation.ReLU); ("dec_conv3a", Activation.ReLU);
   ("dec_conv3b", Activation.ReLU); ("dec_conv2a", Activation.ReLU);
   ("dec_conv2b", Activation.ReLU); ("dec_conv1a", Activation.ReLU);
   ("dec_conv1b", Activation.ReLU); ("dec_conv0", Activation.None)].

Lemma bind_Ok {A B} (m : Result A) (k : A → Result B) (r : B) :
  (m ≫= k) = Ok r → ∃ a, m = Ok a ∧ k a = Ok r.
Proof. destruct m; simpl; try discriminate. eauto. Qed.

Ltac bind_inv H :=
  let a := fresh "a" in let Ha := fresh "Ha" in
  apply bind_Ok in H as (a & Ha & H).

Lemma addOp_ops op srcOps concatSrcs g g' :
  addOp op srcOps concatSrcs g = Ok g' → ops g' = ops g ++ [op].
Proof.
  unfold addOp. destruct (finalized g); [discriminate|].
  intros H. bind_inv H. by injection H as <-.
Qed.

Lemma addOpDst_ops op srcOps d concatSrcs g r :
  addOpDst op srcOps d concatSrcs g = Ok r → ops r.2 = ops g ++ [op].
Proof.
  unfold addOpDst. intros H. bind_inv H. injection H as <-.
  by apply addOp_ops in Ha.
Qed.

Lemma convActivations_app g g' op :
  ops g' = ops g ++ [op] →
  convActivations g' = convActivations g ++ from_option (λ a, [(name op, a)]) [] (activationOf op).
Proof.
  unfold convActivations. intros ->. rewrite omap_app. f_equal.
  simpl. by destruct (activationOf op).
Qed.

Lemma addInputProcess_activations e n ds al g r :
  addInputProcess e n ds al g = Ok r → convActivations r.2 = convActivations g.
Proof.
  unfold addInputProcess. intros H. bind_inv H. injection H as <-.
  apply addOpDst_ops in Ha. simpl.
  change (convActivations (pushLazyInit _ a.2)) with (convActivations a.2).
  rewrite (convActivations_app _ _ _ Ha). simpl. by rewrite app_nil_r.
Qed.

Lemma addOutputProcess_activations e n s g r :
  addOutputProcess e n s g = Ok r → convActivations r.2 = convActivations g.
Proof.
  unfold addOutputProcess. intros H. bind_inv H. bind_inv H. injection H as <-.
  apply addOp_ops in Ha0. simpl.
  change (convActivations (pushLazyInit _ a0)) with (convActivations a0).
  rewrite (convActivations_app _ _ _ Ha0). simpl. by rewrite app_nil_r.
Qed.

Lemma addPool_activations e n s g r :
  addPool e n s g = Ok r → convActivations r.2 = convActivations g.
Proof.
  unfold addPool. intros H. bind_inv H. bind_inv H. injection H as <-.
  apply addOpDst_ops in Ha0. simpl.
  change (convActivations (pushLazyInit _ a0.2)) with (convActivations a0.2).
  rewrite (convActivations_app _ _ _ Ha0). simpl. by rewrite app_nil_r.
Qed.

Lemma addUpsample_activations e n s g r :
  addUpsample e n s g = Ok r → convActivations r.2 = convActivations g.
Proof.
  unfold addUpsample. intros H. bind_inv H. bind_inv H. injection H as <-.
  apply addOpDst_ops in Ha0. simpl.
  change (convActivations (pushLazyInit _ a0.2)) with (convActivations a0.2).
  rewrite (convActivations_app _ _ _ Ha0). simpl. by rewrite app_nil_r.
Qed.

Lemma addConvOp_activations e n s act p g r :
  addConvOp e n s act p g = Ok r →
  convActivations r.2 = convActivations g ++ [(n, act)].
Proof.
  unfold addConvOp. intros H. bind_inv H. destruct (negb _); [discriminate|].
  bind_inv H. destruct (negb _); [discriminate|].
  bind_inv H. bind_inv H. injection H as <-.
  apply addOpDst_ops in Ha2. simpl.
  change (convActivations (addConstByteSize _ (pushLazyInit _ a2.2)))
    with (convActivations a2.2).
  by rewrite (convActivations_app _ _ _ Ha2).
Qed.

Lemma addConv_activations e n s act p g r :
  addConv e n s act p g = Ok r →
  convActivations r.2 = convActivations g ++ [(n, act)].
Proof.
  unfold addConv. destruct p.
  - apply addConvOp_activations.
  - destruct (negb _); [|apply addConvOp_activations].
    intros H. bind_inv H. apply addPool_activations in H.
    apply addConvOp_activations in Ha. congruence.
  - destruct (negb _); [|apply addConvOp_activations].
    intros H. bind_inv H. apply addUpsample_activations in H.
    apply addConvOp_activations in Ha. congruence.
Qed.

Lemma addConcatConv_activations e n s1 s2 act g r :
  addConcatConv e n s1 s2 act g = Ok r →
  convActivations r.2 = convActivations g ++ [(n, act)].
Proof.
  unfold addConcatConv. intros H. bind_inv H. destruct (negb _); [discriminate|].
  bind_inv H. destruct (negb _); [discriminate|].
  bind_inv H. bind_inv H. destruct (tensorLayoutIsHWC e).
  - bind_inv H. injection H as <-. apply addOpDst_ops in Ha3. simpl.
    change (convActivations (addConstByteSize _ (pushLazyInit _ a3.2)))
      with (convActivations a3.2).
    by rewrite (convActivations_app _ _ _ Ha3).
  - bind_inv H. injection H as <-. apply addOpDst_ops in Ha3. simpl.
    change (convActivations (addConstByteSize _ (pushLazyInit _ a3.2)))
      with (convActivations a3.2).
    by rewrite (convActivations_app _ _ _ Ha3).
Qed.

(** Whatever the engine and the weights, the graph [buildModel] builds
    asks for ReLU in every convolution but [dec_conv0], for which it
    asks for no activation. *)
Lemma buildGraph_activations e ds al w r :
  UNetFilter.buildGraph e ds al (newGraph w) = Ok r →
  convActivations r.2 = unetActivations.
Proof.
  unfold UNetFilter.buildGraph. intros H.
  bind_inv H. apply addInputProcess_activations in Ha.
  change (convActivations (newGraph w)) with (@nil (string * Activation.t)) in Ha.
  rename Ha into Hcur.
  repeat (let a := fresh "a" in let Ha := fresh "Ha" in
          apply bind_Ok in H as (a & Ha & H);
          first [apply addConv_activations in Ha
                |apply addConcatConv_activations in Ha
                |apply addOutputProcess_activations in Ha];
          rewrite Hcur in Ha; clear Hcur; rename Ha into Hcur; simpl in Hcur).
  injection H as <-. simpl.
  assumption.
Qed.


Import TensorMemory SYCLConvDPAS.

(** *** A convolution on integers *)

Definition sumZ (l : list Z) : Z := foldr Z.add 0 l.

(** The [dpas] of depth 8 and repeat count 8 on two-element packs, on
    integers: row [r], lane [n] of the accumulators gains the products
    of the sixteen sources of row [r] with the sixteen weights of lane
    [n]. *)
Definition dpasZ (acc w s : list Z) : list Z :=
  (λ '(r, n),
     default 0 (acc !! Z.to_nat (r * 8 + n))
     + sumZ ((λ '(d, j),
                default 0 (w !! Z.to_nat (d * 16 + n * 2 + j))
                * default 0 (s !! Z.to_nat (r * 16 + d * 2 + j)))
             <$> (d ← range 8; j ← range 2; [(d, j)])))
  <$> (r ← range 8; n ← range 8; [(r, n)]).

(** The address of [weight(o, i, h, w)] in the layout [OIhw2o8i8o2i],
    for [I] input channels and elements of two bytes. *)
Definition weightAddress (p I o i h w : Z) : Z :=
  p + ((((o / 16 * (I / 16) + i / 16) * 3 + h) * 3 + w) * 256
       + o `mod` 16 / 8 * 128 + i `mod` 16 / 2 * 16 + o `mod` 8 * 2 + i `mod` 2) * 2.

(** The convolution as the claim words it: the bias plus the weighted
    sum over the 3x3 neighbourhood (zero outside the image), clamped at
    zero for ReLU and unchanged for the linear activation. *)
Definition weightedSum (k : SYCLConvDPASKernel) (m : Z → Z) (oc oh ow : Z) : Z :=
  sumZ ((λ '(ic, kh, kw),
           let ih := oh + kh - 1 in
           let iw := ow + kw - 1 in
           if (0 <=? ih) && (ih <? H (src k)) && (0 <=? iw) && (iw <? W (src k)) then
             m (address 2 blockC (src k) ic ih iw) * m (weight k oc ic kh kw)
           else 0)
        <$> (ic ← range (C (src k)); kh ← range 3; kw ← range 3; [(ic, kh, kw)])).

Definition specConv (activation : Activation.t) (k : SYCLConvDPASKernel) (m : Z → Z)
    (oc oh ow : Z) : Z :=
  let x := m (bias k + oc * 2) + weightedSum k m oc oh ow in
  match activation with
  | Activation.None => x
  | Activation.ReLU => Z.max x 0
  end.

Definition runZ : SYCLConvDPAS → (Z → Z) → Result (Z → Z) :=
  run 2 0 0 Z.add Z.max id dpasZ.

(** The tensors of a [dec_conv0] on an image of 2 rows and 3 columns:
    32 source channels at address 0, the weights at 1000, the bias at
    11000 and the destination, padded to 16 channels, at 12000. *)
Definition exampleKernel : SYCLConvDPASKernel :=
  {| src := denseAccessor 2 blockC 0 32 2 3;
     weight := weightAddress 1000 32;
     bias := 11000;
     dst := denseAccessor 2 blockC 12000 16 2 3 |}.

Definition exampleConv (activation : Activation.t) : SYCLConvDPAS :=
  {| desc := {| convSrcDesc := exampleDesc 32 384;
                convWeightDims := [3; 32; 3; 3]; convWeightPaddedDims := [16; 32; 3; 3];
                convBiasDims := [3]; convBiasPaddedDims := [16];
                convActivation := activation; convPostOp := PostOp.None |};
     convSrc := Some (src exampleKernel);
     convWeight := Some (weight exampleKernel);
     convBias := Some (bias exampleKernel);
     convDst := Some (dst exampleKernel) |}.

(** Source elements, weights and biases of both signs. *)
Definition exampleMemory (a : Z) : Z :=
  if (0 <=? a) && (a <? 384) then a `mod` 7 - 3
  else if (1000 <=? a) && (a <? 10216) then (a / 2) `mod` 5 - 2
  else if (11000 <=? a) && (a <? 11032) then (a / 2) `mod` 3 - 1
  else 0.

Definition outputs (r : Result (Z → Z)) (d : TensorAccessor3D) : option (list Z) :=
  match r with
  | Ok m => Some ((λ '(c, h, w), m (address 2 blockC d c h w))
                  <$> (c ← range (C d); h ← range (H d); w ← range (W d); [(c, h, w)]))
  | _ => None
  end.

Definition specOutputs (activation : Activation.t) (k : SYCLConvDPASKernel) (m : Z → Z)
    : list Z :=
  (λ '(c, h, w), specConv activation k m c h w)
  <$> (c ← range (C (dst k)); h ← range (H (dst k)); w ← range (W (dst k)); [(c, h, w)]).


(** *** What the kernel stores *)

Section clamped.
Context {T AT : Type}.
Variables (sizeofT : Z) (zero : T) (zeroAT : AT) (add max : T → T → T) (convert : AT → T).
Variable dpas : list AT → list T → list T → list AT.

(** A value that is the [max] of something with zero. *)
Definition clamped (x : T) : Prop := ∃ y, x = max y zero.

(** A memory that differs from [m0] in clamped values only. *)
Definition clamped_update (m0 m : Z → T) : Prop := ∀ a, m a = m0 a ∨ clamped (m a).

Lemma storeBlock_clamped m0 v : ∀ m p,
  Forall clamped v → clamped_update m0 m → clamped_update m0 (storeBlock sizeofT m p v).
Proof.
  induction v as [|x v IH]; intros m p Hv Hm; [exact Hm|].
  apply Forall_cons in Hv as [Hx Hv]. simpl. apply IH; [exact Hv|].
  intros a. destruct (decide (a = p)) as [->|Hne].
  - right. by rewrite fn_lookup_insert.
  - by rewrite fn_lookup_insert_ne.
Qed.

Lemma select_clamped n i v : Forall clamped v → Forall clamped (select n i v).
Proof. intros Hv. unfold select. by apply Forall_take, Forall_drop. Qed.

Lemma foldl_clamped {X} (f : (Z → T) → X → Z → T) m0 l : ∀ m,
  (∀ m' x, clamped_update m0 m' → clamped_update m0 (f m' x)) →
  clamped_update m0 m → clamped_update m0 (foldl f m l).
Proof. induction l as [|x l IH]; intros m Hf Hm; simpl; [exact Hm|]. apply IH; auto. Qed.

Lemma storeLargeBlock_clamped m0 m p v :
  Forall clamped v → clamped_update m0 m →
  clamped_update m0 (storeLargeBlock sizeofT m p v).
Proof.
  intros Hv Hm. unfold storeLargeBlock.
  assert (clamped_update m0
            (foldl (λ m' i, storeBlock sizeofT m' (p + i * (256 / sizeofT) * sizeofT)
                              (select (256 / sizeofT) (i * (256 / sizeofT)) v))
                   m (range (Z.of_nat (length v) / (256 / sizeofT))))) as H1.
  { apply foldl_clamped; [|exact Hm].
    intros m' i Hm'. apply storeBlock_clamped; [by apply select_clamped|exact Hm']. }
  cbv zeta. destruct (_ =? 0); [exact H1|].
  apply storeBlock_clamped; [by apply select_clamped|exact H1].
Qed.

Lemma outputRow_clamped accumVec biasVec boh :
  Forall clamped (outputRow zero add max convert accumVec biasVec boh).
Proof.
  unfold outputRow. rewrite Forall_fmap. apply Forall_forall. intros x _.
  by exists x.
Qed.

Lemma storeRow_clamped k m0 m oc oh ow boh v :
  Forall clamped v → clamped_update m0 m →
  clamped_update m0 (storeRow sizeofT k m oc oh ow boh v).
Proof.
  intros Hv Hm. unfold storeRow. cbv zeta. destruct (_ <=? _).
  - by apply storeLargeBlock_clamped.
  - apply foldl_clamped; [|exact Hm]. intros m' bow Hm'.
    destruct (_ <? _); [|exact Hm'].
    apply storeBlock_clamped; [by apply select_clamped|exact Hm'].
Qed.

Lemma storeRows_clamped k m0 accumVec biasVec oc oh ow bohs : ∀ m,
  clamped_update m0 m →
  clamped_update m0
    (storeRows sizeofT zero add max convert k accumVec biasVec oc oh ow bohs m).
Proof.
  induction bohs as [|boh bohs IH]; intros m Hm; simpl; [exact Hm|].
  destruct (_ <=? _); [exact Hm|].
  apply IH, storeRow_clamped; [apply outputRow_clamped|exact Hm].
Qed.

(** Whatever its descriptor says, a convolution that runs changes
    memory by clamped values only. *)
Lemma run_clamped conv m m' :
  run sizeofT zero zeroAT add max convert dpas conv m = Ok m' → clamped_update m m'.
Proof.
  unfold run. destruct (convSrc conv), (convWeight conv), (convBias conv), (convDst conv);
    try discriminate.
  intros [= <-]. apply foldl_clamped; [|by left].
  intros m1 [[i0 i1] i2] Hm1. unfold kernel. by apply storeRows_clamped.
Qed.

End clamped.

(** On integers: no value the convolution stores is negative. *)
Lemma runZ_nonneg conv m m' a :
  runZ conv m = Ok m' → m' a = m a ∨ 0 ≤ m' a.
Proof.
  intros H. apply (run_clamped 2 0 0 Z.add Z.max id dpasZ) in H.
  destruct (H a) as [?|[y Hy]]; [by left|right]. lia.
Qed.


(** C9 (evaluation at the failing input).  The graph of the U-Net asks
    for ReLU in every convolution and for no activation in [dec_conv0];
    yet the DPAS convolution run for a [dec_conv0] descriptor stores, at
    every element of the destination, the clamped sum: at the element
    of channel 0, row 0, column 1 the bias plus the weighted sum is -40
    and the convolution stores 0. *)
Theorem dec_conv0_output_is_clamped :
  builtActivations true false = Some unetActivations ∧
  convActivation (desc (exampleConv Activation.None)) = Activation.None ∧
  outputs (runZ (exampleConv Activation.None) exampleMemory) (dst exampleKernel)
    = Some (specOutputs Activation.ReLU exampleKernel exampleMemory) ∧
  specOutputs Activation.None exampleKernel exampleMemory !! 1%nat = Some (-40) ∧
  specOutputs Activation.ReLU exampleKernel exampleMemory !! 1%nat = Some 0.
Proof. split_and!; vm_compute; reflexivity. Qed.

End SYCLConvDPASFacts.

(** * More on the graph: additions, plans and the built U-Net *)

Module GraphFacts.

(** ** The planner's high-water mark *)

Section high_water.
Variable A0 : list TensorAlloc.
Hypothesis WF : well_formed A0.

(** Placing a chunk keeps the high-water mark at or below the sum of
    the sizes of the records placed. *)
Lemma placeChunk_high_water heads st c st' :
  plan_inv A0 heads st → chunk_of A0 c → firstAlloc c ∉ heads →
  st.2 ≤ sumSizes A0 st.1.2 →
  placeChunk st c = Some st' →
  st'.2 ≤ sumSizes A0 st'.1.2.
Proof.
  destruct st as [[A act] hw].
  intros (Hlinks & Hnd & Hmem & Hsorted & Hbound & Hsep & Hadj & Hhw)
         (ms & Hhead & Hchain & Hcsize & Hlife) Hfresh Hle.
  simpl in Hle.
  set (h := firstAlloc c) in *.
  pose proof (wf_size A0 WF) as Hnn.
  pose proof (sizeOf_nonneg A0 Hnn) as Hsz.
  pose proof (is_chain_NoDup _ _ _ Hchain) as Hndms.
  pose proof (is_chain_lookup _ _ _ Hchain) as Hinms.
  assert (∀ p, p ∈ ms → p ∉ act) as Hdisj.
  { intros p Hp Hact. apply Hmem in Hact as (h' & ms' & Hh' & Hprev' & Hc' & Hp').
    assert (h' = h) as -> by (by eapply (chains_disjoint A0 WF h' h ms' ms p)).
    done. }
  assert (∀ p, p ∈ act → is_Some (A0 !! p)) as Hinact.
  { intros p Hact. apply Hmem in Hact as (h' & ms' & _ & _ & Hc' & Hp').
    by eapply is_chain_lookup. }
  assert (NoDup (ms ++ act)) as Hndall.
  { apply NoDup_app. split; [done|]. split; [|done]. exact Hdisj. }
  set (S := sumSizes A0 act) in *.
  assert (S + chunkByteSize c < 2 ^ 64) as Hroom.
  { rewrite Hcsize. unfold S. rewrite Z.add_comm, <- sumSizes_app.
    pose proof (sumSizes_bound A0 Hnn (ms ++ act) Hndall) as Hb.
    pose proof (wf_total A0 WF). pose proof SIZE_MAX_lt.
    enough (sumSizes A0 (ms ++ act) ≤ totalByteSize A0) by lia.
    apply Hb. intros p [Hp|Hp]%elem_of_app; eauto. }
  assert (0 ≤ S) as HS by (by apply sumSizes_nonneg).
  assert (0 ≤ chunkByteSize c) as Hc0 by (rewrite Hcsize; by apply sumSizes_nonneg).
  assert (∀ q, sizeOf A q = sizeOf A0 q) as HszA by (by apply links_sizeOf).
  destruct (findOffset_spec A c S HS Hc0 Hroom act Hsorted) as (Hbest & Hgap).
  { intros q Hq. destruct (Hbound q Hq) as [??].
    destruct (Hinact q Hq) as [a0 Ha0].
    destruct (links_lookup0 A0 A Hlinks q a0 Ha0) as (a & Ha & _).
    unfold placed_below. rewrite HszA. eauto 10. }
  set (best := findOffset A act c) in *.
  unfold placeChunk. fold best. fold h.
  rewrite (chainFrom_complete A (Some h) ms) by (by apply (links_is_chain A0 A)).
  simpl.
  set (s0 := {| allocs := A; activeAllocs := act; offset := best |}).
  destruct (expand_fold A0 ms s0) as (E1 & E2 & E3 & E4 & E5 & E6); try done.
  { simpl. lia. }
  { simpl. rewrite <- Hcsize. lia. }
  simpl in E2, E5.
  intros [= <-]. simpl.
  rewrite (sumSizes_perm _ _ _ E5), sumSizes_app, E2. fold S. lia.
Qed.

Lemma placeChunks_high_water cs : ∀ heads st st',
  plan_inv A0 heads st → Forall (chunk_of A0) cs →
  NoDup (firstAlloc <$> cs) → (∀ h, h ∈ firstAlloc <$> cs → h ∉ heads) →
  st.2 ≤ sumSizes A0 st.1.2 →
  placeChunks st cs = Some st' →
  st'.2 ≤ sumSizes A0 st'.1.2.
Proof.
  induction cs as [|c cs IH]; intros heads st st' Hinv Hcs Hnd Hfresh Hle; simpl.
  - by intros [= <-].
  - apply Forall_cons in Hcs as [Hc Hcs]. simpl in Hnd. apply NoDup_cons in Hnd as [Hc' Hnd].
    assert (firstAlloc c ∉ heads) as Hf by (apply Hfresh; simpl; by left).
    destruct (placeChunk_spec A0 WF heads st c Hinv Hc Hf) as (st1 & Hst1 & Hinv1).
    rewrite Hst1. simpl.
    apply (IH (firstAlloc c :: heads) st1 st' Hinv1 Hcs Hnd).
    + intros h Hh [->|Hin]%elem_of_cons; [done|].
      apply (Hfresh h); [|done]. simpl. by right.
    + by apply (placeChunk_high_water heads st c st1).
Qed.

End high_water.

Lemma placeChunks_high_water_mono cs : ∀ st st',
  placeChunks st cs = Some st' → st.2 ≤ st'.2.
Proof.
  induction cs as [|c cs IH]; intros st st'; simpl.
  - by intros [= <-].
  - destruct (placeChunk st c) as [st1|] eqn:H1; simpl; [|done].
    intros H2. apply IH in H2. etrans; [|exact H2].
    destruct st as [[A act] hw]. unfold placeChunk in H1.
    destruct (chainFrom _ _ _); simpl in H1; [|done].
    injection H1 as <-. simpl. lia.
Qed.

Section scratch_bounds.
Variable sortChunks : list Chunk → list Chunk.
Hypothesis Hsort : is_chunk_sort sortChunks.

(** X1.  On well-formed allocation records the planner returns,
    changes nothing but the offsets, and places every record it was
    given within the tensor scratch: the record is still there with its
    size, its offset is not negative and its end is at most
    [tensorScratchByteSize]. *)
Theorem planAllocations_within_scratch g :
  well_formed (tensorAllocs g) →
  ∃ g', planAllocationsWith sortChunks g = Some g' ∧
    Forall2 same_links (tensorAllocs g) (tensorAllocs g') ∧
    (∀ p a, tensorAllocs g !! p = Some a →
       ∃ a', tensorAllocs g' !! p = Some a' ∧ byteSize a' = byteSize a ∧
         0 ≤ byteOffset a' ∧ byteOffset a' + byteSize a ≤ tensorScratchByteSize g') ∧
    (∀ p a, tensorAllocs g' !! p = Some a →
       0 ≤ byteOffset a ∧ byteOffset a + byteSize a ≤ tensorScratchByteSize g').
Proof.
  intros WF.
  destruct (planAllocations_inv sortChunks Hsort g WF)
    as (g' & act & heads & Hplan & Hinv & Hall & _).
  exists g'. split; [done|].
  destruct Hinv as (Hlinks & _ & _ & _ & Hbound & _ & _ & Hhw).
  assert (∀ p a, tensorAllocs g' !! p = Some a →
            0 ≤ byteOffset a ∧ byteOffset a + byteSize a ≤ tensorScratchByteSize g') as Hres.
  { intros p a Ha.
    assert (p ∈ act) as Hp.
    { apply Hall. apply lookup_lt_Some in Ha.
      rewrite (links_length _ _ Hlinks) in Ha. by apply lookup_lt_is_Some. }
    destruct (Hbound p Hp) as [Hlo _]. specialize (Hhw p Hp).
    rewrite <- (links_sizeOf _ _ Hlinks) in Hhw.
    unfold offsetOf, sizeOf in *. rewrite Ha in *. simpl in *. lia. }
  split_and!; [done | | done].
  intros p a Ha.
  destruct (links_lookup0 _ _ Hlinks p a Ha) as (a' & Ha' & Hs & _).
  exists a'. rewrite <- Hs. split_and!; try done; by apply (Hres p a').
Qed.

(** X2.  The tensor scratch the planner asks for is never more than
    the sizes of all the records together: sharing bytes between
    tensors can only save memory. *)
Theorem planAllocations_at_most_total g :
  well_formed (tensorAllocs g) →
  ∃ g', planAllocationsWith sortChunks g = Some g' ∧
    0 ≤ tensorScratchByteSize g' ≤ totalByteSize (tensorAllocs g).
Proof.
  intros WF. set (A0 := tensorAllocs g).
  destruct (formChunks_spec A0 WF (seq 0 (length A0))) as (cs & Hcs & Hof & Hsub & Hall).
  destruct (Hsort cs) as [Hperm _].
  assert (plan_inv A0 [] (A0, [], 0)) as Hinv0.
  { unfold plan_inv. split_and!.
    - apply Forall2_same_links_refl.
    - constructor.
    - intros p. split; [by intros ?%elem_of_nil|].
      by intros (h & ms & ?%elem_of_nil & _).
    - constructor.
    - by intros q ?%elem_of_nil.
    - by intros p q ?%elem_of_nil.
    - by intros p q ?%elem_of_nil.
    - by intros q ?%elem_of_nil. }
  assert (Forall (chunk_of A0) (sortChunks cs)) as Hof' by (by rewrite Hperm).
  assert (NoDup (firstAlloc <$> sortChunks cs)) as Hnd.
  { rewrite (chunk_heads_perm _ _ Hperm). eapply sublist_NoDup; [|exact Hsub]. apply NoDup_seq. }
  assert (∀ h, h ∈ firstAlloc <$> sortChunks cs → h ∉ []) as Hfresh
    by (by intros h _ ?%elem_of_nil).
  destruct (placeChunks_spec A0 WF (sortChunks cs) [] (A0, [], 0) Hinv0 Hof' Hnd Hfresh)
    as ([[A' act] hw] & heads & Hplace & Hinv & _).
  pose proof (placeChunks_high_water A0 WF (sortChunks cs) [] (A0, [], 0) _
                Hinv0 Hof' Hnd Hfresh ltac:(done) Hplace) as Hhw.
  simpl in Hhw.
  unfold planAllocationsWith. fold A0. rewrite Hcs. simpl. rewrite Hplace. simpl.
  eexists. split; [reflexivity|]. simpl.
  destruct Hinv as (Hlinks & Hndact & Hmem & _ & Hbound & _).
  pose proof (wf_size A0 WF) as Hnn.
  split.
  - apply placeChunks_high_water_mono in Hplace. done.
  - etrans; [exact Hhw|]. apply (sumSizes_bound A0 Hnn act Hndact).
    intros p Hp. apply Hmem in Hp as (h' & ms' & _ & _ & Hc' & Hp').
    by eapply is_chain_lookup.
Qed.

End scratch_bounds.

(** ** Queries and additions *)

(** X3.  A second [getScratchAlignedSize] returns the size the first
    one returned and leaves the graph as the first one left it: the
    plan is made once and kept until an op is added. *)
Theorem getScratchAlignedSize_again sortChunks g n g' :
  getScratchAlignedSizeWith sortChunks g = Some (n, g') →
  getScratchAlignedSizeWith sortChunks g' = Some (n, g').
Proof.
  unfold getScratchAlignedSizeWith. intros H.
  assert (dirty g' = false) as Hd.
  { destruct (dirty g) eqn:Hdg; simpl in H.
    - unfold planAllocationsWith in H.
      destruct (formChunks _ _); simpl in H; [|done].
      destruct (placeChunks _ _); simpl in H; [|done].
      by injection H as _ <-.
    - by injection H as _ <-. }
  rewrite Hd. simpl.
  destruct (if dirty g then _ else _) as [g1|]; simpl in H; [|done].
  by injection H as <- <-.
Qed.

Lemma getScratchAlignedSize_again_witness :
  getScratchAlignedSizeWith stableSortChunks exampleGraph
    = Some (4800, default exampleGraph (planAllocations exampleGraph)) ∧
  getScratchAlignedSizeWith stableSortChunks (default exampleGraph (planAllocations exampleGraph))
    = Some (4800, default exampleGraph (planAllocations exampleGraph)).
Proof.
  assert (getScratchAlignedSizeWith stableSortChunks exampleGraph
          = Some (4800, default exampleGraph (planAllocations exampleGraph))) as H
    by (vm_compute; reflexivity).
  split; [exact H|].
  exact (getScratchAlignedSize_again stableSortChunks exampleGraph 4800 _ H).
Defined.

(** The additions of sources stop at a source without a record. *)
Lemma addOp_srcs_missing opID concatSrcs byOp s srcOps : ∀ st,
  s ∈ srcOps → byOp !! opPtr s = None →
  ∀ st', addOp_srcs opID concatSrcs byOp st srcOps ≠ Ok st'.
Proof.
  induction srcOps as [|s' rest IH]; intros st Hs Hmiss st'; simpl.
  - by apply elem_of_nil in Hs.
  - apply elem_of_cons in Hs as [<-|Hs].
    + destruct st as [A prv]. unfold addOp_src. by rewrite Hmiss.
    + destruct (addOp_src opID concatSrcs byOp st s') as [st1|e|]; simpl; [|done|done].
      by apply IH.
Qed.

Lemma addOp_srcs_no_concat_throw opID byOp srcOps : ∀ st e,
  addOp_srcs opID false byOp st srcOps ≠ Throw e.
Proof.
  induction srcOps as [|s rest IH]; intros st e; simpl; [done|].
  destruct (addOp_src opID false byOp st s) as [st1|e1|] eqn:H1; simpl; [by apply IH| |done].
  destruct st as [A prv]. unfold addOp_src in H1.
  destruct (byOp !! opPtr s); [|done]. destruct (A !! n); [|done].
  by destruct prv.
Qed.

(** X4.  An op added with a source op that has no allocation record
    (the output op, or an op of another graph) is a null dereference;
    with chained sources, an earlier pair of sources may have raised the
    constraint error before the missing one is reached.  The graph is
    never returned. *)
Theorem addOp_source_without_record op srcOps concatSrcs g s :
  finalized g = false →
  s ∈ srcOps → tensorAllocsByOp g !! opPtr s = None →
  addOp op srcOps concatSrcs g = Undefined ∨
  (concatSrcs = true ∧
   addOp op srcOps concatSrcs g
     = Throw (logic_error "invalid tensor allocation constraints")).
Proof.
  intros Hf Hs Hmiss. unfold addOp. rewrite Hf.
  set (opID := Z.of_nat (length (ops g))).
  pose proof (addOp_srcs_missing opID concatSrcs (tensorAllocsByOp g) s srcOps
                (tensorAllocs g, None) Hs Hmiss) as Hno.
  destruct (addOp_srcs opID concatSrcs (tensorAllocsByOp g) (tensorAllocs g, None) srcOps)
    as [st|e|] eqn:H; simpl.
  - by destruct (Hno st).
  - right. destruct concatSrcs.
    + split; [done|]. f_equal.
      clear Hno Hs. revert H. generalize (tensorAllocs g, @None nat).
      induction srcOps as [|s' rest IH]; intros st; simpl; [done|].
      destruct (addOp_src opID true (tensorAllocsByOp g) st s') as [st1|e1|] eqn:H1; simpl.
      * apply IH.
      * intros [= <-]. destruct st as [A prv]. unfold addOp_src in H1.
        repeat (match type of H1 with
                | match ?o with _ => _ end = _ => destruct o; try done
                | (if ?b then _ else _) = _ => destruct b; try done
                end).
        by injection H1 as <-.
      * done.
    + by apply addOp_srcs_no_concat_throw in H.
  - by left.
Qed.

Definition outputOnly : Op := exampleOp 6 "output" OutputProcess.

Lemma addOp_source_without_record_witness :
  addOp (exampleOp 7 "copy" Pool) [outputOnly] false exampleGraph = Undefined ∨
  (false = true ∧
   addOp (exampleOp 7 "copy" Pool) [outputOnly] false exampleGraph
     = Throw (logic_error "invalid tensor allocation constraints")).
Proof.
  apply (addOp_source_without_record (exampleOp 7 "copy" Pool) [outputOnly] false
           exampleGraph outputOnly).
  - reflexivity.
  - by left.
  - vm_compute. reflexivity.
Defined.

(** X5.  A chained addition of two sources throws the constraint
    error when the second source already has a predecessor or the first
    already has a successor; otherwise it returns, the first source's
    record is followed by the second's, and both records live until the
    new op.  The two sources may be the same op: its record then
    follows itself. *)
Theorem addOp_chained_pair op s1 s2 g p1 p2 a1 a2 :
  finalized g = false →
  tensorAllocsByOp g !! opPtr s1 = Some p1 →
  tensorAllocsByOp g !! opPtr s2 = Some p2 →
  tensorAllocs g !! p1 = Some a1 →
  tensorAllocs g !! p2 = Some a2 →
  if bool_decide (is_Some (prev a2) ∨ is_Some (next a1)) then
    addOp op [s1; s2] true g = Throw (logic_error "invalid tensor allocation constraints")
  else
    ∃ g', addOp op [s1; s2] true g = Ok g' ∧
      ops g' = ops g ++ [op] ∧
      nextOf (tensorAllocs g') p1 = Some p2 ∧
      prevOf (tensorAllocs g') p2 = Some p1 ∧
      lastOf (tensorAllocs g') p1 = Z.of_nat (length (ops g)) ∧
      lastOf (tensorAllocs g') p2 = Z.of_nat (length (ops g)).
Proof.
  intros Hf H1 H2 Ha1 Ha2. unfold addOp. rewrite Hf.
  set (opID := Z.of_nat (length (ops g))).
  set (A := tensorAllocs g) in *.
  simpl. unfold addOp_src at 2. rewrite H1, Ha1. simpl.
  set (A1 := alter (set_lastOpID opID) p1 A).
  unfold addOp_src. rewrite H2.
  assert (p1 < length A)%nat as Hl1 by (by eapply lookup_lt_Some).
  assert (p2 < length A)%nat as Hl2 by (by eapply lookup_lt_Some).
  assert (∃ b2, A1 !! p2 = Some b2 ∧ prev b2 = prev a2 ∧ next b2 = next a2) as (b2 & Hb2 & Hb2p & Hb2n).
  { unfold A1. destruct (decide (p1 = p2)) as [->|Hne].
    - rewrite list_lookup_alter_eq, Ha2. simpl. eauto.
    - rewrite list_lookup_alter_ne by done. eauto. }
  rewrite Hb2.
  set (A2 := alter (set_lastOpID opID) p2 A1).
  assert (∃ c, A2 !! p2 = Some c ∧ prev c = prev a2 ∧ next c = next a2 ∧ lastOpID c = opID)
    as (c & Hc & Hcp & Hcn & Hcl).
  { unfold A2. rewrite list_lookup_alter_eq, Hb2. simpl. eauto. }
  assert (∃ q, A2 !! p1 = Some q ∧ prev q = prev a1 ∧ next q = next a1 ∧ lastOpID q = opID)
    as (q & Hq & Hqp & Hqn & Hql).
  { destruct (decide (p2 = p1)) as [->|Hne].
    - rewrite Hc. eexists. split; [done|]. rewrite Ha1 in Ha2. injection Ha2 as <-. done.
    - unfold A2. rewrite list_lookup_alter_ne by done. unfold A1.
      rewrite list_lookup_alter_eq, Ha1. simpl. eauto. }
  cbv zeta. fold A2. rewrite Hc, Hq. rewrite Hcp, Hqn.
  destruct (bool_decide (is_Some (prev a2) ∨ is_Some (next a1))); simpl; [done|].
  eexists. split; [reflexivity|]. simpl. split; [done|].
  set (A3 := alter (set_prev (Some p1)) p2 A2).
  set (A4 := alter (set_next (Some p2)) p1 A3).
  assert (p1 < length A3)%nat as Hl3.
  { unfold A3, A2, A1. by rewrite !length_alter. }
  assert (p2 < length A2)%nat as Hl4.
  { unfold A2, A1. by rewrite !length_alter. }
  unfold nextOf, prevOf, lastOf.
  assert (∃ x, A3 !! p2 = Some x ∧ prev x = Some p1 ∧ lastOpID x = opID) as (x & Hx & Hxp & Hxl).
  { unfold A3. rewrite list_lookup_alter_eq, Hc. simpl. eauto. }
  assert (∃ y, A3 !! p1 = Some y ∧ lastOpID y = opID) as (y & Hy & Hyl).
  { destruct (decide (p2 = p1)) as [->|Hne].
    - rewrite Hx. eauto.
    - unfold A3. rewrite list_lookup_alter_ne by done. eauto. }
  assert (A4 !! p1 = Some (set_next (Some p2) y)) as H41.
  { unfold A4. by rewrite list_lookup_alter_eq, Hy. }
  assert (∃ z, A4 !! p2 = Some z ∧ prev z = Some p1 ∧ lastOpID z = opID) as (z & Hz & Hzp & Hzl).
  { destruct (decide (p1 = p2)) as [->|Hne].
    - rewrite H41. eexists. split; [done|]. simpl.
      rewrite Hx in Hy. injection Hy as <-. done.
    - unfold A4. rewrite list_lookup_alter_ne by done. eauto. }
  rewrite H41, Hz. simpl. by rewrite Hzp, Hzl, Hyl.
Qed.

Lemma addOp_chained_pair_witness :
  ∃ g', addOp (exampleOp 7 "cat2" (ConcatConvCHW Activation.ReLU))
              [exampleOp 3 "conv2" (Conv Activation.ReLU PostOp.None);
               exampleOp 2 "conv1_pool" Pool] true exampleGraph = Ok g' ∧
      ops g' = ops exampleGraph ++ [exampleOp 7 "cat2" (ConcatConvCHW Activation.ReLU)] ∧
      nextOf (tensorAllocs g') 3 = Some 2%nat ∧
      prevOf (tensorAllocs g') 2 = Some 3%nat ∧
      lastOf (tensorAllocs g') 3 = 7 ∧
      lastOf (tensorAllocs g') 2 = 7.
Proof.
  exact (addOp_chained_pair (exampleOp 7 "cat2" (ConcatConvCHW Activation.ReLU))
           (exampleOp 3 "conv2" (Conv Activation.ReLU PostOp.None))
           (exampleOp 2 "conv1_pool" Pool) exampleGraph 3 2
           (default (newTensorAlloc (exampleDesc 0 0) 0) (tensorAllocs exampleGraph !! 3%nat))
           (default (newTensorAlloc (exampleDesc 0 0) 0) (tensorAllocs exampleGraph !! 2%nat))
           eq_refl eq_refl eq_refl eq_refl eq_refl).
Defined.

(** ** What the additions keep *)

(** The allocation records of a graph with [n] ops, as the additions
    leave them: every lifetime is an interval of op indices, [prev] and
    [next] mirror each other, and [next] leads to an older record. *)
Record records_ordered (n : Z) (A : list TensorAlloc) : Prop := {
  ro_lifetime : ∀ p a, A !! p = Some a → 0 ≤ firstOpID a ≤ lastOpID a ∧ lastOpID a < n;
  ro_next_prev : ∀ p q, nextOf A p = Some q → prevOf A q = Some p;
  ro_prev_next : ∀ p q, prevOf A q = Some p → nextOf A p = Some q;
  ro_next_lt : ∀ p q, nextOf A p = Some q → (q < p)%nat
}.

(** The map from ops to records: ops are numbered in the order of
    their creation, and so are their records. *)
Record byOp_ordered (nops nallocs : nat) (byOp : gmap nat nat) : Prop := {
  bo_range : ∀ o p, byOp !! o = Some p → (o < nops)%nat ∧ (p < nallocs)%nat;
  bo_mono : ∀ o1 o2 p1 p2,
    byOp !! o1 = Some p1 → byOp !! o2 = Some p2 → (o1 < o2)%nat → (p1 < p2)%nat
}.

Definition ordered (g : Graph) : Prop :=
  records_ordered (Z.of_nat (length (ops g))) (tensorAllocs g) ∧
  byOp_ordered (length (ops g)) (length (tensorAllocs g)) (tensorAllocsByOp g).

(** The sources of a chained addition are listed newest first. *)
Fixpoint newest_first (srcOps : list Op) : Prop :=
  match srcOps with
  | s1 :: ((s2 :: _) as rest) => (opPtr s2 < opPtr s1)%nat ∧ newest_first rest
  | _ => True
  end.

Lemma nextOf_alter f p A x :
  nextOf (alter f p A) x = A !! x ≫= (λ a, next (if decide (p = x) then f a else a)).
Proof.
  unfold nextOf. destruct (decide (p = x)) as [->|Hne].
  - rewrite list_lookup_alter_eq. by destruct (A !! x).
  - by rewrite list_lookup_alter_ne.
Qed.

Lemma prevOf_alter f p A x :
  prevOf (alter f p A) x = A !! x ≫= (λ a, prev (if decide (p = x) then f a else a)).
Proof.
  unfold prevOf. destruct (decide (p = x)) as [->|Hne].
  - rewrite list_lookup_alter_eq. by destruct (A !! x).
  - by rewrite list_lookup_alter_ne.
Qed.

Lemma nextOf_alter_same f p A :
  (∀ a, next (f a) = next a) → ∀ x, nextOf (alter f p A) x = nextOf A x.
Proof.
  intros Hf x. rewrite nextOf_alter. unfold nextOf.
  destruct (A !! x); simpl; [|done]. destruct (decide _); [apply Hf|done].
Qed.

Lemma prevOf_alter_same f p A :
  (∀ a, prev (f a) = prev a) → ∀ x, prevOf (alter f p A) x = prevOf A x.
Proof.
  intros Hf x. rewrite prevOf_alter. unfold prevOf.
  destruct (A !! x); simpl; [|done]. destruct (decide _); [apply Hf|done].
Qed.

(** The records while the sources of the op [opID] are visited:
    lifetimes may already end at [opID]. *)
Definition records_open (opID : Z) (A : list TensorAlloc) : Prop :=
  (∀ p a, A !! p = Some a → 0 ≤ firstOpID a ≤ lastOpID a ∧ lastOpID a ≤ opID) ∧
  (∀ p q, nextOf A p = Some q → prevOf A q = Some p) ∧
  (∀ p q, prevOf A q = Some p → nextOf A p = Some q) ∧
  (∀ p q, nextOf A p = Some q → (q < p)%nat).

Lemma set_lastOpID_open opID cur A :
  records_open opID A → records_open opID (alter (set_lastOpID opID) cur A).
Proof.
  intros (Hlife & Hnp & Hpn & Hlt). split_and!.
  - intros p a. destruct (decide (cur = p)) as [->|Hne].
    + rewrite list_lookup_alter_eq. destruct (A !! p) as [a0|] eqn:Ha0; simpl; [|done].
      intros [= <-]. simpl. destruct (Hlife p a0 Ha0). lia.
    + rewrite list_lookup_alter_ne by done. apply Hlife.
  - intros p q. rewrite nextOf_alter_same, prevOf_alter_same by done. apply Hnp.
  - intros p q. rewrite nextOf_alter_same, prevOf_alter_same by done. apply Hpn.
  - intros p q. rewrite nextOf_alter_same by done. apply Hlt.
Qed.

Lemma link_open opID p cur A :
  records_open opID A → (cur < p)%nat →
  prevOf A cur = None → nextOf A p = None →
  is_Some (A !! cur) → is_Some (A !! p) →
  records_open opID (alter (set_next (Some cur)) p (alter (set_prev (Some p)) cur A)).
Proof.
  intros (Hlife & Hnp & Hpn & Hlt) Hcp Hprev Hnext [c Hc] [q Hq].
  set (A2 := alter (set_prev (Some p)) cur A).
  set (A3 := alter (set_next (Some cur)) p A2).
  assert (∀ x, nextOf A3 x = if decide (x = p) then Some cur else nextOf A x) as Hn3.
  { intros x. unfold A3. destruct (decide (x = p)) as [->|Hne].
    - unfold nextOf. rewrite list_lookup_alter_eq. unfold A2.
      rewrite list_lookup_alter_ne by lia. by rewrite Hq.
    - unfold nextOf. rewrite list_lookup_alter_ne by done.
      change (A2 !! x ≫= next) with (nextOf A2 x). unfold A2.
      by rewrite nextOf_alter_same. }
  assert (∀ x, prevOf A3 x = if decide (x = cur) then Some p else prevOf A x) as Hp3.
  { intros x. unfold A3. rewrite prevOf_alter_same by done. unfold A2.
    destruct (decide (x = cur)) as [->|Hne].
    - unfold prevOf. by rewrite list_lookup_alter_eq, Hc.
    - unfold prevOf. by rewrite list_lookup_alter_ne. }
  split_and!.
  - intros x a. unfold A3, A2.
    destruct (decide (p = x)) as [->|Hne1].
    + rewrite list_lookup_alter_eq, list_lookup_alter_ne by lia.
      rewrite Hq. simpl. intros [= <-]. simpl. by apply (Hlife x q).
    + rewrite list_lookup_alter_ne by done.
      destruct (decide (cur = x)) as [->|Hne2].
      * rewrite list_lookup_alter_eq, Hc. simpl. intros [= <-]. simpl. by apply (Hlife x c).
      * rewrite list_lookup_alter_ne by done. apply Hlife.
  - intros x y. rewrite Hn3, Hp3. destruct (decide (x = p)) as [->|Hne].
    + intros [= <-]. by rewrite decide_True.
    + intros Hxy. destruct (decide (y = cur)) as [->|Hne2].
      * apply Hnp in Hxy. congruence.
      * by apply Hnp.
  - intros x y. rewrite Hn3, Hp3. destruct (decide (y = cur)) as [->|Hne].
    + intros [= <-]. by rewrite decide_True.
    + intros Hxy. destruct (decide (x = p)) as [->|Hne2].
      * apply Hpn in Hxy. congruence.
      * by apply Hpn.
  - intros x y. rewrite Hn3. destruct (decide (x = p)) as [->|Hne].
    + by intros [= <-].
    + apply Hlt.
Qed.

Lemma addOp_src_open opID concatSrcs byOp A prv s A' prv' :
  records_open opID A →
  (concatSrcs = true → ∀ p cur, prv = Some p → byOp !! opPtr s = Some cur →
     (cur < p)%nat ∧ is_Some (A !! p)) →
  addOp_src opID concatSrcs byOp (A, prv) s = Ok (A', prv') →
  records_open opID A' ∧ length A' = length A ∧ prv' = byOp !! opPtr s ∧
  is_Some (A' !! default 0%nat prv').
Proof.
  intros Hopen Hord. unfold addOp_src.
  destruct (byOp !! opPtr s) as [cur|] eqn:Hcur; [|done].
  destruct (A !! cur) as [a|] eqn:Ha; [|done].
  set (A1 := alter (set_lastOpID opID) cur A).
  assert (records_open opID A1) as Hopen1 by (by apply set_lastOpID_open).
  assert (length A1 = length A) as Hlen1 by (unfold A1; by rewrite length_alter).
  assert (is_Some (A1 !! cur)) as Hc1.
  { apply lookup_lt_is_Some. rewrite Hlen1. by eapply lookup_lt_Some. }
  destruct prv as [p|]; cycle 1.
  { intros [= <- <-]. done. }
  destruct concatSrcs; cycle 1.
  { intros [= <- <-]. done. }
  destruct (Hord eq_refl p cur eq_refl eq_refl) as [Hlt [q0 Hq0]].
  destruct (A1 !! cur) as [c|] eqn:Hc; [|done].
  destruct (A1 !! p) as [q|] eqn:Hq; [|done].
  destruct (bool_decide _) eqn:Hb; [done|].
  apply bool_decide_eq_false in Hb.
  intros [= <- <-]. split_and!.
  - apply link_open; try done.
    + unfold prevOf. rewrite Hc. simpl. destruct (prev c); [|done].
      destruct Hb. left. eauto.
    + unfold nextOf. rewrite Hq. simpl. destruct (next q); [|done].
      destruct Hb. right. eauto.
  - by rewrite !length_alter.
  - done.
  - simpl. apply lookup_lt_is_Some. rewrite !length_alter. by eapply lookup_lt_Some.
Qed.

Lemma addOp_srcs_cons opID concatSrcs byOp st s rest :
  addOp_srcs opID concatSrcs byOp st (s :: rest)
  = addOp_src opID concatSrcs byOp st s ≫= λ st', addOp_srcs opID concatSrcs byOp st' rest.
Proof. reflexivity. Qed.

Lemma addOp_srcs_open opID concatSrcs byOp srcOps : ∀ A prv st',
  records_open opID A →
  (concatSrcs = true → newest_first srcOps) →
  (concatSrcs = true → ∀ p s cur, prv = Some p → head srcOps = Some s →
     byOp !! opPtr s = Some cur → (cur < p)%nat ∧ is_Some (A !! p)) →
  (∀ o1 o2 p1 p2, byOp !! o1 = Some p1 → byOp !! o2 = Some p2 → (o1 < o2)%nat → (p1 < p2)%nat) →
  addOp_srcs opID concatSrcs byOp (A, prv) srcOps = Ok st' →
  records_open opID st'.1 ∧ length st'.1 = length A.
Proof.
  induction srcOps as [|s rest IH]; intros A prv st' Hopen Hnew Hhead Hmono.
  - by intros [= <-].
  - rewrite addOp_srcs_cons.
    destruct (addOp_src opID concatSrcs byOp (A, prv) s) as [[A1 prv1]| |] eqn:H1;
      [|done|done].
    change (Ok (A1, prv1) ≫= _) with (addOp_srcs opID concatSrcs byOp (A1, prv1) rest).
    apply addOp_src_open in H1 as (Hopen1 & Hlen1 & Hprv1 & Hin1); [|done|].
    2:{ intros Hc p cur Hp Hcur. by apply (Hhead Hc p s cur). }
    intros H2. apply IH in H2 as [Hopen2 Hlen2]; try done.
    + split; [done|]. congruence.
    + intros Hc. specialize (Hnew Hc). destruct rest as [|s2 rest']; [done|].
      by destruct Hnew.
    + intros Hc p s2 cur Hp Hs2 Hcur2. subst prv1.
      destruct rest as [|s2' rest']; [done|]. simpl in Hs2. injection Hs2 as ->.
      specialize (Hnew Hc). destruct Hnew as [Hlt _].
      split.
      * by eapply (Hmono (opPtr s2) (opPtr s)).
      * rewrite Hp in Hin1. done.
Qed.

Lemma records_open_close n A :
  records_open n A → records_ordered (n + 1) A.
Proof.
  intros (Hlife & Hnp & Hpn & Hlt). split; try done.
  intros p a Ha. destruct (Hlife p a Ha). lia.
Qed.

Lemma records_ordered_open n A : records_ordered n A → records_open n A.
Proof.
  intros [Hlife Hnp Hpn Hlt]. split_and!; try done.
  intros p a Ha. destruct (Hlife p a Ha). lia.
Qed.

Lemma nextOf_app_new A d opID x :
  nextOf (A ++ [newTensorAlloc d opID]) x = nextOf A x.
Proof.
  unfold nextOf. destruct (decide (x < length A)%nat).
  - by rewrite lookup_app_l.
  - rewrite lookup_app_r by lia. rewrite (lookup_ge_None_2 A) by lia.
    by destruct (x - length A)%nat as [|[|?]].
Qed.

Lemma prevOf_app_new A d opID x :
  prevOf (A ++ [newTensorAlloc d opID]) x = prevOf A x.
Proof.
  unfold prevOf. destruct (decide (x < length A)%nat).
  - by rewrite lookup_app_l.
  - rewrite lookup_app_r by lia. rewrite (lookup_ge_None_2 A) by lia.
    by destruct (x - length A)%nat as [|[|?]].
Qed.

Lemma records_open_new n A d :
  0 ≤ n → records_ordered n A → records_open n (A ++ [newTensorAlloc d n]).
Proof.
  intros Hn [Hlife Hnp Hpn Hlt]. split_and!.
  - intros p a. destruct (decide (p < length A)%nat).
    + rewrite lookup_app_l by done. intros Ha. destruct (Hlife p a Ha). lia.
    + rewrite lookup_app_r by lia. destruct (p - length A)%nat as [|[|?]]; [|done|done].
      intros [= <-]. simpl. lia.
  - intros p q. rewrite nextOf_app_new, prevOf_app_new. apply Hnp.
  - intros p q. rewrite nextOf_app_new, prevOf_app_new. apply Hpn.
  - intros p q. rewrite nextOf_app_new. apply Hlt.
Qed.

(** An op addition without a destination keeps the graph ordered. *)
Lemma addOp_ordered op srcOps concatSrcs g g' :
  ordered g → (concatSrcs = true → newest_first srcOps) →
  addOp op srcOps concatSrcs g = Ok g' →
  ordered g' ∧ ops g' = ops g ++ [op].
Proof.
  intros [Hrec [Hrange Hmono]] Hnew. unfold addOp.
  destruct (finalized g); [done|].
  destruct (addOp_srcs _ _ _ _ _) as [st| |] eqn:Hsrcs; [|done|done].
  simpl. intros [= <-]. split; [|done].
  apply addOp_srcs_open in Hsrcs as [Hopen Hlen]; try done.
  2:{ by apply records_ordered_open. }
  split; simpl.
  - rewrite length_app. simpl. rewrite Nat2Z.inj_add. by apply records_open_close.
  - rewrite length_app, Hlen. simpl. split; [|done].
    intros o p Hop. destruct (Hrange o p Hop). lia.
Qed.

(** The addition of a new op with a destination keeps the graph
    ordered, and registers the op's record as the newest. *)
Lemma addOpDst_ordered op srcOps d concatSrcs g r :
  ordered g → (concatSrcs = true → newest_first srcOps) →
  opPtr op = length (ops g) →
  addOpDst op srcOps d concatSrcs g = Ok r →
  ordered r.2 ∧ ops r.2 = ops g ++ [op].
Proof.
  intros [Hrec [Hrange Hmono]] Hnew Hptr. unfold addOpDst, addOp. simpl.
  destruct (finalized g); [done|].
  destruct (addOp_srcs _ _ _ _ _) as [st| |] eqn:Hsrcs; [|done|done].
  simpl. intros [= <-]. simpl. split; [|done].
  assert (∀ o1 o2 p1 p2,
            <[opPtr op := length (tensorAllocs g)]> (tensorAllocsByOp g) !! o1 = Some p1 →
            <[opPtr op := length (tensorAllocs g)]> (tensorAllocsByOp g) !! o2 = Some p2 →
            (o1 < o2)%nat → (p1 < p2)%nat) as Hmono'.
  { intros o1 o2 p1 p2. rewrite !lookup_insert_Some.
    intros [[<- <-]|[Hne1 H1]] [[<- <-]|[Hne2 H2]] Hlt.
    - lia.
    - destruct (Hrange o2 p2 H2). lia.
    - by destruct (Hrange o1 p1 H1).
    - by eapply Hmono. }
  apply addOp_srcs_open in Hsrcs as [Hopen Hlen]; try done.
  2:{ apply records_open_new; [lia | done]. }
  rewrite length_app in Hlen. simpl in Hlen.
  split; simpl.
  - rewrite length_app. simpl. rewrite Nat2Z.inj_add. by apply records_open_close.
  - rewrite length_app, Hlen. simpl. split; [|done].
    intros o p. rewrite lookup_insert_Some. intros [[<- <-]|[Hne Hop]].
    + lia.
    + destruct (Hrange o p Hop). lia.
Qed.

(** What an op-adding operation returns on an ordered graph: an
    ordered graph with more ops, and an op created after those of the
    graph it was added to. *)
Definition extends (g : Graph) (r : Op * Graph) : Prop :=
  ordered r.2 ∧ (length (ops g) ≤ opPtr r.1)%nat ∧ (opPtr r.1 < length (ops r.2))%nat.

Lemma addOpDst_extends g n k info srcOps concatSrcs r :
  ordered g → (concatSrcs = true → newest_first srcOps) →
  addOpDst (mkOp g n k info) srcOps (infoDstDesc info) concatSrcs g = Ok r →
  extends g (mkOp g n k info, r.2).
Proof.
  intros Hord Hnew H. apply addOpDst_ordered in H as [Hord' Hops]; try done.
  split; [done|]. simpl. rewrite Hops, length_app. simpl. lia.
Qed.

Lemma addInputProcess_extends e n ds al g r :
  ordered g → addInputProcess e n ds al g = Ok r → extends g r.
Proof.
  intros Hord. unfold addInputProcess. intros H.
  apply SYCLConvDPASFacts.bind_Ok in H as (a & Ha & H). injection H as <-.
  by apply addOpDst_extends in Ha.
Qed.

Lemma addOutputProcess_extends e n s g r :
  ordered g → addOutputProcess e n s g = Ok r → extends g r.
Proof.
  intros Hord. unfold addOutputProcess. intros H.
  apply SYCLConvDPASFacts.bind_Ok in H as (d & Hd & H).
  apply SYCLConvDPASFacts.bind_Ok in H as (g1 & Hg1 & H). injection H as <-.
  apply addOp_ordered in Hg1 as [Hord' Hops]; try done.
  split; [done|]. simpl. rewrite Hops, length_app. simpl. lia.
Qed.

Lemma addPool_extends e n s g r :
  ordered g → addPool e n s g = Ok r → extends g r.
Proof.
  intros Hord. unfold addPool. intros H.
  apply SYCLConvDPASFacts.bind_Ok in H as (d & Hd & H).
  apply SYCLConvDPASFacts.bind_Ok in H as (a & Ha & H). injection H as <-.
  by apply addOpDst_extends in Ha.
Qed.

Lemma addUpsample_extends e n s g r :
  ordered g → addUpsample e n s g = Ok r → extends g r.
Proof.
  intros Hord. unfold addUpsample. intros H.
  apply SYCLConvDPASFacts.bind_Ok in H as (d & Hd & H).
  apply SYCLConvDPASFacts.bind_Ok in H as (a & Ha & H). injection H as <-.
  by apply addOpDst_extends in Ha.
Qed.

Lemma addConvOp_extends e n s act p g r :
  ordered g → addConvOp e n s act p g = Ok r → extends g r.
Proof.
  intros Hord. unfold addConvOp. intros H.
  apply SYCLConvDPASFacts.bind_Ok in H as (wt & Hwt & H).
  destruct (negb _); [done|].
  apply SYCLConvDPASFacts.bind_Ok in H as (bs & Hbs & H).
  destruct (negb _); [done|].
  apply SYCLConvDPASFacts.bind_Ok in H as (d & Hd & H).
  apply SYCLConvDPASFacts.bind_Ok in H as (a & Ha & H). injection H as <-.
  by apply addOpDst_extends in Ha.
Qed.

Lemma extends_trans g r1 r2 :
  extends g r1 → extends r1.2 r2 → extends g r2.
Proof. intros (H1 & H2 & H3) (H4 & H5 & H6). split; [done|]. lia. Qed.

Lemma addConv_extends e n s act p g r :
  ordered g → addConv e n s act p g = Ok r → extends g r.
Proof.
  intros Hord. unfold addConv. destruct p.
  - by apply addConvOp_extends.
  - destruct (negb _); [|by apply addConvOp_extends].
    intros H. apply SYCLConvDPASFacts.bind_Ok in H as (r1 & H1 & H).
    apply addConvOp_extends in H1; [|done].
    apply addPool_extends in H; [|apply H1].
    by eapply extends_trans.
  - destruct (negb _); [|by apply addConvOp_extends].
    intros H. apply SYCLConvDPASFacts.bind_Ok in H as (r1 & H1 & H).
    apply addConvOp_extends in H1; [|done].
    apply addUpsample_extends in H; [|apply H1].
    by eapply extends_trans.
Qed.

Lemma addConcatConv_extends e n s1 s2 act g r :
  ordered g → (opPtr s2 < opPtr s1)%nat →
  addConcatConv e n s1 s2 act g = Ok r → extends g r.
Proof.
  intros Hord Hlt. unfold addConcatConv. intros H.
  apply SYCLConvDPASFacts.bind_Ok in H as (wt & Hwt & H).
  destruct (negb _); [done|].
  apply SYCLConvDPASFacts.bind_Ok in H as (bs & Hbs & H).
  destruct (negb _); [done|].
  apply SYCLConvDPASFacts.bind_Ok in H as (d1 & Hd1 & H).
  apply SYCLConvDPASFacts.bind_Ok in H as (d2 & Hd2 & H).
  destruct (tensorLayoutIsHWC e).
  - apply SYCLConvDPASFacts.bind_Ok in H as (a & Ha & H). injection H as <-.
    by apply addOpDst_extends in Ha.
  - apply SYCLConvDPASFacts.bind_Ok in H as (a & Ha & H). injection H as <-.
    apply addOpDst_extends in Ha; [done | done |]. by intros _.
Qed.

Lemma ordered_newGraph w : ordered (newGraph w).
Proof.
  split; simpl.
  - split; intros p; unfold nextOf, prevOf; by rewrite ?lookup_nil.
  - split; intros o; by rewrite ?lookup_empty.
Qed.

(** The graph of the U-Net is ordered, whatever the engine and the
    weights are. *)
Lemma buildGraph_ordered e ds al w r :
  UNetFilter.buildGraph e ds al (newGraph w) = Ok r → ordered r.2.
Proof.
  unfold UNetFilter.buildGraph. intros H.
  pose proof (ordered_newGraph w) as H0.
  apply SYCLConvDPASFacts.bind_Ok in H as (inputProcess & E0 & H).
  apply addInputProcess_extends in E0; [|done].
  apply SYCLConvDPASFacts.bind_Ok in H as (encConv0 & E1 & H).
  apply addConv_extends in E1; [|apply E0].
  apply SYCLConvDPASFacts.bind_Ok in H as (pool1 & E2 & H).
  apply addConv_extends in E2; [|apply E1].
  apply SYCLConvDPASFacts.bind_Ok in H as (pool2 & E3 & H).
  apply addConv_extends in E3; [|apply E2].
  apply SYCLConvDPASFacts.bind_Ok in H as (pool3 & E4 & H).
  apply addConv_extends in E4; [|apply E3].
  apply SYCLConvDPASFacts.bind_Ok in H as (pool4 & E5 & H).
  apply addConv_extends in E5; [|apply E4].
  apply SYCLConvDPASFacts.bind_Ok in H as (encConv5a & E6 & H).
  apply addConv_extends in E6; [|apply E5].
  apply SYCLConvDPASFacts.bind_Ok in H as (upsample4 & E7 & H).
  apply addConv_extends in E7; [|apply E6].
  apply SYCLConvDPASFacts.bind_Ok in H as (decConv4a & E8 & H).
  apply addConcatConv_extends in E8; [|apply E7|].
  2:{ destruct E1 as (_&?&?), E2 as (_&?&?), E3 as (_&?&?), E4 as (_&?&?),
        E5 as (_&?&?), E6 as (_&?&?), E7 as (_&?&?). lia. }
  apply SYCLConvDPASFacts.bind_Ok in H as (upsample3 & E9 & H).
  apply addConv_extends in E9; [|apply E8].
  apply SYCLConvDPASFacts.bind_Ok in H as (decConv3a & E10 & H).
  apply addConcatConv_extends in E10; [|apply E9|].
  2:{ destruct E1 as (_&?&?), E2 as (_&?&?), E3 as (_&?&?), E4 as (_&?&?),
        E5 as (_&?&?), E6 as (_&?&?), E7 as (_&?&?), E8 as (_&?&?), E9 as (_&?&?). lia. }
  apply SYCLConvDPASFacts.bind_Ok in H as (upsample2 & E11 & H).
  apply addConv_extends in E11; [|apply E10].
  apply SYCLConvDPASFacts.bind_Ok in H as (decConv2a & E12 & H).
  apply addConcatConv_extends in E12; [|apply E11|].
  2:{ destruct E1 as (_&?&?), E2 as (_&?&?), E3 as (_&?&?), E4 as (_&?&?),
        E5 as (_&?&?), E6 as (_&?&?), E7 as (_&?&?), E8 as (_&?&?), E9 as (_&?&?),
        E10 as (_&?&?), E11 as (_&?&?). lia. }
  apply SYCLConvDPASFacts.bind_Ok in H as (upsample1 & E13 & H).
  apply addConv_extends in E13; [|apply E12].
  apply SYCLConvDPASFacts.bind_Ok in H as (decConv1a & E14 & H).
  apply addConcatConv_extends in E14; [|apply E13|].
  2:{ destruct E0 as (_&?&?), E1 as (_&?&?), E2 as (_&?&?), E3 as (_&?&?), E4 as (_&?&?),
        E5 as (_&?&?), E6 as (_&?&?), E7 as (_&?&?), E8 as (_&?&?), E9 as (_&?&?),
        E10 as (_&?&?), E11 as (_&?&?), E12 as (_&?&?), E13 as (_&?&?). lia. }
  apply SYCLConvDPASFacts.bind_Ok in H as (decConv1b & E15 & H).
  apply addConv_extends in E15; [|apply E14].
  apply SYCLConvDPASFacts.bind_Ok in H as (decConv0 & E16 & H).
  apply addConv_extends in E16; [|apply E15].
  apply SYCLConvDPASFacts.bind_Ok in H as (outputProcess & E17 & H).
  apply addOutputProcess_extends in E17; [|apply E16].
  injection H as <-. apply E17.
Qed.

Lemma iter_next_lt A k : ∀ p q,
  (∀ p q, nextOf A p = Some q → (q < p)%nat) →
  (0 < k)%nat → iter_next A k p = Some q → (q < p)%nat.
Proof.
  induction k as [|k IH]; intros p q Hlt Hk; [lia|]. simpl.
  destruct (nextOf A p) as [p1|] eqn:Hp1; simpl; [|done].
  apply Hlt in Hp1. destruct k as [|k'].
  - simpl. intros [= <-]. done.
  - intros Hq. apply IH in Hq; [lia | done | lia].
Qed.

(** An ordered graph whose sizes are [size_t] values with a sum below
    [SIZE_MAX] has well-formed records. *)
Lemma ordered_well_formed g :
  ordered g →
  (∀ p a, tensorAllocs g !! p = Some a → 0 ≤ byteSize a) →
  totalByteSize (tensorAllocs g) < SIZE_MAX →
  well_formed (tensorAllocs g).
Proof.
  intros [[Hlife Hnp Hpn Hlt] _] Hsz Htot. split; try done.
  - intros p a Ha. destruct (Hlife p a Ha). lia.
  - intros p k Hk Hit. apply iter_next_lt in Hit; [lia | done | done].
Qed.

(** ** The op-adding operations at their edges *)

(** X6.  Each op-adding operation that returns leaves an ordered
    graph, if it was given one: lifetimes are intervals of op indices
    below the number of ops, [prev] and [next] mirror each other, and
    [next] leads from a newer record to an older one.  For
    [addConcatConv] the first source must be the newer op. *)
Theorem additions_keep_order e g :
  ordered g →
  (∀ n ds al r, addInputProcess e n ds al g = Ok r → ordered r.2) ∧
  (∀ n s act p r, addConv e n s act p g = Ok r → ordered r.2) ∧
  (∀ n s1 s2 act r, (opPtr s2 < opPtr s1)%nat →
     addConcatConv e n s1 s2 act g = Ok r → ordered r.2) ∧
  (∀ n s r, addPool e n s g = Ok r → ordered r.2) ∧
  (∀ n s r, addUpsample e n s g = Ok r → ordered r.2) ∧
  (∀ n s r, addOutputProcess e n s g = Ok r → ordered r.2).
Proof.
  intros Hord. split_and!.
  - intros n ds al r H. by apply (addInputProcess_extends e n ds al g r).
  - intros n s act p r H. by apply (addConv_extends e n s act p g r).
  - intros n s1 s2 act r Hlt H. by apply (addConcatConv_extends e n s1 s2 act g r).
  - intros n s r H. by apply (addPool_extends e n s g r).
  - intros n s r H. by apply (addUpsample_extends e n s g r).
  - intros n s r H. by apply (addOutputProcess_extends e n s g r).
Qed.

(** X7.  The allocation records of the U-Net that [buildModel] builds
    are well formed, whatever the engine and the weights are, as long as
    the tensor sizes are [size_t] values whose sum stays below
    [SIZE_MAX]: the planner's preconditions hold for the graph it is
    run on. *)
Theorem buildGraph_well_formed e ds al w r :
  UNetFilter.buildGraph e ds al (newGraph w) = Ok r →
  (∀ p a, tensorAllocs r.2 !! p = Some a → 0 ≤ byteSize a) →
  totalByteSize (tensorAllocs r.2) < SIZE_MAX →
  well_formed (tensorAllocs r.2).
Proof.
  intros H Hsz Htot. apply ordered_well_formed; [|done|done].
  by apply (buildGraph_ordered e ds al w).
Qed.

Lemma addConv_no_weight e n s act p g :
  weights g !! (n +:+ ".weight") = None → addConv e n s act p g = Undefined.
Proof.
  intros Hw.
  assert (∀ q, addConvOp e n s act q g = Undefined) as Hop.
  { intros q. unfold addConvOp, lookupWeight. by rewrite Hw. }
  unfold addConv. destruct p; rewrite ?Hop; try done; destruct (isConvSupported e _); reflexivity.
Qed.

(** X8.  A convolution whose weight tensor is not in the weight map,
    or whose weight has rank 4 while its bias is not in the map, is a
    null dereference in [addConv] and in [addConcatConv], with any
    post-op and whether or not the engine fuses it: no exception is
    thrown for a missing tensor. *)
Theorem addConv_missing_tensor e n s s2 act p g :
  (weights g !! (n +:+ ".weight") = None ∨
   ∃ wt, weights g !! (n +:+ ".weight") = Some wt ∧ rank wt = 4 ∧
         weights g !! (n +:+ ".bias") = None) →
  addConv e n s act p g = Undefined ∧ addConcatConv e n s s2 act g = Undefined.
Proof.
  intros Hmiss.
  assert (∀ q, addConvOp e n s act q g = Undefined) as Hop.
  { intros q. unfold addConvOp, lookupWeight.
    destruct Hmiss as [->|(wt & -> & Hr & ->)]; [done|]. simpl. by rewrite Hr. }
  split.
  - unfold addConv. destruct p; rewrite ?Hop; try done; destruct (isConvSupported e _); reflexivity.
  - unfold addConcatConv, lookupWeight.
    destruct Hmiss as [->|(wt & -> & Hr & ->)]; [done|]. simpl. by rewrite Hr.
Qed.

Lemma addConv_missing_tensor_witness :
  addConv (SYCLConvDPASFacts.exampleEngine false false) "enc_conv0"
    (exampleOp 0 "input" InputProcess) Activation.ReLU PostOp.Pool (newGraph ∅) = Undefined ∧
  addConcatConv (SYCLConvDPASFacts.exampleEngine false false) "enc_conv0"
    (exampleOp 0 "input" InputProcess) (exampleOp 0 "input" InputProcess)
    Activation.ReLU (newGraph ∅) = Undefined.
Proof.
  apply (addConv_missing_tensor (SYCLConvDPASFacts.exampleEngine false false) "enc_conv0").
  left. reflexivity.
Defined.

(** X9.  When both tensors are in the weight map and the weight is not
    of rank 4 or the bias not of rank 1, [addConv] and [addConcatConv]
    throw the invalid-argument error, before the source ops are looked
    up and whatever the post-op is. *)
Theorem addConv_wrong_rank e n s s2 act p g wt bs :
  weights g !! (n +:+ ".weight") = Some wt →
  weights g !! (n +:+ ".bias") = Some bs →
  rank wt ≠ 4 ∨ rank bs ≠ 1 →
  addConv e n s act p g = Throw (invalid_argument "invalid convolution weight/bias") ∧
  addConcatConv e n s s2 act g = Throw (invalid_argument "invalid convolution weight/bias").
Proof.
  intros Hw Hb Hrank.
  assert (∀ q, addConvOp e n s act q g
               = Throw (invalid_argument "invalid convolution weight/bias")) as Hop.
  { intros q. unfold addConvOp, lookupWeight. rewrite Hw. simpl.
    destruct (rank wt =? 4) eqn:E4; [|done]. simpl. rewrite Hb. simpl.
    destruct Hrank as [H|H]; [by apply Z.eqb_eq in E4|].
    apply Z.eqb_neq in H. by rewrite H. }
  split.
  - unfold addConv. destruct p; rewrite ?Hop; try done; destruct (isConvSupported e _); reflexivity.
  - unfold addConcatConv, lookupWeight. rewrite Hw. simpl.
    destruct (rank wt =? 4) eqn:E4; [|done]. simpl. rewrite Hb. simpl.
    destruct Hrank as [H|H]; [by apply Z.eqb_eq in E4|].
    apply Z.eqb_neq in H. by rewrite H.
Qed.

Definition flatWeights : gmap string WeightTensor :=
  {[ "c.weight" := {| rank := 2; dims := [32; 9]; weightByteSize := 576 |};
     "c.bias" := {| rank := 1; dims := [32]; weightByteSize := 64 |} ]}.

Lemma addConv_wrong_rank_witness :
  addConv (SYCLConvDPASFacts.exampleEngine true false) "c"
    (exampleOp 0 "input" InputProcess) Activation.ReLU PostOp.None (newGraph flatWeights)
    = Throw (invalid_argument "invalid convolution weight/bias") ∧
  addConcatConv (SYCLConvDPASFacts.exampleEngine true false) "c"
    (exampleOp 0 "input" InputProcess) (exampleOp 0 "input" InputProcess)
    Activation.ReLU (newGraph flatWeights)
    = Throw (invalid_argument "invalid convolution weight/bias").
Proof.
  apply (addConv_wrong_rank (SYCLConvDPASFacts.exampleEngine true false) "c"
           (exampleOp 0 "input" InputProcess) (exampleOp 0 "input" InputProcess)
           Activation.ReLU PostOp.None (newGraph flatWeights)
           {| rank := 2; dims := [32; 9]; weightByteSize := 576 |}
           {| rank := 1; dims := [32]; weightByteSize := 64 |}).
  - vm_compute. reflexivity.
  - vm_compute. reflexivity.
  - left. simpl. lia.
Defined.

Lemma addConvOp_ops e n s act p g r :
  addConvOp e n s act p g = Ok r →
  ops r.2 = ops g ++ [r.1] ∧ name r.1 = n ∧ kind r.1 = Conv act p.
Proof.
  unfold addConvOp. intros H.
  apply SYCLConvDPASFacts.bind_Ok in H as (wt & Hwt & H).
  destruct (negb _); [done|].
  apply SYCLConvDPASFacts.bind_Ok in H as (bs & Hbs & H).
  destruct (negb _); [done|].
  apply SYCLConvDPASFacts.bind_Ok in H as (d & Hd & H).
  apply SYCLConvDPASFacts.bind_Ok in H as (a & Ha & H). injection H as <-.
  apply SYCLConvDPASFacts.addOpDst_ops in Ha. done.
Qed.

Lemma addPool_ops e n s g r :
  addPool e n s g = Ok r → ops r.2 = ops g ++ [r.1] ∧ name r.1 = n ∧ kind r.1 = Pool.
Proof.
  unfold addPool. intros H.
  apply SYCLConvDPASFacts.bind_Ok in H as (d & Hd & H).
  apply SYCLConvDPASFacts.bind_Ok in H as (a & Ha & H). injection H as <-.
  apply SYCLConvDPASFacts.addOpDst_ops in Ha. done.
Qed.

Lemma addUpsample_ops e n s g r :
  addUpsample e n s g = Ok r → ops r.2 = ops g ++ [r.1] ∧ name r.1 = n ∧ kind r.1 = Upsample.
Proof.
  unfold addUpsample. intros H.
  apply SYCLConvDPASFacts.bind_Ok in H as (d & Hd & H).
  apply SYCLConvDPASFacts.bind_Ok in H as (a & Ha & H). injection H as <-.
  apply SYCLConvDPASFacts.addOpDst_ops in Ha. done.
Qed.

Lemma addInputProcess_ops e n ds al g r :
  addInputProcess e n ds al g = Ok r →
  ops r.2 = ops g ++ [r.1] ∧ name r.1 = n ∧ kind r.1 = InputProcess.
Proof.
  unfold addInputProcess. intros H.
  apply SYCLConvDPASFacts.bind_Ok in H as (a & Ha & H). injection H as <-.
  apply SYCLConvDPASFacts.addOpDst_ops in Ha. done.
Qed.

Lemma addOutputProcess_ops e n s g r :
  addOutputProcess e n s g = Ok r →
  ops r.2 = ops g ++ [r.1] ∧ name r.1 = n ∧ kind r.1 = OutputProcess.
Proof.
  unfold addOutputProcess. intros H.
  apply SYCLConvDPASFacts.bind_Ok in H as (d & Hd & H).
  apply SYCLConvDPASFacts.bind_Ok in H as (a & Ha & H). injection H as <-.
  apply SYCLConvDPASFacts.addOp_ops in Ha. done.
Qed.

Lemma addConcatConv_ops e n s1 s2 act g r :
  addConcatConv e n s1 s2 act g = Ok r →
  ops r.2 = ops g ++ [r.1] ∧ name r.1 = n ∧
  kind r.1 = if tensorLayoutIsHWC e then ConcatConvHWC act else ConcatConvCHW act.
Proof.
  unfold addConcatConv. intros H.
  apply SYCLConvDPASFacts.bind_Ok in H as (wt & Hwt & H).
  destruct (negb _); [done|].
  apply SYCLConvDPASFacts.bind_Ok in H as (bs & Hbs & H).
  destruct (negb _); [done|].
  apply SYCLConvDPASFacts.bind_Ok in H as (d1 & Hd1 & H).
  apply SYCLConvDPASFacts.bind_Ok in H as (d2 & Hd2 & H).
  destruct (tensorLayoutIsHWC e).
  - apply SYCLConvDPASFacts.bind_Ok in H as (a & Ha & H). injection H as <-.
    apply SYCLConvDPASFacts.addOpDst_ops in Ha. done.
  - apply SYCLConvDPASFacts.bind_Ok in H as (a & Ha & H). injection H as <-.
    apply SYCLConvDPASFacts.addOpDst_ops in Ha. done.
Qed.

(** The name of the op that follows a split convolution. *)
Definition postOpName (n : string) (p : PostOp.t) : string :=
  match p with
  | PostOp.None => n
  | PostOp.Pool => n +:+ "_pool"
  | PostOp.Upsample => n +:+ "_upsample"
  end.

Definition postOpKind (p : PostOp.t) : OpKind :=
  match p with
  | PostOp.None => InputProcess
  | PostOp.Pool => Pool
  | PostOp.Upsample => Upsample
  end.

(** [addConv] adds one op: there is no post-op, or the engine fuses
    it. *)
Definition addsOneOp (e : Engine) (p : PostOp.t) : bool :=
  match p with
  | PostOp.None => true
  | _ => isConvSupported e p
  end.

(** The ops [addConv] appends. *)
Lemma addConv_ops e n s act p g r :
  addConv e n s act p g = Ok r →
  if addsOneOp e p then
    ops r.2 = ops g ++ [r.1] ∧ name r.1 = n ∧ kind r.1 = Conv act p
  else
    ∃ conv, ops r.2 = ops g ++ [conv; r.1] ∧
      name conv = n ∧ kind conv = Conv act PostOp.None ∧
      name r.1 = postOpName n p ∧ kind r.1 = postOpKind p.
Proof.
  unfold addConv. destruct p; simpl.
  - apply addConvOp_ops.
  - destruct (isConvSupported e PostOp.Pool); simpl; [apply addConvOp_ops|].
    intros H. apply SYCLConvDPASFacts.bind_Ok in H as (r1 & H1 & H).
    apply addConvOp_ops in H1 as (E1 & E2 & E3).
    apply addPool_ops in H as (E4 & E5 & E6).
    exists r1.1. rewrite E4, E1, <- app_assoc. done.
  - destruct (isConvSupported e PostOp.Upsample); simpl; [apply addConvOp_ops|].
    intros H. apply SYCLConvDPASFacts.bind_Ok in H as (r1 & H1 & H).
    apply addConvOp_ops in H1 as (E1 & E2 & E3).
    apply addUpsample_ops in H as (E4 & E5 & E6).
    exists r1.1. rewrite E4, E1, <- app_assoc. done.
Qed.

(** X10.  A convolution with a post-op that the engine does not fuse
    is added as two ops: the convolution itself, without post-op and
    with the activation asked for, and then the pooling or upsampling
    op, named after the convolution with the suffix [_pool] or
    [_upsample]; the op returned is the second. *)
Theorem addConv_split e n s act p g r :
  p ≠ PostOp.None → isConvSupported e p = false →
  addConv e n s act p g = Ok r →
  ∃ conv, ops r.2 = ops g ++ [conv; r.1] ∧
    name conv = n ∧ kind conv = Conv act PostOp.None ∧
    name r.1 = postOpName n p ∧ kind r.1 = postOpKind p.
Proof.
  intros Hp Hs H. apply addConv_ops in H.
  destruct p; [done| |]; simpl in H; by rewrite Hs in H.
Qed.

Lemma addConv_names e n s act p g r :
  addConv e n s act p g = Ok r →
  name <$> ops r.2
  = (name <$> ops g) ++ (if addsOneOp e p then [n] else [n; postOpName n p]).
Proof.
  intros H. apply addConv_ops in H. destruct (addsOneOp e p).
  - destruct H as (-> & <- & _). by rewrite fmap_app.
  - destruct H as (conv & -> & <- & _ & <- & _). by rewrite fmap_app.
Qed.

Lemma addConcatConv_names e n s1 s2 act g r :
  addConcatConv e n s1 s2 act g = Ok r → name <$> ops r.2 = (name <$> ops g) ++ [n].
Proof. intros (-> & <- & _)%addConcatConv_ops. by rewrite fmap_app. Qed.

Lemma addInputProcess_names e n ds al g r :
  addInputProcess e n ds al g = Ok r → name <$> ops r.2 = (name <$> ops g) ++ [n].
Proof. intros (-> & <- & _)%addInputProcess_ops. by rewrite fmap_app. Qed.

Lemma addOutputProcess_names e n s g r :
  addOutputProcess e n s g = Ok r → name <$> ops r.2 = (name <$> ops g) ++ [n].
Proof. intros (-> & <- & _)%addOutputProcess_ops. by rewrite fmap_app. Qed.

(** The ops of the U-Net, by name: a convolution with a post-op is one
    op when the engine fuses the post-op and two when it does not. *)
Definition convNames (fused : bool) (n suffix : string) : list string :=
  if fused then [n] else [n; n +:+ suffix].

Definition unetOpNames (fusedPool fusedUpsample : bool) : list string :=
  ["input"; "enc_conv0"]
  ++ convNames fusedPool "enc_conv1" "_pool" ++ convNames fusedPool "enc_conv2" "_pool"
  ++ convNames fusedPool "enc_conv3" "_pool" ++ convNames fusedPool "enc_conv4" "_pool"
  ++ ["enc_conv5a"] ++ convNames fusedUpsample "enc_conv5b" "_upsample"
  ++ ["dec_conv4a"] ++ convNames fusedUpsample "dec_conv4b" "_upsample"
  ++ ["dec_conv3a"] ++ convNames fusedUpsample "dec_conv3b" "_upsample"
  ++ ["dec_conv2a"] ++ convNames fusedUpsample "dec_conv2b" "_upsample"
  ++ ["dec_conv1a"; "dec_conv1b"; "dec_conv0"; "output"].

(** X11.  Whatever the engine and the weights, the graph that
    [buildModel] builds holds these ops in this order, and its work
    amount is 18 ops plus 4 for the poolings and 4 for the upsamplings
    when the engine does not fuse them. *)
Theorem buildGraph_ops e ds al w r :
  UNetFilter.buildGraph e ds al (newGraph w) = Ok r →
  name <$> ops r.2
    = unetOpNames (isConvSupported e PostOp.Pool) (isConvSupported e PostOp.Upsample) ∧
  getWorkAmount r.2
    = 18 + (if isConvSupported e PostOp.Pool then 0 else 4)
         + (if isConvSupported e PostOp.Upsample then 0 else 4).
Proof.
  unfold UNetFilter.buildGraph. intros H.
  apply SYCLConvDPASFacts.bind_Ok in H as (a0 & Hcur & H).
  apply addInputProcess_names in Hcur.
  change (name <$> ops (newGraph w)) with (@nil string) in Hcur. simpl in Hcur.
  repeat (let a := fresh "a" in let Ha := fresh "Ha" in
          apply SYCLConvDPASFacts.bind_Ok in H as (a & Ha & H);
          first [apply addConv_names in Ha
                |apply addConcatConv_names in Ha
                |apply addOutputProcess_names in Ha];
          rewrite Hcur in Ha; clear Hcur; rename Ha into Hcur).
  injection H as <-. simpl fst; simpl snd.
  unfold getWorkAmount. rewrite <- (length_fmap name). rewrite !Hcur.
  unfold unetOpNames, convNames. simpl.
  by destruct (isConvSupported e PostOp.Pool), (isConvSupported e PostOp.Upsample).
Qed.

(** X12.  Once [finalize] has returned, the graph cannot be extended:
    [addInputProcess] throws the logic error, and every other op-adding
    operation dereferences a null pointer, because [finalize] has
    emptied the weight map and the map from ops to records before the
    check of [finalized] is reached. *)
Theorem additions_after_finalize sortChunks e g g' :
  finalizeWith sortChunks g = Some (Ok g') →
  (∀ n ds al, addInputProcess e n ds al g'
     = Throw (logic_error "graph cannot be changed after finalization")) ∧
  (∀ n s act p, addConv e n s act p g' = Undefined) ∧
  (∀ n s1 s2 act, addConcatConv e n s1 s2 act g' = Undefined) ∧
  (∀ n s, addPool e n s g' = Undefined) ∧
  (∀ n s, addUpsample e n s g' = Undefined) ∧
  (∀ n s, addOutputProcess e n s g' = Undefined).
Proof.
  intros H.
  assert (finalized g' = true ∧ weights g' = ∅ ∧ tensorAllocsByOp g' = ∅) as (Hf & Hw & Hb).
  { unfold finalizeWith in H.
    destruct (if dirty g then _ else _) as [g1|]; simpl in H; [|done].
    destruct (scratch g1).
    - by injection H as <-.
    - destruct (bool_decide _); [|done]. by injection H as <-. }
  split_and!.
  - intros n ds al. unfold addInputProcess, addOpDst, addOp. simpl. by rewrite Hf.
  - intros n s act p. apply addConv_no_weight. by rewrite Hw.
  - intros n s1 s2 act. unfold addConcatConv, lookupWeight. by rewrite Hw.
  - intros n s. unfold addPool, srcAllocDesc. by rewrite Hb.
  - intros n s. unfold addUpsample, srcAllocDesc. by rewrite Hb.
  - intros n s. unfold addOutputProcess, srcAllocDesc. by rewrite Hb.
Qed.

(** *** The additions on concrete graphs *)

Lemma planAllocations_within_scratch_witness :
  well_formed (tensorAllocs exampleGraph) ∧
  ∃ g', planAllocationsWith stableSortChunks exampleGraph = Some g' ∧
    Forall2 same_links (tensorAllocs exampleGraph) (tensorAllocs g') ∧
    (∀ p a, tensorAllocs exampleGraph !! p = Some a →
       ∃ a', tensorAllocs g' !! p = Some a' ∧ byteSize a' = byteSize a ∧
         0 ≤ byteOffset a' ∧ byteOffset a' + byteSize a ≤ tensorScratchByteSize g') ∧
    (∀ p a, tensorAllocs g' !! p = Some a →
       0 ≤ byteOffset a ∧ byteOffset a + byteSize a ≤ tensorScratchByteSize g').
Proof.
  split; [exact exampleGraph_well_formed|].
  exact (planAllocations_within_scratch stableSortChunks stableSortChunks_sorts
           exampleGraph exampleGraph_well_formed).
Defined.

Lemma planAllocations_at_most_total_witness :
  well_formed (tensorAllocs exampleGraph) ∧
  ∃ g', planAllocationsWith stableSortChunks exampleGraph = Some g' ∧
    0 ≤ tensorScratchByteSize g' ≤ totalByteSize (tensorAllocs exampleGraph).
Proof.
  split; [exact exampleGraph_well_formed|].
  exact (planAllocations_at_most_total stableSortChunks stableSortChunks_sorts
           exampleGraph exampleGraph_well_formed).
Defined.

Lemma additions_keep_order_witness :
  ordered (newGraph ∅) ∧
  let e := SYCLConvDPASFacts.exampleEngine true false in
  let g := newGraph ∅ in
  (∀ n ds al r, addInputProcess e n ds al g = Ok r → ordered r.2) ∧
  (∀ n s act p r, addConv e n s act p g = Ok r → ordered r.2) ∧
  (∀ n s1 s2 act r, (opPtr s2 < opPtr s1)%nat →
     addConcatConv e n s1 s2 act g = Ok r → ordered r.2) ∧
  (∀ n s r, addPool e n s g = Ok r → ordered r.2) ∧
  (∀ n s r, addUpsample e n s g = Ok r → ordered r.2) ∧
  (∀ n s r, addOutputProcess e n s g = Ok r → ordered r.2).
Proof.
  split; [apply ordered_newGraph|].
  exact (additions_keep_order (SYCLConvDPASFacts.exampleEngine true false) (newGraph ∅)
           (ordered_newGraph ∅)).
Defined.

(** The U-Net on an engine that fuses no post-op and chains the
    sources of its concatenations. *)
Definition builtUNet : Op * Op * Graph :=
  Eval vm_compute in
    match UNetFilter.buildGraph (SYCLConvDPASFacts.exampleEngine false false) (9, 64, 64) 16
            (newGraph SYCLConvDPASFacts.exampleWeights) with
    | Ok r => r
    | _ => (exampleOp 0 "" InputProcess, exampleOp 0 "" InputProcess, newGraph ∅)
    end.

Lemma builtUNet_Ok :
  UNetFilter.buildGraph (SYCLConvDPASFacts.exampleEngine false false) (9, 64, 64) 16
    (newGraph SYCLConvDPASFacts.exampleWeights) = Ok builtUNet.
Proof. vm_compute. reflexivity. Qed.

Lemma builtUNet_sizes p a :
  tensorAllocs builtUNet.2 !! p = Some a → 0 ≤ byteSize a.
Proof.
  revert p a. apply Forall_lookup.
  apply (bool_decide_eq_true (Forall (λ a, 0 ≤ byteSize a) (tensorAllocs builtUNet.2))).
  vm_compute. reflexivity.
Qed.

Lemma builtUNet_total : totalByteSize (tensorAllocs builtUNet.2) < SIZE_MAX.
Proof. vm_compute. reflexivity. Qed.

Lemma buildGraph_well_formed_witness : well_formed (tensorAllocs builtUNet.2).
Proof.
  exact (buildGraph_well_formed (SYCLConvDPASFacts.exampleEngine false false) (9, 64, 64) 16
           SYCLConvDPASFacts.exampleWeights builtUNet builtUNet_Ok builtUNet_sizes
           builtUNet_total).
Defined.

Lemma buildGraph_ops_witness :
  name <$> ops builtUNet.2 = unetOpNames false false ∧ getWorkAmount builtUNet.2 = 26.
Proof.
  exact (buildGraph_ops (SYCLConvDPASFacts.exampleEngine false false) (9, 64, 64) 16
           SYCLConvDPASFacts.exampleWeights builtUNet builtUNet_Ok).
Defined.

(** One more pooled convolution on the U-Net, after its input op. *)
Definition splitExample : Op * Graph :=
  Eval vm_compute in
    match addConv (SYCLConvDPASFacts.exampleEngine false false) "enc_conv1" builtUNet.1.1
            Activation.ReLU PostOp.Pool builtUNet.2 with
    | Ok r => r
    | _ => (exampleOp 0 "" InputProcess, newGraph ∅)
    end.

Lemma splitExample_Ok :
  addConv (SYCLConvDPASFacts.exampleEngine false false) "enc_conv1" builtUNet.1.1
    Activation.ReLU PostOp.Pool builtUNet.2 = Ok splitExample.
Proof. vm_compute. reflexivity. Qed.

Lemma addConv_split_witness :
  ∃ conv, ops splitExample.2 = ops builtUNet.2 ++ [conv; splitExample.1] ∧
    name conv = "enc_conv1" ∧ kind conv = Conv Activation.ReLU PostOp.None ∧
    name splitExample.1 = "enc_conv1_pool" ∧ kind splitExample.1 = Pool.
Proof.
  apply (addConv_split (SYCLConvDPASFacts.exampleEngine false false) "enc_conv1"
           builtUNet.1.1 Activation.ReLU PostOp.Pool builtUNet.2 splitExample).
  - discriminate.
  - reflexivity.
  - exact splitExample_Ok.
Defined.

(** The example graph with a scratch buffer, finalized. *)
Definition finalizedExample : Graph :=
  Eval vm_compute in
    match finalize (setScratch 0 exampleGraph) with
    | Some (Ok g) => g
    | _ => newGraph ∅
    end.

Lemma finalizedExample_Ok :
  finalizeWith stableSortChunks (setScratch 0 exampleGraph) = Some (Ok finalizedExample).
Proof. vm_compute. reflexivity. Qed.

Lemma additions_after_finalize_witness :
  let e := SYCLConvDPASFacts.exampleEngine true false in
  (∀ n ds al, addInputProcess e n ds al finalizedExample
     = Throw (logic_error "graph cannot be changed after finalization")) ∧
  (∀ n s act p, addConv e n s act p finalizedExample = Undefined) ∧
  (∀ n s1 s2 act, addConcatConv e n s1 s2 act finalizedExample = Undefined) ∧
  (∀ n s, addPool e n s finalizedExample = Undefined) ∧
  (∀ n s, addUpsample e n s finalizedExample = Undefined) ∧
  (∀ n s, addOutputProcess e n s finalizedExample = Undefined).
Proof.
  exact (additions_after_finalize stableSortChunks
           (SYCLConvDPASFacts.exampleEngine true false)
           (setScratch 0 exampleGraph) finalizedExample finalizedExample_Ok).
Defined.

(** ** Chained additions that close a cycle *)

(** A chained addition of two sources with different records that the
    check lets through: what it leaves at the two records, and what it
    keeps. *)
Lemma addOp_pair_linked op s1 s2 g p1 p2 a1 a2 :
  finalized g = false →
  tensorAllocsByOp g !! opPtr s1 = Some p1 →
  tensorAllocsByOp g !! opPtr s2 = Some p2 →
  tensorAllocs g !! p1 = Some a1 →
  tensorAllocs g !! p2 = Some a2 →
  p1 ≠ p2 → prev a2 = None → next a1 = None →
  ∃ g', addOp op [s1; s2] true g = Ok g' ∧
    finalized g' = false ∧ tensorAllocsByOp g' = tensorAllocsByOp g ∧
    ops g' = ops g ++ [op] ∧
    tensorAllocs g' !! p1
      = Some (set_next (Some p2) (set_lastOpID (Z.of_nat (length (ops g))) a1)) ∧
    tensorAllocs g' !! p2
      = Some (set_prev (Some p1) (set_lastOpID (Z.of_nat (length (ops g))) a2)).
Proof.
  intros Hf H1 H2 Ha1 Ha2 Hne Hp Hn. unfold addOp. rewrite Hf.
  set (opID := Z.of_nat (length (ops g))).
  set (A := tensorAllocs g) in *.
  simpl. rewrite H1, Ha1. simpl.
  unfold addOp_src. rewrite H2.
  rewrite list_lookup_alter_ne, Ha2 by done.
  cbv zeta.
  rewrite list_lookup_alter_eq, list_lookup_alter_ne, Ha2 by done.
  rewrite list_lookup_alter_ne, list_lookup_alter_eq, Ha1 by done.
  simpl. rewrite Hp, Hn.
  rewrite bool_decide_eq_false_2 by (intros [[? [=]]|[? [=]]]).
  simpl. eexists. split; [reflexivity|]. simpl. split_and!; try done.
  - rewrite list_lookup_alter_eq, list_lookup_alter_ne by done.
    rewrite list_lookup_alter_ne, list_lookup_alter_eq, Ha1 by done. done.
  - rewrite list_lookup_alter_ne, list_lookup_alter_eq by done.
    rewrite list_lookup_alter_eq, list_lookup_alter_ne, Ha2 by done. done.
Qed.

(** X30.  The constraint check of [addOp] does not exclude cycles: on
    a graph that is not finalized, two chained additions whose sources
    are the same two ops in opposite orders both return, when the ops
    have different records without links.  Afterwards each of the two
    records is the [next] and the [prev] of the other, so that the
    records are no longer well formed and neither record is the first
    of a chunk of the planner. *)
Theorem addOp_closes_cycle op op' s1 s2 g p1 p2 a1 a2 :
  finalized g = false →
  tensorAllocsByOp g !! opPtr s1 = Some p1 →
  tensorAllocsByOp g !! opPtr s2 = Some p2 →
  tensorAllocs g !! p1 = Some a1 →
  tensorAllocs g !! p2 = Some a2 →
  p1 ≠ p2 →
  prev a1 = None → next a1 = None → prev a2 = None → next a2 = None →
  ∃ g1 g2,
    addOp op [s1; s2] true g = Ok g1 ∧
    addOp op' [s2; s1] true g1 = Ok g2 ∧
    nextOf (tensorAllocs g2) p1 = Some p2 ∧ nextOf (tensorAllocs g2) p2 = Some p1 ∧
    prevOf (tensorAllocs g2) p1 = Some p2 ∧ prevOf (tensorAllocs g2) p2 = Some p1 ∧
    ¬ well_formed (tensorAllocs g2).
Proof.
  intros Hf H1 H2 Ha1 Ha2 Hne Hp1 Hn1 Hp2 Hn2.
  destruct (addOp_pair_linked op s1 s2 g p1 p2 a1 a2)
    as (g1 & Hg1 & Hf1 & Hby1 & _ & Hl1 & Hl2); try done.
  destruct (addOp_pair_linked op' s2 s1 g1 p2 p1 _ _ Hf1
              ltac:(by rewrite Hby1) ltac:(by rewrite Hby1) Hl2 Hl1)
    as (g2 & Hg2 & _ & _ & _ & Hm2 & Hm1); try done.
  exists g1, g2.
  assert (nextOf (tensorAllocs g2) p1 = Some p2) as Hnx1
    by (unfold nextOf; by rewrite Hm1).
  assert (nextOf (tensorAllocs g2) p2 = Some p1) as Hnx2
    by (unfold nextOf; by rewrite Hm2).
  split_and!; try done.
  - unfold prevOf. by rewrite Hm1.
  - unfold prevOf. by rewrite Hm2.
  - intros WF. apply (wf_acyclic _ WF p1 2); [lia|].
    simpl. rewrite Hnx1. simpl. rewrite Hnx2. done.
Qed.

(** An input with a pooling and a convolution that read it. *)
Definition forkedBuild : Result Graph :=
  let input := exampleOp 0 "input" InputProcess in
  r ← addOpDst input [] (exampleDesc 3 300) false (newGraph ∅);
  r ← addOpDst (exampleOp 1 "pool" Pool) [input] (exampleDesc 16 400) false r.2;
  r ← addOpDst (exampleOp 2 "conv" (Conv Activation.ReLU PostOp.None)) [input]
        (exampleDesc 16 400) false r.2;
  Ok r.2.

Definition forkedGraph : Graph :=
  Eval vm_compute in match forkedBuild with Ok g => g | _ => newGraph ∅ end.

Lemma forkedBuild_Ok : forkedBuild = Ok forkedGraph.
Proof. vm_compute. reflexivity. Qed.

Lemma addOp_closes_cycle_witness :
  let pool := exampleOp 1 "pool" Pool in
  let conv := exampleOp 2 "conv" (Conv Activation.ReLU PostOp.None) in
  ∃ g1 g2,
    addOp (exampleOp 3 "cat1" (ConcatConvCHW Activation.ReLU)) [pool; conv] true forkedGraph
      = Ok g1 ∧
    addOp (exampleOp 4 "cat2" (ConcatConvCHW Activation.ReLU)) [conv; pool] true g1 = Ok g2 ∧
    nextOf (tensorAllocs g2) 1%nat = Some 2%nat ∧ nextOf (tensorAllocs g2) 2%nat = Some 1%nat ∧
    prevOf (tensorAllocs g2) 1%nat = Some 2%nat ∧ prevOf (tensorAllocs g2) 2%nat = Some 1%nat ∧
    ¬ well_formed (tensorAllocs g2).
Proof.
  intros pool conv.
  eapply (addOp_closes_cycle _ _ pool conv forkedGraph 1%nat 2%nat); reflexivity || done.
Defined.

End GraphFacts.

(** * More on the filter: parameters, weights and tiles *)

Module UNetFilterMore.
Import UNetFilter UNetFilterFacts.

(** ** Parameters *)

(** X13.  [inputScale] and [hdrScale] name one parameter: a value set
    under either name is read back under both.  Under any other name
    [getFloat] throws the invalid-argument error, and [setFloat] keeps
    the value and hands a warning to the device.  Every [setFloat], with
    a known name or not, leaves the filter dirty, so that [execute]
    throws until the changes are committed. *)
Theorem setFloat_getFloat {float : Type} (n : string) (v : float) (st : FilterState) :
  (isInputScale n = true →
     getFloat "inputScale" (setFloat n v st) = Ok v ∧
     getFloat "hdrScale" (setFloat n v st) = Ok v ∧
     warnings (setFloat n v st) = warnings st) ∧
  (isInputScale n = false →
     getFloat n st
       = Throw (OidnException InvalidArgument "unknown filter parameter or type mismatch") ∧
     inputScale (setFloat n v st) = inputScale st ∧
     warnings (setFloat n v st)
       = warnings st ++ ["unknown filter parameter or type mismatch"]) ∧
  (∀ H W overlap alignment numEngines t,
     execute H W overlap alignment numEngines t (setFloat n v st)
       = Throw (OidnException InvalidOperation "changes to the filter are not committed")).
Proof.
  unfold setFloat, getFloat, execute. split_and!.
  - intros ->. done.
  - intros ->. done.
  - intros. by destruct (isInputScale n).
Qed.

(** ** The checks of [checkParams] *)

(** The images among color, albedo and normal that are set. *)
Definition inputs (f : Params) : list Image :=
  option_list (color f) ++ option_list (albedo f) ++ option_list (normal f).

(** X14.  [checkParams] accepts exactly the filters with at least one
    input image and an output image, whose inputs all have the format
    Float3 or all have the format Half3, whose output has one of the two
    formats (not necessarily that of the inputs), whose inputs have the
    size of the output, and whose modes are not [directional] together
    with [hdr] or [srgb], nor [hdr] together with [srgb]. *)
Theorem checkParams_accepts f :
  checkParams f = Ok () ↔
  inputs f ≠ [] ∧
  ∃ out, output f = Some out ∧
    (Forall (λ im, format im = Float3) (inputs f) ∨
     Forall (λ im, format im = Half3) (inputs f)) ∧
    (format out = Float3 ∨ format out = Half3) ∧
    Forall (λ im, imageW im = imageW out ∧ imageH im = imageH out) (inputs f) ∧
    ¬ (directional f = true ∧ (hdr f = true ∨ srgb f = true)) ∧
    ¬ (hdr f = true ∧ srgb f = true).
Proof.
  assert (∀ (i : option Image) fmt,
            format_differs i fmt = false ↔ Forall (λ im, format im = fmt) (option_list i))
    as Hfmt.
  { intros [im|] fmt; simpl.
    - rewrite negb_false_iff, bool_decide_eq_true, Forall_singleton. done.
    - split; [constructor | done]. }
  assert (∀ (i : option Image) out,
            size_differs i out = false ↔
            Forall (λ im, imageW im = imageW out ∧ imageH im = imageH out) (option_list i))
    as Hsize.
  { intros [im|] out; simpl.
    - rewrite orb_false_iff, !negb_false_iff, !Z.eqb_eq, Forall_singleton. done.
    - split; [constructor | done]. }
  assert (∀ fmt, format_differs (color f) fmt || format_differs (albedo f) fmt
                 || format_differs (normal f) fmt = false ↔
                 Forall (λ im, format im = fmt) (inputs f)) as Hall.
  { intros fmt. unfold inputs. rewrite !Forall_app, !orb_false_iff, !Hfmt. tauto. }
  assert (∀ out, size_differs (color f) out || size_differs (albedo f) out
                 || size_differs (normal f) out = false ↔
                 Forall (λ im, imageW im = imageW out ∧ imageH im = imageH out) (inputs f))
    as Hsz.
  { intros out. unfold inputs. rewrite !Forall_app, !orb_false_iff, !Hsize. tauto. }
  assert (negb (present (color f)) && negb (present (albedo f)) && negb (present (normal f))
          = false ↔ inputs f ≠ []) as Hin.
  { unfold inputs, present. destruct (color f), (albedo f), (normal f); simpl;
      rewrite ?bool_decide_eq_true_2, ?bool_decide_eq_false_2 by (rewrite ?is_Some_alt; done);
      simpl; split; done. }
  unfold checkParams.
  destruct (negb (present (color f)) && negb (present (albedo f)) && negb (present (normal f))).
  { split; [done|]. intros [Hne _]. apply Hin in Hne. done. }
  assert (inputs f ≠ []) as E0 by (by apply Hin).
  destruct (output f) as [out|]; cycle 1.
  { split; [done|]. by intros (_ & out & ? & _). }
  destruct (format_differs (color f) Float3 || format_differs (albedo f) Float3
            || format_differs (normal f) Float3) eqn:E1;
  destruct (format_differs (color f) Half3 || format_differs (albedo f) Half3
            || format_differs (normal f) Half3) eqn:E2; simpl.
  { split; [done|]. intros (_ & out' & [= <-] & [Hf|Hf] & _).
    - apply Hall in Hf. congruence.
    - apply Hall in Hf. congruence. }
  all: destruct (bool_decide (format out = Float3)) eqn:E3;
       destruct (bool_decide (format out = Half3)) eqn:E4; simpl;
       try (apply bool_decide_eq_true in E3); try (apply bool_decide_eq_false in E3);
       try (apply bool_decide_eq_true in E4); try (apply bool_decide_eq_false in E4).
  all: try (split; [done|]; intros (_ & out' & [= <-] & _ & [?|?] & _); done).
  all: destruct (size_differs (color f) out || size_differs (albedo f) out
                 || size_differs (normal f) out) eqn:E5;
       [split; [done|]; intros (_ & out' & [= <-] & _ & _ & Hs & _);
        apply Hsz in Hs; congruence|].
  all: apply Hsz in E5.
  all: destruct (directional f), (hdr f), (srgb f); simpl;
       try (split; [done|]; intros (_ & out' & [= <-] & _ & _ & _ & Hd & Hh);
            first [by destruct Hd; auto | by destruct Hh; auto]).
  all: split; [intros _|done]; split; [done|]; exists out; split; [done|].
  all: rewrite <- ?Hall in *.
  all: split_and!; try done; try tauto; try (by left); try (by right);
       try (intros [? [?|?]]; done); try (intros [? ?]; done).
  all: try (left; by apply Hall); try (right; by apply Hall).
Qed.

(** ** User-supplied weights *)

(** X15.  With a color image, user-supplied weights are returned in
    every configuration, also in the one without a built-in blob (color
    and normal without albedo), which fails without them.  Without a
    color image they do not lift the checks of the modes: albedo
    filtering in [hdr] mode still throws. *)
Theorem getWeights_user_blob f :
  (Data_valid (userWeightsBlob f) = true → present (color f) = true →
     getWeights f = Ok (userWeightsBlob f)) ∧
  (Data_valid (userWeightsBlob f) = false → present (color f) = true →
     present (albedo f) = false → present (normal f) = true →
     getWeights f
       = Throw (OidnException InvalidOperation "unsupported combination of input features")) ∧
  (present (color f) = false → present (albedo f) = true → present (normal f) = false →
     hdr f = true →
     getWeights f
       = Throw (OidnException InvalidOperation
                  "hdr mode is not supported for albedo filtering")).
Proof.
  unfold getWeights, selectWeights. split_and!.
  - intros Hu ->. destruct (present (albedo f)), (present (normal f)), (cleanAux f); simpl;
      by rewrite Hu, Hu.
  - intros Hu -> -> ->. simpl. rewrite Hu. done.
  - intros -> -> -> ->. done.
Qed.

(** ** The subdivision loop of [init] *)

Lemma ceil_div_small x n : 1 ≤ n → x ≤ n → ceil_div x n ≤ 1.
Proof.
  intros Hn Hx. unfold ceil_div.
  destruct (decide (0 ≤ x + n - 1)) as [H0|H0].
  - rewrite Z.quot_div_nonneg by lia. apply Z.lt_succ_r. apply Z.div_lt_upper_bound; lia.
  - pose proof (Z.quot_opp_l (- (x + n - 1)) n ltac:(lia)) as Hq.
    rewrite Z.opp_involutive in Hq. rewrite Hq.
    pose proof (Z.quot_pos (- (x + n - 1)) n ltac:(lia) ltac:(lia)). lia.
Qed.

Section termination.
Variables (H W overlap alignment numEngines maxMemoryByteSize : Z).
Variable buildModelResult : Tiling → option Z → bool.
Hypothesis Hal : 1 ≤ alignment.
Hypothesis Hov : alignment ≤ overlap.

#[local] Abbreviation initLoop :=
  (initLoop H W overlap alignment numEngines maxMemoryByteSize buildModelResult).
#[local] Abbreviation initTiles :=
  (initTiles H W overlap alignment numEngines maxMemoryByteSize buildModelResult).
#[local] Abbreviation subdivide := (subdivide H W overlap alignment buildModelResult).

(** The tile size of an axis of extent [L] divided into [n] tiles. *)
Definition dividedSize (L n : Z) : Z :=
  Z.max (round_up (ceil_div (L - 2 * overlap) n) alignment + 2 * overlap) (3 * overlap).

(** The tile sizes are the initial ones, or those of the counts. *)
Definition derived (t : Tiling) : Prop :=
  1 ≤ tileCountH t ∧ 1 ≤ tileCountW t ∧
  (tileCountH t = 1 ∨ tileH t = dividedSize H (tileCountH t)) ∧
  (tileCountW t = 1 ∨ tileW t = dividedSize W (tileCountW t)).

(** The passes an axis can still take. *)
Definition axisFuel (L n : Z) : Z :=
  if n =? 1 then Z.max 0 (L - 2 * overlap - 1) + 1 else Z.max 0 (L - 2 * overlap - n).

Definition loopFuel (t : Tiling) : Z :=
  axisFuel H (tileCountH t) + axisFuel W (tileCountW t).

Lemma axisFuel_nonneg L n : 0 ≤ axisFuel L n.
Proof. unfold axisFuel. destruct (n =? 1); lia. Qed.

Lemma dividedSize_large L n :
  2 ≤ n → 3 * overlap < dividedSize L n → n < L - 2 * overlap.
Proof.
  intros Hn Hlarge. unfold dividedSize in Hlarge.
  destruct (decide (n < L - 2 * overlap)) as [|Hge]; [done|].
  pose proof (ceil_div_small (L - 2 * overlap) n ltac:(lia) ltac:(lia)) as Hc.
  pose proof (ceil_div_small (ceil_div (L - 2 * overlap) n) alignment Hal ltac:(lia)) as Hc'.
  unfold round_up in Hlarge.
  assert (ceil_div (ceil_div (L - 2 * overlap) n) alignment * alignment ≤ alignment) by nia.
  lia.
Qed.

Lemma axisFuel_step L n T :
  1 ≤ n → (n = 1 ∨ T = dividedSize L n) → 3 * overlap < T →
  axisFuel L (n + 1) < axisFuel L n.
Proof.
  intros Hn Hd HT. unfold axisFuel.
  destruct (n =? 1) eqn:E1.
  - apply Z.eqb_eq in E1. subst n. simpl. lia.
  - apply Z.eqb_neq in E1. destruct Hd as [? | ->]; [done|].
    apply dividedSize_large in HT; [|lia].
    replace (n + 1 =? 1) with false by (symmetry; apply Z.eqb_neq; lia). lia.
Qed.

Lemma subdivide_progress t :
  derived t →
  match subdivide t with
  | inl t' => derived t' ∧ loopFuel t' < loopFuel t
  | inr _ => True
  end.
Proof.
  intros (Hch & Hcw & Hh & Hw). unfold UNetFilter.subdivide, minTileSize.
  destruct ((3 * overlap <? tileH t) && (tileW t <? tileH t)) eqn:E1.
  { apply andb_true_iff in E1 as [E1%Z.ltb_lt _]. split.
    - unfold derived. simpl. split_and!; try lia; try done. by right.
    - unfold loopFuel. simpl.
      pose proof (axisFuel_step H (tileCountH t) (tileH t) Hch Hh E1). lia. }
  destruct (3 * overlap <? tileW t) eqn:E2.
  { apply Z.ltb_lt in E2. split.
    - unfold derived. simpl. split_and!; try lia; try done. by right.
    - unfold loopFuel. simpl.
      pose proof (axisFuel_step W (tileCountW t) (tileW t) Hcw Hw E2). lia. }
  by destruct (buildModel H W buildModelResult t None).
Qed.

Lemma initLoop_returns (fuel : nat) : ∀ t,
  derived t → loopFuel t < Z.of_nat fuel → ∃ r, initLoop fuel t = Some r.
Proof.
  induction fuel as [|fuel IH]; intros t Hd Hfuel.
  - pose proof (axisFuel_nonneg H (tileCountH t)).
    pose proof (axisFuel_nonneg W (tileCountW t)). unfold loopFuel in Hfuel. lia.
  - simpl. destruct (negb _ || negb _); [|eauto].
    pose proof (subdivide_progress t Hd) as Hsub.
    destruct (subdivide t) as [t'|r]; [|eauto].
    destruct Hsub as [Hd' Hlt]. apply IH; [done | lia].
Qed.

(** X16.  With an alignment of at least 1 that is not larger than the
    overlap, the subdivision loop of [init] comes to an end, whatever
    the image size, the number of engines and the answers of
    [buildModel] are: within
    [max(0, H - 2 overlap) + max(0, W - 2 overlap) + 3] checks of its
    condition it has found a tiling, fallen back to the smallest tiles
    or thrown. *)
Theorem init_loop_ends :
  ∃ r, initTiles
         (Z.to_nat (Z.max 0 (H - 2 * overlap) + Z.max 0 (W - 2 * overlap)) + 3) = Some r.
Proof.
  destruct (initLoop_returns
              (Z.to_nat (Z.max 0 (H - 2 * overlap) + Z.max 0 (W - 2 * overlap)) + 3)
              (initialTiling H W alignment)) as [r Hr].
  - unfold derived. simpl. split_and!; try lia; by left.
  - unfold loopFuel, axisFuel. simpl. lia.
  - unfold UNetFilter.initTiles. rewrite Hr.
    destruct r as [[t|t]| |]; eauto.
Qed.

End termination.

Lemma init_loop_ends_witness :
  1 ≤ 32 ∧ 32 ≤ 32 ∧
  ∃ r, initTiles 1024 1024 32 32 2 (600 * 1024 * 1024) (λ _ _, false)
         (Z.to_nat (Z.max 0 (1024 - 2 * 32) + Z.max 0 (1024 - 2 * 32)) + 3) = Some r.
Proof.
  split; [lia|]. split; [lia|].
  apply (init_loop_ends 1024 1024 32 32 2 (600 * 1024 * 1024) (λ _ _, false)); lia.
Defined.

Section no_end.
Variables (H W overlap alignment numEngines maxMemoryByteSize : Z).
Variable buildModelResult : Tiling → option Z → bool.
Hypothesis Hov : 0 ≤ overlap.
Hypothesis Hal : overlap < alignment.
Hypothesis HH : 3 * overlap < H.
Hypothesis HW : 3 * overlap < W.
Hypothesis Hfit : ∀ t, buildModelResult t (Some maxMemoryByteSize) = false.

#[local] Abbreviation initLoop :=
  (initLoop H W overlap alignment numEngines maxMemoryByteSize buildModelResult).
#[local] Abbreviation initTiles :=
  (initTiles H W overlap alignment numEngines maxMemoryByteSize buildModelResult).
#[local] Abbreviation subdivide := (subdivide H W overlap alignment buildModelResult).

Definition above_minimum (t : Tiling) : Prop :=
  1 ≤ tileCountH t ∧ 1 ≤ tileCountW t ∧ 3 * overlap < tileH t ∧ 3 * overlap < tileW t.

Lemma divided_above L n :
  3 * overlap < L → 2 ≤ n →
  3 * overlap
  < Z.max (round_up (ceil_div (L - 2 * overlap) n) alignment + 2 * overlap) (3 * overlap).
Proof.
  intros HL Hn.
  pose proof (ceil_div_pos (L - 2 * overlap) n ltac:(lia) ltac:(lia)) as [Hc _].
  pose proof (ceil_div_pos (ceil_div (L - 2 * overlap) n) alignment Hc ltac:(lia)) as [Hc' _].
  unfold round_up.
  assert (alignment ≤ ceil_div (ceil_div (L - 2 * overlap) n) alignment * alignment) by nia.
  lia.
Qed.

Lemma subdivide_goes_on t :
  above_minimum t → ∃ t', subdivide t = inl t' ∧ above_minimum t'.
Proof.
  intros (Hch & Hcw & Hh & Hw). unfold UNetFilter.subdivide, minTileSize.
  destruct ((3 * overlap <? tileH t) && (tileW t <? tileH t)).
  { eexists. split; [done|]. unfold above_minimum. simpl.
    split_and!; try lia. apply divided_above; lia. }
  replace (3 * overlap <? tileW t) with true by (symmetry; apply Z.ltb_lt; lia).
  eexists. split; [done|]. unfold above_minimum. simpl.
  split_and!; try lia. apply divided_above; lia.
Qed.

(** X17.  With an alignment larger than the overlap, an image larger
    than three overlaps in both directions and a model that never fits
    the memory limit, the subdivision loop of [init] never ends: a tile
    never gets as small as the minimum tile size, so the branch that
    gives up is never reached. *)
Theorem init_loop_never_ends (fuel : nat) : initTiles fuel = None.
Proof.
  assert (∀ t, above_minimum t → initLoop fuel t = None) as Hloop.
  { induction fuel as [|fuel' IH]; intros t Hab; [done|]. simpl.
    unfold buildModel.
    replace ((H <=? 0) || (W <=? 0)) with false
      by (symmetry; apply orb_false_iff; split; apply Z.leb_gt; lia).
    rewrite Hfit. rewrite orb_true_r.
    destruct (subdivide_goes_on t Hab) as (t' & -> & Hab'). by apply IH. }
  unfold UNetFilter.initTiles. rewrite Hloop; [done|].
  unfold above_minimum. simpl. split_and!; try lia.
  - pose proof (round_up_ge H alignment ltac:(lia) ltac:(lia)). lia.
  - pose proof (round_up_ge W alignment ltac:(lia) ltac:(lia)). lia.
Qed.

End no_end.

Lemma init_loop_never_ends_witness :
  0 ≤ 0 ∧ 0 < 1 ∧ 3 * 0 < 64 ∧
  initTiles 64 64 0 1 1 (600 * 1024 * 1024) (λ _ _, false) 1000 = None.
Proof.
  split_and!; try lia.
  apply (init_loop_never_ends 64 64 0 1 1 (600 * 1024 * 1024) (λ _ _, false)); lia.
Defined.

(** ** The tiles in the image and in the tile buffer *)

Section axis_buffer.
(** [L]: the image extent on the axis, [T]: the tile size, [cnt]: the
    final tile count, [al]: the alignment. *)
Variables (L overlap T cnt al : Z).
Hypothesis HL : 1 ≤ L.
Hypothesis Hov : 0 ≤ overlap.
Hypothesis Hal : 1 ≤ al.
Hypothesis HT : L ≤ T ∨ 1 ≤ T - 2 * overlap.
Hypothesis Hcnt :
  cnt = if T <? L then ceil_div (L - 2 * overlap) (T - 2 * overlap) else 1.
Hypothesis Hmul : ∃ k, T = k * al.

Lemma round_up_within x : 1 ≤ x → x ≤ T → x ≤ round_up x al ≤ T.
Proof.
  intros Hx HxT. split; [by apply round_up_ge|].
  destruct Hmul as [k ->]. unfold round_up, ceil_div.
  rewrite Z.quot_div_nonneg by lia.
  assert ((x + al - 1) / al ≤ k); [|nia].
  apply Z.lt_succ_r. apply Z.div_lt_upper_bound; nia.
Qed.

Lemma axis_input i :
  0 ≤ i < cnt →
  let h := i * (T - 2 * overlap) in
  let T1 := Z.min (L - h) T in
  0 ≤ h ∧ 1 ≤ T1 ∧ h + T1 ≤ L ∧
  0 ≤ T - round_up T1 al ∧ T - round_up T1 al + T1 ≤ T ∧
  1 ≤ axisLen L overlap T cnt i.
Proof.
  intros Hi h T1.
  destruct (axis_span L overlap T cnt HL Hov HT Hcnt i Hi) as (Hlen & _ & _).
  assert (0 ≤ h ∧ 1 ≤ T1) as [Hh HT1].
  { unfold T1, h.
    destruct (axis_count_bounds L overlap T cnt HT Hcnt)
      as [[Hle ->]|(Hlt & Hs & Hc & Hlo & Hhi)].
    - assert (i = 0) as -> by lia. lia.
    - assert (i * (T - 2 * overlap) ≤ (cnt - 1) * (T - 2 * overlap)) by nia.
      split; [nia|]. apply Z.min_glb; lia. }
  assert (T1 ≤ T) as HT1T by (unfold T1; lia).
  pose proof (round_up_within T1 HT1 HT1T).
  split_and!; try lia.
Qed.

End axis_buffer.

Section tile_buffer.
Variables (H W overlap alignment numEngines maxMemoryByteSize : Z).
Variable buildModelResult : Tiling → option Z → bool.
Hypothesis HH : 1 ≤ H.
Hypothesis HW : 1 ≤ W.
Hypothesis Hov : 0 ≤ overlap.
Hypothesis Hal : 1 ≤ alignment.
Hypothesis Hdiv : ∃ k, overlap = k * alignment.

#[local] Abbreviation initLoop :=
  (initLoop H W overlap alignment numEngines maxMemoryByteSize buildModelResult).
#[local] Abbreviation initTiles :=
  (initTiles H W overlap alignment numEngines maxMemoryByteSize buildModelResult).
#[local] Abbreviation subdivide := (subdivide H W overlap alignment buildModelResult).
#[local] Abbreviation executeTiles := (executeTiles H W overlap alignment numEngines).
#[local] Abbreviation tileCall := (tileCall H W overlap alignment numEngines).

(** The tile sizes are multiples of the alignment. *)
Definition tiles_aligned (t : Tiling) : Prop :=
  (∃ k, tileH t = k * alignment) ∧ (∃ k, tileW t = k * alignment).

Lemma divided_aligned L n :
  ∃ k, Z.max (round_up (ceil_div (L - 2 * overlap) n) alignment + 2 * overlap) (3 * overlap)
       = k * alignment.
Proof.
  destruct Hdiv as [k Hk]. unfold round_up.
  set (c := ceil_div (ceil_div (L - 2 * overlap) n) alignment).
  destruct (Z.max_spec (c * alignment + 2 * overlap) (3 * overlap)) as [[_ ->]|[_ ->]].
  - exists (3 * k). lia.
  - exists (c + 2 * k). lia.
Qed.

Lemma subdivide_aligned t :
  tiles_aligned t →
  match subdivide t with
  | inl t' => tiles_aligned t'
  | inr (Ok e) => tiles_aligned (exitTiling e)
  | inr _ => True
  end.
Proof.
  intros [Hh Hw]. unfold UNetFilter.subdivide, minTileSize.
  destruct ((3 * overlap <? tileH t) && (tileW t <? tileH t)).
  { split; simpl; [apply divided_aligned | done]. }
  destruct (3 * overlap <? tileW t).
  { split; simpl; [done | apply divided_aligned]. }
  destruct (buildModel H W buildModelResult t None); done.
Qed.

Lemma initLoop_aligned fuel : ∀ t e,
  tiles_aligned t → initLoop fuel t = Some (Ok e) → tiles_aligned (exitTiling e).
Proof.
  induction fuel as [|fuel IH]; intros t e Hok; simpl; [done|].
  destruct (negb _ || negb _).
  - pose proof (subdivide_aligned t Hok) as Hsub.
    destruct (subdivide t) as [t'|[e'| |]]; try done.
    + by apply IH.
    + by intros [= <-].
  - by intros [= <-].
Qed.

(** X18.  When the alignment divides the overlap and [init] ends
    without an error, every tile of the tile loop of [execute] reads a
    non-empty rectangle inside the image, that rectangle fits into the
    tile buffer at the alignment offsets, which are not negative, and the
    output rectangle of the tile is not empty and lies inside the
    rectangle read. *)
Theorem execute_tiles_fit fuel e c :
  initTiles fuel = Some (Ok e) →
  c ∈ executeTiles (exitTiling e) →
  (0 ≤ in_h c ∧ 1 ≤ in_H c ∧ in_h c + in_H c ≤ H) ∧
  (0 ≤ in_w c ∧ 1 ≤ in_W c ∧ in_w c + in_W c ≤ W) ∧
  (0 ≤ in_alignOffsetH c ∧ in_alignOffsetH c + in_H c ≤ tileH (exitTiling e)) ∧
  (0 ≤ in_alignOffsetW c ∧ in_alignOffsetW c + in_W c ≤ tileW (exitTiling e)) ∧
  (1 ≤ out_H c ∧ in_h c ≤ out_dstH c ∧ out_dstH c + out_H c ≤ in_h c + in_H c ∧
   out_srcH c - in_alignOffsetH c = out_dstH c - in_h c) ∧
  (1 ≤ out_W c ∧ in_w c ≤ out_dstW c ∧ out_dstW c + out_W c ≤ in_w c + in_W c ∧
   out_srcW c - in_alignOffsetW c = out_dstW c - in_w c).
Proof.
  intros Hinit Hc.
  assert (∃ t, exitTiling e = finalTiling H W overlap t ∧ strides_ok H W overlap t ∧
               tiles_aligned t) as (t & He & Hs & Ha).
  { unfold UNetFilter.initTiles in Hinit.
    destruct (initLoop fuel _) as [[[t|t]| |]|] eqn:Hloop; try done;
      injection Hinit as <-; exists t; (split; [done|]); split.
    - exact (initLoop_strides_ok H W overlap alignment numEngines maxMemoryByteSize
               buildModelResult HH HW Hov Hal fuel _ _
               (initialTiling_strides_ok H W overlap alignment HH HW Hal) Hloop).
    - apply (initLoop_aligned fuel _ _) in Hloop; [done|].
      split; simpl; unfold round_up; eauto.
    - exact (initLoop_strides_ok H W overlap alignment numEngines maxMemoryByteSize
               buildModelResult HH HW Hov Hal fuel _ _
               (initialTiling_strides_ok H W overlap alignment HH HW Hal) Hloop).
    - apply (initLoop_aligned fuel _ _) in Hloop; [done|].
      split; simpl; unfold round_up; eauto. }
  rewrite He in *. clear He Hinit.
  destruct Hs as (_ & _ & HsH & HsW). destruct Ha as [HaH HaW].
  apply (elem_of_executeTiles H W overlap alignment numEngines HH HW) in Hc
    as (i & j & Hi & Hj & ->).
  simpl in Hi, Hj.
  pose proof (axis_input H overlap (tileH t) _ alignment HH Hov Hal HsH eq_refl HaH i Hi)
    as (I1 & I2 & I3 & I4 & I5 & I6).
  pose proof (axis_input W overlap (tileW t) _ alignment HW Hov Hal HsW eq_refl HaW j Hj)
    as (J1 & J2 & J3 & J4 & J5 & J6).
  unfold axisLen in I6, J6. simpl.
  split_and!; try lia; try (destruct (0 <? i); lia); try (destruct (0 <? j); lia);
    try (destruct (0 <? i), (i <? _); lia); try (destruct (0 <? j), (j <? _); lia).
Qed.

End tile_buffer.

Definition tiling528 : Tiling :=
  {| tileH := 528; tileW := 528; tileCountH := 2; tileCountW := 2 |}.

Lemma execute_tiles_fit_witness :
  let c := tileCall 1024 1024 16 16 2 tiling528 1 1 in
  (0 ≤ in_h c ∧ 1 ≤ in_H c ∧ in_h c + in_H c ≤ 1024) ∧
  (0 ≤ in_w c ∧ 1 ≤ in_W c ∧ in_w c + in_W c ≤ 1024) ∧
  (0 ≤ in_alignOffsetH c ∧ in_alignOffsetH c + in_H c ≤ 528) ∧
  (0 ≤ in_alignOffsetW c ∧ in_alignOffsetW c + in_W c ≤ 528) ∧
  (1 ≤ out_H c ∧ in_h c ≤ out_dstH c ∧ out_dstH c + out_H c ≤ in_h c + in_H c ∧
   out_srcH c - in_alignOffsetH c = out_dstH c - in_h c) ∧
  (1 ≤ out_W c ∧ in_w c ≤ out_dstW c ∧ out_dstW c + out_W c ≤ in_w c + in_W c ∧
   out_srcW c - in_alignOffsetW c = out_dstW c - in_w c).
Proof.
  apply (execute_tiles_fit 1024 1024 16 16 2 (600 * 1024 * 1024) fitsBelow
           ltac:(lia) ltac:(lia) ltac:(lia) ltac:(lia) (ex_intro _ 1 eq_refl)
           5%nat (Fits tiling528)).
  - vm_compute. reflexivity.
  - vm_compute. right. right. right. left.
Defined.

(** X27.  Every tile of the tile loop runs on an instance that exists:
    the index [tileIndex % numEngines] lies in [[0, numEngines)], and
    the tiles are dealt to the instances in turn, in row-major order. *)
Theorem tiles_on_existing_instances H W overlap alignment numEngines t c :
  1 ≤ numEngines →
  c ∈ executeTiles H W overlap alignment numEngines t →
  0 ≤ instance c < numEngines ∧
  instance c = (tile_i c * tileCountW t + tile_j c) mod numEngines.
Proof.
  intros Hn Hc.
  assert (1 ≤ H ∧ 1 ≤ W) as [HH HW].
  { unfold executeTiles in Hc.
    destruct ((H <=? 0) || (W <=? 0)) eqn:E; [by apply elem_of_nil in Hc|].
    apply orb_false_iff in E as [?%Z.leb_gt ?%Z.leb_gt]. lia. }
  apply (elem_of_executeTiles H W overlap alignment numEngines HH HW) in Hc
    as (i & j & Hi & Hj & ->).
  simpl. assert (0 ≤ i * tileCountW t + j) as Hidx by nia.
  rewrite Z.rem_mod_nonneg by lia.
  split; [|done]. apply Z.mod_pos_bound. lia.
Qed.

Lemma tiles_on_existing_instances_witness :
  let c := tileCall 1024 1024 16 16 2 tiling528 1 1 in
  0 ≤ instance c < 2 ∧ instance c = (tile_i c * tileCountW tiling528 + tile_j c) mod 2.
Proof.
  apply (tiles_on_existing_instances 1024 1024 16 16 2 tiling528); try lia.
  vm_compute. right. right. right. left.
Defined.

End UNetFilterMore.

(** * More on the kernels: blocks, bounds and borders *)

Module KernelFacts.
Import TensorMemory.

Lemma range_succ (k : nat) :
  range (Z.of_nat (S k)) = range (Z.of_nat k) ++ [Z.of_nat k].
Proof. unfold range. rewrite !Nat2Z.id, seq_S, fmap_app. done. Qed.

Lemma range_nonpos n : n ≤ 0 → range n = [].
Proof. intros Hn. unfold range. by replace (Z.to_nat n) with 0%nat by lia. Qed.

(** ** Blocks in memory *)

Section blocks.
Context {T : Type}.
Variable sizeofT : Z.
Hypothesis Hsz : 1 ≤ sizeofT.

Lemma storeBlock_app (v1 v2 : list T) : ∀ m p,
  storeBlock sizeofT m p (v1 ++ v2)
  = storeBlock sizeofT (storeBlock sizeofT m p v1) (p + Z.of_nat (length v1) * sizeofT) v2.
Proof.
  induction v1 as [|x v1 IH]; intros m p; simpl.
  - f_equal. lia.
  - rewrite IH. f_equal. lia.
Qed.

Lemma loadBlock_add (m : Z → T) p (a b : nat) :
  loadBlock sizeofT m p (a + b)
  = loadBlock sizeofT m p a ++ loadBlock sizeofT m (p + Z.of_nat a * sizeofT) b.
Proof.
  unfold loadBlock. rewrite seq_app, fmap_app. f_equal.
  apply list_eq. intros k. rewrite !list_lookup_fmap.
  destruct (decide (k < b)%nat) as [Hk|Hk].
  - rewrite !lookup_seq_lt by done. simpl. do 2 f_equal. lia.
  - by rewrite !lookup_seq_ge by lia.
Qed.

(** The chunks [storeLargeBlock] stores one after the other. *)
Lemma store_chunks (v : list T) (cs : nat) m p : ∀ k : nat,
  (k * cs ≤ length v)%nat →
  foldl (λ m' i, storeBlock sizeofT m' (p + i * Z.of_nat cs * sizeofT)
                   (take cs (drop (Z.to_nat (i * Z.of_nat cs)) v)))
        m (range (Z.of_nat k))
  = storeBlock sizeofT m p (take (k * cs) v).
Proof.
  induction k as [|k IH]; intros Hk.
  - done.
  - rewrite range_succ, foldl_app, IH by (simpl in Hk; lia). simpl.
    replace (Z.to_nat (Z.of_nat k * Z.of_nat cs)) with (k * cs)%nat
      by (by rewrite <- Nat2Z.inj_mul, Nat2Z.id).
    replace (cs + k * cs)%nat with (k * cs + cs)%nat by lia.
    rewrite <- take_take_drop, storeBlock_app, length_take.
    rewrite Nat.min_l by (simpl in Hk; lia). by rewrite Nat2Z.inj_mul.
Qed.

Lemma load_chunks (m : Z → T) (cs : nat) p : ∀ k : nat,
  mjoin ((λ i, loadBlock sizeofT m (p + i * Z.of_nat cs * sizeofT) cs)
           <$> range (Z.of_nat k))
  = loadBlock sizeofT m p (k * cs).
Proof.
  induction k as [|k IH]; [done|].
  rewrite range_succ, fmap_app, join_app, IH. simpl. rewrite app_nil_r.
  replace (cs + k * cs)%nat with (k * cs + cs)%nat by lia.
  rewrite loadBlock_add. do 2 f_equal. lia.
Qed.

Hypothesis Hsz256 : sizeofT ≤ 256.

Lemma chunk_size_pos : 1 ≤ 256 / sizeofT.
Proof. apply Z.div_le_lower_bound; lia. Qed.

(** [storeLargeBlock] stores the block as [storeBlock] would. *)
Lemma storeLargeBlock_storeBlock (m : Z → T) p (v : list T) :
  SYCLConvDPAS.storeLargeBlock sizeofT m p v = storeBlock sizeofT m p v.
Proof.
  unfold SYCLConvDPAS.storeLargeBlock, SYCLConvDPAS.select. cbv zeta.
  pose proof chunk_size_pos as Hcs.
  set (cs := 256 / sizeofT) in *.
  set (n := Z.of_nat (length v)).
  pose proof (Z.div_mod n cs ltac:(lia)) as Hdm.
  pose proof (Z.mod_pos_bound n cs ltac:(lia)) as Hmod.
  assert (0 ≤ n / cs) as Hq by (apply Z.div_pos; lia).
  pose proof (store_chunks v (Z.to_nat cs) m p (Z.to_nat (n / cs)) ltac:(nia)) as Hch.
  rewrite !Z2Nat.id in Hch by lia.
  assert (foldl (λ m' i, storeBlock sizeofT m' (p + i * cs * sizeofT)
                           (take (Z.to_nat cs) (drop (Z.to_nat (i * cs)) v)))
                m (range (n / cs))
          = storeBlock sizeofT m p (take (Z.to_nat (n / cs) * Z.to_nat cs) v)) as ->
    by exact Hch.
  destruct (n mod cs =? 0) eqn:Hrem.
  - apply Z.eqb_eq in Hrem. rewrite take_ge; [done|]. unfold n in *. nia.
  - rewrite <- (take_drop (Z.to_nat (n / cs) * Z.to_nat cs) v) at 3.
    rewrite storeBlock_app, length_take.
    replace (Z.to_nat (n / cs * cs)) with (Z.to_nat (n / cs) * Z.to_nat cs)%nat by nia.
    rewrite (take_ge (drop _ v)); cycle 1.
    { rewrite length_drop. unfold n in *. nia. }
    f_equal. unfold n in *. nia.
Qed.

(** [loadLargeBlock] loads the block as [loadBlock] would. *)
Lemma loadLargeBlock_loadBlock (m : Z → T) p (n : nat) :
  SYCLConvDPAS.loadLargeBlock sizeofT m p (Z.of_nat n) = loadBlock sizeofT m p n.
Proof.
  unfold SYCLConvDPAS.loadLargeBlock. cbv zeta.
  pose proof chunk_size_pos as Hcs.
  set (cs := 256 / sizeofT) in *.
  pose proof (Z.div_mod (Z.of_nat n) cs ltac:(lia)) as Hdm.
  pose proof (Z.mod_pos_bound (Z.of_nat n) cs ltac:(lia)) as Hmod.
  assert (0 ≤ Z.of_nat n / cs) as Hq by (apply Z.div_pos; lia).
  pose proof (load_chunks m (Z.to_nat cs) p (Z.to_nat (Z.of_nat n / cs))) as Hch.
  rewrite !Z2Nat.id in Hch by lia. rewrite Hch.
  destruct (Z.of_nat n mod cs =? 0) eqn:Hrem.
  - apply Z.eqb_eq in Hrem. rewrite app_nil_r. f_equal. nia.
  - assert (loadBlock sizeofT m p n
            = loadBlock sizeofT m p (Z.to_nat (Z.of_nat n / cs) * Z.to_nat cs
                                     + Z.to_nat (Z.of_nat n mod cs))) as ->
      by (f_equal; nia).
    rewrite loadBlock_add. do 2 f_equal. nia.
Qed.

Lemma loadBlock_storeBlock (m : Z → T) p (v : list T) :
  loadBlock sizeofT (storeBlock sizeofT m p v) p (length v) = v.
Proof.
  apply list_eq. intros k. destruct (decide (k < length v)%nat) as [Hk|Hk].
  - rewrite (SYCLUpsampleFacts.loadBlock_lookup sizeofT) by done.
    destruct (lookup_lt_is_Some_2 v k Hk) as [x Hx]. rewrite Hx. f_equal.
    apply (SYCLUpsampleFacts.storeBlock_hit sizeofT); [lia | done].
  - rewrite !lookup_ge_None_2; [done | lia |].
    rewrite (SYCLUpsampleFacts.length_loadBlock sizeofT). lia.
Qed.

(** X19.  For elements of 1 to 256 bytes, a block stored by
    [storeLargeBlock] is in memory as [storeBlock] would have put it,
    element after element from the pointer on, however the chunks of
    256 bytes fall; and [loadLargeBlock] reads it back unchanged. *)
Theorem large_block_round_trip (m : Z → T) p (v : list T) :
  SYCLConvDPAS.storeLargeBlock sizeofT m p v = storeBlock sizeofT m p v ∧
  SYCLConvDPAS.loadLargeBlock sizeofT (SYCLConvDPAS.storeLargeBlock sizeofT m p v) p
    (Z.of_nat (length v)) = v.
Proof.
  split; [apply storeLargeBlock_storeBlock|].
  by rewrite loadLargeBlock_loadBlock, storeLargeBlock_storeBlock, loadBlock_storeBlock.
Qed.

End blocks.

Lemma large_block_round_trip_witness :
  1 ≤ 100 ∧ 100 ≤ 256 ∧
  SYCLConvDPAS.storeLargeBlock 100 (λ _, 0) 8 [1; 2; 3; 4; 5]
    = storeBlock 100 (λ _, 0) 8 [1; 2; 3; 4; 5] ∧
  SYCLConvDPAS.loadLargeBlock 100
    (SYCLConvDPAS.storeLargeBlock 100 (λ _, 0) 8 [1; 2; 3; 4; 5]) 8
    (Z.of_nat (length [1; 2; 3; 4; 5])) = [1; 2; 3; 4; 5].
Proof.
  split; [lia|]. split; [lia|].
  apply (large_block_round_trip 100 ltac:(lia) ltac:(lia) (λ _, 0) 8 [1; 2; 3; 4; 5]).
Defined.

(** ** The DPAS convolution: where it writes *)

Section conv_frame.
Context {T AT : Type}.
Variable sizeofT : Z.
Hypothesis Hsz : 1 ≤ sizeofT.
Hypothesis Hsz256 : sizeofT ≤ 256.
Variables (zero : T) (zeroAT : AT) (add max : T → T → T) (convert : AT → T).
Variable dpas : list AT → list T → list T → list AT.

(** The destination: [CB] channel blocks, [H] rows, [W] pixels, at
    [dp]. *)
Variables (dp CB H W : Z).
Hypothesis HCB : 0 ≤ CB.
Hypothesis HH : 0 ≤ H.
Hypothesis HW : 0 ≤ W.

#[local] Abbreviation dstAcc :=
  (denseAccessor sizeofT SYCLConvDPAS.blockC dp (CB * SYCLConvDPAS.blockC) H W).

(** The bytes of the destination. *)
Definition in_dst (a : Z) : Prop :=
  dp ≤ a < dp + byteSize SYCLConvDPAS.blockC dstAcc.

(** A memory that differs from [m0] inside the destination only. *)
Definition frame (m0 m : Z → T) : Prop := ∀ a, ¬ in_dst a → m a = m0 a.

Lemma storeBlock_frame m0 m p (v : list T) :
  (∀ k, 0 ≤ k < Z.of_nat (length v) → in_dst (p + k * sizeofT)) →
  frame m0 m → frame m0 (storeBlock sizeofT m p v).
Proof.
  intros Hin Hm a Ha. rewrite SYCLUpsampleFacts.storeBlock_miss; [by apply Hm|].
  intros k Hk ->. by apply Ha, Hin.
Qed.

Lemma foldl_frame {X} (f : (Z → T) → X → Z → T) m0 (P : X → Prop) l : ∀ m,
  (∀ x, x ∈ l → P x) →
  (∀ m' x, P x → frame m0 m' → frame m0 (f m' x)) →
  frame m0 m → frame m0 (foldl f m l).
Proof.
  induction l as [|x l IH]; intros m HP Hf Hm; simpl; [exact Hm|].
  apply IH; [intros y Hy; apply HP; by right | done |].
  apply Hf; [apply HP; by left | done].
Qed.

Lemma dst_byteSize :
  byteSize SYCLConvDPAS.blockC dstAcc = CB * H * (W * (16 * sizeofT)).
Proof.
  unfold byteSize, SYCLConvDPAS.blockC. simpl. rewrite Z.div_mul by lia. done.
Qed.

(** The address of pixel [w] of row [h] of channel block [cb]. *)
Lemma dst_address cb h w :
  address sizeofT SYCLConvDPAS.blockC dstAcc (cb * SYCLConvDPAS.blockC) h w
  = dp + (cb * H + h) * (W * (16 * sizeofT)) + w * (16 * sizeofT).
Proof.
  unfold address, SYCLConvDPAS.blockC. simpl.
  rewrite Z.div_mul, Z.mod_mul by lia. lia.
Qed.

(** An offset inside a row of the destination is inside it. *)
Lemma row_in_dst cb h x :
  0 ≤ cb < CB → 0 ≤ h < H → 0 ≤ x < W * (16 * sizeofT) →
  in_dst (dp + (cb * H + h) * (W * (16 * sizeofT)) + x).
Proof.
  intros Hcb Hh Hx. unfold in_dst. rewrite dst_byteSize.
  set (rs := W * (16 * sizeofT)) in *.
  assert (0 ≤ rs) by (unfold rs; nia).
  assert (0 ≤ cb * H + h < CB * H) by nia.
  nia.
Qed.

Section with_kernel.
Variable k : SYCLConvDPAS.SYCLConvDPASKernel.
Hypothesis Hdst : SYCLConvDPAS.dst k = dstAcc.

Lemma storeRow_frame m0 m cb oh ow boh (v : list T) :
  0 ≤ cb < CB → 0 ≤ oh + boh < H → 0 ≤ ow →
  (length v ≤ 128)%nat →
  frame m0 m →
  frame m0 (SYCLConvDPAS.storeRow sizeofT k m (cb * SYCLConvDPAS.blockC) oh ow boh v).
Proof.
  intros Hcb Hrow How Hlen Hm. unfold SYCLConvDPAS.storeRow. cbv zeta.
  rewrite Hdst, dst_address.
  change (TensorMemory.W dstAcc) with W.
  unfold SYCLConvDPAS.blockOW, SYCLConvDPAS.dpasRepeat, SYCLConvDPAS.blockC.
  destruct (ow + 8 <=? W) eqn:Hfull.
  - apply Z.leb_le in Hfull. rewrite storeLargeBlock_storeBlock by done.
    apply storeBlock_frame; [|done]. intros j Hj.
    replace (dp + (cb * H + (oh + boh)) * (W * (16 * sizeofT)) + ow * (16 * sizeofT)
             + j * sizeofT)
      with (dp + (cb * H + (oh + boh)) * (W * (16 * sizeofT))
            + (ow * (16 * sizeofT) + j * sizeofT)) by lia.
    apply row_in_dst; [done | done | nia].
  - apply (foldl_frame _ m0 (λ bow, 0 ≤ bow)); [|clear m Hm|done].
    { intros bow Hbow%elem_of_range. lia. }
    intros m bow Hbow Hm.
    destruct (ow + bow <? W) eqn:Hcol; [|done]. apply Z.ltb_lt in Hcol.
    apply storeBlock_frame; [|done]. intros j Hj.
    unfold SYCLConvDPAS.select in Hj. rewrite length_take in Hj.
    replace (dp + (cb * H + (oh + boh)) * (W * (16 * sizeofT)) + ow * (16 * sizeofT)
             + bow * 16 * sizeofT + j * sizeofT)
      with (dp + (cb * H + (oh + boh)) * (W * (16 * sizeofT))
            + ((ow + bow) * (16 * sizeofT) + j * sizeofT)) by lia.
    apply row_in_dst; [done | done | nia].
Qed.

Lemma length_shuffle accumVec boh :
  length (SYCLConvDPAS.shuffle zero convert accumVec boh) = 128%nat.
Proof.
  unfold SYCLConvDPAS.shuffle.
  generalize (i ← range SYCLConvDPAS.numBlockAC;
              bow ← range SYCLConvDPAS.blockOW;
              ac ← range SYCLConvDPAS.blockAC; [(i, bow, ac)]).
  intros l.
  assert (∀ v : list T, length v = 128%nat →
            length (foldl (λ dstVec '(i, bow, ac),
                      <[Z.to_nat (bow * SYCLConvDPAS.blockC + i * SYCLConvDPAS.blockAC + ac)
                          := from_option convert zero
                               (accumVec (boh, i)
                                  !! Z.to_nat (bow * SYCLConvDPAS.blockAC + ac))]> dstVec)
                    v l) = 128%nat) as Hgen.
  { induction l as [|[[i bow] ac] l IH]; intros v Hv; simpl; [done|].
    apply IH. by rewrite length_insert. }
  apply Hgen. by rewrite length_replicate.
Qed.

Lemma length_outputRow accumVec biasVec boh :
  (length (SYCLConvDPAS.outputRow zero add max convert accumVec biasVec boh) ≤ 128)%nat.
Proof.
  unfold SYCLConvDPAS.outputRow. rewrite length_fmap, length_zip_with, length_shuffle. lia.
Qed.

Lemma storeRows_frame m0 accumVec biasVec cb oh ow bohs : ∀ m,
  0 ≤ cb < CB → 0 ≤ oh → 0 ≤ ow → (∀ boh, boh ∈ bohs → 0 ≤ boh) →
  frame m0 m →
  frame m0 (SYCLConvDPAS.storeRows sizeofT zero add max convert k accumVec biasVec
              (cb * SYCLConvDPAS.blockC) oh ow bohs m).
Proof.
  induction bohs as [|boh bohs IH]; intros m Hcb Hoh How Hpos Hm; simpl; [done|].
  rewrite Hdst. change (TensorMemory.H dstAcc) with H.
  destruct (H <=? oh + boh) eqn:Hrow; [done|]. apply Z.leb_gt in Hrow.
  apply IH; try done.
  - intros b Hb. apply Hpos. by right.
  - apply storeRow_frame; try done.
    + specialize (Hpos boh ltac:(by left)). lia.
    + apply length_outputRow.
Qed.

Lemma kernel_frame m0 m i0 i1 i2 :
  0 ≤ i0 < CB → 0 ≤ i1 → 0 ≤ i2 →
  frame m0 m →
  frame m0 (SYCLConvDPAS.kernel sizeofT zero zeroAT add max convert dpas k m i0 i1 i2).
Proof.
  intros H0 H1 H2 Hm. unfold SYCLConvDPAS.kernel. cbv zeta.
  apply storeRows_frame; try done.
  - unfold SYCLConvDPAS.blockOH. lia.
  - unfold SYCLConvDPAS.blockOW, SYCLConvDPAS.dpasRepeat. lia.
  - intros boh Hboh%elem_of_range. lia.
Qed.

(** A work item whose first pixel is to the right of the tensor, or
    whose first row is below it, stores nothing. *)
Lemma kernel_outside m i0 i1 i2 :
  0 ≤ i2 → W ≤ i2 * SYCLConvDPAS.blockOW ∨ H ≤ i1 * SYCLConvDPAS.blockOH →
  SYCLConvDPAS.kernel sizeofT zero zeroAT add max convert dpas k m i0 i1 i2 = m.
Proof.
  intros H2 Hout. unfold SYCLConvDPAS.kernel. cbv zeta.
  set (acc := SYCLConvDPAS.accumulate _ _ _ _ _ _ _ _ _).
  set (bv := loadBlock _ _ _ _).
  assert (∀ bohs m', (∀ boh, boh ∈ bohs → 0 ≤ boh) →
            SYCLConvDPAS.storeRows sizeofT zero add max convert k acc bv
              (i0 * SYCLConvDPAS.blockC) (i1 * SYCLConvDPAS.blockOH)
              (i2 * SYCLConvDPAS.blockOW) bohs m' = m') as Hrows.
  { induction bohs as [|boh bohs IH]; intros m' Hpos; simpl; [done|].
    rewrite Hdst. change (TensorMemory.H dstAcc) with H.
    destruct (H <=? i1 * SYCLConvDPAS.blockOH + boh) eqn:Hrow; [done|].
    apply Z.leb_gt in Hrow.
    specialize (Hpos boh ltac:(by left)) as Hboh.
    destruct Hout as [Hout|Hout]; [|lia].
    rewrite IH by (intros b Hb; apply Hpos; by right).
    unfold SYCLConvDPAS.storeRow. cbv zeta. rewrite Hdst.
    change (TensorMemory.W dstAcc) with W.
    replace (i2 * SYCLConvDPAS.blockOW + SYCLConvDPAS.blockOW <=? W) with false
      by (symmetry; apply Z.leb_gt; unfold SYCLConvDPAS.blockOW, SYCLConvDPAS.dpasRepeat in *;
          lia).
    generalize (address sizeofT SYCLConvDPAS.blockC dstAcc (i0 * SYCLConvDPAS.blockC)
                  (i1 * SYCLConvDPAS.blockOH + boh) (i2 * SYCLConvDPAS.blockOW)).
    intros ptr0.
    assert (∀ l m'', (∀ bow, bow ∈ l → 0 ≤ bow) →
              foldl (λ m1 bow,
                       if i2 * SYCLConvDPAS.blockOW + bow <? W
                       then storeBlock sizeofT m1
                              (ptr0 + bow * SYCLConvDPAS.blockC * sizeofT)
                              (SYCLConvDPAS.select SYCLConvDPAS.blockC
                                 (bow * SYCLConvDPAS.blockC)
                                 (SYCLConvDPAS.outputRow zero add max convert acc bv boh))
                       else m1) m'' l = m'') as Hcols.
    { induction l as [|bow l IHl]; intros m'' Hl; simpl; [done|].
      replace (i2 * SYCLConvDPAS.blockOW + bow <? W) with false.
      - apply IHl. intros b Hb. apply Hl. by right.
      - symmetry. apply Z.ltb_ge. specialize (Hl bow ltac:(by left)). lia. }
    apply Hcols. intros bow Hbow%elem_of_range. lia. }
  apply Hrows. intros boh Hboh%elem_of_range. lia.
Qed.

End with_kernel.

Lemma elem_of_conv_workItems g i0 i1 i2 :
  (i0, i1, i2) ∈ SYCLConvDPAS.workItems g →
  0 ≤ i0 < g.1.1 ∧ 0 ≤ i1 < g.1.2 ∧ 0 ≤ i2 < g.2.
Proof.
  unfold SYCLConvDPAS.workItems.
  intros (j0 & (j1 & (j2 & [= -> -> ->]%list_elem_of_singleton & H2%elem_of_range)%list_elem_of_bind
                & H1%elem_of_range)%list_elem_of_bind & H0%elem_of_range)%list_elem_of_bind.
  done.
Qed.

(** X20.  A DPAS convolution that runs writes inside its destination
    tensor only: every address outside the bytes of the destination
    holds afterwards what it held before, whatever the source, the
    weights and the bias are. *)
Theorem conv_writes_inside_dst conv s w b (m m' : Z → T) a :
  SYCLConvDPAS.convSrc conv = Some s →
  SYCLConvDPAS.convWeight conv = Some w →
  SYCLConvDPAS.convBias conv = Some b →
  SYCLConvDPAS.convDst conv = Some dstAcc →
  SYCLConvDPAS.run sizeofT zero zeroAT add max convert dpas conv m = Ok m' →
  ¬ in_dst a → m' a = m a.
Proof.
  intros Hs Hw Hb Hd. unfold SYCLConvDPAS.run. rewrite Hs, Hw, Hb, Hd.
  intros [= <-]. revert a.
  change (frame m (foldl
    (λ m'0 '(i0, i1, i2),
       SYCLConvDPAS.kernel sizeofT zero zeroAT add max convert dpas
         {| SYCLConvDPAS.src := s; SYCLConvDPAS.weight := w;
            SYCLConvDPAS.bias := b; SYCLConvDPAS.dst := dstAcc |} m'0 i0 i1 i2)
    m (SYCLConvDPAS.workItems (SYCLConvDPAS.globalSize dstAcc)))).
  apply (foldl_frame _ m (λ '(i0, i1, i2), 0 ≤ i0 < CB ∧ 0 ≤ i1 ∧ 0 ≤ i2)); [| |done].
  - intros [[i0 i1] i2] Hin. apply elem_of_conv_workItems in Hin as (H0 & H1 & H2).
    assert ((SYCLConvDPAS.globalSize dstAcc).1.1 = CB) as HCBeq.
    { unfold SYCLConvDPAS.globalSize. cbv zeta. simpl.
      unfold SYCLConvDPAS.blockC. rewrite Z.div_mul by lia. by destruct (_ && _). }
    rewrite HCBeq in H0. lia.
  - intros m1 [[i0 i1] i2] (H0 & H1 & H2) Hm1. by apply kernel_frame.
Qed.

(** X21.  A work item whose block of pixels starts to the right of the
    destination or below it stores nothing: the column of work items
    that [run] adds when all three global sizes are odd leaves memory
    as it is. *)
Theorem conv_item_outside_stores_nothing k (m : Z → T) i0 i1 i2 :
  SYCLConvDPAS.dst k = dstAcc →
  0 ≤ i2 → W ≤ i2 * SYCLConvDPAS.blockOW ∨ H ≤ i1 * SYCLConvDPAS.blockOH →
  SYCLConvDPAS.kernel sizeofT zero zeroAT add max convert dpas k m i0 i1 i2 = m.
Proof. intros Hdst H2 Hout. by apply kernel_outside. Qed.

End conv_frame.

Lemma conv_writes_inside_dst_witness :
  ∃ m', SYCLConvDPASFacts.runZ (SYCLConvDPASFacts.exampleConv Activation.None)
          SYCLConvDPASFacts.exampleMemory = Ok m' ∧
        m' 11000 = SYCLConvDPASFacts.exampleMemory 11000.
Proof.
  eexists. split; [reflexivity|].
  apply (conv_writes_inside_dst 2 ltac:(lia) ltac:(lia) 0 0 Z.add Z.max id
           SYCLConvDPASFacts.dpasZ 12000 1 2 3 ltac:(lia) ltac:(lia)
           (SYCLConvDPASFacts.exampleConv Activation.None) _ _ _
           SYCLConvDPASFacts.exampleMemory _ 11000 eq_refl eq_refl eq_refl eq_refl eq_refl).
  unfold in_dst. vm_compute. intros [H1 H2]. by apply H1.
Defined.

Lemma conv_item_outside_stores_nothing_witness :
  SYCLConvDPAS.kernel 2 0 0 Z.add Z.max id SYCLConvDPASFacts.dpasZ
    SYCLConvDPASFacts.exampleKernel SYCLConvDPASFacts.exampleMemory 0 0 1
  = SYCLConvDPASFacts.exampleMemory.
Proof.
  apply (conv_item_outside_stores_nothing 2 0 0 Z.add Z.max id SYCLConvDPASFacts.dpasZ
           12000 1 2 3 SYCLConvDPASFacts.exampleKernel SYCLConvDPASFacts.exampleMemory 0 0 1
           eq_refl ltac:(lia)).
  left. vm_compute. discriminate.
Defined.

(** ** The border of the convolution's source *)

Lemma lookup_join_uniform {X} (l : list (list X)) (n : nat) :
  Forall (λ x, length x = n) l →
  ∀ i j : nat, (j < n)%nat → mjoin l !! (i * n + j)%nat = l !! i ≫= (.!! j).
Proof.
  induction l as [|x l IH]; intros Hl i j Hj; [by rewrite !lookup_nil|].
  apply Forall_cons in Hl as [Hx Hl]. simpl. destruct i as [|i]; simpl.
  - by rewrite lookup_app_l by lia.
  - rewrite lookup_app_r by lia. rewrite <- IH by done. f_equal. lia.
Qed.

Section load_row.
Context {T : Type}.
Variable sizeofT : Z.
Hypothesis Hsz : 1 ≤ sizeofT.
Hypothesis Hsz256 : sizeofT ≤ 256.
Variable zero : T.
Variable k : SYCLConvDPAS.SYCLConvDPASKernel.
Variable m : Z → T.
(** The pixels of a row of the source are next to each other. *)
Hypothesis Hstride : wStride (SYCLConvDPAS.src k) = 16 * sizeofT.

(** The element of channel [c] of the pixel [(h, w)] of the source,
    and zero outside the image. *)
Definition padded (c h w : Z) : T :=
  if (0 <=? h) && (h <? TensorMemory.H (SYCLConvDPAS.src k))
     && (0 <=? w) && (w <? TensorMemory.W (SYCLConvDPAS.src k))
  then m (address sizeofT SYCLConvDPAS.blockC (SYCLConvDPAS.src k) c h w)
  else zero.

Lemma src_address icb c h w :
  0 ≤ c < 16 →
  address sizeofT SYCLConvDPAS.blockC (SYCLConvDPAS.src k) (icb * 16 + c) h w
  = address sizeofT SYCLConvDPAS.blockC (SYCLConvDPAS.src k) (icb * 16) h 0
    + w * (16 * sizeofT) + c * sizeofT.
Proof.
  intros Hc. unfold address, SYCLConvDPAS.blockC. rewrite Hstride.
  rewrite Z.div_mul, Z.mod_mul by lia.
  replace ((icb * 16 + c) / 16) with icb
    by (apply (Z.div_unique _ _ _ c); lia).
  replace ((icb * 16 + c) mod 16) with c
    by (apply (Z.mod_unique _ _ icb); lia).
  lia.
Qed.

(** X22.  [loadRow] returns the ten pixels from column [iw] on of row
    [ih] of a channel block, sixteen channels each, with zeros for
    every pixel that lies outside the image: above or below it, left or
    right of it.  The fast path for a row segment inside the image and
    the pixel-by-pixel path for a segment across the border agree on
    this. *)
Theorem loadRow_zero_padding icb ih iw biw c :
  0 ≤ biw < 10 → 0 ≤ c < 16 →
  SYCLConvDPAS.loadRow sizeofT zero k m (icb * 16) ih iw !! Z.to_nat (biw * 16 + c)
  = Some (padded (icb * 16 + c) ih (iw + biw)).
Proof.
  intros Hbiw Hc. unfold SYCLConvDPAS.loadRow, padded.
  change (SYCLConvDPAS.blockIW * SYCLConvDPAS.blockC) with 160.
  change SYCLConvDPAS.blockIW with 10. change (Z.to_nat SYCLConvDPAS.blockC) with 16%nat.
  destruct ((ih <? 0) || (TensorMemory.H (SYCLConvDPAS.src k) <=? ih)) eqn:Hrow.
  { rewrite lookup_replicate_2 by lia.
    replace ((0 <=? ih) && (ih <? TensorMemory.H (SYCLConvDPAS.src k))) with false; [done|].
    symmetry. apply orb_true_iff in Hrow as [Hr%Z.ltb_lt|Hr%Z.leb_le].
    - apply andb_false_iff. left. apply Z.leb_gt. lia.
    - apply andb_false_iff. right. apply Z.ltb_ge. lia. }
  apply orb_false_iff in Hrow as [Hr1%Z.ltb_ge Hr2%Z.leb_gt].
  replace ((0 <=? ih) && (ih <? TensorMemory.H (SYCLConvDPAS.src k))) with true
    by (symmetry; apply andb_true_iff; split; [apply Z.leb_le | apply Z.ltb_lt]; lia).
  simpl andb. cbv zeta.
  rewrite (src_address icb c ih (iw + biw) Hc).
  replace (address sizeofT SYCLConvDPAS.blockC (SYCLConvDPAS.src k) (icb * 16) ih iw)
    with (address sizeofT SYCLConvDPAS.blockC (SYCLConvDPAS.src k) (icb * 16) ih 0
          + iw * (16 * sizeofT)).
  2:{ pose proof (src_address icb 0 ih iw ltac:(lia)) as E.
      rewrite Z.add_0_r in E. rewrite E. lia. }
  set (base := address sizeofT SYCLConvDPAS.blockC (SYCLConvDPAS.src k) (icb * 16) ih 0).
  destruct ((0 <=? iw) && (iw + 10 <=? TensorMemory.W (SYCLConvDPAS.src k))) eqn:Hfull.
  - apply andb_true_iff in Hfull as [Hf1%Z.leb_le Hf2%Z.leb_le].
    change 160 with (Z.of_nat 160).
    rewrite loadLargeBlock_loadBlock by done.
    rewrite (SYCLUpsampleFacts.loadBlock_lookup sizeofT) by lia.
    replace ((0 <=? iw + biw) && (iw + biw <? TensorMemory.W (SYCLConvDPAS.src k))) with true
      by (symmetry; apply andb_true_iff; split; [apply Z.leb_le | apply Z.ltb_lt]; lia).
    do 2 f_equal. rewrite Z2Nat.id by lia. lia.
  - replace (Z.to_nat (biw * 16 + c)) with (Z.to_nat biw * 16 + Z.to_nat c)%nat by lia.
    rewrite (lookup_join_uniform _ 16); [| |lia].
    2:{ apply Forall_fmap, Forall_forall. intros b _. simpl.
        destruct ((0 <=? iw + b) && _).
        - apply SYCLUpsampleFacts.length_loadBlock.
        - reflexivity. }
    rewrite list_lookup_fmap. unfold range.
    rewrite list_lookup_fmap, lookup_seq_lt by (change (Z.to_nat 10) with 10%nat; lia).
    simpl. rewrite Z2Nat.id by lia.
    destruct ((0 <=? iw + biw) && (iw + biw <? TensorMemory.W (SYCLConvDPAS.src k))).
    + rewrite (SYCLUpsampleFacts.loadBlock_lookup sizeofT) by lia.
      do 2 f_equal. unfold SYCLConvDPAS.blockC. rewrite Z2Nat.id by lia. lia.
    + assert (Z.to_nat c < 16)%nat as Hn by lia. revert Hn.
      generalize (Z.to_nat c). intros n Hn.
      do 16 (destruct n as [|n]; [done|]). lia.
Qed.

End load_row.

Lemma loadRow_zero_padding_witness :
  SYCLConvDPAS.loadRow 2 0 SYCLConvDPASFacts.exampleKernel SYCLConvDPASFacts.exampleMemory
    (1 * 16) 0 (-1) !! Z.to_nat (0 * 16 + 3)
  = Some (padded 2 0 SYCLConvDPASFacts.exampleKernel SYCLConvDPASFacts.exampleMemory
            (1 * 16 + 3) 0 (-1 + 0)).
Proof.
  apply (loadRow_zero_padding 2 ltac:(lia) ltac:(lia) 0 SYCLConvDPASFacts.exampleKernel
           SYCLConvDPASFacts.exampleMemory eq_refl 1 0 (-1) 0 3); lia.
Defined.

(** ** The upsampling: where it writes *)

(** X23.  The upsampling writes inside its destination tensor only,
    also when the source overlaps the destination: every address
    outside the bytes of the destination holds afterwards what it held
    before. *)
Theorem upsample_writes_inside_dst {T : Type} (sizeofT B sp dp CB H W : Z) (m : Z → T) a :
  0 < sizeofT → 0 < B → 0 ≤ CB → 0 ≤ H → 0 ≤ W →
  byteSize B (SYCLUpsample.upsampleDst sizeofT B
                (denseAccessor sizeofT B sp (CB * B) H W) dp) < 2 ^ 64 →
  ¬ (dp ≤ a < dp + byteSize B (SYCLUpsample.upsampleDst sizeofT B
                                  (denseAccessor sizeofT B sp (CB * B) H W) dp)) →
  SYCLUpsample.run sizeofT B (denseAccessor sizeofT B sp (CB * B) H W)
    (SYCLUpsample.upsampleDst sizeofT B (denseAccessor sizeofT B sp (CB * B) H W) dp) m a
  = m a.
Proof.
  intros Hsz HB HCB HH HW Hfit Hout. unfold SYCLUpsample.run.
  set (src := denseAccessor sizeofT B sp (CB * B) H W) in *.
  set (dst := SYCLUpsample.upsampleDst sizeofT B src dp) in *.
  assert (TensorMemory.C src / B = CB) as -> by (simpl; by rewrite Z.div_mul by lia).
  change (TensorMemory.H src) with H. change (TensorMemory.W src) with W.
  assert (∀ l (m' : Z → T),
            (∀ hs ws, (hs, ws) ∈ l → SYCLUpsampleFacts.valid_item CB H W hs ws) →
            foldl (λ m1 '(hSrc, wSrc), SYCLUpsample.kernel sizeofT B src dst m1 hSrc wSrc)
                  m' l a = m' a) as Hfold.
  { induction l as [|[hs ws] l IH]; intros m' Hl; simpl; [done|].
    rewrite IH by (intros hs' ws' Hin; apply Hl; by right).
    apply (SYCLUpsampleFacts.kernel_miss sizeofT B Hsz HB sp dp CB H W HCB HH HW Hfit).
    - apply Hl. by left.
    - intros r j Hslot ->. apply Hout.
      apply (SYCLUpsampleFacts.target_in_dst sizeofT B Hsz HB sp dp CB H W HW Hfit);
        [|done]. apply Hl. by left. }
  apply Hfold. intros hs ws [Hi Hj]%SYCLUpsampleFacts.elem_of_workItems.
  unfold SYCLUpsampleFacts.valid_item. lia.
Qed.

Lemma upsample_writes_inside_dst_witness :
  SYCLUpsample.run 2 16 (denseAccessor 2 16 0 (1 * 16) 2 2)
    (SYCLUpsample.upsampleDst 2 16 (denseAccessor 2 16 0 (1 * 16) 2 2) 1000) (λ a, a) 5000
  = 5000.
Proof.
  apply (upsample_writes_inside_dst 2 16 0 1000 1 2 2 (λ a, a) 5000); try lia.
  - vm_compute. reflexivity.
  - vm_compute. intros [_ H]. discriminate H.
Defined.

(** ** The values the convolution stores *)

(** X28.  With half-precision arithmetic read on integers, a DPAS
    convolution that runs leaves at every address the value that was
    there or a value that is not negative, whatever activation and
    post-op its descriptor asks for: the kernel has no path that stores
    a value it has not clamped at zero. *)
Theorem conv_stores_no_negative conv (m m' : Z → Z) a :
  SYCLConvDPASFacts.runZ conv m = Ok m' → m' a = m a ∨ 0 ≤ m' a.
Proof.
  intros H.
  apply (SYCLConvDPASFacts.run_clamped 2 0 0 Z.add Z.max id SYCLConvDPASFacts.dpasZ) in H.
  destruct (H a) as [?|[y Hy]]; [by left|right]. lia.
Qed.

Lemma conv_stores_no_negative_witness :
  ∃ m', SYCLConvDPASFacts.runZ (SYCLConvDPASFacts.exampleConv Activation.None)
          SYCLConvDPASFacts.exampleMemory = Ok m' ∧
        (m' 12002 = SYCLConvDPASFacts.exampleMemory 12002 ∨ 0 ≤ m' 12002).
Proof.
  eexists. split; [reflexivity|].
  exact (conv_stores_no_negative (SYCLConvDPASFacts.exampleConv Activation.None)
           SYCLConvDPASFacts.exampleMemory _ 12002 eq_refl).
Defined.

(** ** The work-group size of [run] *)

(** A [WorkDim<3>] as a triple: [d[i]] and [d[i] *= 2]. *)
Definition dimAt (d : Z * Z * Z) (i : Z) : Z :=
  if i =? 0 then d.1.1 else if i =? 1 then d.1.2 else d.2.

Definition doubleAt (d : Z * Z * Z) (i : Z) : Z * Z * Z :=
  if i =? 0 then (d.1.1 * 2, d.1.2, d.2)
  else if i =? 1 then (d.1.1, d.1.2 * 2, d.2)
  else (d.1.1, d.1.2, d.2 * 2).

(** The [while] loop of [run] that grows the work-group until its size
    is even and above 4, by doubling its height or its width, the one
    whose block is the smaller first; [None]: the loop is still running
    after [fuel] checks of its condition.  The values are [int]s; they
    stay below sixteen times the number of channel blocks, so that
    nothing wraps. *)
Fixpoint localSizeLoop (fuel : nat) (globalSize localSize : Z * Z * Z) (totalSize : Z)
    : option (Z * Z * Z) :=
  match fuel with
  | O => None
  | S fuel' =>
    if negb (Z.rem totalSize 2 =? 0) || (totalSize * 2 <=? 8) then
      let i := if dimAt localSize 1 * SYCLConvDPAS.blockOH
                  <? dimAt localSize 2 * SYCLConvDPAS.blockOW then 1 else 2 in
      if Z.rem (dimAt globalSize i) (dimAt localSize i * 2) =? 0 then
        localSizeLoop fuel' globalSize (doubleAt localSize i) (totalSize * 2)
      else if Z.rem (dimAt globalSize (3 - i)) (dimAt localSize (3 - i) * 2) =? 0 then
        localSizeLoop fuel' globalSize (doubleAt localSize (3 - i)) (totalSize * 2)
      else Some localSize
    else Some localSize
  end.

(** [localSize] of [run] for a destination. *)
Definition localSize (fuel : nat) (d : TensorAccessor3D) : option (Z * Z * Z) :=
  let globalSize := SYCLConvDPAS.globalSize d in
  localSizeLoop fuel globalSize (globalSize.1.1, 1, 1) globalSize.1.1.

Section local_size.
Variable g : Z * Z * Z.
Hypothesis Hg0 : 1 ≤ g.1.1.

(** What the loop keeps: the first dimension is the global one, the
    other two divide theirs and have doubled at most three times
    together. *)
Definition grouped (l : Z * Z * Z) (t : Z) : Prop :=
  l.1.1 = g.1.1 ∧ 1 ≤ l.1.2 ∧ 1 ≤ l.2 ∧
  Z.rem g.1.2 l.1.2 = 0 ∧ Z.rem g.2 l.2 = 0 ∧
  t = g.1.1 * (l.1.2 * l.2) ∧
  (l.1.2 * l.2 = 1 ∨ l.1.2 * l.2 = 2 ∨ l.1.2 * l.2 = 4 ∨ l.1.2 * l.2 = 8).

Lemma grouped_double l t :
  grouped l t →
  negb (Z.rem t 2 =? 0) || (t * 2 <=? 8) = true →
  (Z.rem g.1.2 (l.1.2 * 2) = 0 → grouped (l.1.1, l.1.2 * 2, l.2) (t * 2)) ∧
  (Z.rem g.2 (l.2 * 2) = 0 → grouped (l.1.1, l.1.2, l.2 * 2) (t * 2)).
Proof.
  intros (H0 & H1 & H2 & Hr1 & Hr2 & Ht & Hp) Hc.
  assert (l.1.2 * l.2 = 1 ∨ l.1.2 * l.2 = 2 ∨ l.1.2 * l.2 = 4) as Hp'.
  { apply orb_true_iff in Hc as [Hc|Hc].
    - apply negb_true_iff, Z.eqb_neq in Hc.
      destruct Hp as [Hp|[Hp|[Hp|Hp]]]; [by left|exfalso; apply Hc; rewrite Ht, Hp..].
      + replace (g.1.1 * 2) with (2 * g.1.1) by lia.
        rewrite Z.mul_comm. apply Z.rem_mul. lia.
      + replace (g.1.1 * 4) with (g.1.1 * 2 * 2) by lia. apply Z.rem_mul. lia.
      + replace (g.1.1 * 8) with (g.1.1 * 4 * 2) by lia. apply Z.rem_mul. lia.
    - apply Z.leb_le in Hc. destruct Hp as [Hp|[Hp|[Hp|Hp]]]; auto. nia. }
  split; intros Hr; unfold grouped; simpl; split_and!; try done; try lia.
Qed.

Lemma localSizeLoop_grouped fuel l t :
  grouped l t →
  (4 ≤ fuel)%nat ∨ (3 ≤ fuel)%nat ∧ 2 ≤ t ∨ (2 ≤ fuel)%nat ∧ 3 ≤ t
    ∨ (1 ≤ fuel)%nat ∧ Z.rem t 2 = 0 ∧ 5 ≤ t →
  ∃ l' t', localSizeLoop fuel g l t = Some l' ∧ grouped l' t'.
Proof.
  revert l t. induction fuel as [|fuel IH]; intros l t Hinv Hfuel.
  { exfalso. destruct Hfuel as [?|[[? _]|[[? _]|[? _]]]]; lia. }
  assert (1 ≤ t) as Ht1.
  { destruct Hinv as (_ & ? & ? & _ & _ & -> & _). nia. }
  simpl.
  destruct (negb (Z.rem t 2 =? 0) || (t * 2 <=? 8)) eqn:Hc; [|by exists l, t].
  assert ((3 ≤ fuel)%nat ∨ (2 ≤ fuel)%nat ∧ 4 ≤ t * 2 ∨ (1 ≤ fuel)%nat ∧ 6 ≤ t * 2) as Hfuel'.
  { destruct Hfuel as [?|[[? ?]|[[? ?]|(? & Hev & ?)]]].
    - left. lia.
    - right. left. lia.
    - right. right. lia.
    - exfalso. apply orb_true_iff in Hc as [Hc|Hc].
      + apply negb_true_iff, Z.eqb_neq in Hc. done.
      + apply Z.leb_le in Hc. lia. }
  assert (∀ l', grouped l' (t * 2) →
            ∃ l'' t', localSizeLoop fuel g l' (t * 2) = Some l'' ∧ grouped l'' t') as Hnext.
  { intros l' Hinv'. apply IH; [done|].
    assert (Z.rem (t * 2) 2 = 0) by (apply Z.rem_mul; lia).
    destruct Hfuel' as [?|[[? ?]|[? ?]]].
    - right. left. lia.
    - right. right. left. lia.
    - right. right. right. lia. }
  destruct (grouped_double l t Hinv Hc) as [Hd1 Hd2].
  destruct l as [[l0 l1] l2]. unfold dimAt, doubleAt. simpl in *.
  destruct (l1 * SYCLConvDPAS.blockOH <? l2 * SYCLConvDPAS.blockOW); simpl.
  - destruct (Z.rem g.1.2 (l1 * 2) =? 0) eqn:E1.
    { apply Z.eqb_eq in E1. by apply Hnext, Hd1. }
    destruct (Z.rem g.2 (l2 * 2) =? 0) eqn:E2.
    { apply Z.eqb_eq in E2. by apply Hnext, Hd2. }
    by exists (l0, l1, l2), t.
  - destruct (Z.rem g.2 (l2 * 2) =? 0) eqn:E2.
    { apply Z.eqb_eq in E2. by apply Hnext, Hd2. }
    destruct (Z.rem g.1.2 (l1 * 2) =? 0) eqn:E1.
    { apply Z.eqb_eq in E1. by apply Hnext, Hd1. }
    by exists (l0, l1, l2), t.
Qed.

End local_size.

Lemma quot_exact a b : Z.rem a b = 0 → a ÷ b * b = a.
Proof. intros Hr. pose proof (Z.quot_rem' a b). lia. Qed.

(** X29.  For a destination with at least one channel block, the loop
    of [run] that chooses the work-group size ends within four checks
    of its condition, and the size it leaves divides the global size in
    each dimension: the first dimension is the global one, the other two
    are at least 1 with a product of at most 8, and the number of groups
    [globalSize / localSize] times the group size gives back the global
    size, so that no work item is left out of the launch. *)
Theorem conv_local_size_divides (d : TensorAccessor3D) :
  SYCLConvDPAS.blockC ≤ C d →
  ∃ l, localSize 4 d = Some l ∧
    let g := SYCLConvDPAS.globalSize d in
    l.1.1 = g.1.1 ∧ 1 ≤ l.1.2 ∧ 1 ≤ l.2 ∧ l.1.2 * l.2 ≤ 8 ∧
    g.1.1 ÷ l.1.1 * l.1.1 = g.1.1 ∧
    g.1.2 ÷ l.1.2 * l.1.2 = g.1.2 ∧
    g.2 ÷ l.2 * l.2 = g.2.
Proof.
  intros HC. unfold localSize.
  set (g := SYCLConvDPAS.globalSize d).
  assert (1 ≤ g.1.1) as Hg0.
  { assert (g.1.1 = C d / SYCLConvDPAS.blockC) as ->.
    { unfold g, SYCLConvDPAS.globalSize. by destruct (_ && _). }
    apply Z.div_le_lower_bound; [done|]. unfold SYCLConvDPAS.blockC in *. lia. }
  destruct (localSizeLoop_grouped g Hg0 4 (g.1.1, 1, 1) g.1.1) as (l & t & Hl & Hinv).
  { unfold grouped. simpl. split_and!; try done; try lia; try apply Z.rem_1_r. }
  { by left. }
  exists l. split; [done|].
  destruct Hinv as (H0 & H1 & H2 & Hr1 & Hr2 & _ & Hp).
  cbv zeta. split_and!; try done; try lia.
  - rewrite H0. apply quot_exact, Z.rem_same. lia.
  - by apply quot_exact.
  - by apply quot_exact.
Qed.

Lemma conv_local_size_divides_witness :
  let d := denseAccessor 2 16 12000 48 11 19 in
  ∃ l, localSize 4 d = Some l ∧
    let g := SYCLConvDPAS.globalSize d in
    l.1.1 = g.1.1 ∧ 1 ≤ l.1.2 ∧ 1 ≤ l.2 ∧ l.1.2 * l.2 ≤ 8 ∧
    g.1.1 ÷ l.1.1 * l.1.1 = g.1.1 ∧
    g.1.2 ÷ l.1.2 * l.1.2 = g.1.2 ∧
    g.2 ÷ l.2 * l.2 = g.2.
Proof.
  apply (conv_local_size_divides (denseAccessor 2 16 12000 48 11 19)).
  vm_compute. discriminate.
Defined.

End KernelFacts.

(** * More on the repacker: what it rejects, what it leaves alone *)

Module ReorderMore.
Import Reorder ReorderFacts.

Section reorder_more.
Variables (half float : Type) (half_zero : half) (half_to_float : half → float).
Variable address4D : DataType.t → Shape → Z → Z → Z → Z → Z.
Variable address1D : DataType.t → Shape → Z → Z.

#[local] Abbreviation AnyTensor := (AnyTensor half float).
#[local] Abbreviation reorderWeight :=
  (reorderWeight half float half_zero half_to_float address4D).
#[local] Abbreviation reorderBias := (reorderBias half float half_zero half_to_float address1D).
#[local] Abbreviation value4D := (value4D half float half_to_float address4D).
#[local] Abbreviation distinct4D := (distinct4D half float address4D).

(** X24.  For a combination of data types and layouts that is not
    among the supported ones (a source that is not a half-precision
    [oihw] tensor, a destination layout outside the six of the repacker,
    or a single-precision destination in one of the two layouts that
    pair elements), [reorderWeight] throws the logic error, and so does
    [reorderBias] for a source that is not half precision or a layout
    that is not [x]. *)
Theorem reorder_unsupported (src dst : AnyTensor) :
  (¬ weightSupported half float src dst →
   ∀ srcBeginI srcI dstBeginI dstI,
     reorderWeight src srcBeginI srcI dst dstBeginI dstI
     = Throw (logic_error "unsupported weight layout or data type")) ∧
  (¬ biasSupported half float src dst →
   reorderBias src dst = Throw (logic_error "unsupported bias layout or data type")).
Proof.
  split.
  - intros Hns srcBeginI srcI dstBeginI dstI.
    unfold Reorder.reorderWeight, weightInstances, firstReorder, tryReorderWeight.
    unfold weightSupported in Hns.
    destruct src as [s|s], dst as [d|d]; unfold getLayout, getDataType, getShape in *;
      destruct (layout (shape s)) eqn:Es; destruct (layout (shape d)) eqn:Ed;
      try reflexivity; exfalso; apply Hns;
      (split; [reflexivity|]); (split; [reflexivity|]);
      rewrite !elem_of_cons, elem_of_nil; tauto.
  - intros Hns. unfold Reorder.reorderBias, tryReorderBias.
    unfold biasSupported in Hns.
    destruct src as [s|s], dst as [d|d]; unfold getLayout, getDataType, getShape in *;
      destruct (layout (shape s)) eqn:Es; destruct (layout (shape d)) eqn:Ed;
      try reflexivity; exfalso; apply Hns; done.
Qed.

(** What [reorderWeight] returns when it returns. *)
Lemma reorderWeight_Ok src dst srcBeginI srcI dstBeginI dstI dst' :
  reorderWeight src srcBeginI srcI dst dstBeginI dstI = Ok dst' →
  (∃ s d, src = TensorF16 _ _ s ∧ dst = TensorF16 _ _ d ∧
     dst' = TensorF16 _ _ (reorderWeightLoops address4D DataType.Float16 DataType.Float16
                             half_zero id s srcBeginI srcI d dstBeginI dstI)) ∨
  (∃ s d, src = TensorF16 _ _ s ∧ dst = TensorF32 _ _ d ∧
     dst' = TensorF32 _ _ (reorderWeightLoops address4D DataType.Float16 DataType.Float32
                             half_zero half_to_float s srcBeginI srcI d dstBeginI dstI)).
Proof.
  unfold Reorder.reorderWeight, weightInstances, firstReorder, tryReorderWeight.
  destruct src as [s|s], dst as [d|d]; unfold getLayout, getDataType, getShape;
    destruct (layout (shape s)) eqn:Es; destruct (layout (shape d)) eqn:Ed;
    simpl; try discriminate; intros [= <-]; eauto 10.
Qed.

Lemma reorderWeight_rest src dst srcBeginI srcI dstBeginI dstI dst' :
  distinct4D dst → 0 ≤ dstBeginI → dstBeginI + dstI ≤ getPaddedI (getShape _ _ dst) →
  reorderWeight src srcBeginI srcI dst dstBeginI dstI = Ok dst' →
  ∀ o i h w,
    0 ≤ o < getPaddedO (getShape _ _ dst) → 0 ≤ i < getPaddedI (getShape _ _ dst) →
    ¬ (dstBeginI ≤ i < dstBeginI + dstI) →
    0 ≤ h < getH (getShape _ _ dst) → 0 ≤ w < getW (getShape _ _ dst) →
    value4D dst' o i h w = value4D dst o i h w.
Proof.
  intros Hinj HdB HdI Hok o i h w Ho Hi Hout Hh Hw.
  apply reorderWeight_Ok in Hok as [(s & d & -> & -> & ->)|(s & d & -> & -> & ->)].
  - destruct (reorderWeightLoops_spec address4D DataType.Float16 DataType.Float16 half_zero id
                s srcBeginI srcI d dstBeginI dstI Hinj HdB HdI) as (Hshape & _ & Hrest).
    unfold Reorder.value4D. rewrite Hshape. f_equal. apply Hrest.
    intros o' i' h' w' Ho' Hi' Hh' Hw' Heq.
    apply Hinj in Heq; simpl in *; try done; try lia.
    injection Heq as _ Hii _ _. lia.
  - destruct (reorderWeightLoops_spec address4D DataType.Float16 DataType.Float32 half_zero
                half_to_float s srcBeginI srcI d dstBeginI dstI Hinj HdB HdI)
      as (Hshape & _ & Hrest).
    unfold Reorder.value4D. rewrite Hshape. apply Hrest.
    intros o' i' h' w' Ho' Hi' Hh' Hw' Heq.
    apply Hinj in Heq; simpl in *; try done; try lia.
    injection Heq as _ Hii _ _. lia.
Qed.

(** X25.  [reorderWeight] leaves the destination's input channels
    outside [[dstBeginI, dstBeginI + dstI)] as they are, when the
    accessor of the destination gives different elements different
    offsets. *)
Theorem reorderWeight_keeps_other_channels src dst srcBeginI srcI dstBeginI dstI dst' :
  distinct4D dst → 0 ≤ dstBeginI → dstBeginI + dstI ≤ getPaddedI (getShape _ _ dst) →
  reorderWeight src srcBeginI srcI dst dstBeginI dstI = Ok dst' →
  ∀ o i h w,
    0 ≤ o < getPaddedO (getShape _ _ dst) → 0 ≤ i < getPaddedI (getShape _ _ dst) →
    ¬ (dstBeginI ≤ i < dstBeginI + dstI) →
    0 ≤ h < getH (getShape _ _ dst) → 0 ≤ w < getW (getShape _ _ dst) →
    value4D dst' o i h w = value4D dst o i h w.
Proof. apply reorderWeight_rest. Qed.


(** What a call that returns has written. *)
Lemma reorderWeight_written src dst srcBeginI srcI dstBeginI dstI dst' :
  distinct4D dst → 0 ≤ dstBeginI → dstBeginI + dstI ≤ getPaddedI (getShape _ _ dst) →
  reorderWeight src srcBeginI srcI dst dstBeginI dstI = Ok dst' →
  getShape _ _ dst' = getShape _ _ dst ∧
  getDataType _ _ dst' = getDataType _ _ dst ∧
  ∀ o i h w,
    0 ≤ o < getPaddedO (getShape _ _ dst) → 0 ≤ i < dstI →
    0 ≤ h < getH (getShape _ _ dst) → 0 ≤ w < getW (getShape _ _ dst) →
    value4D dst' o (dstBeginI + i) h w
    = if (o <? getPaddedO (getShape _ _ src)) && (i <? srcI)
      then value4D src o (srcBeginI + i) h w
      else half_to_float half_zero.
Proof.
  intros Hinj HdB HdI Hok.
  apply reorderWeight_Ok in Hok as [(s & d & -> & -> & ->)|(s & d & -> & -> & ->)].
  - destruct (reorderWeightLoops_spec address4D DataType.Float16 DataType.Float16 half_zero id
                s srcBeginI srcI d dstBeginI dstI Hinj HdB HdI) as (Hshape & Hval & _).
    split; [done|]. split; [done|].
    intros o i h w Ho Hi Hh Hw. unfold Reorder.value4D. cbv beta iota.
    rewrite Hshape, (Hval o i h w) by done. simpl.
    by destruct ((o <? getPaddedO (shape s)) && (i <? srcI)).
  - destruct (reorderWeightLoops_spec address4D DataType.Float16 DataType.Float32 half_zero
                half_to_float s srcBeginI srcI d dstBeginI dstI Hinj HdB HdI)
      as (Hshape & Hval & _).
    split; [done|]. split; [done|].
    intros o i h w Ho Hi Hh Hw. unfold Reorder.value4D. cbv beta iota.
    rewrite Hshape, (Hval o i h w) by done. simpl.
    by destruct ((o <? getPaddedO (shape s)) && (i <? srcI)).
Qed.

Lemma distinct4D_same t t' :
  getShape _ _ t' = getShape _ _ t → getDataType _ _ t' = getDataType _ _ t →
  distinct4D t → distinct4D t'.
Proof. unfold Reorder.distinct4D. intros -> ->. done. Qed.

(** X26.  The weight of a concatenation in a CHW layout is repacked by
    two calls on one destination, the first for the input channels of
    the first source and the second for those of the second source,
    each padded to its padded channel count.  After both calls the
    destination holds the first slice, its zero padding, the second
    slice and its zero padding, in this order: the second call does not
    disturb what the first has written. *)
Theorem reorderWeight_concat src dst c1 c2 p1 p2 dst1 dst2 :
  distinct4D dst → 0 ≤ p1 → 0 ≤ p2 → p1 + p2 ≤ getPaddedI (getShape _ _ dst) →
  reorderWeight src 0 c1 dst 0 p1 = Ok dst1 →
  reorderWeight src c1 c2 dst1 p1 p2 = Ok dst2 →
  ∀ o i h w,
    0 ≤ o < getPaddedO (getShape _ _ dst) → 0 ≤ i < p1 + p2 →
    0 ≤ h < getH (getShape _ _ dst) → 0 ≤ w < getW (getShape _ _ dst) →
    value4D dst2 o i h w
    = if i <? p1 then
        if (o <? getPaddedO (getShape _ _ src)) && (i <? c1)
        then value4D src o i h w else half_to_float half_zero
      else
        if (o <? getPaddedO (getShape _ _ src)) && (i - p1 <? c2)
        then value4D src o (c1 + (i - p1)) h w else half_to_float half_zero.
Proof.
  intros Hinj Hp1 Hp2 Hfit H1 H2 o i h w Ho Hi Hh Hw.
  destruct (reorderWeight_written src dst 0 c1 0 p1 dst1 Hinj ltac:(lia) ltac:(lia) H1)
    as (Hs1 & Ht1 & Hv1).
  pose proof (distinct4D_same dst dst1 Hs1 Ht1 Hinj) as Hinj1.
  destruct (i <? p1) eqn:Hlt.
  - apply Z.ltb_lt in Hlt.
    rewrite (reorderWeight_rest src dst1 c1 c2 p1 p2 dst2 Hinj1);
      rewrite ?Hs1; try done; try lia.
    specialize (Hv1 o i h w Ho ltac:(lia) Hh Hw). simpl in Hv1. exact Hv1.
  - apply Z.ltb_ge in Hlt.
    destruct (reorderWeight_written src dst1 c1 c2 p1 p2 dst2 Hinj1 ltac:(lia)
                ltac:(rewrite Hs1; lia) H2) as (_ & _ & Hv2).
    rewrite Hs1 in Hv2. specialize (Hv2 o (i - p1) h w Ho ltac:(lia) Hh Hw).
    replace (p1 + (i - p1)) with i in Hv2 by lia. exact Hv2.
Qed.

End reorder_more.
Lemma reorderWeight_keeps_other_channels_witness :
  ∃ dst', reorderWeight Z Z 0 id rowMajor4D ReorderFacts.exampleSrc 0 1
            ReorderFacts.exampleDst 0 1 = Ok dst' ∧
    ∀ o i h w,
      0 ≤ o < getPaddedO (getShape _ _ ReorderFacts.exampleDst) →
      0 ≤ i < getPaddedI (getShape _ _ ReorderFacts.exampleDst) →
      ¬ (0 ≤ i < 0 + 1) →
      0 ≤ h < getH (getShape _ _ ReorderFacts.exampleDst) →
      0 ≤ w < getW (getShape _ _ ReorderFacts.exampleDst) →
      value4D Z Z id rowMajor4D dst' o i h w
      = value4D Z Z id rowMajor4D ReorderFacts.exampleDst o i h w.
Proof.
  eexists. split; [reflexivity|].
  apply (reorderWeight_keeps_other_channels Z Z 0 id rowMajor4D ReorderFacts.exampleSrc
           ReorderFacts.exampleDst 0 1 0 1 _ exampleDst_distinct).
  - lia.
  - simpl. lia.
  - reflexivity.
Defined.

Lemma reorderWeight_concat_witness :
  ∃ dst1 dst2,
    reorderWeight Z Z 0 id rowMajor4D ReorderFacts.exampleSrc 0 1
      ReorderFacts.exampleDst 0 1 = Ok dst1 ∧
    reorderWeight Z Z 0 id rowMajor4D ReorderFacts.exampleSrc 1 1 dst1 1 1 = Ok dst2 ∧
    ∀ o i h w,
      0 ≤ o < getPaddedO (getShape _ _ ReorderFacts.exampleDst) → 0 ≤ i < 1 + 1 →
      0 ≤ h < getH (getShape _ _ ReorderFacts.exampleDst) →
      0 ≤ w < getW (getShape _ _ ReorderFacts.exampleDst) →
      value4D Z Z id rowMajor4D dst2 o i h w
      = if i <? 1 then
          if (o <? getPaddedO (getShape _ _ ReorderFacts.exampleSrc)) && (i <? 1)
          then value4D Z Z id rowMajor4D ReorderFacts.exampleSrc o i h w else id 0
        else
          if (o <? getPaddedO (getShape _ _ ReorderFacts.exampleSrc)) && (i - 1 <? 1)
          then value4D Z Z id rowMajor4D ReorderFacts.exampleSrc o (1 + (i - 1)) h w
          else id 0.
Proof.
  eexists _, _. split; [reflexivity|]. split; [reflexivity|].
  eapply (reorderWeight_concat Z Z 0 id rowMajor4D ReorderFacts.exampleSrc
           ReorderFacts.exampleDst 1 1 1 1 _ _ exampleDst_distinct).
  - lia.
  - lia.
  - simpl. lia.
  - reflexivity.
  - reflexivity.
Defined.

End ReorderMore.
